(** * dynamosql: the SQL dialect's lexer, grammar and printers

    A shallow embedding of [parser/parser.go]: the regular-expression lexer
    [Lexer], the participle grammar carried by the struct tags of [AST] and
    its children, and the [String] methods of the expression nodes.

    Text is a sequence of bytes ([string] of [ascii]); Go's regexp and
    strconv work on UTF-8, and the places where a rune is wider than a byte
    are written out where they matter. *)

From Stdlib Require Import String Ascii List ZArith Bool Lia.
From Stdlib Require Import Floats.SpecFloat.
From Stdlib Require Import DecimalString.
From Stdlib Require Decimal DecimalPos DecimalFacts.
Import ListNotations.

Local Open Scope string_scope.
Local Open Scope list_scope.

(** ** Character classes of the lexer's regular expression *)

Definition byte_of (c : ascii) : N := N_of_ascii c.

Definition in_range (lo hi : N) (c : ascii) : bool :=
  (N.leb lo (byte_of c) && N.leb (byte_of c) hi)%bool.

(** [\d] *)
Definition is_digit (c : ascii) : bool := in_range 48 57 c.
Definition is_upper (c : ascii) : bool := in_range 65 90 c.
Definition is_lower (c : ascii) : bool := in_range 97 122 c.
Definition is_letter (c : ascii) : bool := (is_upper c || is_lower c)%bool.
Definition is_underscore (c : ascii) : bool := N.eqb (byte_of c) 95.

(** [\s] is [[\t\n\f\r ]] in Go's RE2 syntax. *)
Definition is_space (c : ascii) : bool :=
  let n := byte_of c in
  (N.eqb n 9 || N.eqb n 10 || N.eqb n 12 || N.eqb n 13 || N.eqb n 32)%bool.

(** [[a-zA-Z_]] and [[a-zA-Z0-9_]]; the latter is also the word class of
    [\b], which is ASCII-only in Go. *)
Definition is_ident_start (c : ascii) : bool := (is_letter c || is_underscore c)%bool.
Definition is_word (c : ascii) : bool :=
  (is_letter c || is_digit c || is_underscore c)%bool.

Definition to_upper (c : ascii) : ascii :=
  if is_lower c then ascii_of_N (byte_of c - 32) else c.

Fixpoint ToUpper (s : string) : string :=
  match s with
  | EmptyString => EmptyString
  | String c s' => String (to_upper c) (ToUpper s')
  end.

(** The longest prefix of [s] whose bytes satisfy [p], and what follows it:
    a greedy [p*] with nothing after it to force backtracking. *)
Fixpoint span (p : ascii -> bool) (s : string) : string * string :=
  match s with
  | EmptyString => (EmptyString, EmptyString)
  | String c s' =>
      if p c then let (a, b) := span p s' in (String c a, b)
      else (EmptyString, s)
  end.

Definition nonempty (s : string) : bool :=
  match s with EmptyString => false | _ => true end.

Definition head_is (p : ascii -> bool) (s : string) : bool :=
  match s with String c _ => p c | EmptyString => false end.

(** ** Tokens *)

(** The named groups of the expression, in the order of their
    declaration; [Unnamed] is the type of a match of the last alternative
    [;], which sits in no named group. *)
Inductive TokenType : Type :=
  | Keyword | QuotedIdent | Ident | Number | String_ | Operators | Unnamed.

Definition TokenType_eqb (a b : TokenType) : bool :=
  match a, b with
  | Keyword, Keyword | QuotedIdent, QuotedIdent | Ident, Ident
  | Number, Number | String_, String_ | Operators, Operators
  | Unnamed, Unnamed => true
  | _, _ => false
  end.

Record Token : Type := mkToken { Token_Type : TokenType; Token_Value : string }.

(** ** The alternatives of [Lexer], one matcher each

    Every matcher is applied at the head of the remaining input and returns
    the lexeme and the rest. Go's regexp picks the leftmost match and, among
    those, the first in the order of the alternation (with greedy
    repetitions); each matcher below returns that first match of its own
    alternative. *)

Definition Match : Type := option (string * string).

(** The reserved words, in the order of the alternation (INDEX is there
    twice, REPLACE is not there). *)
Definition keywords : list string :=
  [ "SELECT"; "FROM"; "WHERE"; "LIMIT"; "OFFSET"; "INSERT"; "INTO"; "VALUES";
    "TRUE"; "FALSE"; "NULL"; "NOT"; "BETWEEN"; "AND"; "OR"; "USE"; "INDEX";
    "ASC"; "DESC"; "CREATE"; "TABLE"; "HASH"; "RANGE"; "PROJECTION";
    "PROVISIONED"; "THROUGHPUT"; "READ"; "WRITE"; "GLOBAL"; "LOCAL"; "INDEX";
    "SECONDARY"; "STRING"; "NUMBER"; "BINARY"; "RETURNING"; "NONE"; "ALL_OLD";
    "UPDATED_OLD"; "ALL_NEW"; "UPDATED_NEW"; "DELETE"; "CHECK" ].

(** One pattern character [k] of a keyword under [(?i)], matched at the head
    of [s]. Go folds case by Unicode simple folding, so besides both ASCII
    cases [S] also matches U+017F (bytes C5 BF) and [K] matches U+212A
    (bytes E2 84 AA). The result tells whether the matched rune is a word
    character for [\b], with the matched text and the rest. *)
Definition fold_char (k : ascii) (s : string) : option (bool * string * string) :=
  match s with
  | EmptyString => None
  | String c s1 =>
      if Ascii.eqb (to_upper c) k then Some (is_word c, String c EmptyString, s1)
      else
        match s1 with
        | String c1 s2 =>
            if (Ascii.eqb k "S" && N.eqb (byte_of c) 197 && N.eqb (byte_of c1) 191)%bool
            then Some (false, String c (String c1 EmptyString), s2)
            else
              match s2 with
              | String c2 s3 =>
                  if (Ascii.eqb k "K" && N.eqb (byte_of c) 226
                      && N.eqb (byte_of c1) 132 && N.eqb (byte_of c2) 170)%bool
                  then Some (false, String c (String c1 (String c2 EmptyString)), s3)
                  else None
              | EmptyString => None
              end
        | EmptyString => None
        end
  end.

(** A whole keyword under [(?i)]: [last] is whether the rune matched last
    was a word character ([true] before the first). *)
Fixpoint fold_prefix (kw : string) (last : bool) (s : string)
  : option (bool * string * string) :=
  match kw with
  | EmptyString => Some (last, EmptyString, s)
  | String k kw' =>
      match fold_char k s with
      | None => None
      | Some (w, m, s1) =>
          match fold_prefix kw' w s1 with
          | None => None
          | Some (l, m', s2) => Some (l, (m ++ m')%string, s2)
          end
      end
  end.

(** [\b] between a rune that is a word character or not ([last]) and the
    head of [s]. *)
Definition boundary (last : bool) (s : string) : bool := xorb last (head_is is_word s).

(** [(?i)SELECT|FROM|...] followed by [\b]: the first keyword of the list
    that matches with a word boundary after it. *)
Fixpoint first_keyword (kws : list string) (s : string) : Match :=
  match kws with
  | [] => None
  | kw :: rest =>
      match fold_prefix kw true s with
      | Some (l, m, s') => if boundary l s' then Some (m, s') else first_keyword rest s
      | None => first_keyword rest s
      end
  end.

(** The group [Keyword] between two [\b]. The lexer cuts the consumed text off its buffer
    before each match, so the leading [\b] sees the start of the text on
    its left and holds when the first byte is a word character. *)
Definition match_Keyword (s : string) : Match :=
  if boundary false s then first_keyword keywords s else None.

(** White space, [\s+], in a group without a name. *)
Definition match_space (s : string) : Match :=
  let (sp, rest) := span is_space s in
  if nonempty sp then Some (sp, rest) else None.

Definition is_backtick (c : ascii) : bool := N.eqb (byte_of c) 96.

(** A quote, the longest run without that quote, and the quote again. *)
Definition match_quoted (q : ascii -> bool) (need_body : bool) (s : string) : Match :=
  match s with
  | String c s1 =>
      if q c then
        let (body, s2) := span (fun x => negb (q x)) s1 in
        match s2 with
        | String c' s3 =>
            if (negb need_body || nonempty body)%bool
            then Some (String c (body ++ String c' EmptyString)%string, s3)
            else None
        | EmptyString => None
        end
      else None
  | EmptyString => None
  end.

(** The group [QuotedIdent]: a non-empty run without backticks between two
    backticks. *)
Definition match_QuotedIdent (s : string) : Match := match_quoted is_backtick true s.

(** The group [Ident]: [[a-zA-Z_]] followed by [[a-zA-Z0-9_]] zero or more
    times. *)
Definition match_Ident (s : string) : Match :=
  match s with
  | String c s1 =>
      if is_ident_start c then
        let (body, s2) := span is_word s1 in Some (String c body, s2)
      else None
  | EmptyString => None
  end.

Definition is_sign (c : ascii) : bool :=
  (N.eqb (byte_of c) 43 || N.eqb (byte_of c) 45)%bool.
Definition is_dot (c : ascii) : bool := N.eqb (byte_of c) 46.
Definition is_e (c : ascii) : bool :=
  (N.eqb (byte_of c) 101 || N.eqb (byte_of c) 69)%bool.

(** [[-+]?] *)
Definition opt_sign (s : string) : string * string :=
  match s with
  | String c s1 => if is_sign c then (String c EmptyString, s1) else (EmptyString, s)
  | EmptyString => (EmptyString, s)
  end.

(** [\d*\.?\d+]: the digits are taken greedily; a dot is taken when a digit
    follows it, and then all the digits after it; without that, the
    expression backs off one digit for [\d+], so the digits before the dot
    are the match, and they must not be empty. *)
Definition match_mantissa (s : string) : Match :=
  let (d, s1) := span is_digit s in
  let plain := if nonempty d then Some (d, s1) else None in
  match s1 with
  | String c s2 =>
      if is_dot c then
        let (f, s3) := span is_digit s2 in
        if nonempty f then Some ((d ++ String c f)%string, s3) else plain
      else plain
  | EmptyString => plain
  end.

(** The optional exponent [[eE][-+]?\d+]: taken when it matches, with all
    its digits. *)
Definition opt_exponent (s : string) : string * string :=
  match s with
  | String c s1 =>
      if is_e c then
        let (sg, s2) := opt_sign s1 in
        let (d, s3) := span is_digit s2 in
        if nonempty d then (String c (sg ++ d)%string, s3) else (EmptyString, s)
      else (EmptyString, s)
  | EmptyString => (EmptyString, s)
  end.

(** The group [Number]: [[-+]?\d*\.?\d+] and the optional exponent. A sign
    that is followed by no mantissa is given back, and then nothing
    matches. *)
Definition match_Number (s : string) : Match :=
  let (sg, s1) := opt_sign s in
  match match_mantissa s1 with
  | Some (m, s2) => let (e, s3) := opt_exponent s2 in Some ((sg ++ m ++ e)%string, s3)
  | None => None
  end.

Definition is_squote (c : ascii) : bool := N.eqb (byte_of c) 39.
Definition is_dquote (c : ascii) : bool := N.eqb (byte_of c) 34.

(** The group [String]: a single-quoted run without single quotes, or else a
    double-quoted run without double quotes; either may be empty. *)
Definition match_String (s : string) : Match :=
  match match_quoted is_squote false s with
  | Some r => Some r
  | None => match_quoted is_dquote false s
  end.

(** The character class of the one-character operators. *)
Definition is_operator_char (c : ascii) : bool :=
  existsb (Ascii.eqb c)
    [ "-"; "+"; "*"; "/"; "%"; ":"; "?"; ","; "."; "("; ")"; "="; "<"; ">";
      "["; "]"; "{"; "}" ]%char.

Definition two_char_operators : list string := [ "<>"; "!="; "<="; ">=" ].

(** The group [Operators]: one of the four two-character operators, or else
    one character of the class above. *)
Definition match_Operators (s : string) : Match :=
  match s with
  | String a (String b rest) =>
      let ab := String a (String b EmptyString) in
      if existsb (String.eqb ab) two_char_operators then Some (ab, rest)
      else if is_operator_char a then Some (String a EmptyString, String b rest)
      else None
  | String a EmptyString =>
      if is_operator_char a then Some (String a EmptyString, EmptyString) else None
  | EmptyString => None
  end.

(** [;] *)
Definition match_semicolon (s : string) : Match :=
  match s with
  | String c rest => if Ascii.eqb c ";" then Some (String c EmptyString, rest) else None
  | EmptyString => None
  end.

(** ** The lexer *)

(** One match of the whole alternation at the head of the input: white
    space, which yields no token; a token; or nothing, the lexer's
    "invalid token" error. *)
Inductive Lexeme : Type :=
  | Skipped (rest : string)
  | Lexed (t : Token) (rest : string)
  | Invalid.

Definition named (ty : TokenType) (m : Match) (otherwise : Lexeme) : Lexeme :=
  match m with
  | Some (v, rest) => Lexed (mkToken ty v) rest
  | None => otherwise
  end.

Definition Lexer (s : string) : Lexeme :=
  match match_space s with
  | Some (_, rest) => Skipped rest
  | None =>
      named Keyword (match_Keyword s)
        (named QuotedIdent (match_QuotedIdent s)
          (named Ident (match_Ident s)
            (named Number (match_Number s)
              (named String_ (match_String s)
                (named Operators (match_Operators s)
                  (named Unnamed (match_semicolon s) Invalid))))))
  end.

(** The tokens of a text up to its end, or [None] at an invalid token.
    Every match takes at least one byte, so [length s] rounds are enough
    ([Lex] below). *)
Fixpoint lex_loop (fuel : nat) (s : string) : option (list Token) :=
  match s with
  | EmptyString => Some []
  | _ =>
      match fuel with
      | O => None
      | S fuel' =>
          match Lexer s with
          | Skipped rest => lex_loop fuel' rest
          | Lexed t rest =>
              match lex_loop fuel' rest with
              | Some ts => Some (t :: ts)
              | None => None
              end
          | Invalid => None
          end
      end
  end.

Definition Lex (s : string) : option (list Token) := lex_loop (String.length s) s.

(** ** strconv: the conversions applied to captured tokens *)

Definition digit_val (c : ascii) : Z := Z.of_N (byte_of c) - 48.

(** The digit loop of [strconv.ParseUint]: every byte must be a digit below
    the base. *)
Fixpoint digits_value (base : Z) (acc : Z) (s : string) : option Z :=
  match s with
  | EmptyString => Some acc
  | String c s' =>
      if (is_digit c && (digit_val c <? base)%Z)%bool
      then digits_value base (acc * base + digit_val c)%Z s'
      else None
  end.

(** [strconv.ParseUint(s, 0, 64)] on text without letters: a leading [0]
    selects base 8 for what follows it, anything else is base 10. (The
    prefixes [0x], [0o], [0b] and the underscores that base 0 also accepts
    need a letter or an underscore, which no [Number] lexeme has; here they
    fail at the digit loop like any other letter.) *)
Definition ParseUint0 (s : string) : option Z :=
  match s with
  | EmptyString => None
  | String c s' =>
      if Ascii.eqb c "0" then digits_value 8 0 s' else digits_value 10 0 s
  end.

Definition int64_min : Z := - 2 ^ 63.
Definition int64_max : Z := 2 ^ 63 - 1.

(** [strconv.ParseInt(s, 0, 64)], the conversion participle applies to a
    token captured into an [int] or [int64] field ([int] has 64 bits).
    [None] stands for both of its errors, syntax and range. *)
Definition ParseInt (s : string) : option Z :=
  match s with
  | EmptyString => None
  | String c s' =>
      let neg := Ascii.eqb c "-" in
      let body := if (neg || Ascii.eqb c "+")%bool then s' else s in
      match ParseUint0 body with
      | Some n =>
          if neg then (if (n <=? 2 ^ 63)%Z then Some (- n)%Z else None)
          else (if (n <? 2 ^ 63)%Z then Some n else None)
      | None => None
      end
  end.

(** [strconv.Itoa]. *)
Definition Itoa (i : Z) : string := NilZero.string_of_int (Z.to_int i).

(** A float64 is a [spec_float] of precision 53 and maximal exponent 1024. *)
Definition float64 : Type := spec_float.
Definition prec64 : Z := 53.
Definition emax64 : Z := 1024.

(** The value of a run of decimal digits. *)
Fixpoint decimal_value (acc : Z) (s : string) : Z :=
  match s with
  | EmptyString => acc
  | String c s' => decimal_value (acc * 10 + digit_val c)%Z s'
  end.

(** The decimal syntax of [strconv.ParseFloat]: optional sign, digits with
    an optional point and at least one digit in all, optional exponent with
    at least one digit, and nothing after. The result is the sign, the
    integer made of all the digits, and the power of ten that scales it. *)
Definition read_decimal (s : string) : option (bool * Z * Z) :=
  let (sg, s1) := opt_sign s in
  let neg := String.eqb sg "-" in
  let (ip, s2) := span is_digit s1 in
  let (fp, s3) :=
    match s2 with
    | String c s2' => if is_dot c then span is_digit s2' else (EmptyString, s2)
    | EmptyString => (EmptyString, s2)
    end in
  if (nonempty ip || nonempty fp)%bool then
    let m := decimal_value 0 (ip ++ fp) in
    let scale := (- Z.of_nat (String.length fp))%Z in
    match s3 with
    | EmptyString => Some (neg, m, scale)
    | String c s4 =>
        if is_e c then
          let (esg, s5) := opt_sign s4 in
          let (ed, s6) := span is_digit s5 in
          if (nonempty ed && negb (nonempty s6))%bool then
            let e := decimal_value 0 ed in
            Some (neg, m, (scale + (if String.eqb esg "-" then - e else e))%Z)
          else None
        else None
    end
  else None.

(** The float64 nearest to [m * 10 ^ e] for [m > 0], ties to even: an
    integer is rounded as it is, a quotient by a power of ten is first
    divided with enough bits and a record of the remainder. *)
Definition round_decimal (neg : bool) (m : positive) (e : Z) : float64 :=
  match e with
  | Zneg k =>
      let '(q, eq, loc) :=
        SFdiv_core_binary prec64 emax64 (Zpos m) 0 (10 ^ Zpos k)%Z 0 in
      binary_round_aux prec64 emax64 neg q eq loc
  | _ =>
      match (Zpos m * 10 ^ e)%Z with
      | Zpos n => binary_round prec64 emax64 neg n 0
      | _ => S754_zero neg
      end
  end.

(** [strconv.ParseFloat(s, 64)] on decimal text, the conversion participle
    applies to a token captured into a [float64] field: the nearest
    float64; a value that rounds to an infinity is its range error.
    ([None] is also the answer to the spellings of infinities, NaN and
    hexadecimal floats, which need letters no [Number] lexeme has.) *)
Definition ParseFloat (s : string) : option float64 :=
  match read_decimal s with
  | Some (neg, Zpos m, e) =>
      match round_decimal neg m e with
      | S754_finite sg mz ez => Some (S754_finite sg mz ez)
      | S754_zero sg => Some (S754_zero sg)
      | _ => None
      end
  | Some (neg, _, _) => Some (S754_zero neg)
  | None => None
  end.

(** ** The token mappers of the parser *)

(** [s[1 : len(s)-1]]: the text between the first and the last byte. *)
Fixpoint drop_last (s : string) : string :=
  match s with
  | EmptyString => EmptyString
  | String c EmptyString => EmptyString
  | String c s' => String c (drop_last s')
  end.

Definition strip_ends (s : string) : string :=
  match s with
  | EmptyString => EmptyString
  | String _ s' => drop_last s'
  end.

(** [UnquoteIdent]: a quoted identifier loses its backticks. *)
Definition UnquoteIdent (t : Token) : Token :=
  mkToken (Token_Type t) (strip_ends (Token_Value t)).

Definition chr (n : Z) : ascii := ascii_of_N (Z.to_N n).

(** [string(rune)]: the UTF-8 encoding of a code point; a surrogate or a
    value above U+10FFFF is encoded as U+FFFD. *)
Definition utf8_encode (r : Z) : string :=
  let r := if ((r <? 0) || (1114111 <? r) || ((55296 <=? r) && (r <=? 57343)))%bool%Z
           then 65533%Z else r in
  if (r <? 128)%Z then String (chr r) EmptyString
  else if (r <? 2048)%Z then
    String (chr (192 + r / 64)) (String (chr (128 + r mod 64)) EmptyString)
  else if (r <? 65536)%Z then
    String (chr (224 + r / 4096))
      (String (chr (128 + (r / 64) mod 64)) (String (chr (128 + r mod 64)) EmptyString))
  else
    String (chr (240 + r / 262144))
      (String (chr (128 + (r / 4096) mod 64))
        (String (chr (128 + (r / 64) mod 64)) (String (chr (128 + r mod 64)) EmptyString))).

Definition unhex (c : ascii) : option Z :=
  let n := Z.of_N (byte_of c) in
  if is_digit c then Some (n - 48)%Z
  else if in_range 97 102 c then Some (n - 97 + 10)%Z
  else if in_range 65 70 c then Some (n - 65 + 10)%Z
  else None.

(** [n] digits of the given kind at the head of [s], as a number. *)
Fixpoint read_digits (digit : ascii -> option Z) (base : Z) (n : nat) (acc : Z)
    (s : string) : option (Z * string) :=
  match n with
  | O => Some (acc, s)
  | S n' =>
      match s with
      | String c s' =>
          match digit c with
          | Some d => read_digits digit base n' (acc * base + d)%Z s'
          | None => None
          end
      | EmptyString => None
      end
  end.

Definition octal_digit (c : ascii) : option Z :=
  if in_range 48 55 c then Some (Z.of_N (byte_of c) - 48)%Z else None.

(** [strconv.UnquoteChar(s, quote)] followed by [string(value)]: the bytes
    that the first character or escape sequence of [s] stands for, and the
    tail. A byte above 127 starts a multi-byte rune of the (valid UTF-8)
    text and is copied as it is. *)
Definition UnquoteChar (quote : ascii) (s : string) : option (string * string) :=
  match s with
  | EmptyString => None
  | String c s1 =>
      if (Ascii.eqb c quote && (is_squote quote || is_dquote quote))%bool then None
      else if negb (Ascii.eqb c "\") then Some (String c EmptyString, s1)
      else
        match s1 with
        | EmptyString => None
        | String e s2 =>
            let simple (n : Z) := Some (String (chr n) EmptyString, s2) in
            let hex (n : nat) (byte : bool) :=
              match read_digits unhex 16 n 0 s2 with
              | Some (v, s3) =>
                  if byte then Some (utf8_encode v, s3)
                  else if ((1114111 <? v) || ((55296 <=? v) && (v <=? 57343)))%bool%Z
                       then None else Some (utf8_encode v, s3)
              | None => None
              end in
            if Ascii.eqb e "a" then simple 7%Z
            else if Ascii.eqb e "b" then simple 8%Z
            else if Ascii.eqb e "f" then simple 12%Z
            else if Ascii.eqb e "n" then simple 10%Z
            else if Ascii.eqb e "r" then simple 13%Z
            else if Ascii.eqb e "t" then simple 9%Z
            else if Ascii.eqb e "v" then simple 11%Z
            else if Ascii.eqb e "x" then hex 2%nat true
            else if Ascii.eqb e "u" then hex 4%nat false
            else if Ascii.eqb e "U" then hex 8%nat false
            else if in_range 48 55 e then
              match read_digits octal_digit 8 2 (Z.of_N (byte_of e) - 48)%Z s2 with
              | Some (v, s3) => if (255 <? v)%Z then None else Some (utf8_encode v, s3)
              | None => None
              end
            else if Ascii.eqb e "\" then simple 92%Z
            else if (is_squote e || is_dquote e)%bool then
              if Ascii.eqb e quote then Some (String e EmptyString, s2) else None
            else None
        end
  end.

(** The loop of participle's [unquote] over the text between the quotes;
    every round takes at least one byte. *)
Fixpoint unquote_loop (fuel : nat) (quote : ascii) (s : string) : option string :=
  match s with
  | EmptyString => Some EmptyString
  | _ =>
      match fuel with
      | O => None
      | S fuel' =>
          match UnquoteChar quote s with
          | Some (v, tail) =>
              match unquote_loop fuel' quote tail with
              | Some out => Some (v ++ out)%string
              | None => None
              end
          | None => None
          end
      end
  end.

(** [participle.Unquote]: the value of a [String] token without its quotes
    and with its escapes resolved, or the mapper's error. *)
Definition Unquote (t : Token) : option Token :=
  match Token_Value t with
  | String q _ =>
      let body := strip_ends (Token_Value t) in
      match unquote_loop (String.length body) q body with
      | Some v => Some (mkToken (Token_Type t) v)
      | None => None
      end
  | EmptyString => None
  end.

(** The mappers in front of the grammar: [Unquote] on [String] tokens,
    [UnquoteIdent] on [QuotedIdent] tokens. *)
Definition map_token (t : Token) : option Token :=
  match Token_Type t with
  | String_ => Unquote t
  | QuotedIdent => Some (UnquoteIdent t)
  | _ => Some t
  end.

Fixpoint map_tokens (ts : list Token) : option (list Token) :=
  match ts with
  | [] => Some []
  | t :: ts' =>
      match map_token t, map_tokens ts' with
      | Some t', Some ts'' => Some (t' :: ts'')
      | _, _ => None
      end
  end.

(** ** The abstract syntax tree

    One record per struct; a pointer field is an [option], a slice a
    [list], an embedded struct a field of its own name. Field names carry
    the name of their struct in front. *)

Record ProvisionedThroughput : Type := mkProvisionedThroughput {
  ReadCapacityUnits : Z;
  WriteCapacityUnits : Z }.

Record Projection : Type := mkProjection {
  Projection_KeysOnly : bool;
  Projection_All : bool;
  Projection_Include : list string }.

Record GlobalSecondaryIndex : Type := mkGlobalSecondaryIndex {
  GSI_Name : string;
  GSI_PartitionKey : string;
  GSI_SortKey : string;
  GSI_Projection : option Projection;
  GSI_ProvisionedThroughput : option ProvisionedThroughput }.

Record LocalSecondaryIndex : Type := mkLocalSecondaryIndex {
  LSI_Name : string;
  LSI_SortKey : string;
  LSI_Projection : option Projection }.

Record TableAttr : Type := mkTableAttr {
  TableAttr_Name : string;
  TableAttr_Type : string;
  TableAttr_Key : string }.

Record CreateTableEntry : Type := mkCreateTableEntry {
  Entry_GlobalSecondaryIndex : option GlobalSecondaryIndex;
  Entry_LocalSecondaryIndex : option LocalSecondaryIndex;
  Entry_ProvisionedThroughput : option ProvisionedThroughput;
  Entry_Attr : option TableAttr }.

Record CreateTable : Type := mkCreateTable {
  CreateTable_Table : string;
  CreateTable_Entries : list CreateTableEntry }.

Record Scalar : Type := mkScalar {
  Scalar_Number : option float64;
  Scalar_Str : option string;
  Scalar_Boolean : option bool;
  Scalar_Null : bool }.

Record Value : Type := mkValue {
  Value_Scalar : Scalar;
  Value_PlaceHolder : option string;
  Value_PositionalPlaceholder : bool }.

Record PathFragment : Type := mkPathFragment {
  PathFragment_Symbol : string;
  PathFragment_Indexes : list Z }.

Record DocumentPath : Type := mkDocumentPath {
  DocumentPath_Fragment : list PathFragment }.

Record FunctionArgument : Type := mkFunctionArgument {
  FunctionArgument_DocumentPath : option DocumentPath;
  FunctionArgument_Value : option Value }.

Record FunctionExpression : Type := mkFunctionExpression {
  FunctionExpression_Function : string;
  FunctionExpression_Args : list FunctionArgument }.

Record Operand : Type := mkOperand {
  Operand_Value : option Value;
  Operand_SymbolRef : option DocumentPath }.

Record In : Type := mkIn { In_Values : list Value }.

Record Compare : Type := mkCompare {
  Compare_Operator : string;
  Compare_Operand : option Operand }.

Record Between : Type := mkBetween {
  Between_Start : option Operand;
  Between_End : option Operand }.

Record ConditionRHS : Type := mkConditionRHS {
  ConditionRHS_Compare : option Compare;
  ConditionRHS_Between : option Between;
  ConditionRHS_In : option In }.

Record ConditionOperand : Type := mkConditionOperand {
  ConditionOperand_Operand : option DocumentPath;
  ConditionOperand_ConditionRHS : option ConditionRHS }.

Inductive Condition : Type := mkCondition {
  Condition_Parenthesized : option ParenthesizedExpression;
  Condition_Not : option NotCondition;
  Condition_Operand : option ConditionOperand;
  Condition_Function : option FunctionExpression }
with ParenthesizedExpression : Type := mkParenthesizedExpression {
  Parenthesized_ConditionExpression : option ConditionExpression }
with NotCondition : Type := mkNotCondition {
  NotCondition_Condition : option Condition }
with ConditionExpression : Type := mkConditionExpression {
  ConditionExpression_Or : list AndExpression }
with AndExpression : Type := mkAndExpression {
  AndExpression_And : list Condition }.

Inductive JSONValue : Type := mkJSONValue {
  JSONValue_Scalar : Scalar;
  JSONValue_Object : option JSONObject;
  JSONValue_Array : option JSONArray }
with JSONObject : Type := mkJSONObject {
  JSONObject_Entries : list JSONObjectEntry }
with JSONObjectEntry : Type := mkJSONObjectEntry {
  JSONObjectEntry_Key : string;
  JSONObjectEntry_Value : option JSONValue }
with JSONArray : Type := mkJSONArray {
  JSONArray_Entries : list JSONValue }.

Record InsertTerminal : Type := mkInsertTerminal {
  InsertTerminal_Value : Value;
  InsertTerminal_Object : option JSONObject }.

Record Insert : Type := mkInsert {
  Insert_Into : string;
  Insert_Values : list InsertTerminal;
  Insert_Returning : option string }.

Record ProjectionColumn : Type := mkProjectionColumn {
  ProjectionColumn_Function : option FunctionExpression;
  ProjectionColumn_DocumentPath : option DocumentPath }.

Record ProjectionExpression : Type := mkProjectionExpression {
  ProjectionExpression_All : bool;
  ProjectionExpression_Columns : list ProjectionColumn }.

Record Select : Type := mkSelect {
  Select_Projection : option ProjectionExpression;
  Select_From : string;
  Select_Index : option string;
  Select_Where : option AndExpression;
  Select_Descending : option bool;
  Select_Limit : option Z }.

Record AST : Type := mkAST {
  AST_Select : option Select;
  AST_Insert : option Insert;
  AST_Replace : option Insert;
  AST_CreateTable : option CreateTable }.

(** The zero values the fields of an embedded struct start from. *)
Definition Scalar_zero : Scalar := mkScalar None None None false.
Definition Value_zero : Value := mkValue Scalar_zero None false.

(** [strings.ToUpper] on the text of a keyword token. Next to the ASCII
    letters such a text can hold the two runes that fold onto one, and the
    upper case of U+017F (bytes C5 BF) is [S]; U+212A is its own upper
    case. *)
Fixpoint upper_long_s (s : string) : string :=
  match s with
  | EmptyString => EmptyString
  | String c s' =>
      match s' with
      | String d s'' =>
          if (N.eqb (byte_of c) 197 && N.eqb (byte_of d) 191)%bool
          then String "S" (upper_long_s s'')
          else String c (upper_long_s s')
      | EmptyString => String c EmptyString
      end
  end.

Definition strings_ToUpper (v : string) : string := upper_long_s (ToUpper v).

(** [Boolean.Capture] and [ScanDescending.Capture]. *)
Definition Boolean_Capture (v : string) : bool := String.eqb (strings_ToUpper v) "TRUE".
Definition ScanDescending_Capture (v : string) : bool :=
  String.eqb (strings_ToUpper v) "DESC".

(** ** participle: the nodes of a grammar

    A node is run on the tokens that remain and answers in one of the ways
    of participle's [Parse] methods: values and the tokens after them; no
    values and no error; or an error, with the place the context's cursor
    was left at, which decides whether an enclosing choice may go on. *)

Inductive Result (A : Type) : Type :=
  | Matched (a : A) (rest : list Token)
  | NoMatch
  | Failed (rest : list Token)
  | Panicked
  | OutOfFuel.

Arguments Matched {A} a rest.
Arguments NoMatch {A}.
Arguments Failed {A} rest.
Arguments Panicked {A}.
Arguments OutOfFuel {A}.

Definition Node (A : Type) : Type := list Token -> Result A.

(** [participle.UseLookahead(2)] *)
Definition lookahead : nat := 2.

(** [parseContext.Stop]: a branch that started at [ts] and failed with its
    cursor at [rest] ends the parse when it went more than [lookahead]
    tokens ahead. *)
Definition Stop (ts rest : list Token) : bool :=
  (lookahead <? length ts - length rest)%nat.

(** [strings.EqualFold] of a keyword token's text with an ASCII literal. *)
Definition EqualFold (v lit : string) : bool :=
  match fold_prefix (ToUpper lit) true v with
  | Some (_, _, EmptyString) => true
  | _ => false
  end.

(** [participle.CaseInsensitive("Keyword")]: the comparison of a literal of
    the grammar with a token. *)
Definition literal_eq (lit : string) (t : Token) : bool :=
  match Token_Type t with
  | Keyword => EqualFold (Token_Value t) lit
  | _ => String.eqb (Token_Value t) lit
  end.

(** A quoted literal of a tag: the next token has that value, whatever its
    type. *)
Definition literal (lit : string) : Node string := fun ts =>
  match ts with
  | t :: rest => if literal_eq lit t then Matched (Token_Value t) rest else NoMatch
  | [] => NoMatch
  end.

(** A bare name of a tag: the next token has that type. *)
Definition reference (ty : TokenType) : Node string := fun ts =>
  match ts with
  | t :: rest =>
      if TokenType_eqb (Token_Type t) ty then Matched (Token_Value t) rest else NoMatch
  | [] => NoMatch
  end.

Definition ret {A} (a : A) : Node A := fun ts => Matched a ts.

(** The head of a sequence followed by the rest of it. *)
Definition bind {A B} (p : Node A) (f : A -> Node B) : Node B := fun ts =>
  match p ts with
  | Matched a rest => f a rest
  | NoMatch => NoMatch
  | Failed rest => Failed rest
  | Panicked => Panicked
  | OutOfFuel => OutOfFuel
  end.

(** A later element of a sequence: when it does not match, the sequence
    fails there ("unexpected token"). *)
Definition must {A} (p : Node A) : Node A := fun ts =>
  match p ts with
  | NoMatch => Failed ts
  | r => r
  end.

Notation "x <- p ;; q" := (bind p (fun x => q))
  (at level 61, p at next level, right associativity).
Notation "x <-! p ;; q" := (bind (must p) (fun x => q))
  (at level 61, p at next level, right associativity).

(** [a | b | ...]: the first alternative that matches. An alternative that
    fails within the lookahead is given up for the next one, and when none
    is left the choice fails where it started ([failed] remembers that an
    error was seen); one that fails further ahead ends the choice. *)
Fixpoint disjunction_from {A} (failed : bool) (alts : list (Node A)) : Node A := fun ts =>
  match alts with
  | [] => if failed then Failed ts else NoMatch
  | p :: alts' =>
      match p ts with
      | Matched a rest => Matched a rest
      | NoMatch => disjunction_from failed alts' ts
      | Failed rest => if Stop ts rest then Failed rest else disjunction_from true alts' ts
      | Panicked => Panicked
      | OutOfFuel => OutOfFuel
      end
  end.

Definition disjunction {A} (alts : list (Node A)) : Node A := disjunction_from false alts.

(** [( ... )?]: always matches; a failure within the lookahead is
    dropped together with what the branch had read. *)
Definition optional {A} (p : Node A) : Node (option A) := fun ts =>
  match p ts with
  | Matched a rest => Matched (Some a) rest
  | NoMatch => Matched None ts
  | Failed rest => if Stop ts rest then Failed rest else Matched None ts
  | Panicked => Panicked
  | OutOfFuel => OutOfFuel
  end.

(** [participle.MaxIterations] *)
Definition MaxIterations : N := 1000000.

(** [( ... )*]: rounds of the body until one does not match or fails
    within the lookahead. The loop panics once [MaxIterations] rounds have
    matched; a round that matches without reading a token would repeat
    forever and ends in that panic too. Every other round shortens the
    input, which bounds [fuel]. *)
Fixpoint repetition_loop {A} (p : Node A) (fuel : nat) (i : N) : Node (list A) := fun ts =>
  if (MaxIterations <=? i)%N then Panicked
  else
    match fuel with
    | O => OutOfFuel
    | S fuel' =>
        match p ts with
        | Matched a rest =>
            if (length rest <? length ts)%nat then
              match repetition_loop p fuel' (i + 1)%N rest with
              | Matched l rest' => Matched (a :: l) rest'
              | r => r
              end
            else Panicked
        | NoMatch => Matched [] ts
        | Failed rest => if Stop ts rest then Failed rest else Matched [] ts
        | Panicked => Panicked
        | OutOfFuel => OutOfFuel
        end
    end.

Definition repetition {A} (p : Node A) : Node (list A) := fun ts =>
  repetition_loop p (S (length ts)) 0%N ts.

(** The end of a struct node: the captured values are set on the fields,
    and a capture that does not convert to the field's type is an error
    after the struct's tokens. *)
Definition strct {R A} (expr : Node R) (apply : R -> option A) : Node A := fun ts =>
  match expr ts with
  | Matched r rest =>
      match apply r with
      | Some a => Matched a rest
      | None => Failed rest
      end
  | NoMatch => NoMatch
  | Failed rest => Failed rest
  | Panicked => Panicked
  | OutOfFuel => OutOfFuel
  end.

Definition concat_strings (l : list string) : string :=
  fold_right String.append EmptyString l.

(** [@(Ident | QuotedIdent)] *)
Definition ident_or_quoted : Node string :=
  disjunction [reference Ident; reference QuotedIdent].

Definition fmap {A B} (f : A -> B) (p : Node A) : Node B := x <- p ;; ret (f x).

(** ** The grammar of the struct tags

    The tags of the fields of a struct, read one after the other, are one
    expression; [<-] binds the head of a sequence and [<-!] each later
    element. A capture is kept as the token's text until the end of its
    struct, where it is converted to the field's type. *)

(** *** CREATE TABLE *)

(** ["PROVISIONED" "THROUGHPUT" "READ" @Number] and ["WRITE" @Number] *)
Definition ProvisionedThroughput_node : Node ProvisionedThroughput :=
  strct
    (_ <- literal "PROVISIONED" ;; _ <-! literal "THROUGHPUT" ;;
     _ <-! literal "READ" ;; r <-! reference Number ;;
     _ <-! literal "WRITE" ;; w <-! reference Number ;;
     ret (r, w))
    (fun '(r, w) =>
       match ParseInt r, ParseInt w with
       | Some r', Some w' => Some (mkProvisionedThroughput r' w')
       | _, _ => None
       end).

(** [@("KEYS" "ONLY")], [| @"ALL"] and
    [| "INCLUDE" (@(Ident | QuotedIdent) ("," (@(Ident | QuotedIdent)))* )] *)
Definition Projection_node : Node Projection :=
  strct
    (disjunction
       [ (_ <- literal "KEYS" ;; _ <-! literal "ONLY" ;; ret (mkProjection true false []));
         (_ <- literal "ALL" ;; ret (mkProjection false true []));
         (_ <- literal "INCLUDE" ;;
          a <-! ident_or_quoted ;;
          l <-! repetition (_ <- literal "," ;; b <-! ident_or_quoted ;; ret b) ;;
          ret (mkProjection false false (a :: l))) ])
    Some.

Definition GlobalSecondaryIndex_node : Node GlobalSecondaryIndex :=
  strct
    (_ <- literal "GLOBAL" ;; _ <-! literal "SECONDARY" ;; _ <-! literal "INDEX" ;;
     name <-! ident_or_quoted ;;
     _ <-! literal "HASH" ;; _ <-! literal "(" ;; pk <-! ident_or_quoted ;; _ <-! literal ")" ;;
     _ <-! literal "RANGE" ;; _ <-! literal "(" ;; sk <-! ident_or_quoted ;; _ <-! literal ")" ;;
     _ <-! literal "PROJECTION" ;; pr <-! Projection_node ;;
     pt <-! ProvisionedThroughput_node ;;
     ret (mkGlobalSecondaryIndex name pk sk (Some pr) (Some pt)))
    Some.

Definition LocalSecondaryIndex_node : Node LocalSecondaryIndex :=
  strct
    (_ <- literal "LOCAL" ;; _ <-! literal "SECONDARY" ;; _ <-! literal "INDEX" ;;
     name <-! ident_or_quoted ;;
     _ <-! literal "RANGE" ;; _ <-! literal "(" ;; sk <-! ident_or_quoted ;; _ <-! literal ")" ;;
     _ <-! literal "PROJECTION" ;; pr <-! Projection_node ;;
     ret (mkLocalSecondaryIndex name sk (Some pr)))
    Some.

(** [@(Ident | QuotedIdent)], [@("STRING" | "NUMBER" | "BINARY")] and
    [(@("HASH" | "RANGE") "KEY")?] *)
Definition TableAttr_node : Node TableAttr :=
  strct
    (name <- ident_or_quoted ;;
     ty <-! disjunction [literal "STRING"; literal "NUMBER"; literal "BINARY"] ;;
     key <-! optional (k <- disjunction [literal "HASH"; literal "RANGE"] ;;
                       _ <-! literal "KEY" ;; ret k) ;;
     ret (mkTableAttr name ty (match key with Some k => k | None => EmptyString end)))
    Some.

Definition CreateTableEntry_node : Node CreateTableEntry :=
  strct
    (disjunction
       [ fmap (fun g => mkCreateTableEntry (Some g) None None None) GlobalSecondaryIndex_node;
         fmap (fun l => mkCreateTableEntry None (Some l) None None) LocalSecondaryIndex_node;
         fmap (fun p => mkCreateTableEntry None None (Some p) None) ProvisionedThroughput_node;
         fmap (fun a => mkCreateTableEntry None None None (Some a)) TableAttr_node ])
    Some.

(** [@(Ident | QuotedIdent) "("] and [@@ ("," @@)* ")"] *)
Definition CreateTable_node : Node CreateTable :=
  strct
    (name <- ident_or_quoted ;; _ <-! literal "(" ;;
     e <-! CreateTableEntry_node ;;
     l <-! repetition (_ <- literal "," ;; e' <-! CreateTableEntry_node ;; ret e') ;;
     _ <-! literal ")" ;;
     ret (mkCreateTable name (e :: l)))
    Some.

(** *** Values *)

(** What the alternatives of [Scalar] capture. *)
Inductive ScalarCapture : Type :=
  | Capture_Number (v : string)
  | Capture_Str (v : string)
  | Capture_Boolean (v : string)
  | Capture_Null.

(** [@Number], [| @String], [| @("TRUE" | "FALSE")] and [| @"NULL"] *)
Definition Scalar_alternatives : list (Node ScalarCapture) :=
  [ fmap Capture_Number (reference Number);
    fmap Capture_Str (reference String_);
    fmap Capture_Boolean (disjunction [literal "TRUE"; literal "FALSE"]);
    fmap (fun _ => Capture_Null) (literal "NULL") ].

Definition Scalar_set (c : ScalarCapture) : option Scalar :=
  match c with
  | Capture_Number v =>
      match ParseFloat v with
      | Some f => Some (mkScalar (Some f) None None false)
      | None => None
      end
  | Capture_Str v => Some (mkScalar None (Some v) None false)
  | Capture_Boolean v => Some (mkScalar None None (Some (Boolean_Capture v)) false)
  | Capture_Null => Some (mkScalar None None None true)
  end.

(** What the alternatives of [Value] capture: those of the embedded
    [Scalar], a named placeholder or a positional one. *)
Inductive ValueCapture : Type :=
  | Capture_Scalar (c : ScalarCapture)
  | Capture_PlaceHolder (v : string)
  | Capture_PositionalPlaceholder.

(** The alternatives of [Scalar], then [| @":" @Ident] and [| @"?"]; both
    captures of the placeholder go to the one string field, which appends
    them. *)
Definition Value_alternatives : list (Node ValueCapture) :=
  map (fmap Capture_Scalar) Scalar_alternatives ++
  [ (c <- literal ":" ;; i <-! reference Ident ;; ret (Capture_PlaceHolder (c ++ i)%string));
    fmap (fun _ => Capture_PositionalPlaceholder) (literal "?") ].

Definition Value_set (c : ValueCapture) : option Value :=
  match c with
  | Capture_Scalar sc =>
      match Scalar_set sc with
      | Some s => Some (mkValue s None false)
      | None => None
      end
  | Capture_PlaceHolder v => Some (mkValue Scalar_zero (Some v) false)
  | Capture_PositionalPlaceholder => Some (mkValue Scalar_zero None true)
  end.

Definition Value_node : Node Value := strct (disjunction Value_alternatives) Value_set.

(** *** Document paths and function calls *)

(** ["[" @Number "]"]: one index of a fragment. *)
Definition PathFragment_index : Node string :=
  _ <- literal "[" ;; n <-! reference Number ;; _ <-! literal "]" ;; ret n.

(** The captures of [Indexes []int], converted one by one. *)
Fixpoint ParseInts (l : list string) : option (list Z) :=
  match l with
  | [] => Some []
  | v :: l' =>
      match ParseInt v, ParseInts l' with
      | Some i, Some r => Some (i :: r)
      | _, _ => None
      end
  end.

Definition PathFragment_set (c : string * list string) : option PathFragment :=
  match ParseInts (snd c) with
  | Some l => Some (mkPathFragment (fst c) l)
  | None => None
  end.

(** [( @Ident | @QuotedIdent )] and [( "[" @Number "]" )*] *)
Definition PathFragment_node : Node PathFragment :=
  strct
    (sym <- disjunction [reference Ident; reference QuotedIdent] ;;
     idx <-! repetition PathFragment_index ;;
     ret (sym, idx))
    PathFragment_set.

(** ["." @@]: one more fragment of a path. *)
Definition DocumentPath_more : Node PathFragment :=
  _ <- literal "." ;; f <-! PathFragment_node ;; ret f.

(** [@@ ( "." @@ )*] *)
Definition DocumentPath_node : Node DocumentPath :=
  strct
    (f <- PathFragment_node ;;
     l <-! repetition DocumentPath_more ;;
     ret (mkDocumentPath (f :: l)))
    Some.

(** [@@] and [| @@]: a document path, or else a value. *)
Definition FunctionArgument_node : Node FunctionArgument :=
  strct
    (disjunction
       [ fmap (fun p => mkFunctionArgument (Some p) None) DocumentPath_node;
         fmap (fun v => mkFunctionArgument None (Some v)) Value_node ])
    Some.

(** [@Ident] and ["(" @@ ( "," @@ )* ")"] *)
Definition FunctionExpression_node : Node FunctionExpression :=
  strct
    (f <- reference Ident ;; _ <-! literal "(" ;;
     a <-! FunctionArgument_node ;;
     l <-! repetition (_ <- literal "," ;; a' <-! FunctionArgument_node ;; ret a') ;;
     _ <-! literal ")" ;;
     ret (mkFunctionExpression f (a :: l)))
    Some.

(** *** Conditions *)

(** [@@] and [| @@]: a value, or else a document path. *)
Definition Operand_node : Node Operand :=
  strct
    (disjunction
       [ fmap (fun v => mkOperand (Some v) None) Value_node;
         fmap (fun p => mkOperand None (Some p)) DocumentPath_node ])
    Some.

Definition compare_operators : list string := [ "<>"; "<="; ">="; "="; "<"; ">"; "!=" ].

Definition Compare_node : Node Compare :=
  strct
    (op <- disjunction (map literal compare_operators) ;;
     o <-! Operand_node ;;
     ret (mkCompare op (Some o)))
    Some.

(** [@@] and ["AND" @@] *)
Definition Between_node : Node Between :=
  strct
    (a <- Operand_node ;; _ <-! literal "AND" ;; b <-! Operand_node ;;
     ret (mkBetween (Some a) (Some b)))
    Some.

(** [@@ ( "," @@ )*] *)
Definition In_node : Node In :=
  strct
    (v <- Value_node ;;
     l <-! repetition (_ <- literal "," ;; v' <-! Value_node ;; ret v') ;;
     ret (mkIn (v :: l)))
    Some.

(** [@@], [| "BETWEEN" @@] and [| "IN" "(" @@ ")"] *)
Definition ConditionRHS_node : Node ConditionRHS :=
  strct
    (disjunction
       [ fmap (fun c => mkConditionRHS (Some c) None None) Compare_node;
         (_ <- literal "BETWEEN" ;; b <-! Between_node ;;
          ret (mkConditionRHS None (Some b) None));
         (_ <- literal "IN" ;; _ <-! literal "(" ;; i <-! In_node ;; _ <-! literal ")" ;;
          ret (mkConditionRHS None None (Some i))) ])
    Some.

(** [@@] and [@@] *)
Definition ConditionOperand_node : Node ConditionOperand :=
  strct
    (p <- DocumentPath_node ;; r <-! ConditionRHS_node ;;
     ret (mkConditionOperand (Some p) (Some r)))
    Some.

(** The structs between [Condition] and itself, over the node of the
    conditions they hold. *)
Definition AndExpression_over (cond : Node Condition) : Node AndExpression :=
  strct
    (c <- cond ;;
     l <-! repetition (_ <- literal "AND" ;; c' <-! cond ;; ret c') ;;
     ret (mkAndExpression (c :: l)))
    Some.

Definition ConditionExpression_over (cond : Node Condition) : Node ConditionExpression :=
  strct
    (a <- AndExpression_over cond ;;
     l <-! repetition (_ <- literal "OR" ;; a' <-! AndExpression_over cond ;; ret a') ;;
     ret (mkConditionExpression (a :: l)))
    Some.

Definition ParenthesizedExpression_over (cond : Node Condition)
  : Node ParenthesizedExpression :=
  strct (fmap (fun e => mkParenthesizedExpression (Some e)) (ConditionExpression_over cond))
    Some.

Definition NotCondition_over (cond : Node Condition) : Node NotCondition :=
  strct (fmap (fun c => mkNotCondition (Some c)) cond) Some.

(** ["(" @@ ")"], [| "NOT" @@], [| @@] (an operand with its right-hand
    side) and [| @@] (a function call), over the node of the conditions
    inside. *)
Definition Condition_over (cond : Node Condition) : Node Condition :=
  strct
    (disjunction
       [ (_ <- literal "(" ;;
          p <-! ParenthesizedExpression_over cond ;;
          _ <-! literal ")" ;;
          ret (mkCondition (Some p) None None None));
         (_ <- literal "NOT" ;;
          n <-! NotCondition_over cond ;;
          ret (mkCondition None (Some n) None None));
         fmap (fun o => mkCondition None None (Some o) None) ConditionOperand_node;
         fmap (fun f => mkCondition None None None (Some f)) FunctionExpression_node ])
    Some.

(** [fuel] bounds the nesting of conditions; each level reads a
    parenthesis or a NOT first. *)
Fixpoint Condition_node (fuel : nat) (ts : list Token) {struct fuel} : Result Condition :=
  match fuel with
  | O => OutOfFuel
  | S fuel' => Condition_over (Condition_node fuel') ts
  end.

Definition AndExpression_node (fuel : nat) : Node AndExpression :=
  AndExpression_over (Condition_node fuel).

(** *** JSON *)

(** [@(Ident | String)] and [":" @@] *)
Definition JSONObjectEntry_over (value : Node JSONValue) : Node JSONObjectEntry :=
  strct
    (k <- disjunction [reference Ident; reference String_] ;;
     _ <-! literal ":" ;; v <-! value ;;
     ret (mkJSONObjectEntry k (Some v)))
    Some.

(** [@@ ("," @@)*]: the entries of an object. *)
Definition JSONObject_entries (value : Node JSONValue) : Node (list JSONObjectEntry) :=
  e <- JSONObjectEntry_over value ;;
  l <-! repetition (_ <- literal "," ;; e' <-! JSONObjectEntry_over value ;; ret e') ;;
  ret (e :: l).

Definition or_nil {A} (o : option (list A)) : list A :=
  match o with Some l => l | None => [] end.

(** ["{" (@@ ("," @@)* ","?)? "}"] *)
Definition JSONObject_over (value : Node JSONValue) : Node JSONObject :=
  strct
    (_ <- literal "{" ;;
     es <-! optional (l <- JSONObject_entries value ;; _ <-! optional (literal ",") ;; ret l) ;;
     _ <-! literal "}" ;;
     ret (mkJSONObject (or_nil es)))
    Some.

(** [@@ ("," @@)*]: the entries of an array. *)
Definition JSONArray_entries (value : Node JSONValue) : Node (list JSONValue) :=
  v <- value ;;
  l <-! repetition (_ <- literal "," ;; v' <-! value ;; ret v') ;;
  ret (v :: l).

(** ["[" (@@ ("," @@)* ","?)? "]"] *)
Definition JSONArray_over (value : Node JSONValue) : Node JSONArray :=
  strct
    (_ <- literal "[" ;;
     es <-! optional (l <- JSONArray_entries value ;; _ <-! optional (literal ",") ;; ret l) ;;
     _ <-! literal "]" ;;
     ret (mkJSONArray (or_nil es)))
    Some.

Inductive JSONValueCapture : Type :=
  | Capture_JSONScalar (c : ScalarCapture)
  | Capture_Object (o : JSONObject)
  | Capture_Array (a : JSONArray).

Definition JSONValue_set (c : JSONValueCapture) : option JSONValue :=
  match c with
  | Capture_JSONScalar sc =>
      match Scalar_set sc with
      | Some s => Some (mkJSONValue s None None)
      | None => None
      end
  | Capture_Object o => Some (mkJSONValue Scalar_zero (Some o) None)
  | Capture_Array a => Some (mkJSONValue Scalar_zero None (Some a))
  end.

(** The alternatives of the embedded [Scalar], then [| @@] (an object) and
    [| @@] (an array), over the node of the values inside. *)
Definition JSONValue_over (value : Node JSONValue) : Node JSONValue :=
  strct
    (disjunction
       (map (fmap Capture_JSONScalar) Scalar_alternatives ++
        [ fmap Capture_Object (JSONObject_over value);
          fmap Capture_Array (JSONArray_over value) ]))
    JSONValue_set.

(** [fuel] bounds the nesting of JSON values; each level reads a brace or a
    bracket first. *)
Fixpoint JSONValue_node (fuel : nat) (ts : list Token) {struct fuel} : Result JSONValue :=
  match fuel with
  | O => OutOfFuel
  | S fuel' => JSONValue_over (JSONValue_node fuel') ts
  end.

Definition JSONObject_node (fuel : nat) : Node JSONObject :=
  JSONObject_over (JSONValue_node fuel).

Definition JSONArray_node (fuel : nat) : Node JSONArray :=
  JSONArray_over (JSONValue_node fuel).

(** *** Statements *)

(** [( @Ident ( @"." @Ident )* | @QuotedIdent )] into one string field,
    which appends its captures. *)
Definition table_name : Node string :=
  disjunction
    [ (a <- reference Ident ;;
       l <-! repetition (d <- literal "." ;; i <-! reference Ident ;; ret (d ++ i)%string) ;;
       ret (a ++ concat_strings l)%string);
      reference QuotedIdent ].

Inductive InsertTerminalCapture : Type :=
  | Capture_Value (c : ValueCapture)
  | Capture_InsertObject (o : JSONObject).

Definition InsertTerminal_set (c : InsertTerminalCapture) : option InsertTerminal :=
  match c with
  | Capture_Value vc =>
      match Value_set vc with
      | Some v => Some (mkInsertTerminal v None)
      | None => None
      end
  | Capture_InsertObject o => Some (mkInsertTerminal Value_zero (Some o))
  end.

(** The alternatives of the embedded [Value], then [| @@] (an object). *)
Definition InsertTerminal_node (fuel : nat) : Node InsertTerminal :=
  strct
    (disjunction
       (map (fmap Capture_Value) Value_alternatives ++
        [ fmap Capture_InsertObject (JSONObject_node fuel) ]))
    InsertTerminal_set.

(** ["INTO" ( @Ident ( @"." @Ident )* | @QuotedIdent )] and
    ["VALUES" "(" @@ ")" ( "," "(" @@ ")" )*]: the fields [Into] and
    [Values]. *)
Definition Insert_into_values (fuel : nat) : Node (string * list InsertTerminal) :=
  _ <- literal "INTO" ;; into <-! table_name ;;
  _ <-! literal "VALUES" ;; _ <-! literal "(" ;;
  v <-! InsertTerminal_node fuel ;; _ <-! literal ")" ;;
  l <-! repetition (_ <- literal "," ;; _ <-! literal "(" ;;
                    v' <-! InsertTerminal_node fuel ;; _ <-! literal ")" ;; ret v') ;;
  ret (into, v :: l).

(** [( "RETURNING" @( "NONE" | "ALL_OLD" ) )?]: the field [Returning]. *)
Definition Insert_returning : Node (option string) :=
  optional (_ <- literal "RETURNING" ;;
            r <-! disjunction [literal "NONE"; literal "ALL_OLD"] ;; ret r).

Definition Insert_node (fuel : nat) : Node Insert :=
  strct
    (iv <- Insert_into_values fuel ;;
     r <-! Insert_returning ;;
     ret (mkInsert (fst iv) (snd iv) r))
    Some.

(** [@@] and [| @@]: a function call, or else a document path. *)
Definition ProjectionColumn_node : Node ProjectionColumn :=
  strct
    (disjunction
       [ fmap (fun f => mkProjectionColumn (Some f) None) FunctionExpression_node;
         fmap (fun p => mkProjectionColumn None (Some p)) DocumentPath_node ])
    Some.

(** [( @"*" | "document" "(" @"*" ")" )] and [| @@ ( "," @@ )*] *)
Definition ProjectionExpression_node : Node ProjectionExpression :=
  strct
    (disjunction
       [ disjunction
           [ fmap (fun _ => mkProjectionExpression true []) (literal "*");
             (_ <- literal "document" ;; _ <-! literal "(" ;; _ <-! literal "*" ;;
              _ <-! literal ")" ;; ret (mkProjectionExpression true [])) ];
         (c <- ProjectionColumn_node ;;
          l <-! repetition (_ <- literal "," ;; c' <-! ProjectionColumn_node ;; ret c') ;;
          ret (mkProjectionExpression false (c :: l))) ])
    Some.

(** The fields of [Select] in their order: [@@], ["FROM"] and the table,
    [( "USE" "INDEX" "(" @Ident ")" )?], [( "WHERE" @@ )?],
    [( @"ASC" | @"DESC" )?] and [( "LIMIT" @Number )?]. *)
Definition Select_node (fuel : nat) : Node Select :=
  strct
    (p <- ProjectionExpression_node ;;
     _ <-! literal "FROM" ;; from <-! table_name ;;
     idx <-! optional (_ <- literal "USE" ;; _ <-! literal "INDEX" ;; _ <-! literal "(" ;;
                       i <-! reference Ident ;; _ <-! literal ")" ;; ret i) ;;
     wh <-! optional (_ <- literal "WHERE" ;; w <-! AndExpression_node fuel ;; ret w) ;;
     dir <-! optional (disjunction [literal "ASC"; literal "DESC"]) ;;
     lim <-! optional (_ <- literal "LIMIT" ;; n <-! reference Number ;; ret n) ;;
     ret (p, from, idx, wh, dir, lim))
    (fun '(p, from, idx, wh, dir, lim) =>
       let sel l := mkSelect (Some p) from idx wh (option_map ScanDescending_Capture dir) l in
       match lim with
       | None => Some (sel None)
       | Some n =>
           match ParseInt n with
           | Some i => Some (sel (Some i))
           | None => None
           end
       end).

(** [( "SELECT" @@ | "INSERT" @@ | "REPLACE" @@ | "CREATE" "TABLE" @@ )]: the
    four kinds of statement, each into its own field. *)
Definition AST_statement (fuel : nat) : Node AST :=
  disjunction
    [ (_ <- literal "SELECT" ;; s <-! Select_node fuel ;;
       ret (mkAST (Some s) None None None));
      (_ <- literal "INSERT" ;; i <-! Insert_node fuel ;;
       ret (mkAST None (Some i) None None));
      (_ <- literal "REPLACE" ;; i <-! Insert_node fuel ;;
       ret (mkAST None None (Some i) None));
      (_ <- literal "CREATE" ;; _ <-! literal "TABLE" ;; c <-! CreateTable_node ;;
       ret (mkAST None None None (Some c))) ].

(** The statement and [";"?] *)
Definition AST_node (fuel : nat) : Node AST :=
  strct
    (a <- AST_statement fuel ;;
     _ <-! optional (literal ";") ;;
     ret a)
    Some.

(** ** Parse *)

(** How a call of [Parse] ends. In Go it returns a pointer to an [AST] in
    every case, next to the error; the tree next to an error is partly
    filled and is left out here. *)
Inductive Outcome : Type :=
  | Parsed (ast : AST)
  | LexError
  | ParseError
  | Panic
  | NoFuel.

(** [parser.ParseString] after the lexer: the root node is run on the
    mapped tokens, and the text must end where the root ends. A nesting
    level of the grammar reads a token, so the number of tokens bounds the
    nesting. *)
Definition ParseTokens (ts : list Token) : Outcome :=
  match AST_node (S (length ts)) ts with
  | Matched ast [] => Parsed ast
  | Matched _ (_ :: _) => ParseError
  | NoMatch => ParseError
  | Failed _ => ParseError
  | Panicked => Panic
  | OutOfFuel => NoFuel
  end.

(** The tokens participle hands to the grammar: those of the lexer, through
    the mappers. *)
Definition Tokens (s : string) : option (list Token) :=
  match Lex s with
  | Some ts => map_tokens ts
  | None => None
  end.

Definition Parse (s : string) : Outcome :=
  match Tokens s with
  | Some ts => ParseTokens ts
  | None => LexError
  end.

Definition path (l : list (string * list Z)) : DocumentPath :=
  mkDocumentPath (map (fun '(s, i) => mkPathFragment s i) l).

Definition number (f : float64) : Value := mkValue (mkScalar (Some f) None None false) None false.

(** ** The printers *)

(** [PathFragment.String] *)
Definition PathFragment_String (p : PathFragment) : string :=
  match PathFragment_Indexes p with
  | [] => PathFragment_Symbol p
  | idxs =>
      (PathFragment_Symbol p ++
       concat_strings (map (fun idx => "[" ++ Itoa idx ++ "]") idxs))%string
  end.

(** [DocumentPath.String]; [None] is the panic of [p.Fragment[0]] on a path
    without fragments. *)
Definition DocumentPath_String (p : DocumentPath) : option string :=
  match DocumentPath_Fragment p with
  | [] => None
  | f :: fs =>
      Some (PathFragment_String f ++
            concat_strings (map (fun f' => "." ++ PathFragment_String f') fs))%string
  end.

Definition FormatBool (b : bool) : string := if b then "true" else "false".

(** [strings.Join] *)
Fixpoint Join (l : list string) (sep : string) : string :=
  match l with
  | [] => EmptyString
  | [a] => a
  | a :: l' => (a ++ sep ++ Join l' sep)%string
  end.

(** All the results of a list of calls, unless one of them panicked. *)
Fixpoint all_some {A} (l : list (option A)) : option (list A) :=
  match l with
  | [] => Some []
  | Some a :: l' => option_map (cons a) (all_some l')
  | None :: _ => None
  end.

Section Printers.

(** [strconv.FormatFloat(f, 'g', -1, 64)] and [strconv.Quote], which the
    printers of values call. *)
Variable FormatFloat : float64 -> string.
Variable Quote : string -> string.

(** [Scalar.String]; [None] is its panic on a scalar without a value. *)
Definition Scalar_String (l : Scalar) : option string :=
  match Scalar_Number l, Scalar_Str l, Scalar_Boolean l, Scalar_Null l with
  | Some f, _, _, _ => Some (FormatFloat f)
  | None, Some s, _, _ => Some (Quote s)
  | None, None, Some b, _ => Some (FormatBool b)
  | None, None, None, true => Some "NULL"
  | None, None, None, false => None
  end.

(** [Value.String] *)
Definition Value_String (v : Value) : option string :=
  match Value_PlaceHolder v with
  | Some p => Some p
  | None =>
      if Value_PositionalPlaceholder v then Some "?"
      else Scalar_String (Value_Scalar v)
  end.

(** [FunctionArgument.String] *)
Definition FunctionArgument_String (a : FunctionArgument) : option string :=
  match FunctionArgument_DocumentPath a, FunctionArgument_Value a with
  | Some p, _ => DocumentPath_String p
  | None, Some v => Value_String v
  | None, None => Some EmptyString
  end.

(** [FunctionExpression.String] *)
Definition FunctionExpression_String (f : FunctionExpression) : option string :=
  match all_some (map FunctionArgument_String (FunctionExpression_Args f)) with
  | Some args => Some (FunctionExpression_Function f ++ "(" ++ Join args ", " ++ ")")%string
  | None => None
  end.

(** [ProjectionColumn.String] *)
Definition ProjectionColumn_String (c : ProjectionColumn) : option string :=
  match ProjectionColumn_DocumentPath c, ProjectionColumn_Function c with
  | Some p, _ => DocumentPath_String p
  | None, Some f => FunctionExpression_String f
  | None, None => Some EmptyString
  end.

(** [ProjectionExpression.String]: nothing at all for [*]. *)
Definition ProjectionExpression_String (e : ProjectionExpression) : option string :=
  if ProjectionExpression_All e then Some EmptyString
  else
    match all_some (map ProjectionColumn_String (ProjectionExpression_Columns e)) with
    | Some (c :: cs) => Some (Join (c :: cs) ", ")
    | _ => None
    end.

End Printers.

(** Reading a printed node again: the text goes through the lexer and the
    mappers, and the node must take all the tokens. *)
Definition reparse {A} (node : Node A) (s : string) : option A :=
  match Tokens s with
  | Some ts =>
      match node ts with
      | Matched a [] => Some a
      | _ => None
      end
  | None => None
  end.



(** ** The other methods of the nodes *)


Section JSONPrinters.

Variable FormatFloat : float64 -> string.
Variable Quote : string -> string.

(** [JSONValue] has no [String] of its own: a call on it is the [String] of
    the embedded [Scalar], whatever the fields [Object] and [Array] hold. *)
Definition JSONValue_String (v : JSONValue) : option string :=
  Scalar_String FormatFloat Quote (JSONValue_Scalar v).

(** One round of the loop of [JSONObject.String]; [None] is a panic, of
    the value's [String] or of the call on a nil [Value]. *)
Definition JSONObjectEntry_text (e : JSONObjectEntry) : option string :=
  match JSONObjectEntry_Value e with
  | Some v =>
      match JSONValue_String v with
      | Some s => Some (Quote (JSONObjectEntry_Key e) ++ ":" ++ s)%string
      | None => None
      end
  | None => None
  end.

(** [JSONObject.String] *)
Definition JSONObject_String (j : JSONObject) : option string :=
  match all_some (map JSONObjectEntry_text (JSONObject_Entries j)) with
  | Some out => Some ("{" ++ Join out "," ++ "}")%string
  | None => None
  end.

(** [JSONArray.String] *)
Definition JSONArray_String (j : JSONArray) : option string :=
  match all_some (map JSONValue_String (JSONArray_Entries j)) with
  | Some out => Some ("[" ++ Join out "," ++ "]")%string
  | None => None
  end.

End JSONPrinters.

(** ** The lexer of the second parser

    The source holds a second parser of the same package, rooted at a
    [Select] of its own. Its [Lexer] differs from the one above: the
    keywords are other ones and stand between no word boundaries, there is
    no quoted identifier, the operators are fewer and there is no [;]. *)

Definition Select_keywords : list string :=
  [ "SELECT"; "FROM"; "WHERE"; "MINUS"; "EXCEPT"; "INTERSECT"; "ORDER"; "LIMIT";
    "OFFSET"; "TRUE"; "FALSE"; "NULL"; "IS"; "NOT"; "ANY"; "SOME"; "BETWEEN"; "AND";
    "OR"; "AS" ].

(** [(?i)SELECT|FROM|...] with nothing after it: the first keyword of the
    list that the text begins with. *)
Fixpoint first_folded (kws : list string) (s : string) : Match :=
  match kws with
  | [] => None
  | kw :: rest =>
      match fold_prefix kw true s with
      | Some (_, m, s') => Some (m, s')
      | None => first_folded rest s
      end
  end.

Definition Select_match_Keyword (s : string) : Match := first_folded Select_keywords s.

Definition Select_is_operator_char (c : ascii) : bool :=
  existsb (Ascii.eqb c) [ "-"; "+"; "*"; "/"; "%"; ","; "."; "("; ")"; "="; "<"; ">" ]%char.

Definition Select_match_Operators (s : string) : Match :=
  match s with
  | String a (String b rest) =>
      let ab := String a (String b EmptyString) in
      if existsb (String.eqb ab) two_char_operators then Some (ab, rest)
      else if Select_is_operator_char a then Some (String a EmptyString, String b rest)
      else None
  | String a EmptyString =>
      if Select_is_operator_char a then Some (String a EmptyString, EmptyString) else None
  | EmptyString => None
  end.

Definition Select_Lexer (s : string) : Lexeme :=
  match match_space s with
  | Some (_, rest) => Skipped rest
  | None =>
      named Keyword (Select_match_Keyword s)
        (named Ident (match_Ident s)
          (named Number (match_Number s)
            (named String_ (match_String s)
              (named Operators (Select_match_Operators s) Invalid))))
  end.

(** ** Notions used in the statements below *)

(** Every byte of a text satisfies [p]. *)
Fixpoint string_forall (p : ascii -> bool) (s : string) : bool :=
  match s with
  | EmptyString => true
  | String c s' => (p c && string_forall p s')%bool
  end.

(** The bytes the reserved words are written with, and their two cases. *)
Definition keyword_char (c : ascii) : bool := (is_upper c || is_underscore c)%bool.
Definition name_char (c : ascii) : bool := (is_letter c || is_underscore c)%bool.

Definition strict_prefix (a b : string) : bool :=
  (String.prefix a b && negb (String.eqb a b))%bool.

Definition ascii7 (c : ascii) : bool := N.ltb (byte_of c) 128.

(** Two literals whose first letters differ, case aside. *)
Definition heads_differ (l1 l2 : string) : bool :=
  match ToUpper l1, ToUpper l2 with
  | String a _, String b _ => (ascii7 a && ascii7 b && negb (Ascii.eqb a b))%bool
  | _, _ => false
  end.

(** A match cuts a non-empty lexeme off the front of the text. *)
Definition splits (s : string) (m : Match) : Prop :=
  match m with
  | Some (lx, rest) => s = (lx ++ rest)%string /\ lx <> EmptyString
  | None => True
  end.

(** The reserved words of the dialect as the specification lists them: those
    of the lexer and REPLACE. *)
Definition reserved_words : list string := keywords ++ ["REPLACE"].

(** A token as the lexer makes it for an operator. *)
Definition op (s : string) : Token := mkToken Operators s.

(** The token after RETURNING is one of the two values of the grammar. *)
Definition returning_value (t : Token) : bool :=
  (literal_eq "NONE" t || literal_eq "ALL_OLD" t)%bool.

(** The token in front of the body of an INSERT or a REPLACE, and the tree
    that the root makes of the body. *)
Definition insert_keyword (k : Token) : bool :=
  (literal_eq "INSERT" k || literal_eq "REPLACE" k)%bool.

Definition insert_ast (k : Token) (i : Insert) : AST :=
  if literal_eq "INSERT" k then mkAST None (Some i) None None
  else mkAST None None (Some i) None.

(** What may follow a statement: nothing, or one semicolon. *)
Definition statement_end (ts : list Token) : bool :=
  match ts with
  | [] => true
  | [t] => literal_eq ";" t
  | _ => false
  end.

(** A text that continues neither a word nor, by a folded rune, a
    keyword: it is empty or starts with a byte that is neither a word
    character nor the first byte of U+017F or U+212A. *)
Definition quiet (s : string) : bool :=
  match s with
  | EmptyString => true
  | String c _ =>
      (negb (is_word c) && negb (N.eqb (byte_of c) 197) && negb (N.eqb (byte_of c) 226))%bool
  end.

(** The identifier is a reserved word of the lexer, in some case. *)
Definition is_reserved (s : string) : bool :=
  existsb (String.eqb (ToUpper s)) keywords.

(** The text of an [Ident] token: an identifier that is no reserved word. *)
Definition bare_ident (s : string) : bool :=
  match s with
  | String c s' => (is_ident_start c && string_forall is_word s' && negb (is_reserved s))%bool
  | EmptyString => false
  end.

(** The tokens of a printed path: of one index, of one fragment, of a
    fragment after the first, and of the path. *)
Definition index_tokens (lx : string) : list Token := [op "["; mkToken Number lx; op "]"].
Definition fragment_tokens (f : PathFragment) : list Token :=
  mkToken Ident (PathFragment_Symbol f)
  :: flat_map index_tokens (map Itoa (PathFragment_Indexes f)).
Definition more_tokens (f : PathFragment) : list Token := op "." :: fragment_tokens f.
Definition path_tokens (p : DocumentPath) : list Token :=
  match DocumentPath_Fragment p with
  | [] => []
  | f :: fs => fragment_tokens f ++ flat_map more_tokens fs
  end.

(** A path as the grammar builds it from unquoted identifiers: every symbol
    is an identifier that is no reserved word, every index is an [int], and
    no list is longer than the rounds of a repetition allow. *)
Definition in_int64 (i : Z) : Prop := (int64_min <= i <= int64_max)%Z.

Definition plain_fragment (f : PathFragment) : Prop :=
  bare_ident (PathFragment_Symbol f) = true
  /\ (N.of_nat (length (PathFragment_Indexes f)) < MaxIterations)%N
  /\ Forall in_int64 (PathFragment_Indexes f).

Definition plain_path (p : DocumentPath) : Prop :=
  DocumentPath_Fragment p <> []
  /\ (N.of_nat (length (DocumentPath_Fragment p)) <= MaxIterations)%N
  /\ Forall plain_fragment (DocumentPath_Fragment p).

(** What follows a fragment is not another index. *)
Definition no_index (ts : list Token) : Prop := literal "[" ts = NoMatch.

(** An answer that is not the end of the fuel and whose cursor is not longer
    than the input; a node that answers so on at most [n] tokens. *)
Definition bounded {A} (r : Result A) (ts : list Token) : Prop :=
  match r with
  | Matched _ rest | Failed rest => (length rest <= length ts)%nat
  | OutOfFuel => False
  | _ => True
  end.

Definition sound_on {A} (n : nat) (p : Node A) : Prop :=
  forall ts, (length ts <= n)%nat -> bounded (p ts) ts.

(** Trees of small statements, for the examples. *)
Definition one : float64 := S754_finite false 4503599627370496 (-52).

Definition column (p : DocumentPath) : ProjectionColumn := mkProjectionColumn None (Some p).

Definition select_from (cols : list ProjectionColumn) (from : string) : AST :=
  mkAST (Some (mkSelect (Some (mkProjectionExpression false cols)) from None None None None))
    None None None.

Definition row (v : Value) : InsertTerminal := mkInsertTerminal v None.
Definition object_row (es : list JSONObjectEntry) : InsertTerminal :=
  mkInsertTerminal Value_zero (Some (mkJSONObject es)).

Definition json_number (f : float64) : JSONValue :=
  mkJSONValue (mkScalar (Some f) None None false) None None.
Definition json_array (l : list JSONValue) : JSONValue :=
  mkJSONValue Scalar_zero None (Some (mkJSONArray l)).
Definition json_object (es : list JSONObjectEntry) : JSONValue :=
  mkJSONValue Scalar_zero (Some (mkJSONObject es)) None.
Definition entry (k : string) (v : JSONValue) : JSONObjectEntry := mkJSONObjectEntry k (Some v).

Definition insert_into (into : string) (rows : list InsertTerminal) (r : option string) : AST :=
  mkAST None (Some (mkInsert into rows r)) None None.

Definition placeholder (name : string) : Value := mkValue Scalar_zero (Some name) false.


Ltac by_cases c :=
  destruct c as [[|] [|] [|] [|] [|] [|] [|] [|]]; cbn; try reflexivity; try discriminate.

(** ** Statements that differ in the case of keywords *)

(** Two tokens that are the same, or the same reserved word of the lexer in
    two cases. *)
Definition same_token (t t' : Token) : Prop :=
  t = t'
  \/ (Token_Type t = Keyword /\ Token_Type t' = Keyword
      /\ ToUpper (Token_Value t) = ToUpper (Token_Value t')
      /\ List.In (ToUpper (Token_Value t)) keywords).

Definition same_tokens : list Token -> list Token -> Prop := Forall2 same_token.

Definition upper_eq (v v' : string) : Prop := ToUpper v = ToUpper v'.

Definition option_rel {A} (R : A -> A -> Prop) (a b : option A) : Prop :=
  match a, b with
  | Some x, Some y => R x y
  | None, None => True
  | _, _ => False
  end.

(** Two answers of nodes alike: the same kind of answer, values related,
    cursors on tokens that are the same up to the case of keywords. *)
Definition alike {A} (R : A -> A -> Prop) (r r' : Result A) : Prop :=
  match r, r' with
  | Matched a ts, Matched a' ts' => R a a' /\ same_tokens ts ts'
  | NoMatch, NoMatch => True
  | Failed ts, Failed ts' => same_tokens ts ts'
  | Panicked, Panicked => True
  | OutOfFuel, OutOfFuel => True
  | _, _ => False
  end.

Definition agree {A} (R : A -> A -> Prop) (p p' : Node A) : Prop :=
  forall ts ts', same_tokens ts ts' -> alike R (p ts) (p' ts').

(** A node whose answer does not depend on the case of keywords. *)
Definition respects {A} (p : Node A) : Prop := agree eq p p.

(** The fields that hold the text of a keyword, in upper case. *)
Definition Insert_upper (i : Insert) : Insert :=
  mkInsert (Insert_Into i) (Insert_Values i) (option_map ToUpper (Insert_Returning i)).

Definition TableAttr_upper (a : TableAttr) : TableAttr :=
  mkTableAttr (TableAttr_Name a) (ToUpper (TableAttr_Type a)) (ToUpper (TableAttr_Key a)).

Definition CreateTableEntry_upper (e : CreateTableEntry) : CreateTableEntry :=
  mkCreateTableEntry (Entry_GlobalSecondaryIndex e) (Entry_LocalSecondaryIndex e)
    (Entry_ProvisionedThroughput e) (option_map TableAttr_upper (Entry_Attr e)).

Definition CreateTable_upper (c : CreateTable) : CreateTable :=
  mkCreateTable (CreateTable_Table c) (map CreateTableEntry_upper (CreateTable_Entries c)).

Definition AST_upper (a : AST) : AST :=
  mkAST (AST_Select a) (option_map Insert_upper (AST_Insert a))
    (option_map Insert_upper (AST_Replace a)) (option_map CreateTable_upper (AST_CreateTable a)).

Definition Outcome_upper (o : Outcome) : Outcome :=
  match o with
  | Parsed a => Parsed (AST_upper a)
  | o' => o'
  end.

(** A literal of the grammar that is no keyword of the lexer, in any
    case. *)
Definition not_keyword (l : string) : bool :=
  forallb (fun kw => negb (EqualFold kw l)) keywords.

Definition same_Scalar (c c' : ScalarCapture) : Prop := Scalar_set c = Scalar_set c'.

Definition same_Value (c c' : ValueCapture) : Prop := Value_set c = Value_set c'.

Definition same_TableAttr (a a' : TableAttr) : Prop := TableAttr_upper a = TableAttr_upper a'.

Definition same_CreateTableEntry (e e' : CreateTableEntry) : Prop :=
  CreateTableEntry_upper e = CreateTableEntry_upper e'.

Definition same_CreateTable (c c' : CreateTable) : Prop :=
  CreateTable_upper c = CreateTable_upper c'.

Definition same_Insert (i i' : Insert) : Prop := Insert_upper i = Insert_upper i'.

Definition same_AST (a a' : AST) : Prop := AST_upper a = AST_upper a'.

(** ** What a node builds *)

(** Every value that the node matches has the property. *)
Definition ensures {A} (P : A -> Prop) (p : Node A) : Prop :=
  forall ts a rest, p ts = Matched a rest -> P a.

Definition when_some {A} (P : A -> Prop) (o : option A) : Prop :=
  match o with
  | Some a => P a
  | None => True
  end.

Definition is_some {A} (o : option A) : bool :=
  match o with Some _ => true | None => false end.

(** The number of fields of an alternation that are set. *)
Definition count_set (l : list bool) : nat := length (filter (fun b => b) l).

(** A scalar with one of its alternatives set, as [Scalar.String] needs
    it. *)
Definition Scalar_is_set (s : Scalar) : bool :=
  (is_some (Scalar_Number s) || is_some (Scalar_Str s) || is_some (Scalar_Boolean s)
   || Scalar_Null s)%bool.

Definition Value_is_set (v : Value) : bool :=
  (is_some (Value_PlaceHolder v) || Value_PositionalPlaceholder v
   || Scalar_is_set (Value_Scalar v))%bool.

(** A value of JSON that is a scalar, and one that is an object or an
    array, with the scalar left at its zero value. *)
Definition JSONValue_is_scalar (v : JSONValue) : bool :=
  (Scalar_is_set (JSONValue_Scalar v) && negb (is_some (JSONValue_Object v))
   && negb (is_some (JSONValue_Array v)))%bool.

Definition JSONValue_is_nested (v : JSONValue) : Prop :=
  JSONValue_Scalar v = Scalar_zero
  /\ xorb (is_some (JSONValue_Object v)) (is_some (JSONValue_Array v)) = true.

Definition JSONValue_shape (v : JSONValue) : Prop :=
  JSONValue_is_scalar v = true \/ JSONValue_is_nested v.

Definition JSONObjectEntry_shape (e : JSONObjectEntry) : Prop :=
  exists v, JSONObjectEntry_Value e = Some v /\ JSONValue_shape v.

Definition entry_is_scalar (e : JSONObjectEntry) : bool :=
  match JSONObjectEntry_Value e with
  | Some v => JSONValue_is_scalar v
  | None => false
  end.

(** The nodes of a projection as the grammar builds them. *)
Definition DocumentPath_shape (p : DocumentPath) : Prop := DocumentPath_Fragment p <> [].

Definition FunctionArgument_shape (a : FunctionArgument) : Prop :=
  match FunctionArgument_DocumentPath a, FunctionArgument_Value a with
  | Some p, None => DocumentPath_shape p
  | None, Some v => Value_is_set v = true
  | _, _ => False
  end.

Definition FunctionExpression_shape (f : FunctionExpression) : Prop :=
  FunctionExpression_Args f <> [] /\ Forall FunctionArgument_shape (FunctionExpression_Args f).

Definition ProjectionColumn_shape (c : ProjectionColumn) : Prop :=
  match ProjectionColumn_Function c, ProjectionColumn_DocumentPath c with
  | Some f, None => FunctionExpression_shape f
  | None, Some p => DocumentPath_shape p
  | _, _ => False
  end.

Definition ProjectionExpression_shape (e : ProjectionExpression) : Prop :=
  if ProjectionExpression_All e then ProjectionExpression_Columns e = []
  else ProjectionExpression_Columns e <> []
       /\ Forall ProjectionColumn_shape (ProjectionExpression_Columns e).

(** The statements as the grammar builds them. *)
Definition CreateTableEntry_shape (e : CreateTableEntry) : Prop :=
  count_set [ is_some (Entry_GlobalSecondaryIndex e); is_some (Entry_LocalSecondaryIndex e);
              is_some (Entry_ProvisionedThroughput e); is_some (Entry_Attr e) ] = 1%nat.

Definition CreateTable_shape (c : CreateTable) : Prop :=
  CreateTable_Entries c <> [] /\ Forall CreateTableEntry_shape (CreateTable_Entries c).

Definition InsertTerminal_shape (t : InsertTerminal) : Prop :=
  match InsertTerminal_Object t with
  | Some _ => InsertTerminal_Value t = Value_zero
  | None => Value_is_set (InsertTerminal_Value t) = true
  end.

Definition Insert_shape (i : Insert) : Prop :=
  Insert_Values i <> [] /\ Forall InsertTerminal_shape (Insert_Values i).

Definition Select_shape (s : Select) : Prop :=
  when_some ProjectionExpression_shape (Select_Projection s)
  /\ is_some (Select_Projection s) = true.

Definition AST_shape (a : AST) : Prop :=
  count_set [ is_some (AST_Select a); is_some (AST_Insert a); is_some (AST_Replace a);
              is_some (AST_CreateTable a) ] = 1%nat
  /\ when_some Select_shape (AST_Select a)
  /\ when_some Insert_shape (AST_Insert a)
  /\ when_some Insert_shape (AST_Replace a)
  /\ when_some CreateTable_shape (AST_CreateTable a).

(** ** The text and its tokens *)

(** White space only. *)
Definition blank (s : string) : bool := string_forall is_space s.

(** The texts of the tokens in their order, each after the white space that
    the lexer skipped in front of it, and the white space at the end. *)
Fixpoint interleave (gaps : list string) (ts : list Token) (last : string) : string :=
  match gaps, ts with
  | g :: gaps', t :: ts' => (g ++ Token_Value t ++ interleave gaps' ts' last)%string
  | _, _ => last
  end.

(** The words of the struct tags that are not in the list of the lexer. *)
Definition words_compared_exactly : list string :=
  [ "REPLACE"; "KEYS"; "ONLY"; "ALL"; "INCLUDE"; "KEY"; "IN"; "document" ].


(** A byte of a string literal that stands for itself: ASCII, no backslash
    and not the quote. *)
Definition plain_char (q c : ascii) : bool :=
  (ascii7 c && negb (Ascii.eqb c "\") && negb (Ascii.eqb c q))%bool.

Definition quoted (q : ascii) (body : string) : string :=
  String q (body ++ String q EmptyString).

(** The tokens of one more part of a dotted table name. *)
Definition dotted (b : string) : list Token := [op "."; mkToken Ident b].

(** ** A projection of document paths *)

(** What may follow a path: no index, no further fragment and no
    parenthesis. *)
Definition ends_path (ts : list Token) : Prop :=
  literal "[" ts = NoMatch /\ literal "." ts = NoMatch /\ literal "(" ts = NoMatch.

(** The tokens of one more column that is a path. *)
Definition column_tokens (c : ProjectionColumn) : list Token :=
  op "," :: match ProjectionColumn_DocumentPath c with
            | Some p => path_tokens p
            | None => []
            end.

Definition projection_tokens (ps : list DocumentPath) : list Token :=
  match ps with
  | [] => []
  | p :: ps' => path_tokens p ++ flat_map column_tokens (map column ps')
  end.

Definition paths_projection (ps : list DocumentPath) : ProjectionExpression :=
  mkProjectionExpression false (map column ps).

Definition plain_paths (ps : list DocumentPath) : Prop :=
  ps <> [] /\ (N.of_nat (length ps) <= MaxIterations)%N /\ Forall plain_path ps.

(** The text of a path that has a fragment. *)
Definition path_string (p : DocumentPath) : string :=
  match DocumentPath_String p with
  | Some s => s
  | None => EmptyString
  end.

(** ** The limit of the repetitions *)

(** A node that never ends in the panic of the iteration limit, on at most
    [n] tokens and fewer than the limit; and a node that reads at least one
    token whenever it matches. *)
Definition calm_on {A} (n : nat) (p : Node A) : Prop :=
  forall ts, (length ts <= n)%nat -> (N.of_nat (length ts) < MaxIterations)%N ->
    p ts <> Panicked.

Definition advances_on {A} (n : nat) (p : Node A) : Prop :=
  forall ts a rest,
    (length ts <= n)%nat -> p ts = Matched a rest -> (length rest < length ts)%nat.

(** ** The semicolon at the end *)

(** The token of [;], which is in no named group. *)
Definition semicolon : Token := mkToken Unnamed ";".

(** An answer with one more semicolon at the end of the tokens that are
    left. *)
Definition extend {A} (r : Result A) : Result A :=
  match r with
  | Matched a rest => Matched a (rest ++ [semicolon])
  | Failed rest => Failed (rest ++ [semicolon])
  | r' => r'
  end.

(** On the tokens and a semicolon [p'] answers as [p] on the tokens, where
    [p] does not run out of fuel. *)
Definition carries {A} (p p' : Node A) : Prop :=
  forall ts, p ts <> OutOfFuel -> p' (ts ++ [semicolon]) = extend (p ts).

(** The tokens that a node leaves are the last of those it was given. *)
Definition leaves_suffix {A} (p : Node A) : Prop :=
  forall ts a rest, p ts = Matched a rest -> exists pre, ts = pre ++ rest.

Definition ends_with_semicolon (ts : list Token) : bool :=
  match rev ts with
  | t :: _ => literal_eq ";" t
  | [] => false
  end.

(** The bytes of a [Number] token. *)
Definition number_char (c : ascii) : bool :=
  (is_digit c || is_sign c || is_dot c || is_e c)%bool.

(** The values that are a boolean and the one that is NULL. *)
Definition boolean (b : bool) : Value := mkValue (mkScalar None None (Some b) false) None false.
Definition null : Value := mkValue (mkScalar None None None true) None false.
Definition positional : Value := mkValue Scalar_zero None true.

(** * Properties *)

Local Open Scope string_scope.

(** ** Strings *)

Lemma append_nil_r s : (s ++ "")%string = s.
Proof. induction s; cbn; congruence. Qed.

Lemma append_assoc a b c : ((a ++ b) ++ c)%string = (a ++ (b ++ c))%string.
Proof. induction a; cbn; congruence. Qed.

Lemma string_forall_app p a b :
  string_forall p (a ++ b) = (string_forall p a && string_forall p b)%bool.
Proof. induction a; cbn; [reflexivity|]. now rewrite IHa, andb_assoc. Qed.

Lemma string_forall_impl (p q : ascii -> bool) s :
  (forall c, p c = true -> q c = true) -> string_forall p s = true -> string_forall q s = true.
Proof.
  intros H. induction s; cbn; [reflexivity|].
  intros Hs. apply andb_prop in Hs as [H1 H2]. now rewrite (H _ H1), IHs.
Qed.

Lemma ToUpper_app a b : ToUpper (a ++ b) = (ToUpper a ++ ToUpper b)%string.
Proof. induction a; cbn; congruence. Qed.

Lemma span_app p w tail :
  string_forall p w = true ->
  span p (w ++ tail) = ((w ++ fst (span p tail))%string, snd (span p tail)).
Proof.
  induction w as [|c w IH]; cbn.
  - now destruct (span p tail).
  - intros H. apply andb_prop in H as [-> H]. rewrite (IH H). reflexivity.
Qed.

Lemma span_stop p s : head_is p s = false -> span p s = ("", s).
Proof. destruct s; cbn; [reflexivity|]. now intros ->. Qed.

Lemma span_all p w tail :
  string_forall p w = true -> head_is p tail = false -> span p (w ++ tail) = (w, tail).
Proof.
  intros Hw Ht. rewrite (span_app p w tail Hw), (span_stop p tail Ht). cbn.
  now rewrite append_nil_r.
Qed.

Lemma span_word p s : string_forall p (fst (span p s)) = true.
Proof.
  induction s as [|c s IH]; cbn; [reflexivity|].
  destruct (p c) eqn:E; [|reflexivity]. destruct (span p s). cbn in *. now rewrite E.
Qed.

Lemma span_rest p s : head_is p (snd (span p s)) = false.
Proof.
  induction s as [|c s IH]; cbn; [reflexivity|].
  destruct (p c) eqn:E; [|cbn; exact E]. now destruct (span p s).
Qed.

(** ** Characters *)

Lemma to_upper_name c : keyword_char (to_upper c) = true -> name_char c = true.
Proof. by_cases c. Qed.

Lemma name_char_word c : name_char c = true -> is_word c = true.
Proof. by_cases c. Qed.

Lemma name_char_start c : name_char c = true -> is_ident_start c = true.
Proof. intros H. exact H. Qed.

Lemma word_not_space c : is_word c = true -> is_space c = false.
Proof. by_cases c. Qed.

Lemma word_not_backtick c : is_word c = true -> is_backtick c = false.
Proof. by_cases c. Qed.

Lemma fold_char_word k c s :
  is_word c = true ->
  fold_char k (String c s) =
  if Ascii.eqb (to_upper c) k then Some (true, String c EmptyString, s) else None.
Proof.
  intros H. unfold fold_char. rewrite H.
  destruct (Ascii.eqb (to_upper c) k); [reflexivity|].
  assert (N.eqb (byte_of c) 197 = false /\ N.eqb (byte_of c) 226 = false) as [-> ->].
  { revert H. by_cases c; auto. }
  rewrite !andb_false_r. destruct s as [|c1 [|c2 s3]]; reflexivity.
Qed.

(** ** Keywords *)

Lemma reserved_words_shape :
  forallb (fun kw => (nonempty kw && string_forall keyword_char kw)%bool) reserved_words = true.
Proof. reflexivity. Qed.

(** No reserved word is the beginning of a longer keyword of the lexer. *)
Lemma reserved_words_prefix_free :
  forallb (fun a => forallb (fun b => negb (strict_prefix a b)) keywords) reserved_words = true.
Proof. vm_compute. reflexivity. Qed.

Lemma keyword_reserved kw : List.In kw keywords -> List.In kw reserved_words.
Proof. intros H. unfold reserved_words. apply in_or_app. now left. Qed.

Lemma reserved_shape kw :
  List.In kw reserved_words -> nonempty kw = true /\ string_forall keyword_char kw = true.
Proof.
  intros H. pose proof reserved_words_shape as K. rewrite forallb_forall in K.
  now apply andb_prop, K.
Qed.

Lemma keyword_shape kw :
  List.In kw keywords -> nonempty kw = true /\ string_forall keyword_char kw = true.
Proof. intros H. now apply reserved_shape, keyword_reserved. Qed.

Lemma prefix_app a x : String.prefix a (a ++ x) = true.
Proof.
  induction a as [|c a IH]; cbn; [now destruct x|].
  destruct (ascii_dec c c); [exact IH|congruence].
Qed.

Lemma append_same a x : (a ++ x)%string = a -> x = "".
Proof. induction a; cbn; [auto|]. intros [= H]. auto. Qed.

Lemma reserved_no_extension a x :
  List.In a reserved_words -> List.In (a ++ x)%string keywords -> x = "".
Proof.
  intros Ha Hb. pose proof reserved_words_prefix_free as K.
  rewrite forallb_forall in K. specialize (K a Ha).
  rewrite forallb_forall in K. specialize (K _ Hb).
  unfold strict_prefix in K. rewrite prefix_app in K. cbn in K.
  apply negb_true_iff, negb_false_iff, String.eqb_eq in K.
  symmetry in K. now apply append_same in K.
Qed.

(** A keyword run over a word: either it ends inside the word, or the word ends first. *)
Lemma fold_prefix_word kw : forall w tail last l m s',
  string_forall is_word w = true ->
  fold_prefix kw last (w ++ tail) = Some (l, m, s') ->
  (exists w2, w = (m ++ w2)%string /\ s' = (w2 ++ tail)%string /\ ToUpper m = kw
              /\ l = (if nonempty kw then true else last))
  \/ (exists k kw2, kw = (ToUpper w ++ String k kw2)%string /\ fold_char k tail <> None).
Proof.
  induction kw as [|k kw IH]; intros w tail last l m s' Hw H.
  - cbn in H. injection H as <- <- <-. left. exists w. auto.
  - destruct w as [|c w].
    + right. exists k, kw. split; [reflexivity|]. cbn in H.
      destruct (fold_char k tail); [discriminate|discriminate H].
    + cbn in Hw. apply andb_prop in Hw as [Hc Hw]. cbn [fold_prefix append] in H.
      rewrite (fold_char_word k c _ Hc) in H.
      destruct (Ascii.eqb_spec (to_upper c) k) as [E|]; [|discriminate].
      destruct (fold_prefix kw true (w ++ tail)) as [[[l' m'] s2]|] eqn:F; [|discriminate].
      injection H as <- <- <-.
      destruct (IH _ _ _ _ _ _ Hw F) as [(w2 & -> & -> & Hm & Hl)|(k2 & kw2 & -> & Hk)].
      * left. exists w2. repeat split; cbn; [now rewrite Hm, E|].
        rewrite Hl. now destruct (nonempty kw).
      * right. exists k2, kw2. cbn. now rewrite E.
Qed.

Lemma head_is_app p c w tail : head_is p (String c w ++ tail) = p c.
Proof. reflexivity. Qed.

Lemma first_keyword_none kws s :
  (forall kw l m s', List.In kw kws -> fold_prefix kw true s = Some (l, m, s') ->
     boundary l s' = false) ->
  first_keyword kws s = None.
Proof.
  induction kws as [|kw kws IH]; intros H; cbn; [reflexivity|].
  destruct (fold_prefix kw true s) as [[[l m] s']|] eqn:F.
  - rewrite (H kw l m s' (or_introl eq_refl) F). apply IH. intros. eapply H; eauto. now right.
  - apply IH. intros. eapply H; eauto. now right.
Qed.

(** A word that does not spell a keyword and is followed by no further word
    character is not taken by the keyword group, provided that what
    follows cannot continue a keyword either. *)
Lemma first_keyword_word w tail :
  string_forall is_word w = true ->
  head_is is_word tail = false ->
  (forall kw x, List.In kw keywords -> kw = (ToUpper w ++ x)%string ->
     x <> "" /\ forall k x', x = String k x' -> fold_char k tail = None) ->
  first_keyword keywords (w ++ tail) = None.
Proof.
  intros Hw Ht Hk. apply first_keyword_none. intros kw l m s' Hin F.
  destruct (fold_prefix_word kw w tail true l m s' Hw F)
    as [(w2 & -> & -> & Hm & Hl)|(k & kw2 & -> & Hf)].
  - destruct (keyword_shape kw Hin) as [Hne _]. rewrite Hne in Hl. subst l.
    destruct w2 as [|c w2].
    + exfalso. rewrite append_nil_r in *.
      destruct (Hk kw "" Hin) as [Hx _]; [now rewrite append_nil_r|]. now apply Hx.
    + rewrite string_forall_app in Hw. apply andb_prop in Hw as [_ Hw]. cbn in Hw.
      apply andb_prop in Hw as [Hc _]. unfold boundary. cbn. now rewrite Hc.
  - exfalso. destruct (Hk _ _ Hin eq_refl) as [_ Hx]. apply Hf. now apply (Hx k kw2).
Qed.

Lemma reserved_variant_name w :
  List.In (ToUpper w) reserved_words -> nonempty w = true /\ string_forall name_char w = true.
Proof.
  intros H. destruct (reserved_shape _ H) as [Hne Hs]. split.
  - now destruct w.
  - clear H Hne. induction w as [|c w IH]; cbn in *; [reflexivity|].
    apply andb_prop in Hs as [Hc Hs]. now rewrite (to_upper_name c Hc), IH.
Qed.

(** A word that begins with a reserved word and goes on is not taken by the
    keyword group. *)
Lemma match_Keyword_longer w c body rest :
  List.In (ToUpper w) reserved_words ->
  string_forall is_word (w ++ String c body) = true -> head_is is_word rest = false ->
  match_Keyword ((w ++ String c body) ++ rest) = None.
Proof.
  intros Hin Hall Hrest. unfold match_Keyword. destruct (boundary false _); [|reflexivity].
  apply first_keyword_word; [exact Hall|exact Hrest|].
  intros kw x Hkw E. exfalso.
  rewrite ToUpper_app, append_assoc in E. rewrite E in Hkw.
  apply reserved_no_extension in Hkw; [|exact Hin]. discriminate.
Qed.

Lemma span_split p s : s = (fst (span p s) ++ snd (span p s))%string.
Proof.
  induction s as [|c s IH]; cbn; [reflexivity|].
  destruct (p c); [|reflexivity]. destruct (span p s). cbn in *. congruence.
Qed.

(** The lexer on a word that begins with a reserved word and goes on. *)
Lemma Lexer_longer_word w c tail :
  List.In (ToUpper w) reserved_words -> is_word c = true ->
  Lexer (w ++ String c tail)
  = Lexed (mkToken Ident (w ++ String c (fst (span is_word tail)))) (snd (span is_word tail)).
Proof.
  intros Hin Hc.
  destruct (reserved_variant_name w Hin) as [Hne Hname].
  assert (Hword : string_forall is_word w = true)
    by (apply string_forall_impl with name_char; [apply name_char_word|exact Hname]).
  pose proof (span_word is_word tail) as Hbody. pose proof (span_rest is_word tail) as Hrest.
  pose proof (span_split is_word tail) as Htail.
  destruct (span is_word tail) as [body rest]. cbn [fst snd] in *.
  assert (Hall : string_forall is_word (w ++ String c body) = true).
  { rewrite string_forall_app. cbn. now rewrite Hword, Hc, Hbody. }
  assert (Hs : (w ++ String c tail)%string = ((w ++ String c body) ++ rest)%string).
  { rewrite append_assoc. cbn. now rewrite Htail. }
  pose proof (match_Keyword_longer w c body rest Hin Hall Hrest) as Hkw. rewrite <- Hs in Hkw.
  destruct w as [|a w]; [discriminate|]. cbn in Hname, Hword.
  apply andb_prop in Hname as [Ha _]. apply andb_prop in Hword as [Haw Hw].
  unfold Lexer.
  assert (match_space (String a w ++ String c tail) = None) as ->.
  { unfold match_space. cbn. now rewrite (word_not_space a Haw). }
  rewrite Hkw. cbn [named].
  assert (match_QuotedIdent (String a w ++ String c tail) = None) as ->.
  { unfold match_QuotedIdent, match_quoted. cbn. now rewrite (word_not_backtick a Haw). }
  cbn [named]. unfold match_Ident. cbn [append]. rewrite (name_char_start a Ha).
  rewrite Htail at 1. change (String c (body ++ rest)) with (String c body ++ rest)%string.
  rewrite <- append_assoc. rewrite (span_all is_word _ rest); [reflexivity| |exact Hrest].
  rewrite string_forall_app. cbn. now rewrite Hw, Hc, Hbody.
Qed.

(** ** Every match is a non-empty prefix of the text *)

Lemma nonempty_neq s : nonempty s = true -> s <> "".
Proof. now destruct s. Qed.

Lemma match_space_splits s : splits s (match_space s).
Proof.
  unfold match_space. pose proof (span_split is_space s) as E.
  destruct (span is_space s) as [a b]. cbn in E.
  destruct (nonempty a) eqn:N; cbn; [|exact I]. split; [exact E|now apply nonempty_neq].
Qed.

Lemma fold_char_splits k s w m s1 :
  fold_char k s = Some (w, m, s1) -> s = (m ++ s1)%string /\ m <> "".
Proof.
  unfold fold_char. destruct s as [|c s]; [discriminate|].
  destruct (Ascii.eqb (to_upper c) k).
  - intros [= <- <- <-]. now split.
  - destruct s as [|c1 s]; [discriminate|].
    destruct (_ && _)%bool.
    + intros [= <- <- <-]. now split.
    + destruct s as [|c2 s]; [discriminate|].
      destruct (_ && _)%bool; [|discriminate]. intros [= <- <- <-]. now split.
Qed.

Lemma fold_prefix_splits kw : forall last s l m s',
  fold_prefix kw last s = Some (l, m, s') ->
  s = (m ++ s')%string /\ (nonempty kw = true -> m <> "").
Proof.
  induction kw as [|k kw IH]; intros last s l m s' H; cbn in H.
  - injection H as <- <- <-. now split.
  - destruct (fold_char k s) as [[[w m1] s1]|] eqn:F; [|discriminate].
    destruct (fold_prefix kw w s1) as [[[l2 m2] s2]|] eqn:G; [|discriminate].
    injection H as <- <- <-.
    apply fold_char_splits in F as [-> Hm]. apply IH in G as [-> _].
    split; [now rewrite append_assoc|]. intros _. now destruct m1.
Qed.

Lemma first_keyword_splits kws s :
  forallb nonempty kws = true -> splits s (first_keyword kws s).
Proof.
  induction kws as [|kw kws IH]; cbn; [exact (fun _ => I)|].
  intros H. apply andb_prop in H as [Hk H].
  destruct (fold_prefix kw true s) as [[[l m] s']|] eqn:F; [|now apply IH].
  destruct (boundary l s'); [|now apply IH].
  apply fold_prefix_splits in F as [-> Hm]. cbn. auto.
Qed.

Lemma match_Keyword_splits s : splits s (match_Keyword s).
Proof.
  unfold match_Keyword. destruct (boundary false s); [|exact I].
  now apply first_keyword_splits.
Qed.

Lemma match_quoted_splits q b s : splits s (match_quoted q b s).
Proof.
  unfold match_quoted. destruct s as [|c s]; [exact I|].
  destruct (q c); [|exact I].
  pose proof (span_split (fun x => negb (q x)) s) as E.
  destruct (span (fun x => negb (q x)) s) as [body s2]. cbn in E.
  destruct s2 as [|c' s3]; [exact I|].
  destruct (_ || _)%bool; [|exact I]. cbn. split; [|discriminate].
  rewrite E. f_equal. now rewrite append_assoc.
Qed.

Lemma match_Ident_splits s : splits s (match_Ident s).
Proof.
  unfold match_Ident. destruct s as [|c s]; [exact I|].
  destruct (is_ident_start c); [|exact I].
  pose proof (span_split is_word s) as E. destruct (span is_word s) as [a b].
  cbn in *. split; [congruence|discriminate].
Qed.

Lemma opt_sign_eq s : s = (fst (opt_sign s) ++ snd (opt_sign s))%string.
Proof. destruct s as [|c s]; cbn; [reflexivity|]. now destruct (is_sign c). Qed.

Lemma opt_exponent_eq s : s = (fst (opt_exponent s) ++ snd (opt_exponent s))%string.
Proof.
  destruct s as [|c s]; cbn; [reflexivity|]. destruct (is_e c); [|reflexivity].
  pose proof (opt_sign_eq s) as E1. destruct (opt_sign s) as [sg s2].
  pose proof (span_split is_digit s2) as E2. destruct (span is_digit s2) as [d s3].
  cbn in *. destruct (nonempty d); [|reflexivity]. cbn. f_equal.
  rewrite E1, E2. now rewrite append_assoc.
Qed.

Lemma match_mantissa_splits s : splits s (match_mantissa s).
Proof.
  unfold match_mantissa.
  pose proof (span_split is_digit s) as E. destruct (span is_digit s) as [d s1]. cbn in E.
  assert (P : splits s (if nonempty d then Some (d, s1) else None)).
  { destruct (nonempty d) eqn:N; cbn; [|exact I]. split; [exact E|now apply nonempty_neq]. }
  destruct s1 as [|c s2]; [exact P|]. destruct (is_dot c); [|exact P].
  pose proof (span_split is_digit s2) as E2. destruct (span is_digit s2) as [f s3]. cbn in E2.
  destruct (nonempty f) eqn:N; [|exact P]. cbn. split.
  - rewrite E, E2. rewrite append_assoc. reflexivity.
  - destruct d; discriminate.
Qed.

Lemma match_Number_splits s : splits s (match_Number s).
Proof.
  unfold match_Number. pose proof (opt_sign_eq s) as E. destruct (opt_sign s) as [sg s1].
  pose proof (match_mantissa_splits s1) as M.
  destruct (match_mantissa s1) as [[m s2]|]; [|exact I].
  pose proof (opt_exponent_eq s2) as X. destruct (opt_exponent s2) as [e s3].
  cbn in *. destruct M as [-> Hm]. split.
  - rewrite E, X. now rewrite !append_assoc.
  - destruct sg; [|discriminate]. destruct m; [congruence|discriminate].
Qed.

Lemma match_String_splits s : splits s (match_String s).
Proof.
  unfold match_String. pose proof (match_quoted_splits is_squote false s) as P.
  destruct (match_quoted is_squote false s); [exact P|]. apply match_quoted_splits.
Qed.

Lemma match_Operators_splits s : splits s (match_Operators s).
Proof.
  unfold match_Operators. destruct s as [|a [|b s]]; [exact I| |].
  - destruct (is_operator_char a); [now split|exact I].
  - destruct (existsb _ _); [now split|].
    destruct (is_operator_char a); [now split|exact I].
Qed.

Lemma match_semicolon_splits s : splits s (match_semicolon s).
Proof.
  unfold match_semicolon. destruct s as [|c s]; [exact I|].
  destruct (Ascii.eqb c ";"); cbn; [|exact I]. now split.
Qed.

(** A token carries the text it was cut from, and that text is not empty;
    white space is not empty either. *)
Lemma Lexer_splits s :
  match Lexer s with
  | Lexed t rest => s = (Token_Value t ++ rest)%string /\ Token_Value t <> ""
  | Skipped rest => exists sp, s = (sp ++ rest)%string /\ sp <> ""
  | Invalid => True
  end.
Proof.
  unfold Lexer.
  pose proof (match_space_splits s) as H0. destruct (match_space s) as [[sp r]|].
  { now exists sp. }
  pose proof (match_Keyword_splits s) as H1. destruct (match_Keyword s) as [[v r]|]; [exact H1|].
  pose proof (match_quoted_splits is_backtick true s) as H2. fold (match_QuotedIdent s) in H2.
  destruct (match_QuotedIdent s) as [[v r]|]; [exact H2|].
  pose proof (match_Ident_splits s) as H3. destruct (match_Ident s) as [[v r]|]; [exact H3|].
  pose proof (match_Number_splits s) as H4. destruct (match_Number s) as [[v r]|]; [exact H4|].
  pose proof (match_String_splits s) as H5. destruct (match_String s) as [[v r]|]; [exact H5|].
  pose proof (match_Operators_splits s) as H6.
  destruct (match_Operators s) as [[v r]|]; [exact H6|].
  pose proof (match_semicolon_splits s) as H7.
  destruct (match_semicolon s) as [[v r]|]; [exact H7|exact I].
Qed.

Lemma string_length_app a b : String.length (a ++ b) = (String.length a + String.length b)%nat.
Proof. induction a; cbn; congruence. Qed.

Lemma Lexer_shorter s :
  match Lexer s with
  | Lexed _ rest | Skipped rest => (String.length rest < String.length s)%nat
  | Invalid => True
  end.
Proof.
  pose proof (Lexer_splits s) as H. destruct (Lexer s) as [rest|t rest|]; [| |exact I].
  - destruct H as (sp & -> & Hne). rewrite string_length_app. destruct sp; [congruence|cbn; lia].
  - destruct H as [E Hne]. apply (f_equal String.length) in E. rewrite string_length_app in E.
    destruct (Token_Value t); [congruence|cbn in E; lia].
Qed.

(** The rounds of [Lex] are enough: more of them change nothing. *)
Lemma lex_loop_enough n : forall s m,
  (String.length s <= n)%nat -> (String.length s <= m)%nat -> lex_loop n s = lex_loop m s.
Proof.
  induction n as [|n IH]; intros s m Hn Hm.
  - destruct s; [now destruct m|cbn in Hn; lia].
  - destruct s as [|c s]; [now destruct m|].
    destruct m as [|m]; [cbn in Hm; lia|].
    cbn [lex_loop]. pose proof (Lexer_shorter (String c s)) as L.
    destruct (Lexer (String c s)) as [rest|t rest|]; [| |reflexivity].
    + apply IH; cbn in *; lia.
    + rewrite (IH rest m); [reflexivity| |]; cbn in *; lia.
Qed.

Lemma Lex_nil : Lex "" = Some [].
Proof. reflexivity. Qed.

Lemma Lex_token s t rest :
  Lexer s = Lexed t rest -> Lex s = option_map (cons t) (Lex rest).
Proof.
  intros H. unfold Lex. pose proof (Lexer_shorter s) as L. rewrite H in L.
  destruct s as [|c s]; [cbn in L; lia|]. cbn [String.length lex_loop]. rewrite H.
  rewrite (lex_loop_enough _ rest (String.length rest)); [|cbn in L; lia|lia].
  now destruct (lex_loop _ rest).
Qed.

Lemma Lex_skip s rest : Lexer s = Skipped rest -> Lex s = Lex rest.
Proof.
  intros H. unfold Lex. pose proof (Lexer_shorter s) as L. rewrite H in L.
  destruct s as [|c s]; [cbn in L; lia|]. cbn [String.length lex_loop]. rewrite H.
  apply lex_loop_enough; cbn in L; lia.
Qed.

(** ** The nodes of participle *)

Section Repetition.
Context {A : Type} (p : Node A).

Lemma repetition_loop_end fuel i ts :
  (i < MaxIterations)%N -> p ts = NoMatch ->
  repetition_loop p (S fuel) i ts = Matched [] ts.
Proof.
  intros Hi Hp. cbn [repetition_loop].
  destruct (N.leb_spec MaxIterations i) as [H|_]; [lia|]. now rewrite Hp.
Qed.

Lemma repetition_loop_drop fuel i ts rest :
  (i < MaxIterations)%N -> p ts = Failed rest -> Stop ts rest = false ->
  repetition_loop p (S fuel) i ts = Matched [] ts.
Proof.
  intros Hi Hp Hs. cbn [repetition_loop].
  destruct (N.leb_spec MaxIterations i) as [H|_]; [lia|]. now rewrite Hp, Hs.
Qed.

Lemma repetition_loop_step fuel i ts a rest :
  (i < MaxIterations)%N -> p ts = Matched a rest -> (length rest < length ts)%nat ->
  repetition_loop p (S fuel) i ts =
  match repetition_loop p fuel (i + 1)%N rest with
  | Matched l rest' => Matched (a :: l) rest'
  | r => r
  end.
Proof.
  intros Hi Hp Hl. cbn [repetition_loop].
  destruct (N.leb_spec MaxIterations i) as [H|_]; [lia|]. rewrite Hp.
  now apply Nat.ltb_lt in Hl as ->.
Qed.


Lemma repetition_drop ts rest :
  p ts = Failed rest -> Stop ts rest = false -> repetition p ts = Matched [] ts.
Proof. intros H1 H2. now apply repetition_loop_drop with rest. Qed.
End Repetition.

Lemma Stop_1 t ts : Stop (t :: ts) ts = false.
Proof. unfold Stop, lookahead. apply Nat.ltb_ge. cbn [length]. lia. Qed.

Lemma Stop_2 t u ts : Stop (t :: u :: ts) ts = false.
Proof. unfold Stop, lookahead. apply Nat.ltb_ge. cbn [length]. lia. Qed.

Lemma Stop_0 ts : Stop ts ts = false.
Proof. unfold Stop, lookahead. apply Nat.ltb_ge. lia. Qed.

(** ** Literals exclude one another *)

Lemma to_upper_ascii7 c : ascii7 (to_upper c) = ascii7 c.
Proof.
  destruct c as [[|] [|] [|] [|] [|] [|] [|] [|]]; reflexivity.
Qed.

Lemma fold_char_excl k1 k2 s r :
  ascii7 k1 = true -> ascii7 k2 = true -> k1 <> k2 ->
  fold_char k1 s = Some r -> fold_char k2 s = None.
Proof.
  intros H1 H2 Hne H. destruct s as [|c s1]; [discriminate|].
  unfold fold_char in *.
  destruct (Ascii.eqb_spec (to_upper c) k1) as [E1|N1].
  - destruct (Ascii.eqb_spec (to_upper c) k2) as [E2|N2]; [congruence|].
    assert (Hc : ascii7 c = true) by (rewrite <- to_upper_ascii7, E1; exact H1).
    assert (N.eqb (byte_of c) 197 = false /\ N.eqb (byte_of c) 226 = false) as [-> ->].
    { unfold ascii7 in Hc. apply N.ltb_lt in Hc. split; apply N.eqb_neq; lia. }
    rewrite !andb_false_r. destruct s1 as [|c1 [|c2 s3]]; reflexivity.
  - destruct (Ascii.eqb_spec (to_upper c) k2) as [E2|N2].
    + assert (Hc : ascii7 c = true) by (rewrite <- to_upper_ascii7, E2; exact H2).
      assert (N.eqb (byte_of c) 197 = false /\ N.eqb (byte_of c) 226 = false) as [Ha Hb].
      { unfold ascii7 in Hc. apply N.ltb_lt in Hc. split; apply N.eqb_neq; lia. }
      rewrite Ha, Hb, !andb_false_r in H. destruct s1 as [|c1 [|c2 s3]]; discriminate.
    + destruct s1 as [|c1 s2]; [discriminate|].
      destruct (Ascii.eqb_spec k1 "S"%char) as [->|NS1].
      * destruct (Ascii.eqb_spec k2 "S"%char) as [->|NS2]; [congruence|].
        cbn [andb] in *.
        destruct (N.eqb_spec (byte_of c) 197) as [E|NE].
        -- rewrite E. cbn. destruct s2; [reflexivity|]. now rewrite andb_false_r.
        -- cbn [andb] in H. destruct s2; [discriminate|]. cbn in H. 
           rewrite andb_false_l in H || idtac. 
           revert H. cbn [Ascii.eqb]. discriminate.
      * cbn [andb] in H. destruct s2 as [|c2 s3]; [discriminate|].
        destruct (Ascii.eqb_spec k1 "K"%char) as [->|NK1]; [|discriminate].
        destruct (Ascii.eqb_spec k2 "K"%char) as [->|NK2]; [congruence|].
        cbn [andb] in H |- *.
        destruct (N.eqb_spec (byte_of c) 226) as [E|NE]; [|discriminate].
        rewrite E. cbn. now rewrite andb_false_r.
Qed.

Lemma literal_eq_excl l1 l2 t :
  heads_differ l1 l2 = true -> literal_eq l1 t = true -> literal_eq l2 t = false.
Proof.
  unfold heads_differ, literal_eq, EqualFold. intros Hd H.
  destruct (Token_Type t).
  - destruct (ToUpper l1) as [|a u1] eqn:E1; [discriminate|].
    destruct (ToUpper l2) as [|b u2] eqn:E2; [discriminate|].
    apply andb_prop in Hd as [Hd Hne]. apply andb_prop in Hd as [Ha Hb].
    cbn [fold_prefix] in *.
    destruct (fold_char a (Token_Value t)) as [r|] eqn:Hf; [|discriminate].
    rewrite (fold_char_excl a b _ r Ha Hb); [reflexivity| |exact Hf].
    intros ->. now rewrite Ascii.eqb_refl in Hne.
  - apply String.eqb_eq in H. rewrite H. apply String.eqb_neq. intros ->.
    destruct (ToUpper l2) as [|a u]; [discriminate|].
    now rewrite Ascii.eqb_refl, andb_false_r in Hd.
  - apply String.eqb_eq in H. rewrite H. apply String.eqb_neq. intros ->.
    destruct (ToUpper l2) as [|a u]; [discriminate|].
    now rewrite Ascii.eqb_refl, andb_false_r in Hd.
  - apply String.eqb_eq in H. rewrite H. apply String.eqb_neq. intros ->.
    destruct (ToUpper l2) as [|a u]; [discriminate|].
    now rewrite Ascii.eqb_refl, andb_false_r in Hd.
  - apply String.eqb_eq in H. rewrite H. apply String.eqb_neq. intros ->.
    destruct (ToUpper l2) as [|a u]; [discriminate|].
    now rewrite Ascii.eqb_refl, andb_false_r in Hd.
  - apply String.eqb_eq in H. rewrite H. apply String.eqb_neq. intros ->.
    destruct (ToUpper l2) as [|a u]; [discriminate|].
    now rewrite Ascii.eqb_refl, andb_false_r in Hd.
  - apply String.eqb_eq in H. rewrite H. apply String.eqb_neq. intros ->.
    destruct (ToUpper l2) as [|a u]; [discriminate|].
    now rewrite Ascii.eqb_refl, andb_false_r in Hd.
Qed.

Lemma literal_no l1 l2 t rest :
  heads_differ l1 l2 = true -> literal_eq l1 t = true -> literal l2 (t :: rest) = NoMatch.
Proof. intros Hd H. unfold literal. now rewrite (literal_eq_excl l1 l2 t Hd H). Qed.

Lemma literal_yes l t rest :
  literal_eq l t = true -> literal l (t :: rest) = Matched (Token_Value t) rest.
Proof. intros H. unfold literal. now rewrite H. Qed.

(** How the nodes carry the answers of their parts. *)
Section Steps.
Context {A B : Type}.
Implicit Types (p : Node A) (f : A -> Node B) (ts rest : list Token).

Lemma bind_NoMatch p f ts : p ts = NoMatch -> bind p f ts = NoMatch.
Proof. unfold bind. now intros ->. Qed.

Lemma bind_Matched p f ts a rest : p ts = Matched a rest -> bind p f ts = f a rest.
Proof. unfold bind. now intros ->. Qed.

Lemma bind_Failed p f ts rest : p ts = Failed rest -> bind p f ts = Failed rest.
Proof. unfold bind. now intros ->. Qed.

Lemma fmap_NoMatch (g : A -> B) p ts : p ts = NoMatch -> fmap g p ts = NoMatch.
Proof. unfold fmap, bind. now intros ->. Qed.

Lemma fmap_Matched (g : A -> B) p ts a rest :
  p ts = Matched a rest -> fmap g p ts = Matched (g a) rest.
Proof. unfold fmap, bind. now intros ->. Qed.

Lemma fmap_Failed (g : A -> B) p ts rest : p ts = Failed rest -> fmap g p ts = Failed rest.
Proof. unfold fmap, bind. now intros ->. Qed.

Lemma must_NoMatch p ts : p ts = NoMatch -> must p ts = Failed ts.
Proof. unfold must. now intros ->. Qed.

Lemma must_Matched p ts a rest : p ts = Matched a rest -> must p ts = Matched a rest.
Proof. unfold must. now intros ->. Qed.

Lemma must_Failed p ts rest : p ts = Failed rest -> must p ts = Failed rest.
Proof. unfold must. now intros ->. Qed.

Lemma strct_NoMatch p (g : A -> option B) ts : p ts = NoMatch -> strct p g ts = NoMatch.
Proof. unfold strct. now intros ->. Qed.

Lemma strct_Failed p (g : A -> option B) ts rest :
  p ts = Failed rest -> strct p g ts = Failed rest.
Proof. unfold strct. now intros ->. Qed.

Lemma strct_Matched p (g : A -> option B) ts a b rest :
  p ts = Matched a rest -> g a = Some b -> strct p g ts = Matched b rest.
Proof. unfold strct. now intros -> ->. Qed.

Lemma disjunction_skip failed p (alts : list (Node A)) ts :
  p ts = NoMatch -> disjunction_from failed (p :: alts) ts = disjunction_from failed alts ts.
Proof. cbn [disjunction_from]. now intros ->. Qed.

Lemma disjunction_take failed p (alts : list (Node A)) ts a rest :
  p ts = Matched a rest -> disjunction_from failed (p :: alts) ts = Matched a rest.
Proof. cbn [disjunction_from]. now intros ->. Qed.

Lemma disjunction_near failed p (alts : list (Node A)) ts rest :
  p ts = Failed rest -> Stop ts rest = false ->
  disjunction_from failed (p :: alts) ts = disjunction_from true alts ts.
Proof. cbn [disjunction_from]. now intros -> ->. Qed.

Lemma disjunction_far failed p (alts : list (Node A)) ts rest :
  p ts = Failed rest -> Stop ts rest = true ->
  disjunction_from failed (p :: alts) ts = Failed rest.
Proof. cbn [disjunction_from]. now intros -> ->. Qed.

Lemma optional_Matched p ts a rest : p ts = Matched a rest -> optional p ts = Matched (Some a) rest.
Proof. unfold optional. now intros ->. Qed.

Lemma optional_NoMatch p ts : p ts = NoMatch -> optional p ts = Matched None ts.
Proof. unfold optional. now intros ->. Qed.

Lemma optional_near p ts rest :
  p ts = Failed rest -> Stop ts rest = false -> optional p ts = Matched None ts.
Proof. unfold optional. now intros -> ->. Qed.
End Steps.

Lemma TokenType_eqb_neq a b : a <> b -> TokenType_eqb a b = false.
Proof. destruct a, b; cbn; congruence. Qed.

Lemma reference_no ty t rest :
  Token_Type t <> ty -> reference ty (t :: rest) = NoMatch.
Proof. unfold reference. intros H. now rewrite (TokenType_eqb_neq _ _ H). Qed.

(** ** SELECT without a projection *)
Lemma PathFragment_node_no t rest :
  Token_Type t <> Ident -> Token_Type t <> QuotedIdent -> PathFragment_node (t :: rest) = NoMatch.
Proof.
  intros H1 H2. unfold PathFragment_node. apply strct_NoMatch, bind_NoMatch.
  unfold disjunction. rewrite !disjunction_skip; [reflexivity| |];
    now apply reference_no.
Qed.

Lemma DocumentPath_node_no t rest :
  Token_Type t <> Ident -> Token_Type t <> QuotedIdent -> DocumentPath_node (t :: rest) = NoMatch.
Proof.
  intros H1 H2. unfold DocumentPath_node.
  now apply strct_NoMatch, bind_NoMatch, PathFragment_node_no.
Qed.

Lemma FunctionExpression_node_no t rest :
  Token_Type t <> Ident -> FunctionExpression_node (t :: rest) = NoMatch.
Proof.
  intros H. unfold FunctionExpression_node.
  now apply strct_NoMatch, bind_NoMatch, reference_no.
Qed.

Lemma ProjectionColumn_node_no t rest :
  Token_Type t <> Ident -> Token_Type t <> QuotedIdent ->
  ProjectionColumn_node (t :: rest) = NoMatch.
Proof.
  intros H1 H2. unfold ProjectionColumn_node. apply strct_NoMatch.
  unfold disjunction. rewrite !disjunction_skip; [reflexivity| |].
  - now apply fmap_NoMatch, DocumentPath_node_no.
  - now apply fmap_NoMatch, FunctionExpression_node_no.
Qed.

Lemma ProjectionExpression_node_keyword t rest :
  Token_Type t = Keyword -> literal_eq "FROM" t = true ->
  ProjectionExpression_node (t :: rest) = NoMatch.
Proof.
  intros Ht Hf.
  unfold ProjectionExpression_node. apply strct_NoMatch.
  unfold disjunction. rewrite !disjunction_skip; [reflexivity| |].
  - apply bind_NoMatch, ProjectionColumn_node_no; rewrite Ht; discriminate.
  - rewrite !disjunction_skip; [reflexivity| |].
    + apply bind_NoMatch. now apply literal_no with "FROM".
    + apply fmap_NoMatch. now apply literal_no with "FROM".
Qed.

Lemma select_empty_projection_rejected t1 t2 rest :
  literal_eq "SELECT" t1 = true ->
  Token_Type t2 = Keyword -> literal_eq "FROM" t2 = true ->
  ParseTokens (t1 :: t2 :: rest) = ParseError.
Proof.
  intros H1 Ht Hf. unfold ParseTokens.
  assert (AST_node (S (length (t1 :: t2 :: rest))) (t1 :: t2 :: rest) = Failed (t1 :: t2 :: rest))
    as ->; [|reflexivity].
  unfold AST_node, AST_statement. apply strct_Failed, bind_Failed. unfold disjunction.
  rewrite disjunction_near with (rest := t2 :: rest).
  - rewrite !disjunction_skip; [reflexivity| | |];
      apply bind_NoMatch; now apply literal_no with "SELECT".
  - rewrite bind_Matched with (a := Token_Value t1) (rest := t2 :: rest)
      by now apply literal_yes.
    apply bind_Failed, must_NoMatch. unfold Select_node.
    now apply strct_NoMatch, bind_NoMatch, ProjectionExpression_node_keyword.
  - apply Stop_1.
Qed.

(** ** INSERT and REPLACE with a RETURNING clause *)

Lemma returning_value_choice t rest :
  disjunction [literal "NONE"; literal "ALL_OLD"] (t :: rest)
  = if returning_value t then Matched (Token_Value t) rest else NoMatch.
Proof.
  unfold returning_value, disjunction. cbn [disjunction_from literal].
  destruct (literal_eq "NONE" t); [reflexivity|].
  now destruct (literal_eq "ALL_OLD" t).
Qed.

Lemma Insert_returning_value r v rest :
  literal_eq "RETURNING" r = true -> returning_value v = true ->
  Insert_returning (r :: v :: rest) = Matched (Some (Token_Value v)) rest.
Proof.
  intros Hr Hv. unfold Insert_returning. apply optional_Matched.
  rewrite bind_Matched with (a := Token_Value r) (rest := v :: rest) by now apply literal_yes.
  rewrite bind_Matched with (a := Token_Value v) (rest := rest); [reflexivity|].
  apply must_Matched. now rewrite returning_value_choice, Hv.
Qed.

Lemma Insert_returning_other r v rest :
  literal_eq "RETURNING" r = true -> returning_value v = false ->
  Insert_returning (r :: v :: rest) = Matched None (r :: v :: rest).
Proof.
  intros Hr Hv. unfold Insert_returning. apply optional_near with (rest := v :: rest).
  - rewrite bind_Matched with (a := Token_Value r) (rest := v :: rest) by now apply literal_yes.
    apply bind_Failed, must_NoMatch. now rewrite returning_value_choice, Hv.
  - apply Stop_1.
Qed.

Lemma Insert_returning_last r :
  literal_eq "RETURNING" r = true -> Insert_returning [r] = Matched None [r].
Proof.
  intros Hr. unfold Insert_returning. apply optional_near with (rest := []).
  - rewrite bind_Matched with (a := Token_Value r) (rest := []) by now apply literal_yes.
    now apply bind_Failed, must_NoMatch.
  - apply Stop_1.
Qed.

Lemma Insert_returning_absent ts :
  literal "RETURNING" ts = NoMatch -> Insert_returning ts = Matched None ts.
Proof.
  intros H. unfold Insert_returning. now apply optional_NoMatch, bind_NoMatch.
Qed.

Lemma Insert_node_returning fuel ts into vals rest r rest' :
  Insert_into_values fuel ts = Matched (into, vals) rest ->
  Insert_returning rest = Matched r rest' ->
  Insert_node fuel ts = Matched (mkInsert into vals r) rest'.
Proof.
  intros Hiv Hr. unfold Insert_node.
  apply strct_Matched with (a := mkInsert into vals r); [|reflexivity].
  rewrite bind_Matched with (a := (into, vals)) (rest := rest) by exact Hiv.
  rewrite bind_Matched with (a := r) (rest := rest'); [reflexivity|].
  now apply must_Matched.
Qed.

Lemma AST_statement_insert fuel k ts i rest :
  insert_keyword k = true ->
  Insert_node fuel ts = Matched i rest ->
  AST_statement fuel (k :: ts) = Matched (insert_ast k i) rest.
Proof.
  intros Hk Hi. unfold AST_statement, insert_ast, insert_keyword, disjunction in *.
  destruct (literal_eq "INSERT" k) eqn:HI.
  - rewrite disjunction_skip by (apply bind_NoMatch; now apply literal_no with "INSERT").
    apply disjunction_take.
    rewrite bind_Matched with (a := Token_Value k) (rest := ts) by now apply literal_yes.
    rewrite bind_Matched with (a := i) (rest := rest); [reflexivity|].
    now apply must_Matched.
  - cbn [orb] in Hk.
    rewrite disjunction_skip by (apply bind_NoMatch; now apply literal_no with "REPLACE").
    rewrite disjunction_skip by (apply bind_NoMatch; unfold literal; now rewrite HI).
    apply disjunction_take.
    rewrite bind_Matched with (a := Token_Value k) (rest := ts) by now apply literal_yes.
    rewrite bind_Matched with (a := i) (rest := rest); [reflexivity|].
    now apply must_Matched.
Qed.

(** A statement that leaves nothing, or one semicolon, is parsed. *)
Lemma ParseTokens_statement ts a tl :
  AST_statement (S (length ts)) ts = Matched a tl -> statement_end tl = true ->
  ParseTokens ts = Parsed a.
Proof.
  intros Ha Hend. unfold ParseTokens, AST_node.
  destruct tl as [|t [|u tl]]; [| |discriminate].
  - rewrite strct_Matched with (a := a) (b := a) (rest := []); [reflexivity| |reflexivity].
    rewrite bind_Matched with (a := a) (rest := []) by exact Ha.
    rewrite bind_Matched with (a := None) (rest := []); reflexivity.
  - cbn [statement_end] in Hend.
    rewrite strct_Matched with (a := a) (b := a) (rest := []); [reflexivity| |reflexivity].
    rewrite bind_Matched with (a := a) (rest := [t]) by exact Ha.
    rewrite bind_Matched with (a := Some (Token_Value t)) (rest := []); [reflexivity|].
    apply must_Matched, optional_Matched. now apply literal_yes.
Qed.

(** A statement that leaves a token other than a semicolon is rejected. *)
Lemma ParseTokens_trailing ts a t tl :
  AST_statement (S (length ts)) ts = Matched a (t :: tl) -> literal_eq ";" t = false ->
  ParseTokens ts = ParseError.
Proof.
  intros Ha Ht. unfold ParseTokens, AST_node.
  rewrite strct_Matched with (a := a) (b := a) (rest := t :: tl); [reflexivity| |reflexivity].
  rewrite bind_Matched with (a := a) (rest := t :: tl) by exact Ha.
  rewrite bind_Matched with (a := None) (rest := t :: tl); [reflexivity|].
  apply must_Matched, optional_NoMatch. unfold literal. now rewrite Ht.
Qed.

Lemma statement_end_no_returning tl :
  statement_end tl = true -> literal "RETURNING" tl = NoMatch.
Proof.
  destruct tl as [|t [|u tl]]; [reflexivity| |discriminate].
  cbn [statement_end]. intros H. now apply literal_no with ";".
Qed.

(** ** Itoa and ParseInt *)

Lemma string_of_uint_digits d : string_forall is_digit (NilEmpty.string_of_uint d) = true.
Proof. induction d; cbn; auto. Qed.

Lemma digits_value_uint_acc d : forall acc,
  digits_value 10 (Zpos acc) (NilEmpty.string_of_uint d) = Some (Zpos (Pos.of_uint_acc d acc)).
Proof.
  induction d; intros acc; cbn [NilEmpty.string_of_uint digits_value Pos.of_uint_acc];
    [reflexivity|..];
    match goal with
    | |- context [digits_value 10 ?a _] =>
        match goal with
        | |- _ = Some (Zpos (Pos.of_uint_acc _ ?b)) =>
            replace a with (Zpos b);
              [apply IHd|
               match goal with |- context [digit_val ?c] =>
                 let v := eval vm_compute in (digit_val c) in change (digit_val c) with v end;
               lia]
        end
    end.
Qed.

Lemma digits_value_uint d :
  digits_value 10 0 (NilEmpty.string_of_uint d) = Some (Z.of_N (Pos.of_uint d)).
Proof.
  induction d; cbn [NilEmpty.string_of_uint digits_value Pos.of_uint];
    [reflexivity|exact IHd|..]; cbn [is_digit andb]; apply digits_value_uint_acc.
Qed.

Lemma nzhead_not_D0 d d' : Decimal.nzhead d <> Decimal.D0 d'.
Proof. induction d; cbn; try discriminate; auto. Qed.

Lemma unorm_D0_zero d d' : Decimal.unorm d = Decimal.D0 d' -> d' = Decimal.Nil.
Proof.
  unfold Decimal.unorm. destruct (Decimal.nzhead d) eqn:E; try discriminate.
  - now intros [= <-].
  - now apply nzhead_not_D0 in E.
Qed.

Lemma to_uint_head p :
  exists c s, NilEmpty.string_of_uint (Pos.to_uint p) = String c s
              /\ is_digit c = true /\ Ascii.eqb c "0" = false.
Proof.
  pose proof (DecimalPos.Unsigned.to_of (Pos.to_uint p)) as H. rewrite DecimalPos.Unsigned.of_to in H.
  cbn in H. pose proof (DecimalPos.Unsigned.to_uint_nonzero p) as Hz.
  pose proof (DecimalPos.Unsigned.to_uint_nonnil p) as Hn.
  destruct (Pos.to_uint p) eqn:E; try congruence; cbn;
    try (eexists _, _; split; [reflexivity|split; reflexivity]).
  symmetry in H. apply unorm_D0_zero in H. subst. now elim Hz.
Qed.

Lemma Itoa_pos p : Itoa (Zpos p) = NilEmpty.string_of_uint (Pos.to_uint p).
Proof.
  unfold Itoa. cbn. pose proof (DecimalPos.Unsigned.to_uint_nonnil p). now destruct (Pos.to_uint p).
Qed.

Lemma Itoa_neg p : Itoa (Zneg p) = String "-" (NilEmpty.string_of_uint (Pos.to_uint p)).
Proof.
  unfold Itoa. cbn. pose proof (DecimalPos.Unsigned.to_uint_nonnil p). now destruct (Pos.to_uint p).
Qed.

Lemma ParseUint0_to_uint p :
  ParseUint0 (NilEmpty.string_of_uint (Pos.to_uint p)) = Some (Zpos p).
Proof.
  destruct (to_uint_head p) as (c & s & E & Hd & H0).
  unfold ParseUint0. rewrite E, H0, <- E, digits_value_uint, DecimalPos.Unsigned.of_to. reflexivity.
Qed.

Theorem ParseInt_Itoa i :
  (int64_min <= i <= int64_max)%Z -> ParseInt (Itoa i) = Some i.
Proof.
  unfold int64_min, int64_max. intros Hi. destruct i as [|p|p].
  - reflexivity.
  - rewrite Itoa_pos. destruct (to_uint_head p) as (c & s & E & Hd & H0).
    unfold ParseInt. rewrite E.
    assert (Ascii.eqb c "-" = false /\ Ascii.eqb c "+" = false) as [-> ->].
    { revert Hd. clear. by_cases c; auto. }
    cbn [orb]. rewrite <- E, ParseUint0_to_uint.
    destruct (Z.ltb_spec (Zpos p) (2 ^ 63)); [reflexivity|lia].
  - rewrite Itoa_neg. unfold ParseInt. cbn [Ascii.eqb Bool.eqb orb].
    rewrite ParseUint0_to_uint.
    destruct (Z.leb_spec (Zpos p) (2 ^ 63)); [reflexivity|lia].
Qed.

(** The text of [Itoa]: an optional minus sign and digits. *)
Lemma Itoa_shape i :
  exists sg d, Itoa i = (sg ++ d)%string /\ (sg = "" \/ sg = "-")
               /\ nonempty d = true /\ string_forall is_digit d = true.
Proof.
  destruct i as [|p|p].
  - exists "", "0". repeat split; auto.
  - rewrite Itoa_pos. exists "", (NilEmpty.string_of_uint (Pos.to_uint p)).
    destruct (to_uint_head p) as (c & s & E & _). repeat split; auto.
    + now rewrite E.
    + apply string_of_uint_digits.
  - rewrite Itoa_neg. exists "-", (NilEmpty.string_of_uint (Pos.to_uint p)).
    destruct (to_uint_head p) as (c & s & E & _). repeat split; auto.
    + now rewrite E.
    + apply string_of_uint_digits.
Qed.

(** ** Lexing numbers and identifiers *)

Lemma to_upper_digit c : is_digit c = true -> to_upper c = c.
Proof. by_cases c. Qed.

Lemma keyword_char_not_digit k : keyword_char k = true -> is_digit k = false.
Proof. by_cases k. Qed.

Lemma digit_word c : is_digit c = true -> is_word c = true.
Proof. by_cases c. Qed.

Lemma digit_not_start c : is_digit c = true -> is_ident_start c = false.
Proof. by_cases c. Qed.

Lemma fold_prefix_head kw s :
  List.In kw keywords ->
  (forall k, keyword_char k = true -> fold_char k s = None) ->
  fold_prefix kw true s = None.
Proof.
  intros Hin H. destruct (keyword_shape kw Hin) as [Hne Hs].
  destruct kw as [|k kw]; [discriminate|]. cbn in Hs. apply andb_prop in Hs as [Hk _].
  cbn. now rewrite (H k Hk).
Qed.

Lemma first_keyword_head s :
  (forall k, keyword_char k = true -> fold_char k s = None) ->
  first_keyword keywords s = None.
Proof.
  intros H. apply first_keyword_none. intros kw l m s' Hin F.
  now rewrite (fold_prefix_head kw s Hin H) in F.
Qed.

Lemma match_Keyword_digit c s : is_digit c = true -> match_Keyword (String c s) = None.
Proof.
  intros Hc. unfold match_Keyword. destruct (boundary false _); [|reflexivity].
  apply first_keyword_head. intros k Hk.
  rewrite fold_char_word by now apply digit_word.
  rewrite (to_upper_digit c Hc).
  destruct (Ascii.eqb_spec c k) as [->|]; [|reflexivity].
  now rewrite (keyword_char_not_digit k Hk) in Hc.
Qed.

Lemma match_mantissa_digits d tail :
  nonempty d = true -> string_forall is_digit d = true ->
  head_is is_digit tail = false -> head_is is_dot tail = false ->
  match_mantissa (d ++ tail) = Some (d, tail).
Proof.
  intros Hne Hd Ht Hdot. unfold match_mantissa.
  rewrite (span_all is_digit d tail Hd Ht). rewrite Hne.
  destruct tail as [|c t]; [reflexivity|]. cbn in Hdot. now rewrite Hdot.
Qed.

Lemma opt_exponent_none s : head_is is_e s = false -> opt_exponent s = ("", s).
Proof. destruct s as [|c s]; [reflexivity|]. cbn. now intros ->. Qed.

Lemma match_Number_digits sg d tail :
  sg = "" \/ sg = "-" \/ sg = "+" ->
  nonempty d = true -> string_forall is_digit d = true ->
  head_is is_digit tail = false -> head_is is_dot tail = false -> head_is is_e tail = false ->
  match_Number (sg ++ d ++ tail) = Some ((sg ++ d)%string, tail).
Proof.
  intros Hsg Hne Hd Ht Hdot He. unfold match_Number.
  assert (opt_sign (sg ++ d ++ tail) = (sg, (d ++ tail)%string)) as ->.
  { destruct Hsg as [->|[->| ->]]; [|reflexivity|reflexivity].
    destruct d as [|c d]; [discriminate|]. cbn in *.
    apply andb_prop in Hd as [Hc _]. revert Hc. clear. by_cases c. }
  rewrite (match_mantissa_digits d tail Hne Hd Ht Hdot), (opt_exponent_none tail He).
  now rewrite append_nil_r.
Qed.

(** A signed or unsigned run of digits in front of something that does not
    continue a number is one [Number] token. *)
Lemma Lexer_number sg d tail :
  sg = "" \/ sg = "-" \/ sg = "+" ->
  nonempty d = true -> string_forall is_digit d = true ->
  head_is is_digit tail = false -> head_is is_dot tail = false -> head_is is_e tail = false ->
  Lexer (sg ++ d ++ tail) = Lexed (mkToken Number (sg ++ d)) tail.
Proof.
  intros Hsg Hne Hd Ht Hdot He. unfold Lexer.
  rewrite (match_Number_digits sg d tail Hsg Hne Hd Ht Hdot He).
  destruct d as [|c d]; [discriminate|]. cbn in Hd. apply andb_prop in Hd as [Hc _].
  destruct Hsg as [->|[->| ->]].
  - cbn [append].
    assert (match_space (String c (d ++ tail)) = None) as ->.
    { unfold match_space. cbn. now rewrite (word_not_space c (digit_word c Hc)). }
    rewrite (match_Keyword_digit c _ Hc). cbn [named].
    assert (match_QuotedIdent (String c (d ++ tail)) = None) as ->.
    { unfold match_QuotedIdent, match_quoted.
      now rewrite (word_not_backtick c (digit_word c Hc)). }
    cbn [named]. unfold match_Ident. now rewrite (digit_not_start c Hc).
  - reflexivity.
  - reflexivity.
Qed.

Lemma fold_char_quiet k s : keyword_char k = true -> quiet s = true -> fold_char k s = None.
Proof.
  intros Hk Hq. destruct s as [|c s]; [reflexivity|]. cbn in Hq.
  apply andb_prop in Hq as [Hq H226]. apply andb_prop in Hq as [Hw H197].
  apply negb_true_iff in Hw, H197, H226. unfold fold_char.
  destruct (Ascii.eqb_spec (to_upper c) k) as [E|_].
  - rewrite <- E in Hk. apply to_upper_name, name_char_word in Hk. congruence.
  - rewrite H197, H226, !andb_false_r. now destruct s as [|c1 [|c2 s]].
Qed.

Lemma quiet_head s : quiet s = true -> head_is is_word s = false.
Proof.
  destruct s as [|c s]; [reflexivity|]. cbn. intros H.
  apply andb_prop in H as [H _]. apply andb_prop in H as [H _]. now apply negb_true_iff.
Qed.

Lemma is_reserved_spec s : is_reserved s = false -> ~ List.In (ToUpper s) keywords.
Proof.
  unfold is_reserved. intros H Hin.
  assert (existsb (String.eqb (ToUpper s)) keywords = true); [|congruence].
  apply existsb_exists. exists (ToUpper s). split; [exact Hin|apply String.eqb_refl].
Qed.

(** An identifier that is no reserved word, in front of something that
    continues neither a word nor a keyword, is one [Ident] token. *)
Lemma Lexer_ident sym tail :
  bare_ident sym = true -> quiet tail = true ->
  Lexer (sym ++ tail) = Lexed (mkToken Ident sym) tail.
Proof.
  intros Hb Hq. destruct sym as [|c sym]; [discriminate|]. cbn [bare_ident] in Hb.
  apply andb_prop in Hb as [Hb Hres]. apply andb_prop in Hb as [Hc Hs].
  apply negb_true_iff, is_reserved_spec in Hres.
  assert (Hcw : is_word c = true) by (revert Hc; clear; by_cases c).
  assert (Hw : string_forall is_word (String c sym) = true) by (cbn; now rewrite Hcw).
  assert (Hkw : match_Keyword (String c sym ++ tail) = None).
  { unfold match_Keyword. destruct (boundary false _); [|reflexivity].
    apply first_keyword_word; [exact Hw|now apply quiet_head|].
    intros kw x Hin E. split.
    - intros ->. rewrite append_nil_r in E. congruence.
    - intros k x' ->. apply fold_char_quiet; [|exact Hq].
      destruct (keyword_shape kw Hin) as [_ Hsh]. rewrite E, string_forall_app in Hsh.
      apply andb_prop in Hsh as [_ Hsh]. cbn in Hsh. now apply andb_prop in Hsh as [Hk _]. }
  unfold Lexer.
  assert (match_space (String c sym ++ tail) = None) as ->.
  { unfold match_space. cbn. now rewrite (word_not_space c Hcw). }
  rewrite Hkw. cbn [named].
  assert (match_QuotedIdent (String c sym ++ tail) = None) as ->.
  { unfold match_QuotedIdent, match_quoted. cbn. now rewrite (word_not_backtick c Hcw). }
  cbn [named]. unfold match_Ident. cbn [append]. rewrite Hc.
  rewrite (span_all is_word sym tail Hs (quiet_head tail Hq)). reflexivity.
Qed.

Lemma Lexer_lbracket s : Lexer (String "[" s) = Lexed (op "[") s.
Proof. destruct s; reflexivity. Qed.

Lemma Lexer_rbracket s : Lexer (String "]" s) = Lexed (op "]") s.
Proof. destruct s; reflexivity. Qed.

Lemma Lexer_dot s : head_is is_digit s = false -> Lexer (String "." s) = Lexed (op ".") s.
Proof.
  intros H. destruct s as [|c s]; [reflexivity|]. cbn in H.
  unfold Lexer.
  assert (match_Number (String "." (String c s)) = None) as E.
  { unfold match_Number. cbn [opt_sign is_sign byte_of N_of_ascii]. cbn.
    now rewrite H. }
  rewrite E. reflexivity.
Qed.

(** ** Keywords in any case *)

Lemma fold_prefix_self w tail last :
  string_forall is_word w = true ->
  fold_prefix (ToUpper w) last (w ++ tail)
  = Some ((if nonempty w then true else last), w, tail).
Proof.
  revert last. induction w as [|c w IH]; intros last Hw; [reflexivity|].
  cbn in Hw. apply andb_prop in Hw as [Hc Hw].
  cbn [ToUpper append fold_prefix]. rewrite (fold_char_word _ c _ Hc), Ascii.eqb_refl.
  rewrite (IH true Hw). cbn. now destruct (nonempty w).
Qed.

Lemma first_keyword_some kws s kw m0 s0 :
  List.In kw kws ->
  (exists l, fold_prefix kw true s = Some (l, m0, s0) /\ boundary l s0 = true) ->
  (forall kw' l m s', List.In kw' kws -> fold_prefix kw' true s = Some (l, m, s') ->
     boundary l s' = true -> (m, s') = (m0, s0)) ->
  first_keyword kws s = Some (m0, s0).
Proof.
  induction kws as [|k kws IH]; intros Hin Hex Huniq; [destruct Hin|].
  cbn [first_keyword].
  destruct (fold_prefix k true s) as [[[l m] s']|] eqn:F.
  - destruct (boundary l s') eqn:B.
    + f_equal. apply (Huniq k l m s'); auto. now left.
    + destruct Hin as [->|Hin].
      * destruct Hex as (l' & E & B'). rewrite F in E. injection E as <- <- <-. congruence.
      * apply IH; auto. intros. eapply Huniq; eauto. now right.
  - destruct Hin as [->|Hin].
    + destruct Hex as (l' & E & _). congruence.
    + apply IH; auto. intros. eapply Huniq; eauto. now right.
Qed.

(** A reserved word of the lexer in any case, in front of something that
    continues neither a word nor a keyword, is one [Keyword] token that
    carries the text as it was written. *)
Lemma Lexer_keyword w tail :
  List.In (ToUpper w) keywords -> quiet tail = true ->
  Lexer (w ++ tail) = Lexed (mkToken Keyword w) tail.
Proof.
  intros Hin Hq.
  destruct (reserved_variant_name w (keyword_reserved _ Hin)) as [Hne Hname].
  assert (Hword : string_forall is_word w = true)
    by (apply string_forall_impl with name_char; [apply name_char_word|exact Hname]).
  assert (Hkw : match_Keyword (w ++ tail) = Some (w, tail)).
  { unfold match_Keyword.
    assert (boundary false (w ++ tail) = true) as ->.
    { destruct w as [|a w]; [discriminate|]. cbn in Hword. apply andb_prop in Hword as [Ha _].
      unfold boundary. cbn. now rewrite Ha. }
    apply first_keyword_some with (kw := ToUpper w); [exact Hin| |].
    - exists true. rewrite (fold_prefix_self w tail true Hword), Hne.
      split; [reflexivity|]. unfold boundary. now rewrite (quiet_head tail Hq).
    - intros kw' l m s' Hin' F B.
      destruct (fold_prefix_word kw' w tail true l m s' Hword F)
        as [(w2 & E & -> & Hm & Hl)|(k & kw2 & E & _)].
      + destruct w2 as [|c w2].
        * rewrite append_nil_r in E. now subst.
        * exfalso. rewrite E, string_forall_app in Hword. apply andb_prop in Hword as [_ Hw2].
          cbn in Hw2. apply andb_prop in Hw2 as [Hc _].
          destruct (keyword_shape kw' Hin') as [Hne' _]. rewrite Hne' in Hl. subst l.
          unfold boundary in B. cbn in B. now rewrite Hc in B.
      + exfalso. rewrite E in Hin'.
        apply reserved_no_extension in Hin'; [discriminate|now apply keyword_reserved]. }
  unfold Lexer. rewrite Hkw.
  destruct w as [|a w]; [discriminate|]. cbn in Hword. apply andb_prop in Hword as [Ha _].
  assert (match_space (String a w ++ tail) = None) as ->; [|reflexivity].
  unfold match_space. cbn. now rewrite (word_not_space a Ha).
Qed.

(** Under [CaseInsensitive], a literal sees only the letters of a keyword
    token, not their case. *)
Lemma fold_char_upper k c s :
  is_word c = true -> fold_char k (String (to_upper c) s) = 
  match fold_char k (String c s) with Some (w, _, s') => Some (w, String (to_upper c) "", s') | None => None end.
Proof.
  intros Hc. assert (Hu : is_word (to_upper c) = true) by (revert Hc; clear; by_cases c).
  rewrite !fold_char_word by assumption.
  assert (to_upper (to_upper c) = to_upper c) as -> by (clear; by_cases c).
  now destruct (Ascii.eqb (to_upper c) k).
Qed.

Lemma fold_prefix_upper kw : forall v last,
  string_forall is_word v = true ->
  option_map snd (fold_prefix kw last (ToUpper v))
  = option_map (fun r => ToUpper (snd r)) (fold_prefix kw last v).
Proof.
  induction kw as [|k kw IH]; intros v last Hv; [reflexivity|].
  destruct v as [|c v]; [reflexivity|].
  cbn in Hv. apply andb_prop in Hv as [Hc Hv].
  cbn [ToUpper fold_prefix]. rewrite (fold_char_upper k c _ Hc).
  rewrite !fold_char_word by exact Hc. destruct (Ascii.eqb (to_upper c) k); [|reflexivity].
  specialize (IH v true Hv).
  destruct (fold_prefix kw true (ToUpper v)) as [[[l m] s']|];
    destruct (fold_prefix kw true v) as [[[l' m'] s'']|]; cbn in *; congruence.
Qed.

Lemma EqualFold_upper v lit :
  string_forall is_word v = true -> EqualFold (ToUpper v) lit = EqualFold v lit.
Proof.
  intros Hv. unfold EqualFold. pose proof (fold_prefix_upper (ToUpper lit) v true Hv) as H.
  destruct (fold_prefix (ToUpper lit) true (ToUpper v)) as [[[l m] s']|];
    destruct (fold_prefix (ToUpper lit) true v) as [[[l' m'] s'']|]; cbn in H;
    try discriminate; [|reflexivity].
  injection H as ->. now destruct s''.
Qed.

(** ** Printed paths *)

(** *** The lexer on a printed path *)

Lemma Lex_indexes idxs tail ts :
  Lex tail = Some ts ->
  Lex (concat_strings (map (fun idx => "[" ++ Itoa idx ++ "]") idxs) ++ tail)
  = Some (flat_map index_tokens (map Itoa idxs) ++ ts)%list.
Proof.
  intros Ht. induction idxs as [|i idxs IH]; cbn [map concat_strings fold_right flat_map].
  - exact Ht.
  - change (fold_right append "" ?l) with (concat_strings l).
    set (rest := (concat_strings _ ++ tail)%string) in *.
    destruct (Itoa_shape i) as (sg & d & E & Hsg & Hne & Hd).
    replace ((("[" ++ Itoa i ++ "]") ++ concat_strings
               (map (fun idx => "[" ++ Itoa idx ++ "]") idxs)) ++ tail)%string
      with (String "[" (sg ++ d ++ String "]" rest)).
    + rewrite (Lex_token _ _ _ (Lexer_lbracket _)).
      rewrite (Lex_token _ (mkToken Number (sg ++ d)) (String "]" rest)).
      * rewrite (Lex_token _ _ _ (Lexer_rbracket _)), IH, E. reflexivity.
      * apply Lexer_number; auto. destruct Hsg; auto.
    + rewrite E. unfold rest. cbn [append]. f_equal. now rewrite !append_assoc.
Qed.

Lemma PathFragment_String_eq f :
  PathFragment_String f
  = (PathFragment_Symbol f
     ++ concat_strings (map (fun idx => "[" ++ Itoa idx ++ "]") (PathFragment_Indexes f)))%string.
Proof.
  unfold PathFragment_String. destruct (PathFragment_Indexes f); [|reflexivity].
  cbn. now rewrite append_nil_r.
Qed.

Lemma quiet_indexes idxs tail :
  quiet tail = true ->
  quiet (concat_strings (map (fun idx => "[" ++ Itoa idx ++ "]") idxs) ++ tail) = true.
Proof. intros H. destruct idxs; [exact H|reflexivity]. Qed.

Lemma Lex_fragment f tail ts :
  bare_ident (PathFragment_Symbol f) = true ->
  quiet tail = true -> Lex tail = Some ts ->
  Lex (PathFragment_String f ++ tail) = Some (fragment_tokens f ++ ts)%list.
Proof.
  intros Hb Hq Ht. rewrite PathFragment_String_eq, append_assoc.
  rewrite (Lex_token _ _ _ (Lexer_ident _ _ Hb (quiet_indexes _ _ Hq))).
  now rewrite (Lex_indexes _ _ _ Ht).
Qed.

Lemma bare_ident_head s tail :
  bare_ident s = true -> head_is is_digit (s ++ tail) = false.
Proof.
  destruct s as [|c s]; [discriminate|]. cbn [bare_ident]. intros H.
  apply andb_prop in H as [H _]. apply andb_prop in H as [H _]. cbn.
  revert H. clear. by_cases c.
Qed.

Lemma Lex_more fs :
  Forall plain_fragment fs ->
  Lex (concat_strings (map (fun f' => "." ++ PathFragment_String f') fs))
  = Some (flat_map more_tokens fs).
Proof.
  induction 1 as [|f fs (Hb & _ & _) _ IH]; [reflexivity|].
  cbn [map concat_strings fold_right flat_map].
  change (fold_right append "" ?l) with (concat_strings l).
  set (rest := concat_strings _) in *.
  change (("." ++ PathFragment_String f) ++ rest)%string
    with (String "." (PathFragment_String f ++ rest)).
  rewrite (Lex_token _ (op ".") (PathFragment_String f ++ rest)).
  - rewrite (Lex_fragment f rest (flat_map more_tokens fs) Hb); [reflexivity| |exact IH].
    unfold rest. clear. now destruct fs.
  - apply Lexer_dot. rewrite PathFragment_String_eq, append_assoc.
    now apply bare_ident_head.
Qed.

Lemma Lex_path p s :
  plain_path p -> DocumentPath_String p = Some s -> Lex s = Some (path_tokens p).
Proof.
  intros (Hne & _ & Hall). unfold DocumentPath_String, path_tokens.
  destruct (DocumentPath_Fragment p) as [|f fs]; [congruence|].
  inversion Hall as [|? ? (Hb & _ & _) Hfs]; subst. intros [= <-].
  apply Lex_fragment; [exact Hb| |now apply Lex_more].
  clear. now destruct fs.
Qed.

(** The mappers leave the tokens of a printed path as they are. *)
Lemma map_tokens_plain ts :
  Forall (fun t => Token_Type t <> String_ /\ Token_Type t <> QuotedIdent) ts ->
  map_tokens ts = Some ts.
Proof.
  induction 1 as [|t ts [H1 H2] _ IH]; [reflexivity|]. cbn [map_tokens]. rewrite IH.
  unfold map_token. destruct t as [[] v]; cbn in *; congruence.
Qed.

Lemma index_tokens_plain l :
  Forall (fun t => Token_Type t <> String_ /\ Token_Type t <> QuotedIdent)
         (flat_map index_tokens l).
Proof.
  induction l; cbn; [constructor|]. repeat (constructor; [split; discriminate|]). exact IHl.
Qed.

Lemma fragment_tokens_plain f :
  Forall (fun t => Token_Type t <> String_ /\ Token_Type t <> QuotedIdent) (fragment_tokens f).
Proof. constructor; [split; discriminate|apply index_tokens_plain]. Qed.

Lemma path_tokens_plain p :
  Forall (fun t => Token_Type t <> String_ /\ Token_Type t <> QuotedIdent) (path_tokens p).
Proof.
  unfold path_tokens. destruct (DocumentPath_Fragment p) as [|f fs]; [constructor|].
  apply Forall_app. split; [apply fragment_tokens_plain|].
  induction fs as [|g fs IH]; cbn [flat_map]; [constructor|].
  apply Forall_app. split; [|exact IH].
  constructor; [split; discriminate|apply fragment_tokens_plain].
Qed.

Lemma Tokens_path p s :
  plain_path p -> DocumentPath_String p = Some s -> Tokens s = Some (path_tokens p).
Proof.
  intros Hp Hs. unfold Tokens. rewrite (Lex_path p s Hp Hs).
  apply map_tokens_plain, path_tokens_plain.
Qed.

(** *** The grammar on the tokens of a printed path *)

(** A repetition over the tokens of a list of items reads the list, when
    its body reads each item in front of what may follow it. *)
Lemma repetition_loop_items {A} (p : Node A) (chunk : A -> list Token)
    (ok : A -> Prop) (after : list Token -> Prop) :
  (forall a rest, ok a -> after rest -> p (chunk a ++ rest)%list = Matched a rest) ->
  (forall a, chunk a <> []) ->
  (forall a rest, after (chunk a ++ rest)%list) ->
  forall l rest fuel i,
    Forall ok l -> after rest -> p rest = NoMatch ->
    (i + N.of_nat (length l) < MaxIterations)%N ->
    (length (flat_map chunk l ++ rest) < fuel)%nat ->
    repetition_loop p fuel i (flat_map chunk l ++ rest)%list = Matched l rest.
Proof.
  intros Hp Hne Hafter l. induction l as [|a l IH]; intros rest fuel i Hok Hr Hend Hi Hfuel.
  - destruct fuel as [|fuel]; [lia|]. apply repetition_loop_end; [cbn in Hi; lia|exact Hend].
  - inversion Hok as [|? ? Ha Hl]; subst. destruct fuel as [|fuel]; [lia|].
    cbn [flat_map] in *. rewrite <- app_assoc in *.
    assert (Hnext : after (flat_map chunk l ++ rest)%list).
    { destruct l as [|b l]; [exact Hr|]. cbn [flat_map]. rewrite <- app_assoc. apply Hafter. }
    rewrite (repetition_loop_step p fuel i _ a (flat_map chunk l ++ rest)%list).
    + rewrite IH; [reflexivity|exact Hl|exact Hr|exact Hend| |].
      * cbn [length] in Hi. lia.
      * rewrite List.length_app in Hfuel.
        specialize (Hne a). destruct (chunk a); [congruence|]. cbn [length] in Hfuel. lia.
    + cbn [length] in Hi. lia.
    + now apply Hp.
    + rewrite (List.length_app (chunk a)). specialize (Hne a).
      destruct (chunk a); [congruence|]. cbn [length]. lia.
Qed.

Lemma repetition_items {A} (p : Node A) (chunk : A -> list Token)
    (ok : A -> Prop) (after : list Token -> Prop) l rest :
  (forall a rest, ok a -> after rest -> p (chunk a ++ rest)%list = Matched a rest) ->
  (forall a, chunk a <> []) ->
  (forall a rest, after (chunk a ++ rest)%list) ->
  Forall ok l -> after rest -> p rest = NoMatch ->
  (N.of_nat (length l) < MaxIterations)%N ->
  repetition p (flat_map chunk l ++ rest)%list = Matched l rest.
Proof.
  intros Hp Hne Hafter Hok Hr Hend Hi. unfold repetition.
  apply (repetition_loop_items p chunk ok after Hp Hne Hafter); auto; lia.
Qed.

Lemma PathFragment_index_tokens lx rest :
  PathFragment_index (index_tokens lx ++ rest)%list = Matched lx rest.
Proof. reflexivity. Qed.

Lemma ParseInts_Itoa idxs : Forall in_int64 idxs -> ParseInts (map Itoa idxs) = Some idxs.
Proof.
  induction 1 as [|i idxs Hi _ IH]; [reflexivity|].
  cbn [map ParseInts]. now rewrite (ParseInt_Itoa i Hi), IH.
Qed.

Lemma PathFragment_node_tokens f rest :
  plain_fragment f -> no_index rest ->
  PathFragment_node (fragment_tokens f ++ rest)%list = Matched f rest.
Proof.
  intros (Hb & Hn & Hr) Hrest. unfold PathFragment_node.
  apply strct_Matched with (a := (PathFragment_Symbol f, map Itoa (PathFragment_Indexes f))).
  - unfold fragment_tokens. cbn [app].
    rewrite bind_Matched with (a := PathFragment_Symbol f)
        (rest := (flat_map index_tokens (map Itoa (PathFragment_Indexes f)) ++ rest)%list)
      by reflexivity.
    rewrite bind_Matched with (a := map Itoa (PathFragment_Indexes f)) (rest := rest);
      [reflexivity|].
    apply must_Matched.
    apply (repetition_items PathFragment_index index_tokens (fun _ => True) (fun _ => True)).
    + intros. apply PathFragment_index_tokens.
    + discriminate.
    + exact (fun _ _ => I).
    + clear. induction (map Itoa (PathFragment_Indexes f)); constructor; auto.
    + exact I.
    + unfold PathFragment_index. now apply bind_NoMatch.
    + now rewrite length_map.
  - unfold PathFragment_set. cbn [fst snd]. rewrite (ParseInts_Itoa _ Hr). now destruct f.
Qed.

Lemma DocumentPath_more_tokens f rest :
  plain_fragment f -> no_index rest ->
  DocumentPath_more (more_tokens f ++ rest)%list = Matched f rest.
Proof.
  intros Hf Hrest. unfold DocumentPath_more, more_tokens. cbn [app].
  rewrite bind_Matched with (a := ".") (rest := (fragment_tokens f ++ rest)%list) by reflexivity.
  rewrite bind_Matched with (a := f) (rest := rest); [reflexivity|].
  now apply must_Matched, PathFragment_node_tokens.
Qed.

Lemma DocumentPath_node_tokens p :
  plain_path p -> DocumentPath_node (path_tokens p) = Matched p [].
Proof.
  intros (Hne & Hn & Hall). unfold path_tokens, DocumentPath_node.
  destruct p as [fs]. cbn [DocumentPath_Fragment] in *.
  destruct fs as [|f fs]; [congruence|]. inversion Hall as [|? ? Hf Hfs]; subst.
  assert (Hrep : repetition DocumentPath_more (flat_map more_tokens fs ++ [])%list = Matched fs []).
  { apply (repetition_items DocumentPath_more more_tokens plain_fragment no_index).
    - intros. now apply DocumentPath_more_tokens.
    - discriminate.
    - reflexivity.
    - exact Hfs.
    - reflexivity.
    - reflexivity.
    - cbn [length] in Hn. lia. }
  rewrite app_nil_r in Hrep.
  apply strct_Matched with (a := mkDocumentPath (f :: fs)); [|reflexivity].
  rewrite bind_Matched with (a := f) (rest := flat_map more_tokens fs).
  - rewrite bind_Matched with (a := fs) (rest := []); [reflexivity|].
    now apply must_Matched.
  - apply PathFragment_node_tokens; [exact Hf|]. clear. now destruct fs.
Qed.

(** ** No node runs out of fuel *)

Lemma bounded_le {A} (r : Result A) ts ts' :
  bounded r ts -> (length ts <= length ts')%nat -> bounded r ts'.
Proof. destruct r; cbn [bounded]; lia. Qed.

Lemma sound_ret {A} n (a : A) : sound_on n (ret a).
Proof. intros ts _. cbn [bounded ret]. lia. Qed.

Section Sound.
Context {A B : Type}.
Implicit Types (p : Node A) (f : A -> Node B) (n : nat).

Lemma sound_on_le n m p : (m <= n)%nat -> sound_on n p -> sound_on m p.
Proof. intros Hm H ts Hts. apply H. lia. Qed.

Lemma sound_bind n p f :
  sound_on n p -> (forall a, sound_on n (f a)) -> sound_on n (bind p f).
Proof.
  intros Hp Hf ts Hts. unfold bind. specialize (Hp ts Hts).
  destruct (p ts) as [a rest| |rest| |]; cbn [bounded] in *; auto; try lia.
  apply bounded_le with rest; [|exact Hp]. apply Hf. lia.
Qed.

Lemma sound_must n p : sound_on n p -> sound_on n (must p).
Proof.
  intros Hp ts Hts. unfold must. specialize (Hp ts Hts).
  destruct (p ts); cbn [bounded] in *; auto; try lia.
Qed.

Lemma sound_fmap n (g : A -> B) p : sound_on n p -> sound_on n (fmap g p).
Proof. intros Hp. apply sound_bind; [exact Hp|]. intros a. exact (sound_ret n (g a)). Qed.

Lemma sound_strct n p (g : A -> option B) : sound_on n p -> sound_on n (strct p g).
Proof.
  intros Hp ts Hts. unfold strct. specialize (Hp ts Hts).
  destruct (p ts) as [a rest| |rest| |]; cbn [bounded] in *; auto; try lia. now destruct (g a).
Qed.

Lemma sound_optional n p : sound_on n p -> sound_on n (optional p).
Proof.
  intros Hp ts Hts. unfold optional. specialize (Hp ts Hts).
  destruct (p ts) as [a rest| |rest| |]; cbn [bounded] in *; auto; try lia.
  destruct (Stop ts rest); cbn [bounded]; auto; lia.
Qed.

Lemma sound_disjunction_from n failed (alts : list (Node A)) :
  Forall (sound_on n) alts -> sound_on n (disjunction_from failed alts).
Proof.
  intros H. revert failed. induction H as [|p alts Hp _ IH]; intros failed ts Hts.
  - cbn [disjunction_from]. destruct failed; cbn [bounded]; auto; lia.
  - cbn [disjunction_from]. specialize (Hp ts Hts).
    destruct (p ts) as [a rest| |rest| |]; cbn [bounded] in *; auto; try lia.
    + now apply IH.
    + destruct (Stop ts rest); [exact Hp|now apply IH].
Qed.

Lemma sound_disjunction n (alts : list (Node A)) :
  Forall (sound_on n) alts -> sound_on n (disjunction alts).
Proof. apply sound_disjunction_from. Qed.

Lemma sound_repetition_loop n p : sound_on n p ->
  forall fuel i ts, (length ts <= n)%nat -> (length ts < fuel)%nat ->
    bounded (repetition_loop p fuel i ts) ts.
Proof.
  intros Hp fuel. induction fuel as [|fuel IH]; intros i ts Hts Hfuel; [lia|].
  cbn [repetition_loop]. destruct (N.leb MaxIterations i); [exact I|].
  specialize (Hp ts Hts). destruct (p ts) as [a rest| |rest| |]; cbn [bounded] in *; auto; try lia.
  - destruct (Nat.ltb_spec (length rest) (length ts)) as [Hlt|]; [|exact I].
    specialize (IH (i + 1)%N rest). 
    destruct (repetition_loop p fuel (i + 1) rest); cbn [bounded] in *; try (apply IH; lia).
    + assert (length rest0 <= length rest)%nat by (apply IH; lia). lia.
    + assert (length rest0 <= length rest)%nat by (apply IH; lia). lia.
  - destruct (Stop ts rest); cbn [bounded]; auto; lia.
Qed.

Lemma sound_repetition n p : sound_on n p -> sound_on n (repetition p).
Proof.
  intros Hp ts Hts. unfold repetition. apply sound_repetition_loop with n; auto.
Qed.
End Sound.

Lemma sound_literal n l : sound_on n (literal l).
Proof.
  intros ts _. unfold literal. destruct ts as [|t ts]; [exact I|].
  destruct (literal_eq l t); cbn [bounded length]; [lia|exact I].
Qed.

Lemma sound_reference n ty : sound_on n (reference ty).
Proof.
  intros ts _. unfold reference. destruct ts as [|t ts]; [exact I|].
  destruct (TokenType_eqb _ _); cbn [bounded length]; [lia|exact I].
Qed.

(** After a literal the rest of a sequence sees one token less. *)
Lemma sound_after_literal {B} n l (f : string -> Node B) :
  (forall a, sound_on n (f a)) -> sound_on (S n) (bind (literal l) f).
Proof.
  intros Hf ts Hts. unfold bind, literal. destruct ts as [|t ts]; [exact I|].
  destruct (literal_eq l t); [|exact I].
  apply bounded_le with ts; [|cbn [length]; lia]. apply Hf. cbn [length] in Hts. lia.
Qed.

Lemma sound_on_0_literal {B} l (f : string -> Node B) : sound_on 0 (bind (literal l) f).
Proof. intros ts Hts. destruct ts; [exact I|cbn [length] in Hts; lia]. Qed.

Create HintDb sound.
#[local] Hint Resolve sound_ret sound_bind sound_must sound_fmap sound_strct sound_optional
  sound_disjunction sound_repetition sound_literal sound_reference : sound.
#[local] Hint Constructors Forall : sound.
#[local] Hint Extern 1 (forall _, sound_on _ _) => intro; cbv beta : sound.
#[local] Hint Extern 1 (sound_on _ (let '(_, _) := ?x in _)) => destruct x : sound.

Lemma sound_ident_or_quoted n : sound_on n ident_or_quoted.
Proof. unfold ident_or_quoted. eauto with sound. Qed.
#[local] Hint Resolve sound_ident_or_quoted : sound.

Lemma sound_ProvisionedThroughput n : sound_on n ProvisionedThroughput_node.
Proof. unfold ProvisionedThroughput_node. eauto 30 with sound. Qed.
#[local] Hint Resolve sound_ProvisionedThroughput : sound.

Lemma sound_Projection n : sound_on n Projection_node.
Proof. unfold Projection_node. eauto 30 with sound. Qed.
#[local] Hint Resolve sound_Projection : sound.

Lemma sound_GlobalSecondaryIndex n : sound_on n GlobalSecondaryIndex_node.
Proof. unfold GlobalSecondaryIndex_node. eauto 60 with sound. Qed.
#[local] Hint Resolve sound_GlobalSecondaryIndex : sound.

Lemma sound_LocalSecondaryIndex n : sound_on n LocalSecondaryIndex_node.
Proof. unfold LocalSecondaryIndex_node. eauto 60 with sound. Qed.
#[local] Hint Resolve sound_LocalSecondaryIndex : sound.

Lemma sound_TableAttr n : sound_on n TableAttr_node.
Proof. unfold TableAttr_node. eauto 30 with sound. Qed.
#[local] Hint Resolve sound_TableAttr : sound.

Lemma sound_CreateTableEntry n : sound_on n CreateTableEntry_node.
Proof. unfold CreateTableEntry_node. eauto 30 with sound. Qed.
#[local] Hint Resolve sound_CreateTableEntry : sound.

Lemma sound_CreateTable n : sound_on n CreateTable_node.
Proof. unfold CreateTable_node. eauto 30 with sound. Qed.
#[local] Hint Resolve sound_CreateTable : sound.

Lemma sound_Scalar_alternatives {B} n (g : ScalarCapture -> B) :
  Forall (sound_on n) (map (fmap g) Scalar_alternatives).
Proof. unfold Scalar_alternatives. cbn [map]. eauto 30 with sound. Qed.

Lemma sound_Value_alternatives {B} n (g : ValueCapture -> B) :
  Forall (sound_on n) (map (fmap g) Value_alternatives).
Proof.
  unfold Value_alternatives. rewrite map_app. apply Forall_app. split.
  - rewrite map_map. unfold Scalar_alternatives. cbn [map]. eauto 30 with sound.
  - cbn [map]. eauto 30 with sound.
Qed.

Lemma sound_Value n : sound_on n Value_node.
Proof.
  unfold Value_node. apply sound_strct, sound_disjunction.
  pose proof (sound_Value_alternatives n (fun c => c)) as H.
  clear -H. induction Value_alternatives as [|p l IH]; [constructor|].
  cbn [map] in H. inversion H as [|? ? Hp Hl]; subst. constructor; [|now apply IH].
  intros ts Hts. specialize (Hp ts Hts). unfold fmap, bind, ret in Hp. now destruct (p ts).
Qed.
#[local] Hint Resolve sound_Value : sound.

Lemma sound_PathFragment_index n : sound_on n PathFragment_index.
Proof. unfold PathFragment_index. eauto 30 with sound. Qed.
#[local] Hint Resolve sound_PathFragment_index : sound.

Lemma sound_PathFragment n : sound_on n PathFragment_node.
Proof. unfold PathFragment_node. eauto 30 with sound. Qed.
#[local] Hint Resolve sound_PathFragment : sound.

Lemma sound_DocumentPath_more n : sound_on n DocumentPath_more.
Proof. unfold DocumentPath_more. eauto 30 with sound. Qed.
#[local] Hint Resolve sound_DocumentPath_more : sound.

Lemma sound_DocumentPath n : sound_on n DocumentPath_node.
Proof. unfold DocumentPath_node. eauto 30 with sound. Qed.
#[local] Hint Resolve sound_DocumentPath : sound.

Lemma sound_FunctionArgument n : sound_on n FunctionArgument_node.
Proof. unfold FunctionArgument_node. eauto 30 with sound. Qed.
#[local] Hint Resolve sound_FunctionArgument : sound.

Lemma sound_FunctionExpression n : sound_on n FunctionExpression_node.
Proof. unfold FunctionExpression_node. eauto 30 with sound. Qed.
#[local] Hint Resolve sound_FunctionExpression : sound.

Lemma sound_Operand n : sound_on n Operand_node.
Proof. unfold Operand_node. eauto 30 with sound. Qed.
#[local] Hint Resolve sound_Operand : sound.

Lemma sound_Compare n : sound_on n Compare_node.
Proof. unfold Compare_node, compare_operators. cbn [map]. eauto 30 with sound. Qed.
#[local] Hint Resolve sound_Compare : sound.

Lemma sound_Between n : sound_on n Between_node.
Proof. unfold Between_node. eauto 30 with sound. Qed.
#[local] Hint Resolve sound_Between : sound.

Lemma sound_In n : sound_on n In_node.
Proof. unfold In_node. eauto 30 with sound. Qed.
#[local] Hint Resolve sound_In : sound.

Lemma sound_ConditionRHS n : sound_on n ConditionRHS_node.
Proof. unfold ConditionRHS_node. eauto 30 with sound. Qed.
#[local] Hint Resolve sound_ConditionRHS : sound.

Lemma sound_ConditionOperand n : sound_on n ConditionOperand_node.
Proof. unfold ConditionOperand_node. eauto 30 with sound. Qed.
#[local] Hint Resolve sound_ConditionOperand : sound.

Lemma sound_AndExpression_over n cond : sound_on n cond -> sound_on n (AndExpression_over cond).
Proof. intros H. unfold AndExpression_over. eauto 30 with sound. Qed.
#[local] Hint Resolve sound_AndExpression_over : sound.

Lemma sound_ConditionExpression_over n cond :
  sound_on n cond -> sound_on n (ConditionExpression_over cond).
Proof. intros H. unfold ConditionExpression_over. eauto 30 with sound. Qed.
#[local] Hint Resolve sound_ConditionExpression_over : sound.

Lemma sound_ParenthesizedExpression_over n cond :
  sound_on n cond -> sound_on n (ParenthesizedExpression_over cond).
Proof. intros H. unfold ParenthesizedExpression_over. eauto 30 with sound. Qed.
#[local] Hint Resolve sound_ParenthesizedExpression_over : sound.

Lemma sound_NotCondition_over n cond : sound_on n cond -> sound_on n (NotCondition_over cond).
Proof. intros H. unfold NotCondition_over. eauto 30 with sound. Qed.
#[local] Hint Resolve sound_NotCondition_over : sound.

(** With one unit of fuel more than there are tokens, [Condition_node]
    never runs out of it. *)
Lemma sound_Condition n : sound_on n (Condition_node (S n)).
Proof.
  induction n as [|n IH]; change (Condition_node (S ?f)) with (Condition_over (Condition_node f));
    unfold Condition_over; apply sound_strct, sound_disjunction.
  - repeat constructor; auto using sound_on_0_literal with sound.
  - repeat constructor; auto with sound; apply sound_after_literal; eauto 30 with sound.
Qed.
#[local] Hint Resolve sound_Condition : sound.

Lemma sound_AndExpression n fuel : (n < fuel)%nat -> sound_on n (AndExpression_node fuel).
Proof.
  intros H. unfold AndExpression_node. apply sound_AndExpression_over.
  destruct fuel as [|fuel]; [lia|]. apply sound_on_le with fuel; [lia|apply sound_Condition].
Qed.

Lemma sound_JSONObjectEntry_over n value :
  sound_on n value -> sound_on n (JSONObjectEntry_over value).
Proof. intros H. unfold JSONObjectEntry_over. eauto 30 with sound. Qed.
#[local] Hint Resolve sound_JSONObjectEntry_over : sound.

Lemma sound_JSONObject_entries n value :
  sound_on n value -> sound_on n (JSONObject_entries value).
Proof. intros H. unfold JSONObject_entries. eauto 30 with sound. Qed.
#[local] Hint Resolve sound_JSONObject_entries : sound.

Lemma sound_JSONArray_entries n value :
  sound_on n value -> sound_on n (JSONArray_entries value).
Proof. intros H. unfold JSONArray_entries. eauto 30 with sound. Qed.
#[local] Hint Resolve sound_JSONArray_entries : sound.

(** An object or an array of at most [S n] tokens, over values that are
    sound on [n] tokens: the values come after the opening token. *)
Lemma sound_JSONObject_over n value :
  sound_on n value -> sound_on (S n) (JSONObject_over value).
Proof.
  intros H. unfold JSONObject_over. apply sound_strct, sound_after_literal.
  eauto 30 with sound.
Qed.

Lemma sound_JSONArray_over n value :
  sound_on n value -> sound_on (S n) (JSONArray_over value).
Proof.
  intros H. unfold JSONArray_over. apply sound_strct, sound_after_literal.
  eauto 30 with sound.
Qed.

Lemma sound_JSONObject_over_0 value : sound_on 0 (JSONObject_over value).
Proof. unfold JSONObject_over. apply sound_strct, sound_on_0_literal. Qed.

Lemma sound_JSONArray_over_0 value : sound_on 0 (JSONArray_over value).
Proof. unfold JSONArray_over. apply sound_strct, sound_on_0_literal. Qed.

Lemma sound_JSONValue n : sound_on n (JSONValue_node (S n)).
Proof.
  induction n as [|n IH]; change (JSONValue_node (S ?f)) with (JSONValue_over (JSONValue_node f));
    unfold JSONValue_over; apply sound_strct, sound_disjunction, Forall_app; split;
    try apply sound_Scalar_alternatives; repeat constructor; apply sound_fmap.
  - apply sound_JSONObject_over_0.
  - apply sound_JSONArray_over_0.
  - now apply sound_JSONObject_over.
  - now apply sound_JSONArray_over.
Qed.

Lemma sound_JSONObject n fuel : (n <= fuel)%nat -> sound_on n (JSONObject_node fuel).
Proof.
  intros H. unfold JSONObject_node. destruct n as [|n]; [apply sound_JSONObject_over_0|].
  apply sound_JSONObject_over. destruct fuel as [|fuel]; [lia|].
  apply sound_on_le with fuel; [lia|apply sound_JSONValue].
Qed.

Lemma sound_table_name n : sound_on n table_name.
Proof. unfold table_name. eauto 30 with sound. Qed.
#[local] Hint Resolve sound_table_name : sound.

Lemma sound_InsertTerminal n fuel : (n <= fuel)%nat -> sound_on n (InsertTerminal_node fuel).
Proof.
  intros H. unfold InsertTerminal_node. apply sound_strct, sound_disjunction, Forall_app.
  split; [apply sound_Value_alternatives|].
  repeat constructor. now apply sound_fmap, sound_JSONObject.
Qed.

Lemma sound_Insert_into_values n fuel : (n <= fuel)%nat -> sound_on n (Insert_into_values fuel).
Proof.
  intros H. pose proof (sound_InsertTerminal n fuel H).
  unfold Insert_into_values. eauto 40 with sound.
Qed.

Lemma sound_Insert_returning n : sound_on n Insert_returning.
Proof. unfold Insert_returning. eauto 30 with sound. Qed.

Lemma sound_Insert n fuel : (n <= fuel)%nat -> sound_on n (Insert_node fuel).
Proof.
  intros H. pose proof (sound_Insert_into_values n fuel H). pose proof (sound_Insert_returning n).
  unfold Insert_node. eauto 30 with sound.
Qed.

Lemma sound_ProjectionColumn n : sound_on n ProjectionColumn_node.
Proof. unfold ProjectionColumn_node. eauto 30 with sound. Qed.
#[local] Hint Resolve sound_ProjectionColumn : sound.

Lemma sound_ProjectionExpression n : sound_on n ProjectionExpression_node.
Proof. unfold ProjectionExpression_node. eauto 40 with sound. Qed.
#[local] Hint Resolve sound_ProjectionExpression : sound.

Lemma sound_Select n fuel : (n < fuel)%nat -> sound_on n (Select_node fuel).
Proof.
  intros H. pose proof (sound_AndExpression n fuel H).
  unfold Select_node. apply sound_strct.
  repeat (apply sound_bind; [eauto 30 with sound|intro]). apply sound_ret.
Qed.

Lemma sound_AST n fuel : (n < fuel)%nat -> sound_on n (AST_node fuel).
Proof.
  intros H. pose proof (sound_Select n fuel H).
  assert (sound_on n (Insert_node fuel)) by (apply sound_Insert; lia).
  unfold AST_node, AST_statement. eauto 40 with sound.
Qed.

Theorem ParseTokens_fuel ts : ParseTokens ts <> NoFuel.
Proof.
  unfold ParseTokens.
  pose proof (sound_AST (length ts) (S (length ts)) (Nat.lt_succ_diag_r _) ts (Nat.le_refl _)) as H.
  destruct (AST_node _ ts) as [a [|]| | | |]; cbn in H; try discriminate. contradiction.
Qed.

Theorem Parse_fuel s : Parse s <> NoFuel.
Proof. unfold Parse. destruct (Tokens s); [apply ParseTokens_fuel|discriminate]. Qed.

(** ** The case of keywords *)

Lemma same_tokens_length ts ts' : same_tokens ts ts' -> length ts = length ts'.
Proof. induction 1; cbn; congruence. Qed.

Lemma same_tokens_Stop ts ts' r r' :
  same_tokens ts ts' -> same_tokens r r' -> Stop ts r = Stop ts' r'.
Proof.
  intros H1 H2. unfold Stop.
  now rewrite (same_tokens_length _ _ H1), (same_tokens_length _ _ H2).
Qed.

Lemma keyword_variant_word v :
  List.In (ToUpper v) keywords -> string_forall is_word v = true.
Proof.
  intros H. destruct (reserved_variant_name v (keyword_reserved _ H)) as [_ Hn].
  apply string_forall_impl with name_char; [apply name_char_word|exact Hn].
Qed.

(** A literal answers alike on the two cases of a keyword. *)
Lemma same_token_literal_eq l t t' : same_token t t' -> literal_eq l t = literal_eq l t'.
Proof.
  intros [->|(H1 & H2 & Hu & Hin)]; [reflexivity|].
  unfold literal_eq. rewrite H1, H2.
  rewrite <- (EqualFold_upper (Token_Value t)) by now apply keyword_variant_word.
  rewrite <- (EqualFold_upper (Token_Value t')); [now rewrite Hu|].
  apply keyword_variant_word. now rewrite <- Hu.
Qed.

Lemma same_token_upper t t' : same_token t t' -> upper_eq (Token_Value t) (Token_Value t').
Proof. intros [->|(_ & _ & Hu & _)]; [reflexivity|exact Hu]. Qed.

Lemma agree_literal l : agree upper_eq (literal l) (literal l).
Proof.
  intros ts ts' H. destruct H as [|t t' ts ts' Ht Hts]; [exact I|].
  unfold literal. rewrite (same_token_literal_eq l t t' Ht).
  destruct (literal_eq l t'); [|exact I]. split; [now apply same_token_upper|exact Hts].
Qed.

Lemma respects_literal l : not_keyword l = true -> respects (literal l).
Proof.
  intros Hl ts ts' H. destruct H as [|t t' ts ts' Ht Hts]; [exact I|].
  unfold literal. rewrite (same_token_literal_eq l t t' Ht).
  destruct (literal_eq l t') eqn:E; [|exact I]. split; [|exact Hts].
  destruct Ht as [->|(H1 & H2 & Hu & Hin)]; [reflexivity|]. exfalso.
  unfold literal_eq in E. rewrite H2 in E.
  rewrite <- (EqualFold_upper (Token_Value t')) in E
    by (apply keyword_variant_word; now rewrite <- Hu).
  unfold not_keyword in Hl. rewrite forallb_forall in Hl.
  rewrite Hu in Hin. specialize (Hl _ Hin). now rewrite E in Hl.
Qed.

Lemma respects_reference ty : ty <> Keyword -> respects (reference ty).
Proof.
  intros Hty ts ts' H. destruct H as [|t t' ts ts' Ht Hts]; [exact I|].
  unfold reference. destruct Ht as [->|(H1 & H2 & Hu & Hin)].
  - destruct (TokenType_eqb _ _); [now split|exact I].
  - rewrite H1, H2. now rewrite (TokenType_eqb_neq Keyword ty) by congruence.
Qed.

Lemma alike_impl {A} (R S : A -> A -> Prop) r r' :
  (forall a a', R a a' -> S a a') -> alike R r r' -> alike S r r'.
Proof. intros H. destruct r, r'; cbn; intuition. Qed.

Lemma agree_impl {A} (R S : A -> A -> Prop) p p' :
  (forall a a', R a a' -> S a a') -> agree R p p' -> agree S p p'.
Proof. intros H Hp ts ts' Hts. eapply alike_impl; eauto. Qed.

Section Agree.
Context {A B : Type} (R : A -> A -> Prop) (S : B -> B -> Prop).

Lemma agree_ret (b b' : B) : S b b' -> agree S (ret b) (ret b').
Proof. intros H ts ts' Hts. now split. Qed.

Lemma agree_bind p p' (f f' : A -> Node B) :
  agree R p p' -> (forall a a', R a a' -> agree S (f a) (f' a')) ->
  agree S (bind p f) (bind p' f').
Proof.
  intros Hp Hf ts ts' Hts. unfold bind. specialize (Hp ts ts' Hts).
  destruct (p ts), (p' ts'); cbn in Hp; try contradiction; try exact Hp; try exact I.
  destruct Hp as [Ha Hr]. now apply Hf.
Qed.

Lemma agree_must p p' : agree R p p' -> agree R (must p) (must p').
Proof.
  intros Hp ts ts' Hts. unfold must. specialize (Hp ts ts' Hts).
  destruct (p ts), (p' ts'); cbn in *; try contradiction; auto.
Qed.

Lemma agree_fmap (g g' : A -> B) p p' :
  agree R p p' -> (forall a a', R a a' -> S (g a) (g' a')) ->
  agree S (fmap g p) (fmap g' p').
Proof.
  intros Hp Hg. unfold fmap. apply agree_bind; [exact Hp|].
  intros a a' Ha. apply agree_ret. now apply Hg.
Qed.

Lemma agree_strct (g g' : A -> option B) p p' :
  agree R p p' -> (forall a a', R a a' -> option_rel S (g a) (g' a')) ->
  agree S (strct p g) (strct p' g').
Proof.
  intros Hp Hg ts ts' Hts. unfold strct. specialize (Hp ts ts' Hts).
  destruct (p ts) as [a r| |r| |], (p' ts') as [a' r'| |r'| |]; cbn in Hp;
    try contradiction; try exact Hp; try exact I.
  destruct Hp as [Ha Hr]. specialize (Hg a a' Ha).
  destruct (g a), (g' a'); cbn in Hg; try contradiction; cbn; auto.
Qed.

Lemma agree_optional p p' : agree R p p' -> agree (option_rel R) (optional p) (optional p').
Proof.
  intros Hp ts ts' Hts. unfold optional. specialize (Hp ts ts' Hts).
  destruct (p ts) as [a r| |r| |], (p' ts') as [a' r'| |r'| |]; cbn in Hp;
    try contradiction; try exact Hp; try exact I.
  - now split.
  - rewrite (same_tokens_Stop ts ts' r r' Hts Hp).
    destruct (Stop ts' r'); [exact Hp|now split].
Qed.

Lemma agree_disjunction_from failed alts alts' :
  Forall2 (agree R) alts alts' ->
  agree R (disjunction_from failed alts) (disjunction_from failed alts').
Proof.
  intros H. revert failed. induction H as [|p p' alts alts' Hp _ IH]; intros failed ts ts' Hts.
  - cbn. now destruct failed.
  - cbn [disjunction_from]. specialize (Hp ts ts' Hts).
    destruct (p ts) as [a r| |r| |], (p' ts') as [a' r'| |r'| |]; cbn in Hp;
      try contradiction; try exact Hp; try exact I.
    + now apply IH.
    + rewrite (same_tokens_Stop ts ts' r r' Hts Hp).
      destruct (Stop ts' r'); [exact Hp|now apply IH].
Qed.

Lemma agree_disjunction alts alts' :
  Forall2 (agree R) alts alts' -> agree R (disjunction alts) (disjunction alts').
Proof. apply agree_disjunction_from. Qed.

Lemma agree_repetition_loop p p' : agree R p p' ->
  forall fuel i, agree (Forall2 R) (repetition_loop p fuel i) (repetition_loop p' fuel i).
Proof.
  intros Hp fuel. induction fuel as [|fuel IH]; intros i ts ts' Hts.
  - cbn. now destruct (N.leb MaxIterations i).
  - cbn [repetition_loop]. destruct (N.leb MaxIterations i); [exact I|].
    specialize (Hp ts ts' Hts).
    destruct (p ts) as [a r| |r| |], (p' ts') as [a' r'| |r'| |]; cbn in Hp;
      try contradiction; try exact Hp; try exact I.
    + destruct Hp as [Ha Hr].
      rewrite (same_tokens_length _ _ Hts), (same_tokens_length _ _ Hr).
      destruct (Nat.ltb _ _); [|exact I].
      specialize (IH (i + 1)%N r r' Hr).
      destruct (repetition_loop p fuel (i + 1) r), (repetition_loop p' fuel (i + 1) r');
        cbn in IH; try contradiction; try exact IH; try exact I.
      destruct IH as [Hl Hrest]. split; [now constructor|exact Hrest].
    + now split.
    + rewrite (same_tokens_Stop ts ts' r r' Hts Hp).
      destruct (Stop ts' r'); [exact Hp|now split].
Qed.

Lemma agree_repetition p p' :
  agree R p p' -> agree (Forall2 R) (repetition p) (repetition p').
Proof.
  intros Hp ts ts' Hts. unfold repetition. rewrite (same_tokens_length _ _ Hts).
  now apply agree_repetition_loop.
Qed.
End Agree.

Lemma option_rel_eq {A} (a b : option A) : option_rel eq a b <-> a = b.
Proof. destruct a, b; cbn; split; try congruence; try tauto. Qed.

Lemma Forall2_eq {A} (l l' : list A) : Forall2 eq l l' <-> l = l'.
Proof.
  split.
  - induction 1; congruence.
  - intros <-. induction l; constructor; auto.
Qed.

Lemma alike_refl_eq {A} (S : A -> A -> Prop) (r r' : Result A) :
  (forall a, S a a) -> alike eq r r' -> alike S r r'.
Proof. intros H. apply alike_impl. now intros a a' <-. Qed.

Section Respects.
Context {A B : Type}.

Lemma respects_ret (b : B) : respects (ret b).
Proof. now apply agree_ret. Qed.

Lemma respects_bind (p : Node A) (f : A -> Node B) :
  respects p -> (forall a, respects (f a)) -> respects (bind p f).
Proof. intros Hp Hf. apply agree_bind with eq; [exact Hp|]. intros a a' <-. apply Hf. Qed.

(** A value that the rest of the sequence does not look at. *)
Lemma respects_skip (R : A -> A -> Prop) (p : Node A) (q : Node B) :
  agree R p p -> respects q -> respects (bind p (fun _ => q)).
Proof. intros Hp Hq. apply agree_bind with R; [exact Hp|]. intros _ _ _. exact Hq. Qed.

Lemma respects_must (p : Node A) : respects p -> respects (must p).
Proof. apply agree_must. Qed.

Lemma respects_fmap (g : A -> B) (p : Node A) : respects p -> respects (fmap g p).
Proof. intros Hp. apply agree_fmap with eq; [exact Hp|]. now intros a a' <-. Qed.

Lemma respects_strct (g : A -> option B) (p : Node A) : respects p -> respects (strct p g).
Proof.
  intros Hp. apply agree_strct with eq; [exact Hp|]. intros a a' <-. now apply option_rel_eq.
Qed.

Lemma respects_optional (p : Node A) : respects p -> respects (optional p).
Proof.
  intros Hp. apply agree_impl with (option_rel eq); [apply option_rel_eq|].
  now apply agree_optional.
Qed.

Lemma respects_disjunction (alts : list (Node A)) :
  Forall respects alts -> respects (disjunction alts).
Proof.
  intros H. apply agree_disjunction. induction H; constructor; auto.
Qed.

Lemma respects_repetition (p : Node A) : respects p -> respects (repetition p).
Proof.
  intros Hp. apply agree_impl with (Forall2 eq); [apply Forall2_eq|].
  now apply agree_repetition.
Qed.
End Respects.

Create HintDb respects.
#[local] Hint Resolve respects_ret respects_bind respects_must respects_fmap respects_strct
  respects_optional respects_disjunction respects_repetition : respects.
#[local] Hint Constructors Forall : respects.
#[local] Hint Extern 1 (forall _, respects _) => intro; cbv beta : respects.
#[local] Hint Extern 1 (respects (literal _)) => apply respects_literal; reflexivity : respects.
#[local] Hint Extern 1 (respects (reference _)) =>
  apply respects_reference; discriminate : respects.
#[local] Hint Extern 2 (respects (bind (literal _) (fun _ => _))) =>
  apply respects_skip with upper_eq; [apply agree_literal|] : respects.
#[local] Hint Extern 2 (respects (bind (must (literal _)) (fun _ => _))) =>
  apply respects_skip with upper_eq; [apply agree_must, agree_literal|] : respects.
#[local] Hint Extern 1 (respects (let '(_, _) := ?x in _)) => destruct x : respects.

Lemma respects_ident_or_quoted : respects ident_or_quoted.
Proof. unfold ident_or_quoted. eauto with respects. Qed.
#[local] Hint Resolve respects_ident_or_quoted : respects.

Lemma respects_ProvisionedThroughput : respects ProvisionedThroughput_node.
Proof. unfold ProvisionedThroughput_node. eauto 30 with respects. Qed.
#[local] Hint Resolve respects_ProvisionedThroughput : respects.

Lemma respects_Projection : respects Projection_node.
Proof. unfold Projection_node. eauto 30 with respects. Qed.
#[local] Hint Resolve respects_Projection : respects.

Lemma respects_GlobalSecondaryIndex : respects GlobalSecondaryIndex_node.
Proof. unfold GlobalSecondaryIndex_node. eauto 60 with respects. Qed.
#[local] Hint Resolve respects_GlobalSecondaryIndex : respects.

Lemma respects_LocalSecondaryIndex : respects LocalSecondaryIndex_node.
Proof. unfold LocalSecondaryIndex_node. eauto 60 with respects. Qed.
#[local] Hint Resolve respects_LocalSecondaryIndex : respects.

(** The captures of a scalar, compared by the value they are set to. *)
Lemma Boolean_Capture_upper v v' : upper_eq v v' -> Boolean_Capture v = Boolean_Capture v'.
Proof. unfold upper_eq, Boolean_Capture, strings_ToUpper. now intros ->. Qed.

Lemma ScanDescending_Capture_upper v v' :
  upper_eq v v' -> ScanDescending_Capture v = ScanDescending_Capture v'.
Proof. unfold upper_eq, ScanDescending_Capture, strings_ToUpper. now intros ->. Qed.

Lemma agree_true_false :
  agree upper_eq (disjunction [literal "TRUE"; literal "FALSE"])
                 (disjunction [literal "TRUE"; literal "FALSE"]).
Proof. apply agree_disjunction. repeat constructor; apply agree_literal. Qed.

Lemma agree_map_fmap {A B} (h : A -> B) (R : B -> B -> Prop) (l : list (Node A)) :
  Forall2 (agree (fun a a' => R (h a) (h a'))) l l ->
  Forall2 (agree R) (map (fmap h) l) (map (fmap h) l).
Proof.
  induction l as [|p l IH]; intros H; [constructor|].
  inversion H as [|? ? ? ? Hp Hl]; subst. cbn [map]. constructor; [|now apply IH].
  apply agree_fmap with (fun a a' => R (h a) (h a')); [exact Hp|auto].
Qed.

Lemma Forall2_agree_impl {A} (R S : A -> A -> Prop) (l l' : list (Node A)) :
  (forall a a', R a a' -> S a a') -> Forall2 (agree R) l l' -> Forall2 (agree S) l l'.
Proof. intros H. apply Forall2_impl. intros p p'. now apply agree_impl. Qed.

Lemma agree_Scalar_alternatives :
  Forall2 (agree same_Scalar) Scalar_alternatives Scalar_alternatives.
Proof.
  unfold Scalar_alternatives, same_Scalar. repeat constructor.
  - apply agree_impl with eq; [now intros c c' <-|].
    apply respects_fmap, respects_reference. discriminate.
  - apply agree_impl with eq; [now intros c c' <-|].
    apply respects_fmap, respects_reference. discriminate.
  - apply agree_fmap with upper_eq; [apply agree_true_false|].
    intros v v' Hv. cbn. now rewrite (Boolean_Capture_upper v v' Hv).
  - apply agree_fmap with upper_eq; [apply agree_literal|reflexivity].
Qed.

Lemma agree_Value_alternatives :
  Forall2 (agree same_Value) Value_alternatives Value_alternatives.
Proof.
  unfold Value_alternatives. apply Forall2_app.
  - apply agree_map_fmap. apply Forall2_agree_impl with same_Scalar;
      [|apply agree_Scalar_alternatives].
    unfold same_Scalar, same_Value. intros c c' H. cbn. now rewrite H.
  - repeat constructor.
    + apply agree_impl with eq; [now intros c c' <-|].
      change (respects (c <- literal ":" ;; i <-! reference Ident ;;
                        ret (Capture_PlaceHolder (c ++ i)))).
      eauto 20 with respects.
    + apply agree_fmap with upper_eq; [apply agree_literal|reflexivity].
Qed.

Lemma respects_Value : respects Value_node.
Proof.
  unfold Value_node. apply agree_strct with same_Value.
  - apply agree_disjunction, agree_Value_alternatives.
  - intros c c' H. unfold same_Value in H. rewrite H. now apply option_rel_eq.
Qed.
#[local] Hint Resolve respects_Value : respects.

Lemma respects_PathFragment_index : respects PathFragment_index.
Proof. unfold PathFragment_index. eauto 30 with respects. Qed.
#[local] Hint Resolve respects_PathFragment_index : respects.

Lemma respects_PathFragment : respects PathFragment_node.
Proof. unfold PathFragment_node. eauto 30 with respects. Qed.
#[local] Hint Resolve respects_PathFragment : respects.

Lemma respects_DocumentPath_more : respects DocumentPath_more.
Proof. unfold DocumentPath_more. eauto 30 with respects. Qed.
#[local] Hint Resolve respects_DocumentPath_more : respects.

Lemma respects_DocumentPath : respects DocumentPath_node.
Proof. unfold DocumentPath_node. eauto 30 with respects. Qed.
#[local] Hint Resolve respects_DocumentPath : respects.

Lemma respects_FunctionArgument : respects FunctionArgument_node.
Proof. unfold FunctionArgument_node. eauto 30 with respects. Qed.
#[local] Hint Resolve respects_FunctionArgument : respects.

Lemma respects_FunctionExpression : respects FunctionExpression_node.
Proof. unfold FunctionExpression_node. eauto 30 with respects. Qed.
#[local] Hint Resolve respects_FunctionExpression : respects.

Lemma respects_Operand : respects Operand_node.
Proof. unfold Operand_node. eauto 30 with respects. Qed.
#[local] Hint Resolve respects_Operand : respects.

Lemma respects_Compare : respects Compare_node.
Proof. unfold Compare_node, compare_operators. cbn [map]. eauto 30 with respects. Qed.
#[local] Hint Resolve respects_Compare : respects.

Lemma respects_Between : respects Between_node.
Proof. unfold Between_node. eauto 30 with respects. Qed.
#[local] Hint Resolve respects_Between : respects.

Lemma respects_In : respects In_node.
Proof. unfold In_node. eauto 30 with respects. Qed.
#[local] Hint Resolve respects_In : respects.

Lemma respects_ConditionRHS : respects ConditionRHS_node.
Proof. unfold ConditionRHS_node. eauto 30 with respects. Qed.
#[local] Hint Resolve respects_ConditionRHS : respects.

Lemma respects_ConditionOperand : respects ConditionOperand_node.
Proof. unfold ConditionOperand_node. eauto 30 with respects. Qed.
#[local] Hint Resolve respects_ConditionOperand : respects.

Lemma respects_AndExpression_over cond : respects cond -> respects (AndExpression_over cond).
Proof. intros H. unfold AndExpression_over. eauto 30 with respects. Qed.
#[local] Hint Resolve respects_AndExpression_over : respects.

Lemma respects_ConditionExpression_over cond :
  respects cond -> respects (ConditionExpression_over cond).
Proof. intros H. unfold ConditionExpression_over. eauto 30 with respects. Qed.
#[local] Hint Resolve respects_ConditionExpression_over : respects.

Lemma respects_ParenthesizedExpression_over cond :
  respects cond -> respects (ParenthesizedExpression_over cond).
Proof. intros H. unfold ParenthesizedExpression_over. eauto 30 with respects. Qed.
#[local] Hint Resolve respects_ParenthesizedExpression_over : respects.

Lemma respects_NotCondition_over cond : respects cond -> respects (NotCondition_over cond).
Proof. intros H. unfold NotCondition_over. eauto 30 with respects. Qed.
#[local] Hint Resolve respects_NotCondition_over : respects.

Lemma respects_Condition_over cond : respects cond -> respects (Condition_over cond).
Proof. intros H. unfold Condition_over. eauto 30 with respects. Qed.

Lemma respects_Condition fuel : respects (Condition_node fuel).
Proof.
  induction fuel as [|fuel IH].
  - intros ts ts' _. exact I.
  - change (Condition_node (S fuel)) with (Condition_over (Condition_node fuel)).
    now apply respects_Condition_over.
Qed.
#[local] Hint Resolve respects_Condition : respects.

Lemma respects_AndExpression fuel : respects (AndExpression_node fuel).
Proof. unfold AndExpression_node. eauto with respects. Qed.
#[local] Hint Resolve respects_AndExpression : respects.

Lemma respects_JSONObjectEntry_over value :
  respects value -> respects (JSONObjectEntry_over value).
Proof. intros H. unfold JSONObjectEntry_over. eauto 30 with respects. Qed.
#[local] Hint Resolve respects_JSONObjectEntry_over : respects.

Lemma respects_JSONObject_over value : respects value -> respects (JSONObject_over value).
Proof. intros H. unfold JSONObject_over, JSONObject_entries. eauto 40 with respects. Qed.
#[local] Hint Resolve respects_JSONObject_over : respects.

Lemma respects_JSONArray_over value : respects value -> respects (JSONArray_over value).
Proof. intros H. unfold JSONArray_over, JSONArray_entries. eauto 40 with respects. Qed.
#[local] Hint Resolve respects_JSONArray_over : respects.

Lemma respects_JSONValue_over value : respects value -> respects (JSONValue_over value).
Proof.
  intros H. unfold JSONValue_over.
  apply agree_strct with (fun c c' => JSONValue_set c = JSONValue_set c').
  - apply agree_disjunction, Forall2_app.
    + apply agree_map_fmap. apply Forall2_agree_impl with same_Scalar;
        [|apply agree_Scalar_alternatives].
      unfold same_Scalar. intros c c' E. cbn. now rewrite E.
    + constructor; [|constructor; [|constructor]];
        (apply agree_impl with eq; [now intros c c' <-|]); apply respects_fmap.
      * now apply respects_JSONObject_over.
      * now apply respects_JSONArray_over.
  - intros c c' E. rewrite E. now apply option_rel_eq.
Qed.

Lemma respects_JSONValue fuel : respects (JSONValue_node fuel).
Proof.
  induction fuel as [|fuel IH].
  - intros ts ts' _. exact I.
  - change (JSONValue_node (S fuel)) with (JSONValue_over (JSONValue_node fuel)).
    now apply respects_JSONValue_over.
Qed.
#[local] Hint Resolve respects_JSONValue : respects.

Lemma respects_JSONObject fuel : respects (JSONObject_node fuel).
Proof. unfold JSONObject_node. eauto with respects. Qed.
#[local] Hint Resolve respects_JSONObject : respects.

Lemma respects_table_name : respects table_name.
Proof. unfold table_name. eauto 30 with respects. Qed.
#[local] Hint Resolve respects_table_name : respects.

Lemma respects_InsertTerminal fuel : respects (InsertTerminal_node fuel).
Proof.
  unfold InsertTerminal_node.
  apply agree_strct with (fun c c' => InsertTerminal_set c = InsertTerminal_set c').
  - apply agree_disjunction, Forall2_app.
    + apply agree_map_fmap. apply Forall2_agree_impl with same_Value;
        [|apply agree_Value_alternatives].
      unfold same_Value. intros c c' E. cbn. now rewrite E.
    + constructor; [|constructor]. apply agree_impl with eq; [now intros c c' <-|].
      apply respects_fmap, respects_JSONObject.
  - intros c c' E. rewrite E. now apply option_rel_eq.
Qed.
#[local] Hint Resolve respects_InsertTerminal : respects.

Lemma respects_Insert_into_values fuel : respects (Insert_into_values fuel).
Proof. unfold Insert_into_values. eauto 40 with respects. Qed.
#[local] Hint Resolve respects_Insert_into_values : respects.

Lemma respects_ProjectionColumn : respects ProjectionColumn_node.
Proof. unfold ProjectionColumn_node. eauto 30 with respects. Qed.
#[local] Hint Resolve respects_ProjectionColumn : respects.

Lemma respects_ProjectionExpression : respects ProjectionExpression_node.
Proof. unfold ProjectionExpression_node. eauto 40 with respects. Qed.
#[local] Hint Resolve respects_ProjectionExpression : respects.

(** *** The nodes that keep the text of a keyword *)

Ltac each_literal :=
  repeat first [apply Forall2_nil | apply Forall2_cons; [apply agree_literal|]].

Lemma option_rel_upper (k k' : option string) :
  option_rel upper_eq k k' -> option_map ToUpper k = option_map ToUpper k'.
Proof. destruct k, k'; cbn; try contradiction; unfold upper_eq; congruence. Qed.

Lemma Forall2_map_eq {A B} (f : A -> B) (l l' : list A) :
  Forall2 (fun a a' => f a = f a') l l' -> map f l = map f l'.
Proof. induction 1; cbn; congruence. Qed.

Lemma agree_TableAttr : agree same_TableAttr TableAttr_node TableAttr_node.
Proof.
  unfold TableAttr_node.
  apply agree_strct with same_TableAttr; [|intros a a' H; exact H].
  apply agree_bind with eq; [apply respects_ident_or_quoted|]. intros name _ <-.
  apply agree_bind with upper_eq.
  { apply agree_must, agree_disjunction. each_literal. }
  intros ty ty' Hty. apply agree_bind with (option_rel upper_eq).
  - apply agree_must, agree_optional. apply agree_bind with upper_eq.
    { apply agree_disjunction. each_literal. }
    intros k k' Hk. apply agree_bind with upper_eq; [apply agree_must, agree_literal|].
    intros _ _ _. now apply agree_ret.
  - intros key key' Hkey. apply agree_ret. unfold same_TableAttr, TableAttr_upper. cbn.
    unfold upper_eq in Hty. rewrite Hty. f_equal.
    destruct key, key'; cbn in Hkey; try contradiction; [exact Hkey|reflexivity].
Qed.

Lemma agree_CreateTableEntry :
  agree same_CreateTableEntry CreateTableEntry_node CreateTableEntry_node.
Proof.
  unfold CreateTableEntry_node.
  apply agree_strct with same_CreateTableEntry; [|intros a a' H; exact H].
  apply agree_disjunction.
  constructor; [|constructor; [|constructor; [|constructor; [|constructor]]]].
  - apply agree_impl with eq; [now intros a a' <-|].
    apply respects_fmap, respects_GlobalSecondaryIndex.
  - apply agree_impl with eq; [now intros a a' <-|].
    apply respects_fmap, respects_LocalSecondaryIndex.
  - apply agree_impl with eq; [now intros a a' <-|].
    apply respects_fmap, respects_ProvisionedThroughput.
  - apply agree_fmap with same_TableAttr; [apply agree_TableAttr|].
    intros a a' H. unfold same_CreateTableEntry, CreateTableEntry_upper. cbn.
    now rewrite H.
Qed.

Lemma agree_CreateTable : agree same_CreateTable CreateTable_node CreateTable_node.
Proof.
  unfold CreateTable_node.
  apply agree_strct with same_CreateTable; [|intros a a' H; exact H].
  apply agree_bind with eq; [apply respects_ident_or_quoted|]. intros name _ <-.
  apply agree_bind with upper_eq; [apply agree_must, agree_literal|]. intros _ _ _.
  apply agree_bind with same_CreateTableEntry; [apply agree_must, agree_CreateTableEntry|].
  intros e e' He.
  apply agree_bind with (Forall2 same_CreateTableEntry).
  { apply agree_must, agree_repetition.
    apply agree_bind with upper_eq; [apply agree_literal|]. intros _ _ _.
    apply agree_bind with same_CreateTableEntry; [apply agree_must, agree_CreateTableEntry|].
    intros x x' Hx. now apply agree_ret. }
  intros l l' Hl.
  apply agree_bind with upper_eq; [apply agree_must, agree_literal|]. intros _ _ _.
  apply agree_ret. unfold same_CreateTable, CreateTable_upper. cbn.
  rewrite He. f_equal. f_equal. now apply Forall2_map_eq.
Qed.

Lemma agree_Insert_returning :
  agree (option_rel upper_eq) Insert_returning Insert_returning.
Proof.
  unfold Insert_returning. apply agree_optional.
  apply agree_bind with upper_eq; [apply agree_literal|]. intros _ _ _.
  apply agree_bind with upper_eq.
  { apply agree_must, agree_disjunction. each_literal. }
  intros r r' Hr. now apply agree_ret.
Qed.

Lemma agree_Insert fuel : agree same_Insert (Insert_node fuel) (Insert_node fuel).
Proof.
  unfold Insert_node.
  apply agree_strct with same_Insert; [|intros a a' H; exact H].
  apply agree_bind with eq; [apply respects_Insert_into_values|]. intros iv _ <-.
  apply agree_bind with (option_rel upper_eq); [apply agree_must, agree_Insert_returning|].
  intros r r' Hr. apply agree_ret. unfold same_Insert, Insert_upper. cbn.
  now rewrite (option_rel_upper _ _ Hr).
Qed.

Lemma respects_Select fuel : respects (Select_node fuel).
Proof.
  unfold Select_node.
  apply agree_strct with
    (fun x y : ProjectionExpression * string * option string * option AndExpression
               * option string * option string =>
       let '(p, from, idx, wh, dir, lim) := x in
       let '(p', from', idx', wh', dir', lim') := y in
       p = p' /\ from = from' /\ idx = idx' /\ wh = wh' /\ lim = lim'
       /\ option_rel upper_eq dir dir').
  - apply agree_bind with eq; [apply respects_ProjectionExpression|]. intros p _ <-.
    apply agree_bind with upper_eq; [apply agree_must, agree_literal|]. intros _ _ _.
    apply agree_bind with eq; [apply respects_must, respects_table_name|]. intros from _ <-.
    apply agree_bind with eq; [apply respects_must; eauto 12 with respects|]. intros idx _ <-.
    apply agree_bind with eq; [apply respects_must; eauto 12 with respects|]. intros wh _ <-.
    apply agree_bind with (option_rel upper_eq).
    { apply agree_must, agree_optional, agree_disjunction. each_literal. }
    intros dir dir' Hdir.
    apply agree_bind with eq; [apply respects_must; eauto 12 with respects|]. intros lim _ <-.
    apply agree_ret. now repeat split.
  - intros [[[[[p from] idx] wh] dir] lim] [[[[[p' from'] idx'] wh'] dir'] lim'].
    intros (-> & -> & -> & -> & -> & Hdir).
    assert (option_map ScanDescending_Capture dir = option_map ScanDescending_Capture dir')
      as ->.
    { destruct dir, dir'; cbn in Hdir; try contradiction; cbn; [|reflexivity].
      f_equal. now apply ScanDescending_Capture_upper. }
    now apply option_rel_eq.
Qed.

Lemma agree_AST_statement fuel : agree same_AST (AST_statement fuel) (AST_statement fuel).
Proof.
  unfold AST_statement. apply agree_disjunction.
  constructor; [|constructor; [|constructor; [|constructor; [|constructor]]]].
  - apply agree_bind with upper_eq; [apply agree_literal|]. intros _ _ _.
    apply agree_bind with eq; [apply respects_must, respects_Select|]. intros s _ <-.
    now apply agree_ret.
  - apply agree_bind with upper_eq; [apply agree_literal|]. intros _ _ _.
    apply agree_bind with same_Insert; [apply agree_must, agree_Insert|]. intros i i' Hi.
    apply agree_ret. unfold same_AST, AST_upper. cbn. now rewrite Hi.
  - apply agree_bind with upper_eq; [apply agree_literal|]. intros _ _ _.
    apply agree_bind with same_Insert; [apply agree_must, agree_Insert|]. intros i i' Hi.
    apply agree_ret. unfold same_AST, AST_upper. cbn. now rewrite Hi.
  - apply agree_bind with upper_eq; [apply agree_literal|]. intros _ _ _.
    apply agree_bind with upper_eq; [apply agree_must, agree_literal|]. intros _ _ _.
    apply agree_bind with same_CreateTable; [apply agree_must, agree_CreateTable|].
    intros c c' Hc. apply agree_ret. unfold same_AST, AST_upper. cbn. now rewrite Hc.
Qed.

Lemma agree_AST fuel : agree same_AST (AST_node fuel) (AST_node fuel).
Proof.
  unfold AST_node. apply agree_strct with same_AST; [|intros a a' H; exact H].
  apply agree_bind with same_AST; [apply agree_AST_statement|]. intros a a' Ha.
  apply agree_bind with (option_rel upper_eq).
  { apply agree_must, agree_optional, agree_literal. }
  intros _ _ _. now apply agree_ret.
Qed.

(** Two lists of tokens that differ in the case of keywords only are parsed
    alike, and to the same tree when the text that the tree keeps of a
    keyword is put in upper case. *)
Lemma ParseTokens_keyword_case ts ts' :
  same_tokens ts ts' -> Outcome_upper (ParseTokens ts) = Outcome_upper (ParseTokens ts').
Proof.
  intros H. unfold ParseTokens. rewrite (same_tokens_length _ _ H).
  pose proof (agree_AST (S (length ts')) ts ts' H) as Ha.
  destruct (AST_node _ ts) as [a r| |r| |], (AST_node _ ts') as [a' r'| |r'| |];
    cbn in Ha; try contradiction; try reflexivity.
  destruct Ha as [Ha Hr]. destruct Hr; cbn; [|reflexivity]. now rewrite Ha.
Qed.

(** *** A keyword in a statement *)

Lemma is_reserved_In w : is_reserved w = true -> List.In (ToUpper w) keywords.
Proof.
  unfold is_reserved. intros H. apply existsb_exists in H as (k & Hk & E).
  apply String.eqb_eq in E. now subst.
Qed.

Lemma to_upper_idem c : to_upper (to_upper c) = to_upper c.
Proof. by_cases c. Qed.

Lemma ToUpper_idem s : ToUpper (ToUpper s) = ToUpper s.
Proof. induction s as [|c s IH]; cbn; [reflexivity|]. now rewrite to_upper_idem, IH. Qed.

Lemma same_tokens_refl ts : same_tokens ts ts.
Proof. induction ts; constructor; [now left|assumption]. Qed.

Lemma same_tokens_keyword w before after :
  List.In (ToUpper w) keywords ->
  same_tokens (before ++ mkToken Keyword w :: after)
              (before ++ mkToken Keyword (ToUpper w) :: after).
Proof.
  intros H. apply Forall2_app; [apply same_tokens_refl|].
  constructor; [|apply same_tokens_refl].
  right. cbn. now rewrite ToUpper_idem.
Qed.

(** The tokens of a text that starts with a keyword. *)
Lemma Tokens_keyword w tail :
  List.In (ToUpper w) keywords -> quiet tail = true ->
  Tokens (w ++ tail) = option_map (cons (mkToken Keyword w)) (Tokens tail).
Proof.
  intros H Hq. unfold Tokens. rewrite (Lex_token _ _ _ (Lexer_keyword w tail H Hq)).
  destruct (Lex tail) as [ts|]; [|reflexivity]. cbn.
  now destruct (map_tokens ts).
Qed.

Lemma Parse_keyword w tail :
  List.In (ToUpper w) keywords -> quiet tail = true ->
  Outcome_upper (Parse (w ++ tail)) = Outcome_upper (Parse (ToUpper w ++ tail)).
Proof.
  intros H Hq. unfold Parse. rewrite (Tokens_keyword w tail H Hq).
  rewrite (Tokens_keyword (ToUpper w) tail) by (rewrite ?ToUpper_idem; assumption).
  destruct (Tokens tail) as [ts|]; [|reflexivity]. cbn [option_map].
  apply (ParseTokens_keyword_case (_ :: ts) (_ :: ts)).
  now apply (same_tokens_keyword w []).
Qed.

(** ** The statements of the specification *)



(** C2 does not hold as it is stated: a keyword whose text the tree keeps
    is kept in the case of the statement, so the two cases of [NONE] are
    both keywords and both parsed, to trees that differ. *)
Lemma keyword_text_keeps_its_case :
  Lexer "none" = Lexed (mkToken Keyword "none") ""
  /\ Parse "INSERT INTO t VALUES (1) RETURNING NONE"
     = Parsed (insert_into "t" [row (number one)] (Some "NONE"))
  /\ Parse "INSERT INTO t VALUES (1) RETURNING none"
     = Parsed (insert_into "t" [row (number one)] (Some "none"))
  /\ Parse "INSERT INTO t VALUES (1) RETURNING none"
     <> Parse "INSERT INTO t VALUES (1) RETURNING NONE".
Proof.
  split; [reflexivity|]. split; [vm_compute; reflexivity|].
  split; [vm_compute; reflexivity|]. vm_compute. discriminate.
Qed.

(** C2, for the words of the lexer's list: a word of the list in any case
    of its ASCII letters, before a text that does not continue it, is a
    [Keyword] token with the text as written; a statement that starts with
    it, and a list of tokens that has it at any place, are parsed as with
    the word in upper case: the same failure, or the same tree once the
    texts of keywords that the tree keeps are put in upper case. *)
Theorem keyword_in_any_case w :
  is_reserved w = true ->
  (forall tail, quiet tail = true ->
     Lexer (w ++ tail) = Lexed (mkToken Keyword w) tail
     /\ Outcome_upper (Parse (w ++ tail)) = Outcome_upper (Parse (ToUpper w ++ tail)))
  /\ (forall before after,
        Outcome_upper (ParseTokens (before ++ mkToken Keyword w :: after))
        = Outcome_upper (ParseTokens (before ++ mkToken Keyword (ToUpper w) :: after))).
Proof.
  intros H. apply is_reserved_In in H. split.
  - intros tail Hq. split; [now apply Lexer_keyword|now apply Parse_keyword].
  - intros before after. now apply ParseTokens_keyword_case, same_tokens_keyword.
Qed.

Lemma keyword_in_any_case_witness :
  is_reserved "Select" = true
  /\ Lexer "Select a FROM t" = Lexed (mkToken Keyword "Select") " a FROM t"
  /\ Outcome_upper (Parse "Select a FROM t") = Outcome_upper (Parse "SELECT a FROM t").
Proof.
  split; [reflexivity|].
  exact (proj1 (keyword_in_any_case "Select" eq_refl) " a FROM t" eq_refl).
Defined.

(** C3: a word that begins with a reserved word, in any case, and
    goes on with a word character is one [Ident] token that takes all the
    word characters, not a [Keyword] token for the prefix. *)
Theorem keyword_prefix_is_ident w c tail :
  List.In (ToUpper w) reserved_words -> is_word c = true ->
  Lexer (w ++ String c tail)
  = Lexed (mkToken Ident (w ++ String c (fst (span is_word tail)))) (snd (span is_word tail)).
Proof. apply Lexer_longer_word. Qed.

Lemma keyword_prefix_is_ident_witness :
  List.In (ToUpper "INDEX") reserved_words /\ is_word "E" = true
  /\ Lexer "INDEXED FROM" = Lexed (mkToken Ident "INDEXED") " FROM".
Proof.
  assert (H : List.In (ToUpper "INDEX") reserved_words) by (vm_compute; tauto).
  split; [exact H|]. split; [reflexivity|].
  exact (keyword_prefix_is_ident "INDEX" "E" "D FROM" H eq_refl).
Defined.

(** C4 does not hold as it is stated: the printers print nodes of
    expressions only, and what they print is not always read back. The
    projection [*] of a parsed statement is printed as the empty text, from
    which nothing is parsed, and the path of a quoted identifier that is a
    reserved word is printed without its quotes and read as a keyword. *)
Lemma printed_nodes_do_not_reparse :
  (Parse "SELECT * FROM t"
   = Parsed (mkAST (Some (mkSelect (Some (mkProjectionExpression true [])) "t"
                            None None None None)) None None None)
   /\ (forall FormatFloat Quote,
         ProjectionExpression_String FormatFloat Quote (mkProjectionExpression true []) = Some "")
   /\ reparse ProjectionExpression_node "" = None)
  /\ (Parse "SELECT `select` FROM t" = Parsed (select_from [column (path [("select", [])])] "t")
      /\ DocumentPath_String (path [("select", [])]) = Some "select"
      /\ reparse DocumentPath_node "select" = None).
Proof.
  split; (split; [vm_compute; reflexivity|split; [|vm_compute; reflexivity]]).
  - intros FormatFloat Quote. reflexivity.
  - reflexivity.
Qed.

Lemma in_int64_dec i : (int64_min <=? i)%Z = true -> (i <=? int64_max)%Z = true -> in_int64 i.
Proof. intros H1 H2. split; now apply Z.leb_le. Qed.

(** C4, for the node where printing and parsing are inverse: a document
    path of unquoted identifiers that are no reserved words, with indexes
    that are [int] values, is printed to a text whose tokens are parsed
    back to the same path. *)
Theorem DocumentPath_round_trip p :
  plain_path p ->
  exists s, DocumentPath_String p = Some s /\ reparse DocumentPath_node s = Some p.
Proof.
  intros Hp. destruct (DocumentPath_String p) as [s|] eqn:E.
  - exists s. split; [reflexivity|]. unfold reparse.
    now rewrite (Tokens_path p s Hp E), (DocumentPath_node_tokens p Hp).
  - exfalso. destruct Hp as (Hne & _). unfold DocumentPath_String in E.
    now destruct (DocumentPath_Fragment p).
Qed.

Lemma DocumentPath_round_trip_witness :
  plain_path (path [("a", []); ("b", [1; -2]%Z)])
  /\ exists s, DocumentPath_String (path [("a", []); ("b", [1; -2]%Z)]) = Some s
               /\ reparse DocumentPath_node s = Some (path [("a", []); ("b", [1; -2]%Z)]).
Proof.
  assert (H : plain_path (path [("a", []); ("b", [1; -2]%Z)])).
  { split; [discriminate|]. split; [vm_compute; discriminate|].
    constructor; [|constructor; [|constructor]].
    - split; [reflexivity|]. split; [reflexivity|constructor].
    - split; [reflexivity|]. split; [reflexivity|].
      repeat constructor; apply in_int64_dec; reflexivity. }
  split; [exact H|]. exact (DocumentPath_round_trip _ H).
Defined.

(** C5: a statement whose tokens start with [SELECT] and the keyword
    [FROM] right after it, in any case, is rejected: [Parse] gives a parse
    error and no tree. *)
Theorem empty_projection_rejected s t1 t2 rest :
  Tokens s = Some (t1 :: t2 :: rest) ->
  literal_eq "SELECT" t1 = true ->
  Token_Type t2 = Keyword -> literal_eq "FROM" t2 = true ->
  Parse s = ParseError.
Proof.
  intros Hs H1 Ht Hf. unfold Parse. rewrite Hs.
  now apply select_empty_projection_rejected.
Qed.

Lemma empty_projection_rejected_witness :
  Tokens "SELECT FROM t"
  = Some [mkToken Keyword "SELECT"; mkToken Keyword "FROM"; mkToken Ident "t"]
  /\ Parse "SELECT FROM t" = ParseError.
Proof.
  split; [reflexivity|].
  exact (empty_projection_rejected "SELECT FROM t" (mkToken Keyword "SELECT")
           (mkToken Keyword "FROM") [mkToken Ident "t"] eq_refl eq_refl eq_refl eq_refl).
Defined.


(** C7: in an INSERT or REPLACE statement whose [INTO] and [VALUES]
    parts are read, [RETURNING] followed by [NONE] or [ALL_OLD] and the end
    of the statement is parsed and the text of that value recorded; followed
    by another token, or by nothing, it is a parse error; and with no
    clause the field [Returning] is empty. *)
Theorem returning_clause k ts into vals rest :
  insert_keyword k = true ->
  Insert_into_values (S (length (k :: ts))) ts = Matched (into, vals) rest ->
  (forall r v tl, rest = r :: v :: tl ->
     literal_eq "RETURNING" r = true -> returning_value v = true -> statement_end tl = true ->
     ParseTokens (k :: ts) = Parsed (insert_ast k (mkInsert into vals (Some (Token_Value v)))))
  /\ (forall r v tl, rest = r :: v :: tl ->
     literal_eq "RETURNING" r = true -> returning_value v = false ->
     ParseTokens (k :: ts) = ParseError)
  /\ (forall r, rest = [r] -> literal_eq "RETURNING" r = true ->
     ParseTokens (k :: ts) = ParseError)
  /\ (statement_end rest = true ->
     ParseTokens (k :: ts) = Parsed (insert_ast k (mkInsert into vals None))).
Proof.
  intros Hk Hiv. repeat split.
  - intros r v tl -> Hr Hv Hend.
    apply ParseTokens_statement with (tl := tl); [|exact Hend].
    apply AST_statement_insert; [exact Hk|].
    apply Insert_node_returning with (rest := r :: v :: tl); [exact Hiv|].
    now apply Insert_returning_value.
  - intros r v tl -> Hr Hv.
    apply ParseTokens_trailing with (a := insert_ast k (mkInsert into vals None))
                                    (t := r) (tl := v :: tl).
    + apply AST_statement_insert; [exact Hk|].
      apply Insert_node_returning with (rest := r :: v :: tl); [exact Hiv|].
      now apply Insert_returning_other.
    + now apply literal_eq_excl with "RETURNING".
  - intros r -> Hr.
    apply ParseTokens_trailing with (a := insert_ast k (mkInsert into vals None))
                                    (t := r) (tl := []).
    + apply AST_statement_insert; [exact Hk|].
      apply Insert_node_returning with (rest := [r]); [exact Hiv|].
      now apply Insert_returning_last.
    + now apply literal_eq_excl with "RETURNING".
  - intros Hend.
    apply ParseTokens_statement with (tl := rest); [|exact Hend].
    apply AST_statement_insert; [exact Hk|].
    apply Insert_node_returning with (rest := rest); [exact Hiv|].
    now apply Insert_returning_absent, statement_end_no_returning.
Qed.

Lemma returning_clause_witness :
  ParseTokens [ mkToken Keyword "insert"; mkToken Keyword "into"; mkToken Ident "t";
                mkToken Keyword "values"; op "("; mkToken Number "1"; op ")";
                mkToken Keyword "returning"; mkToken Keyword "all_old" ]
  = Parsed (insert_into "t" [row (number one)] (Some "all_old"))
  /\ ParseTokens [ mkToken Keyword "insert"; mkToken Keyword "into"; mkToken Ident "t";
                   mkToken Keyword "values"; op "("; mkToken Number "1"; op ")";
                   mkToken Keyword "returning"; mkToken Keyword "all_new" ]
     = ParseError.
Proof.
  split.
  - exact (proj1 (returning_clause (mkToken Keyword "insert")
             [ mkToken Keyword "into"; mkToken Ident "t"; mkToken Keyword "values"; op "(";
               mkToken Number "1"; op ")"; mkToken Keyword "returning";
               mkToken Keyword "all_old" ]
             "t" [row (number one)]
             [mkToken Keyword "returning"; mkToken Keyword "all_old"] eq_refl eq_refl)
           (mkToken Keyword "returning") (mkToken Keyword "all_old") []
           eq_refl eq_refl eq_refl eq_refl).
  - exact (proj1 (proj2 (returning_clause (mkToken Keyword "insert")
             [ mkToken Keyword "into"; mkToken Ident "t"; mkToken Keyword "values"; op "(";
               mkToken Number "1"; op ")"; mkToken Keyword "returning";
               mkToken Keyword "all_new" ]
             "t" [row (number one)]
             [mkToken Keyword "returning"; mkToken Keyword "all_new"] eq_refl eq_refl))
           (mkToken Keyword "returning") (mkToken Keyword "all_new") []
           eq_refl eq_refl eq_refl).
Defined.

(** C8: [{}] and [[]] are parsed to an object and an array with no
    entry; a comma after the last entry of an object or of an array is
    accepted and changes nothing of what is parsed. *)
Theorem json_trailing_comma_and_empty :
  (forall value rest,
     JSONObject_over value (op "{" :: op "}" :: rest) = Matched (mkJSONObject []) rest)
  /\ (forall fuel rest,
     JSONArray_node (S fuel) (op "[" :: op "]" :: rest) = Matched (mkJSONArray []) rest)
  /\ (forall value ts es rest,
     JSONObject_entries value ts = Matched es (op "," :: op "}" :: rest)
     \/ JSONObject_entries value ts = Matched es (op "}" :: rest) ->
     JSONObject_over value (op "{" :: ts) = Matched (mkJSONObject es) rest)
  /\ (forall value ts es rest,
     JSONArray_entries value ts = Matched es (op "," :: op "]" :: rest)
     \/ JSONArray_entries value ts = Matched es (op "]" :: rest) ->
     JSONArray_over value (op "[" :: ts) = Matched (mkJSONArray es) rest)
  /\ Parse "INSERT INTO t VALUES ({})" = Parsed (insert_into "t" [object_row []] None)
  /\ Parse "INSERT INTO t VALUES ({'a': [], 'b': {},})"
     = Parsed (insert_into "t"
                 [object_row [entry "a" (json_array []); entry "b" (json_object [])]] None)
  /\ Parse "INSERT INTO t VALUES ({'a': [1, 1,]})"
     = Parse "INSERT INTO t VALUES ({'a': [1, 1]})"
  /\ Parse "INSERT INTO t VALUES ({'a': [1, 1,]})"
     = Parsed (insert_into "t"
                 [object_row [entry "a" (json_array [json_number one; json_number one])]] None).
Proof.
  split; [reflexivity|]. split; [reflexivity|].
  split; [|split; [|repeat split; vm_compute; reflexivity]].
  - intros value ts es rest H. unfold JSONObject_over.
    apply strct_Matched with (a := mkJSONObject es); [|reflexivity].
    rewrite bind_Matched with (a := "{") (rest := ts) by reflexivity.
    rewrite bind_Matched with (a := Some es) (rest := op "}" :: rest); [reflexivity|].
    apply must_Matched, optional_Matched. destruct H as [H|H].
    + now rewrite bind_Matched with (a := es) (rest := op "," :: op "}" :: rest).
    + now rewrite bind_Matched with (a := es) (rest := op "}" :: rest).
  - intros value ts es rest H. unfold JSONArray_over.
    apply strct_Matched with (a := mkJSONArray es); [|reflexivity].
    rewrite bind_Matched with (a := "[") (rest := ts) by reflexivity.
    rewrite bind_Matched with (a := Some es) (rest := op "]" :: rest); [reflexivity|].
    apply must_Matched, optional_Matched. destruct H as [H|H].
    + now rewrite bind_Matched with (a := es) (rest := op "," :: op "]" :: rest).
    + now rewrite bind_Matched with (a := es) (rest := op "]" :: rest).
Qed.

Lemma json_trailing_comma_and_empty_witness :
  JSONObject_over (JSONValue_node 2)
    [op "{"; mkToken String_ "a"; op ":"; mkToken Number "1"; op ","; op "}"]
  = Matched (mkJSONObject [entry "a" (json_number one)]) []
  /\ JSONArray_over (JSONValue_node 2) [op "["; mkToken Number "1"; op ","; op "]"]
     = Matched (mkJSONArray [json_number one]) [].
Proof.
  split.
  - apply (proj1 (proj2 (proj2 json_trailing_comma_and_empty))).
    left. vm_compute. reflexivity.
  - apply (proj1 (proj2 (proj2 (proj2 json_trailing_comma_and_empty)))).
    left. vm_compute. reflexivity.
Defined.

(** C9: the lexer gives a token to the colon, and the [Value] of a
    colon followed by an identifier has the two texts joined as its
    [PlaceHolder]: the colon stays. *)
Theorem placeholder_keeps_colon :
  (forall s, Lexer (String ":" s) = Lexed (op ":") s)
  /\ (forall name rest,
        Value_node (op ":" :: mkToken Ident name :: rest)
        = Matched (placeholder (":" ++ name)) rest)
  /\ Parse "INSERT INTO t VALUES (:name)"
     = Parsed (insert_into "t" [row (placeholder ":name")] None).
Proof.
  split; [intros s; now destruct s|]. split; [reflexivity|vm_compute; reflexivity].
Qed.

(** C10: a sign and digits before a closing bracket are one [Number]
    token, [strconv.ParseInt] reads the sign, and the fragment of a path
    keeps the signed index. *)
Theorem signed_index_accepted :
  (forall sg d tail, sg = "-" \/ sg = "+" ->
     nonempty d = true -> string_forall is_digit d = true ->
     Lexer (sg ++ d ++ String "]" tail) = Lexed (mkToken Number (sg ++ d)) (String "]" tail))
  /\ (forall d n, ParseUint0 d = Some n -> (n < 2 ^ 63)%Z ->
        ParseInt (String "-" d) = Some (- n)%Z /\ ParseInt (String "+" d) = Some n)
  /\ (forall sym lx i rest, ParseInt lx = Some i -> no_index rest ->
        PathFragment_node (mkToken Ident sym :: op "[" :: mkToken Number lx :: op "]" :: rest)
        = Matched (mkPathFragment sym [i]) rest)
  /\ Parse "SELECT a[-1] FROM t" = Parsed (select_from [column (path [("a", [-1]%Z)])] "t")
  /\ Parse "SELECT a[+2] FROM t" = Parsed (select_from [column (path [("a", [2]%Z)])] "t").
Proof.
  split; [|split; [|split; [|split; vm_compute; reflexivity]]].
  - intros sg d tail Hsg Hne Hd. apply Lexer_number; [destruct Hsg; auto|auto..].
  - intros d n Hd Hn. unfold ParseInt. cbn [Ascii.eqb Bool.eqb orb]. rewrite Hd.
    destruct (Z.leb_spec n (2 ^ 63)); [|lia]. destruct (Z.ltb_spec n (2 ^ 63)); [|lia].
    now split.
  - intros sym lx i rest Hi Hrest. unfold PathFragment_node.
    apply strct_Matched with (a := (sym, [lx])).
    + rewrite bind_Matched with (a := sym)
          (rest := op "[" :: mkToken Number lx :: op "]" :: rest) by reflexivity.
      rewrite bind_Matched with (a := [lx]) (rest := rest); [reflexivity|].
      apply must_Matched.
      apply (repetition_items PathFragment_index index_tokens (fun _ => True) (fun _ => True)
               [lx] rest).
      * intros. apply PathFragment_index_tokens.
      * discriminate.
      * exact (fun _ _ => I).
      * repeat constructor.
      * exact I.
      * unfold PathFragment_index. now apply bind_NoMatch.
      * reflexivity.
    + unfold PathFragment_set. cbn [fst snd ParseInts]. now rewrite Hi.
Qed.

Lemma signed_index_accepted_witness :
  Lexer "-12] FROM t" = Lexed (mkToken Number "-12") "] FROM t"
  /\ ParseInt "-12" = Some (-12)%Z
  /\ PathFragment_node [mkToken Ident "a"; op "["; mkToken Number "-12"; op "]";
                        mkToken Keyword "FROM"]
     = Matched (mkPathFragment "a" [(-12)%Z]) [mkToken Keyword "FROM"].
Proof.
  split; [|split].
  - exact (proj1 signed_index_accepted "-" "12" " FROM t" (or_introl eq_refl) eq_refl eq_refl).
  - exact (proj1 (proj1 (proj2 signed_index_accepted) "12" 12%Z eq_refl eq_refl)).
  - exact (proj1 (proj2 (proj2 signed_index_accepted)) "a" "-12" (-12)%Z
             [mkToken Keyword "FROM"] eq_refl eq_refl).
Defined.

(** ** What the nodes build *)

Lemma ensures_impl {A} (P Q : A -> Prop) p :
  (forall a, P a -> Q a) -> ensures P p -> ensures Q p.
Proof. intros H Hp ts a rest E. eauto. Qed.

Lemma ensures_any {A} (p : Node A) : ensures (fun _ => True) p.
Proof. now intros ts a rest _. Qed.

Section Ensures.
Context {A B : Type} (P : A -> Prop) (Q : B -> Prop).

Lemma ensures_ret (b : B) : Q b -> ensures Q (ret b).
Proof. intros H ts a rest E. now injection E as <- _. Qed.

Lemma ensures_bind (p : Node A) (f : A -> Node B) :
  ensures P p -> (forall a, P a -> ensures Q (f a)) -> ensures Q (bind p f).
Proof.
  intros Hp Hf ts b rest E. unfold bind in E.
  destruct (p ts) as [a r| | | |] eqn:Ep; try discriminate.
  exact (Hf a (Hp _ _ _ Ep) _ _ _ E).
Qed.

Lemma ensures_must (p : Node A) : ensures P p -> ensures P (must p).
Proof.
  intros Hp ts a rest E. unfold must in E.
  destruct (p ts) as [a' r| | | |] eqn:Ep; try discriminate.
  injection E as <- <-. eauto.
Qed.

Lemma ensures_fmap (g : A -> B) (p : Node A) :
  ensures P p -> (forall a, P a -> Q (g a)) -> ensures Q (fmap g p).
Proof.
  intros Hp Hg. unfold fmap. apply ensures_bind; [exact Hp|].
  intros a Ha. now apply ensures_ret, Hg.
Qed.

Lemma ensures_strct (g : A -> option B) (p : Node A) :
  ensures P p -> (forall a b, P a -> g a = Some b -> Q b) -> ensures Q (strct p g).
Proof.
  intros Hp Hg ts b rest E. unfold strct in E.
  destruct (p ts) as [a r| | | |] eqn:Ep; try discriminate.
  destruct (g a) as [b'|] eqn:Eg; [|discriminate]. injection E as <- <-. eauto.
Qed.

Lemma ensures_optional (p : Node A) : ensures P p -> ensures (when_some P) (optional p).
Proof.
  intros Hp ts o rest E. unfold optional in E.
  destruct (p ts) as [a r| |r| |] eqn:Ep; try discriminate.
  - injection E as <- <-. cbn. eauto.
  - now injection E as <- <-.
  - destruct (Stop ts r); [discriminate|]. now injection E as <- <-.
Qed.

Lemma ensures_disjunction_from failed (alts : list (Node A)) :
  Forall (ensures P) alts -> ensures P (disjunction_from failed alts).
Proof.
  intros H. revert failed. induction H as [|p alts Hp _ IH]; intros failed ts a rest E.
  - cbn in E. now destruct failed.
  - cbn [disjunction_from] in E. destruct (p ts) as [a' r| |r| |] eqn:Ep; try discriminate.
    + injection E as <- <-. exact (Hp _ _ _ Ep).
    + exact (IH _ _ _ _ E).
    + destruct (Stop ts r); [discriminate|exact (IH _ _ _ _ E)].
Qed.

Lemma ensures_disjunction (alts : list (Node A)) :
  Forall (ensures P) alts -> ensures P (disjunction alts).
Proof. apply ensures_disjunction_from. Qed.

Lemma ensures_repetition_loop (p : Node A) : ensures P p ->
  forall fuel i, ensures (Forall P) (repetition_loop p fuel i).
Proof.
  intros Hp fuel. induction fuel as [|fuel IH]; intros i ts l rest E.
  - cbn in E. now destruct (N.leb MaxIterations i).
  - cbn [repetition_loop] in E. destruct (N.leb MaxIterations i); [discriminate|].
    destruct (p ts) as [a r| |r| |] eqn:Ep; try discriminate.
    + destruct (Nat.ltb _ _); [|discriminate].
      destruct (repetition_loop p fuel (i + 1) r) as [l' r'| | | |] eqn:El; try discriminate.
      injection E as <- <-. constructor; [exact (Hp _ _ _ Ep)|exact (IH _ _ _ _ El)].
    + injection E as <- <-. constructor.
    + destruct (Stop ts r); [discriminate|]. injection E as <- <-. constructor.
Qed.

Lemma ensures_repetition (p : Node A) : ensures P p -> ensures (Forall P) (repetition p).
Proof. intros Hp ts l rest E. unfold repetition in E. eapply ensures_repetition_loop; eauto. Qed.
End Ensures.

(** A sequence whose head is a literal or a token that the result does not
    depend on. *)
Lemma ensures_after {A B} (Q : B -> Prop) (p : Node A) (f : A -> Node B) :
  (forall a, ensures Q (f a)) -> ensures Q (bind p f).
Proof.
  intros Hf. apply ensures_bind with (fun _ => True); [apply ensures_any|]. intros a _. apply Hf.
Qed.

Ltac ensures_skip :=
  repeat match goal with
    | |- ensures _ (bind (literal _) _) => apply ensures_after; intros _
    | |- ensures _ (bind (must (literal _)) _) => apply ensures_after; intros _
    end.

Ltac alternatives := repeat first [apply Forall_nil | apply Forall_cons].

Ltac ensures_next := apply ensures_after; intros ?; ensures_skip.

Lemma Scalar_set_is_set c s : Scalar_set c = Some s -> Scalar_is_set s = true.
Proof.
  destruct c; cbn; [destruct (ParseFloat v)| | |]; intros E; try discriminate;
    injection E as <-; reflexivity.
Qed.

Lemma Value_set_is_set c v : Value_set c = Some v -> Value_is_set v = true.
Proof.
  destruct c as [sc| |]; cbn; [|intros E; injection E as <-; reflexivity..].
  destruct (Scalar_set sc) as [s|] eqn:Es; [|discriminate]. intros E. injection E as <-.
  unfold Value_is_set. cbn. now rewrite (Scalar_set_is_set _ _ Es).
Qed.

Lemma ensures_Value : ensures (fun v => Value_is_set v = true) Value_node.
Proof.
  unfold Value_node. apply ensures_strct with (fun _ => True); [apply ensures_any|].
  intros c v _. apply Value_set_is_set.
Qed.

Lemma ensures_DocumentPath : ensures DocumentPath_shape DocumentPath_node.
Proof.
  unfold DocumentPath_node.
  apply ensures_strct with DocumentPath_shape; [|now intros a b H [= <-]].
  ensures_next. ensures_next. now apply ensures_ret.
Qed.

Lemma ensures_FunctionArgument : ensures FunctionArgument_shape FunctionArgument_node.
Proof.
  unfold FunctionArgument_node.
  apply ensures_strct with FunctionArgument_shape; [|now intros a b H [= <-]].
  apply ensures_disjunction. alternatives.
  - apply ensures_fmap with DocumentPath_shape; [apply ensures_DocumentPath|]. now intros p.
  - apply ensures_fmap with (fun v => Value_is_set v = true); [apply ensures_Value|].
    now intros v.
Qed.

Lemma ensures_FunctionExpression : ensures FunctionExpression_shape FunctionExpression_node.
Proof.
  unfold FunctionExpression_node.
  apply ensures_strct with FunctionExpression_shape; [|now intros a b H [= <-]].
  ensures_next.
  apply ensures_bind with FunctionArgument_shape;
    [apply ensures_must, ensures_FunctionArgument|]. intros arg Harg.
  apply ensures_bind with (Forall FunctionArgument_shape).
  { apply ensures_must, ensures_repetition. ensures_skip.
    apply ensures_bind with FunctionArgument_shape;
      [apply ensures_must, ensures_FunctionArgument|].
    intros arg' Harg'. now apply ensures_ret. }
  intros l Hl. ensures_skip. apply ensures_ret. split; [discriminate|now constructor].
Qed.

Lemma ensures_ProjectionColumn : ensures ProjectionColumn_shape ProjectionColumn_node.
Proof.
  unfold ProjectionColumn_node.
  apply ensures_strct with ProjectionColumn_shape; [|now intros a b H [= <-]].
  apply ensures_disjunction. alternatives.
  - apply ensures_fmap with FunctionExpression_shape; [apply ensures_FunctionExpression|].
    now intros f.
  - apply ensures_fmap with DocumentPath_shape; [apply ensures_DocumentPath|]. now intros p.
Qed.

Lemma ensures_ProjectionExpression :
  ensures ProjectionExpression_shape ProjectionExpression_node.
Proof.
  unfold ProjectionExpression_node.
  apply ensures_strct with ProjectionExpression_shape; [|now intros a b H [= <-]].
  apply ensures_disjunction. alternatives.
  - apply ensures_disjunction. alternatives.
    + apply ensures_fmap with (fun _ => True); [apply ensures_any|]. reflexivity.
    + ensures_skip. now apply ensures_ret.
  - apply ensures_bind with ProjectionColumn_shape; [apply ensures_ProjectionColumn|].
    intros c Hc. apply ensures_bind with (Forall ProjectionColumn_shape).
    { apply ensures_must, ensures_repetition. ensures_skip.
      apply ensures_bind with ProjectionColumn_shape;
        [apply ensures_must, ensures_ProjectionColumn|].
      intros c' Hc'. now apply ensures_ret. }
    intros l Hl. apply ensures_ret. split; [discriminate|now constructor].
Qed.

(** ** The printers on what the grammar builds *)

Lemma all_some_Forall {A B} (f : A -> option B) (P : A -> Prop) (l : list A) :
  (forall a, P a -> exists b, f a = Some b) -> Forall P l ->
  exists bs, all_some (map f l) = Some bs /\ length bs = length l.
Proof.
  intros Hf H. induction H as [|a l Ha _ (bs & E & L)]; [now exists []|].
  destruct (Hf a Ha) as (b & Eb). exists (b :: bs). cbn. rewrite Eb, E. cbn. now rewrite L.
Qed.

Lemma all_some_None {A B} (f : A -> option B) (l : list A) a :
  List.In a l -> f a = None -> all_some (map f l) = None.
Proof.
  induction l as [|x l IH]; [contradiction|]. intros [->|H] E; cbn.
  - now rewrite E.
  - destruct (f x); [|reflexivity]. now rewrite (IH H E).
Qed.

Section PrintersDefined.
Variable FormatFloat : float64 -> string.
Variable Quote : string -> string.

Lemma Scalar_String_defined s :
  Scalar_is_set s = true -> exists t, Scalar_String FormatFloat Quote s = Some t.
Proof.
  destruct s as [[f|] [x|] [b|] [|]]; cbn; intros H; try discriminate; eauto.
Qed.

Lemma Scalar_String_zero : Scalar_String FormatFloat Quote Scalar_zero = None.
Proof. reflexivity. Qed.

Lemma Value_String_defined v :
  Value_is_set v = true -> exists t, Value_String FormatFloat Quote v = Some t.
Proof.
  destruct v as [s [p|] [|]]; unfold Value_is_set, Value_String; cbn; eauto.
  apply Scalar_String_defined.
Qed.

Lemma DocumentPath_String_defined p :
  DocumentPath_shape p -> exists t, DocumentPath_String p = Some t.
Proof.
  unfold DocumentPath_shape, DocumentPath_String.
  destruct (DocumentPath_Fragment p); [contradiction|eauto].
Qed.

Lemma FunctionArgument_String_defined a :
  FunctionArgument_shape a -> exists t, FunctionArgument_String FormatFloat Quote a = Some t.
Proof.
  unfold FunctionArgument_shape, FunctionArgument_String.
  destruct (FunctionArgument_DocumentPath a) as [p|], (FunctionArgument_Value a) as [v|];
    try contradiction.
  - apply DocumentPath_String_defined.
  - apply Value_String_defined.
Qed.

Lemma FunctionExpression_String_defined f :
  FunctionExpression_shape f ->
  exists t, FunctionExpression_String FormatFloat Quote f = Some t.
Proof.
  intros [_ H]. unfold FunctionExpression_String.
  destruct (all_some_Forall (FunctionArgument_String FormatFloat Quote) _ _
              FunctionArgument_String_defined H) as (bs & -> & _).
  eauto.
Qed.

Lemma ProjectionColumn_String_defined c :
  ProjectionColumn_shape c -> exists t, ProjectionColumn_String FormatFloat Quote c = Some t.
Proof.
  unfold ProjectionColumn_shape, ProjectionColumn_String.
  destruct (ProjectionColumn_Function c) as [f|], (ProjectionColumn_DocumentPath c) as [p|];
    try contradiction.
  - apply FunctionExpression_String_defined.
  - apply DocumentPath_String_defined.
Qed.

Lemma ProjectionExpression_String_defined e :
  ProjectionExpression_shape e ->
  exists t, ProjectionExpression_String FormatFloat Quote e = Some t.
Proof.
  unfold ProjectionExpression_shape, ProjectionExpression_String.
  destruct (ProjectionExpression_All e); [eauto|]. intros [Hne H].
  destruct (all_some_Forall (ProjectionColumn_String FormatFloat Quote) _ _
              ProjectionColumn_String_defined H) as (bs & -> & L).
  destruct bs as [|b bs]; [|eauto].
  destruct (ProjectionExpression_Columns e); [contradiction|discriminate].
Qed.
End PrintersDefined.

(** ** The printers of JSON on what the grammar builds *)

Lemma JSONValue_set_shape c v : JSONValue_set c = Some v -> JSONValue_shape v.
Proof.
  destruct c as [sc|o|a]; cbn.
  - destruct (Scalar_set sc) as [s|] eqn:Es; [|discriminate]. intros [= <-]. left.
    unfold JSONValue_is_scalar. cbn. now rewrite (Scalar_set_is_set _ _ Es).
  - intros [= <-]. right. now split.
  - intros [= <-]. right. now split.
Qed.

Lemma ensures_JSONValue_over value : ensures JSONValue_shape (JSONValue_over value).
Proof.
  unfold JSONValue_over. apply ensures_strct with (fun _ => True); [apply ensures_any|].
  intros c v _. apply JSONValue_set_shape.
Qed.

Lemma ensures_JSONValue fuel : ensures JSONValue_shape (JSONValue_node fuel).
Proof.
  destruct fuel as [|fuel]; [now intros ts a rest E|]. apply ensures_JSONValue_over.
Qed.

Lemma ensures_JSONObjectEntry value :
  ensures JSONValue_shape value -> ensures JSONObjectEntry_shape (JSONObjectEntry_over value).
Proof.
  intros Hv. unfold JSONObjectEntry_over.
  apply ensures_strct with JSONObjectEntry_shape; [|now intros a b H [= <-]].
  ensures_next. apply ensures_bind with JSONValue_shape; [now apply ensures_must|].
  intros v H. apply ensures_ret. now exists v.
Qed.

Lemma ensures_JSONObject_entries value :
  ensures JSONValue_shape value ->
  ensures (Forall JSONObjectEntry_shape) (JSONObject_entries value).
Proof.
  intros Hv. unfold JSONObject_entries.
  apply ensures_bind with JSONObjectEntry_shape; [now apply ensures_JSONObjectEntry|].
  intros e He. apply ensures_bind with (Forall JSONObjectEntry_shape).
  { apply ensures_must, ensures_repetition. ensures_skip.
    apply ensures_bind with JSONObjectEntry_shape;
      [now apply ensures_must, ensures_JSONObjectEntry|].
    intros e' He'. now apply ensures_ret. }
  intros l Hl. apply ensures_ret. now constructor.
Qed.

Lemma ensures_JSONObject_over value :
  ensures JSONValue_shape value ->
  ensures (fun o => Forall JSONObjectEntry_shape (JSONObject_Entries o)) (JSONObject_over value).
Proof.
  intros Hv. unfold JSONObject_over.
  apply ensures_strct with (fun o => Forall JSONObjectEntry_shape (JSONObject_Entries o));
    [|now intros a b H [= <-]].
  ensures_skip. apply ensures_bind with (when_some (Forall JSONObjectEntry_shape)).
  { apply ensures_must, ensures_optional.
    apply ensures_bind with (Forall JSONObjectEntry_shape);
      [now apply ensures_JSONObject_entries|].
    intros l Hl. ensures_next. now apply ensures_ret. }
  intros [l|] Hl; ensures_skip; apply ensures_ret; cbn; [exact Hl|constructor].
Qed.

Lemma ensures_JSONArray_entries value :
  ensures JSONValue_shape value -> ensures (Forall JSONValue_shape) (JSONArray_entries value).
Proof.
  intros Hv. unfold JSONArray_entries.
  apply ensures_bind with JSONValue_shape; [exact Hv|].
  intros e He. apply ensures_bind with (Forall JSONValue_shape).
  { apply ensures_must, ensures_repetition. ensures_skip.
    apply ensures_bind with JSONValue_shape; [now apply ensures_must|].
    intros e' He'. now apply ensures_ret. }
  intros l Hl. apply ensures_ret. now constructor.
Qed.

Lemma ensures_JSONArray_over value :
  ensures JSONValue_shape value ->
  ensures (fun a => Forall JSONValue_shape (JSONArray_Entries a)) (JSONArray_over value).
Proof.
  intros Hv. unfold JSONArray_over.
  apply ensures_strct with (fun a => Forall JSONValue_shape (JSONArray_Entries a));
    [|now intros a b H [= <-]].
  ensures_skip. apply ensures_bind with (when_some (Forall JSONValue_shape)).
  { apply ensures_must, ensures_optional.
    apply ensures_bind with (Forall JSONValue_shape); [now apply ensures_JSONArray_entries|].
    intros l Hl. ensures_next. now apply ensures_ret. }
  intros [l|] Hl; ensures_skip; apply ensures_ret; cbn; [exact Hl|constructor].
Qed.

Section JSONPrinted.
Variable FormatFloat : float64 -> string.
Variable Quote : string -> string.

Lemma JSONValue_String_scalar v :
  JSONValue_is_scalar v = true -> exists t, JSONValue_String FormatFloat Quote v = Some t.
Proof.
  unfold JSONValue_is_scalar, JSONValue_String. intros H.
  apply andb_prop in H as [H _]. apply andb_prop in H as [H _].
  now apply Scalar_String_defined.
Qed.

Lemma JSONValue_String_nested v :
  JSONValue_shape v -> JSONValue_is_scalar v = false ->
  JSONValue_String FormatFloat Quote v = None.
Proof.
  intros [H|[H _]] E; [congruence|]. unfold JSONValue_String. now rewrite H.
Qed.

Lemma JSONObjectEntry_text_scalar e :
  entry_is_scalar e = true -> exists t, JSONObjectEntry_text FormatFloat Quote e = Some t.
Proof.
  unfold entry_is_scalar, JSONObjectEntry_text.
  destruct (JSONObjectEntry_Value e) as [v|]; [|discriminate]. intros H.
  destruct (JSONValue_String_scalar v H) as (t & ->). eauto.
Qed.

Lemma JSONObjectEntry_text_nested e :
  JSONObjectEntry_shape e -> entry_is_scalar e = false ->
  JSONObjectEntry_text FormatFloat Quote e = None.
Proof.
  intros (v & Ev & Hv). unfold entry_is_scalar, JSONObjectEntry_text. rewrite Ev.
  intros E. now rewrite (JSONValue_String_nested v Hv E).
Qed.

Lemma forallb_Forall_true {A} (f : A -> bool) l :
  forallb f l = true -> Forall (fun a => f a = true) l.
Proof. intros H. apply Forall_forall. now apply forallb_forall. Qed.

Lemma forallb_false_In {A} (f : A -> bool) l :
  forallb f l = false -> exists a, List.In a l /\ f a = false.
Proof.
  induction l as [|a l IH]; [discriminate|]. cbn. destruct (f a) eqn:E.
  - intros H. destruct (IH H) as (b & Hb & Eb). exists b. auto.
  - intros _. exists a. auto.
Qed.

Lemma JSONObject_String_shape o :
  Forall JSONObjectEntry_shape (JSONObject_Entries o) ->
  if forallb entry_is_scalar (JSONObject_Entries o)
  then exists t, JSONObject_String FormatFloat Quote o = Some t
  else JSONObject_String FormatFloat Quote o = None.
Proof.
  intros H. unfold JSONObject_String.
  destruct (forallb entry_is_scalar (JSONObject_Entries o)) eqn:E.
  - destruct (all_some_Forall (JSONObjectEntry_text FormatFloat Quote) _ _
                JSONObjectEntry_text_scalar (forallb_Forall_true _ _ E)) as (bs & -> & _).
    eauto.
  - destruct (forallb_false_In _ _ E) as (e & He & Ee).
    rewrite (all_some_None (JSONObjectEntry_text FormatFloat Quote) _ e He); [reflexivity|].
    apply JSONObjectEntry_text_nested; [|exact Ee].
    rewrite Forall_forall in H. now apply H.
Qed.

Lemma JSONArray_String_shape a :
  Forall JSONValue_shape (JSONArray_Entries a) ->
  if forallb JSONValue_is_scalar (JSONArray_Entries a)
  then exists t, JSONArray_String FormatFloat Quote a = Some t
  else JSONArray_String FormatFloat Quote a = None.
Proof.
  intros H. unfold JSONArray_String.
  destruct (forallb JSONValue_is_scalar (JSONArray_Entries a)) eqn:E.
  - destruct (all_some_Forall (JSONValue_String FormatFloat Quote) _ _
                JSONValue_String_scalar (forallb_Forall_true _ _ E)) as (bs & -> & _).
    eauto.
  - destruct (forallb_false_In _ _ E) as (v & Hv & Ev).
    rewrite (all_some_None (JSONValue_String FormatFloat Quote) _ v Hv); [reflexivity|].
    apply JSONValue_String_nested; [|exact Ev].
    rewrite Forall_forall in H. now apply H.
Qed.
End JSONPrinted.

(** ** The statements that the grammar builds *)

Lemma ensures_CreateTableEntry : ensures CreateTableEntry_shape CreateTableEntry_node.
Proof.
  unfold CreateTableEntry_node.
  apply ensures_strct with CreateTableEntry_shape; [|now intros a b H [= <-]].
  apply ensures_disjunction.
  alternatives; (apply ensures_fmap with (fun _ => True); [apply ensures_any|]);
    reflexivity.
Qed.

Lemma ensures_CreateTable : ensures CreateTable_shape CreateTable_node.
Proof.
  unfold CreateTable_node.
  apply ensures_strct with CreateTable_shape; [|now intros a b H [= <-]].
  ensures_next.
  apply ensures_bind with CreateTableEntry_shape;
    [apply ensures_must, ensures_CreateTableEntry|]. intros e He.
  apply ensures_bind with (Forall CreateTableEntry_shape).
  { apply ensures_must, ensures_repetition. ensures_skip.
    apply ensures_bind with CreateTableEntry_shape;
      [apply ensures_must, ensures_CreateTableEntry|].
    intros e' He'. now apply ensures_ret. }
  intros l Hl. ensures_skip. apply ensures_ret. split; [discriminate|now constructor].
Qed.

Lemma ensures_InsertTerminal fuel : ensures InsertTerminal_shape (InsertTerminal_node fuel).
Proof.
  unfold InsertTerminal_node. apply ensures_strct with (fun _ => True); [apply ensures_any|].
  intros [vc|o] t _; cbn.
  - destruct (Value_set vc) as [v|] eqn:Ev; [|discriminate]. intros [= <-].
    exact (Value_set_is_set _ _ Ev).
  - now intros [= <-].
Qed.

Lemma ensures_Insert_into_values fuel :
  ensures (fun iv => snd iv <> [] /\ Forall InsertTerminal_shape (snd iv))
    (Insert_into_values fuel).
Proof.
  unfold Insert_into_values. ensures_skip. ensures_next.
  apply ensures_bind with InsertTerminal_shape;
    [apply ensures_must, ensures_InsertTerminal|]. intros v Hv. ensures_skip.
  apply ensures_bind with (Forall InsertTerminal_shape).
  { apply ensures_must, ensures_repetition. ensures_skip.
    apply ensures_bind with InsertTerminal_shape;
      [apply ensures_must, ensures_InsertTerminal|].
    intros v' Hv'. ensures_skip. now apply ensures_ret. }
  intros l Hl. apply ensures_ret. split; [discriminate|now constructor].
Qed.

Lemma ensures_Insert fuel : ensures Insert_shape (Insert_node fuel).
Proof.
  unfold Insert_node. apply ensures_strct with Insert_shape; [|now intros a b H [= <-]].
  apply ensures_bind with (fun iv => snd iv <> [] /\ Forall InsertTerminal_shape (snd iv));
    [apply ensures_Insert_into_values|].
  intros iv H. ensures_next. now apply ensures_ret.
Qed.

Lemma ensures_Select fuel : ensures Select_shape (Select_node fuel).
Proof.
  unfold Select_node.
  apply ensures_strct with
    (fun x : ProjectionExpression * string * option string * option AndExpression
             * option string * option string =>
       let '(p, _, _, _, _, _) := x in ProjectionExpression_shape p).
  - apply ensures_bind with ProjectionExpression_shape; [apply ensures_ProjectionExpression|].
    intros p Hp. ensures_skip. do 5 ensures_next. now apply ensures_ret.
  - intros [[[[[p from] idx] wh] dir] lim] s Hp. destruct lim as [n|].
    + destruct (ParseInt n); [|discriminate]. intros [= <-]. now split.
    + intros [= <-]. now split.
Qed.

Lemma ensures_AST_statement fuel : ensures AST_shape (AST_statement fuel).
Proof.
  unfold AST_statement. apply ensures_disjunction. alternatives.
  - ensures_skip. apply ensures_bind with Select_shape; [apply ensures_must, ensures_Select|].
    intros s Hs. apply ensures_ret. split; [reflexivity|cbn; tauto].
  - ensures_skip. apply ensures_bind with Insert_shape; [apply ensures_must, ensures_Insert|].
    intros i Hi. apply ensures_ret. split; [reflexivity|cbn; tauto].
  - ensures_skip. apply ensures_bind with Insert_shape; [apply ensures_must, ensures_Insert|].
    intros i Hi. apply ensures_ret. split; [reflexivity|cbn; tauto].
  - ensures_skip.
    apply ensures_bind with CreateTable_shape; [apply ensures_must, ensures_CreateTable|].
    intros c Hc. apply ensures_ret. split; [reflexivity|cbn; tauto].
Qed.

Lemma ensures_AST fuel : ensures AST_shape (AST_node fuel).
Proof.
  unfold AST_node. apply ensures_strct with AST_shape; [|now intros a b H [= <-]].
  apply ensures_bind with AST_shape; [apply ensures_AST_statement|].
  intros a Ha. ensures_next. now apply ensures_ret.
Qed.

(** ** The lexer on any text *)

Lemma Lexer_Skipped s rest :
  Lexer s = Skipped rest -> match_space s = Some (fst (span is_space s), rest).
Proof.
  unfold Lexer, match_space. destruct (span is_space s) as [sp r]. cbn.
  destruct (nonempty sp); [now intros [= <-]|].
  destruct (match_Keyword s) as [[? ?]|]; [discriminate|].
  destruct (match_QuotedIdent s) as [[? ?]|]; [discriminate|].
  destruct (match_Ident s) as [[? ?]|]; [discriminate|].
  destruct (match_Number s) as [[? ?]|]; [discriminate|].
  destruct (match_String s) as [[? ?]|]; [discriminate|].
  destruct (match_Operators s) as [[? ?]|]; [discriminate|].
  destruct (match_semicolon s) as [[? ?]|]; discriminate.
Qed.

Lemma Lexer_Skipped_blank s rest :
  Lexer s = Skipped rest -> exists sp, s = (sp ++ rest)%string /\ blank sp = true.
Proof.
  intros H. pose proof (Lexer_Skipped s rest H) as M. unfold match_space in M.
  pose proof (span_split is_space s) as E. pose proof (span_word is_space s) as W.
  destruct (span is_space s) as [sp r]. cbn in *.
  destruct (nonempty sp); [|discriminate]. injection M as <-. now exists sp.
Qed.

Lemma lex_loop_interleave fuel : forall s ts,
  lex_loop fuel s = Some ts ->
  exists gaps last,
    length gaps = length ts /\ forallb blank gaps = true /\ blank last = true
    /\ s = interleave gaps ts last.
Proof.
  induction fuel as [|fuel IH]; intros s ts H.
  - destruct s; [|discriminate]. injection H as <-. now exists [], "".
  - destruct s as [|c s]; [injection H as <-; now exists [], ""|].
    cbn [lex_loop] in H. destruct (Lexer (String c s)) as [rest|t rest|] eqn:L; [| |discriminate].
    + destruct (Lexer_Skipped_blank _ _ L) as (sp & E & B).
      destruct (IH rest ts H) as (gaps & last & Hl & Hg & Hb & Er).
      destruct gaps as [|g gaps], ts as [|t ts]; try discriminate.
      * exists [], (sp ++ last)%string. repeat split.
        -- unfold blank in *. rewrite string_forall_app. now rewrite B, Hb.
        -- cbn in Er. now rewrite E, Er.
      * exists ((sp ++ g)%string :: gaps), last.
        cbn [forallb] in Hg. apply andb_prop in Hg as [G1 G2].
        repeat split; [exact Hl| |exact Hb|].
        -- cbn [forallb]. rewrite G2, andb_true_r. unfold blank in *.
           rewrite string_forall_app. now rewrite B, G1.
        -- cbn [interleave] in Er |- *. now rewrite E, Er, append_assoc.
    + destruct (lex_loop fuel rest) as [ts'|] eqn:R; [|discriminate]. injection H as <-.
      destruct (IH rest ts' R) as (gaps & last & Hl & Hg & Hb & Er).
      pose proof (Lexer_splits (String c s)) as S. rewrite L in S. destruct S as [S _].
      exists ("" :: gaps), last. repeat split; [cbn; now rewrite Hl|exact Hg|exact Hb|].
      cbn [interleave]. now rewrite <- Er.
Qed.

Lemma lex_loop_nonempty fuel : forall s ts,
  lex_loop fuel s = Some ts -> Forall (fun t => Token_Value t <> "") ts.
Proof.
  induction fuel as [|fuel IH]; intros s ts H.
  - destruct s; [|discriminate]. injection H as <-. constructor.
  - destruct s as [|c s]; [injection H as <-; constructor|].
    cbn [lex_loop] in H. destruct (Lexer (String c s)) as [rest|t rest|] eqn:L; [| |discriminate].
    + eauto.
    + destruct (lex_loop fuel rest) as [ts'|] eqn:R; [|discriminate]. injection H as <-.
      pose proof (Lexer_splits (String c s)) as S. rewrite L in S. destruct S as [_ S].
      constructor; eauto.
Qed.

(** *** Identifiers and keywords *)

Lemma first_keyword_found kws s kw l m s' :
  List.In kw kws -> fold_prefix kw true s = Some (l, m, s') -> boundary l s' = true ->
  first_keyword kws s <> None.
Proof.
  induction kws as [|k kws IH]; [contradiction|]. intros [->|H] F B; cbn.
  - now rewrite F, B.
  - destruct (fold_prefix k true s) as [[[l' m'] s'']|]; [|eauto].
    destruct (boundary l' s''); [discriminate|eauto].
Qed.

Lemma match_Keyword_variant w tail :
  List.In (ToUpper w) keywords -> head_is is_word tail = false ->
  match_Keyword (w ++ tail) <> None.
Proof.
  intros Hin Ht. pose proof (keyword_variant_word w Hin) as Hw.
  destruct (reserved_variant_name w (keyword_reserved _ Hin)) as [Hne _].
  destruct w as [|c w]; [discriminate|]. unfold match_Keyword.
  assert (boundary false (String c w ++ tail) = true) as ->.
  { cbn in Hw. apply andb_prop in Hw as [Hc _]. unfold boundary. cbn. now rewrite Hc. }
  apply first_keyword_found with (kw := ToUpper (String c w)) (l := true)
                                 (m := String c w) (s' := tail).
  - exact Hin.
  - exact (fold_prefix_self (String c w) tail true Hw).
  - unfold boundary. now rewrite Ht.
Qed.

Lemma Lexer_Ident s v rest :
  Lexer s = Lexed (mkToken Ident v) rest ->
  match_Keyword s = None /\ match_Ident s = Some (v, rest).
Proof.
  unfold Lexer. destruct (match_space s) as [[? ?]|]; [discriminate|].
  destruct (match_Keyword s) as [[? ?]|]; [discriminate|].
  destruct (match_QuotedIdent s) as [[? ?]|]; [discriminate|].
  destruct (match_Ident s) as [[? ?]|]; cbn; [now intros [= <- <-]|].
  destruct (match_Number s) as [[? ?]|]; [discriminate|].
  destruct (match_String s) as [[? ?]|]; [discriminate|].
  destruct (match_Operators s) as [[? ?]|]; [discriminate|].
  destruct (match_semicolon s) as [[? ?]|]; discriminate.
Qed.

Lemma is_reserved_false w : ~ List.In (ToUpper w) keywords -> is_reserved w = false.
Proof.
  intros H. unfold is_reserved. destruct (existsb _ keywords) eqn:E; [|reflexivity].
  apply existsb_exists in E as (k & Hk & Ek). apply String.eqb_eq in Ek. now subst.
Qed.

Lemma Lexer_Ident_bare s v rest :
  Lexer s = Lexed (mkToken Ident v) rest ->
  s = (v ++ rest)%string /\ bare_ident v = true /\ head_is is_word rest = false.
Proof.
  intros H. destruct (Lexer_Ident s v rest H) as [K M]. unfold match_Ident in M.
  destruct s as [|c s]; [discriminate|]. destruct (is_ident_start c) eqn:Hc; [|discriminate].
  pose proof (span_split is_word s) as E. pose proof (span_word is_word s) as W.
  pose proof (span_rest is_word s) as R. destruct (span is_word s) as [body r].
  cbn [fst snd] in *.
  injection M as <- <-. split; [cbn; now rewrite E|]. split; [|exact R].
  cbn [bare_ident]. rewrite Hc, W. cbn [andb]. apply negb_true_iff, is_reserved_false. intros Hin.
  apply (match_Keyword_variant (String c body) r Hin R). cbn. now rewrite <- E.
Qed.

(** *** The folding of the lexer and of the grammar *)

Lemma fold_char_alone k s w m s1 :
  fold_char k s = Some (w, m, s1) -> forall x, fold_char k (m ++ x) = Some (w, m, x).
Proof.
  unfold fold_char. destruct s as [|c s]; [discriminate|].
  destruct (Ascii.eqb (to_upper c) k) eqn:E1.
  { intros [= <- <- <-] x. cbn. now rewrite E1. }
  destruct s as [|c1 s]; [discriminate|].
  destruct (Ascii.eqb k "S" && N.eqb (byte_of c) 197 && N.eqb (byte_of c1) 191)%bool eqn:E2.
  { intros [= <- <- <-] x. cbn. now rewrite E1, E2. }
  destruct s as [|c2 s]; [discriminate|].
  destruct (Ascii.eqb k "K" && N.eqb (byte_of c) 226 && N.eqb (byte_of c1) 132
            && N.eqb (byte_of c2) 170)%bool eqn:E3; [|discriminate].
  intros [= <- <- <-] x. cbn. now rewrite E1, E2, E3.
Qed.

Lemma fold_prefix_alone kw : forall last s l m s',
  fold_prefix kw last s = Some (l, m, s') -> fold_prefix kw last m = Some (l, m, "").
Proof.
  induction kw as [|k kw IH]; intros last s l m s' H; cbn in H |- *.
  - now injection H as <- <- <-.
  - destruct (fold_char k s) as [[[w m1] s1]|] eqn:F; [|discriminate].
    destruct (fold_prefix kw w s1) as [[[l' m'] s2]|] eqn:P; [|discriminate].
    injection H as <- <- <-. rewrite (fold_char_alone k s w m1 s1 F m').
    now rewrite (IH w s1 l' m' s2 P).
Qed.

Lemma first_keyword_In kws s m s' :
  first_keyword kws s = Some (m, s') ->
  exists kw l, List.In kw kws /\ fold_prefix kw true s = Some (l, m, s').
Proof.
  induction kws as [|k kws IH]; [discriminate|]. cbn.
  destruct (fold_prefix k true s) as [[[l m0] s0]|] eqn:F.
  - destruct (boundary l s0).
    + intros [= <- <-]. exists k, l. auto.
    + intros H. destruct (IH H) as (kw & l' & Hin & E). exists kw, l'. auto.
  - intros H. destruct (IH H) as (kw & l' & Hin & E). exists kw, l'. auto.
Qed.

Lemma keywords_upper : forallb (fun kw => String.eqb (ToUpper kw) kw) keywords = true.
Proof. reflexivity. Qed.

Lemma Lexer_Keyword s v rest :
  Lexer s = Lexed (mkToken Keyword v) rest -> match_Keyword s = Some (v, rest).
Proof.
  unfold Lexer. destruct (match_space s) as [[? ?]|]; [discriminate|].
  destruct (match_Keyword s) as [[? ?]|]; cbn; [now intros [= <- <-]|].
  destruct (match_QuotedIdent s) as [[? ?]|]; [discriminate|].
  destruct (match_Ident s) as [[? ?]|]; [discriminate|].
  destruct (match_Number s) as [[? ?]|]; [discriminate|].
  destruct (match_String s) as [[? ?]|]; [discriminate|].
  destruct (match_Operators s) as [[? ?]|]; [discriminate|].
  destruct (match_semicolon s) as [[? ?]|]; discriminate.
Qed.

Lemma Lexer_Keyword_literal s v rest :
  Lexer s = Lexed (mkToken Keyword v) rest ->
  exists kw, List.In kw keywords /\ literal_eq kw (mkToken Keyword v) = true.
Proof.
  intros H. apply Lexer_Keyword in H. unfold match_Keyword in H.
  destruct (boundary false s); [|discriminate].
  destruct (first_keyword_In _ _ _ _ H) as (kw & l & Hin & F). exists kw. split; [exact Hin|].
  unfold literal_eq, EqualFold. cbn.
  pose proof keywords_upper as U. rewrite forallb_forall in U.
  specialize (U kw Hin). apply String.eqb_eq in U. rewrite U.
  now rewrite (fold_prefix_alone kw true s l v rest F).
Qed.

(** ** Words, quoted identifiers and strings *)

Lemma variant_name u : forall w,
  ToUpper w = u -> string_forall keyword_char u = true -> string_forall name_char w = true.
Proof.
  induction u as [|k u IH]; intros [|c w] E H; try discriminate; [reflexivity|].
  cbn in E. injection E as Ec Ew. cbn in H |- *. apply andb_prop in H as [Hk Hu].
  rewrite (to_upper_name c) by now rewrite Ec. now rewrite (IH w Ew Hu).
Qed.

Lemma words_compared_exactly_shape :
  forallb (fun l => (nonempty l && string_forall keyword_char (ToUpper l)
                     && negb (existsb (String.eqb (ToUpper l)) keywords))%bool)
    words_compared_exactly = true.
Proof. reflexivity. Qed.

Lemma word_compared_exactly_bare l w :
  List.In l words_compared_exactly -> ToUpper w = ToUpper l -> bare_ident w = true.
Proof.
  intros Hl E. pose proof words_compared_exactly_shape as K. rewrite forallb_forall in K.
  specialize (K l Hl). apply andb_prop in K as [K Hres]. apply andb_prop in K as [Hne Hs].
  pose proof (variant_name _ w E Hs) as Hn.
  destruct w as [|c w]; [now destruct l|]. cbn in Hn. apply andb_prop in Hn as [Hc Hw].
  cbn [bare_ident]. rewrite (name_char_start c Hc).
  rewrite (string_forall_impl name_char is_word w name_char_word Hw).
  unfold is_reserved. now rewrite E, Hres.
Qed.

Lemma drop_last_app body c : drop_last (body ++ String c "") = body.
Proof.
  induction body as [|a body IH]; [reflexivity|]. cbn [append drop_last].
  destruct body as [|b body]; [reflexivity|]. cbn [append] in IH |- *. now rewrite IH.
Qed.






(** *** String literals *)

Lemma unquote_loop_plain q body : forall fuel,
  (String.length body <= fuel)%nat -> string_forall (plain_char q) body = true ->
  unquote_loop fuel q body = Some body.
Proof.
  induction body as [|c body IH]; intros fuel Hf Hb; [now destruct fuel|].
  destruct fuel as [|fuel]; [cbn in Hf; lia|]. cbn in Hb. apply andb_prop in Hb as [Hc Hb].
  unfold plain_char in Hc. apply andb_prop in Hc as [Hc Hq]. apply andb_prop in Hc as [_ Hs].
  apply negb_true_iff in Hq, Hs. cbn [unquote_loop]. unfold UnquoteChar. rewrite Hq, Hs.
  cbn [andb negb]. rewrite (IH fuel) by (cbn in Hf; lia || exact Hb). reflexivity.
Qed.

Lemma Unquote_plain q body :
  string_forall (plain_char q) body = true ->
  Unquote (mkToken String_ (quoted q body)) = Some (mkToken String_ body).
Proof.
  intros Hb. unfold Unquote, quoted. cbn [Token_Value Token_Type strip_ends].
  rewrite drop_last_app. now rewrite (unquote_loop_plain q body _ (le_n _) Hb).
Qed.

Lemma plain_not_squote c : plain_char "'" c = true -> negb (is_squote c) = true.
Proof. by_cases c. Qed.

Lemma plain_not_dquote c : plain_char (ascii_of_N 34) c = true -> negb (is_dquote c) = true.
Proof. by_cases c. Qed.

Lemma quote_is q :
  (is_squote q || is_dquote q)%bool = true -> q = "'"%char \/ q = ascii_of_N 34.
Proof. by_cases q; auto. Qed.

Lemma Lexer_quoted q body tail :
  (is_squote q || is_dquote q)%bool = true -> string_forall (plain_char q) body = true ->
  Lexer (quoted q body ++ tail) = Lexed (mkToken String_ (quoted q body)) tail.
Proof.
  intros Hq Hb. destruct (quote_is q Hq) as [-> | ->]; unfold quoted, Lexer; cbn [append].
  - change (match_space (String "'" ((body ++ "'") ++ tail))) with (@None (string * string)).
    change (match_Keyword (String "'" ((body ++ "'") ++ tail)))
      with (@None (string * string)).
    change (match_QuotedIdent (String "'" ((body ++ "'") ++ tail)))
      with (@None (string * string)).
    change (match_Ident (String "'" ((body ++ "'") ++ tail))) with (@None (string * string)).
    change (match_Number (String "'" ((body ++ "'") ++ tail))) with (@None (string * string)).
    cbn [named]. unfold match_String, match_quoted.
    change (is_squote "'") with true. cbv iota. rewrite append_assoc.
    rewrite (span_all (fun x => negb (is_squote x)) body ("'" ++ tail)); [reflexivity| |reflexivity].
    apply string_forall_impl with (plain_char "'"); [apply plain_not_squote|exact Hb].
  - set (d := ascii_of_N 34) in *.
    change (match_space (String d ((body ++ String d "") ++ tail)))
      with (@None (string * string)).
    change (match_Keyword (String d ((body ++ String d "") ++ tail)))
      with (@None (string * string)).
    change (match_QuotedIdent (String d ((body ++ String d "") ++ tail)))
      with (@None (string * string)).
    change (match_Ident (String d ((body ++ String d "") ++ tail)))
      with (@None (string * string)).
    change (match_Number (String d ((body ++ String d "") ++ tail)))
      with (@None (string * string)).
    cbn [named]. unfold match_String, match_quoted.
    change (is_squote d) with false. change (is_dquote d) with true. cbv iota.
    rewrite append_assoc.
    rewrite (span_all (fun x => negb (is_dquote x)) body (String d "" ++ tail));
      [reflexivity| |reflexivity].
    apply string_forall_impl with (plain_char d); [apply plain_not_dquote|exact Hb].
Qed.

(** *** Table names *)

Lemma flat_map_dotted bs :
  flat_map (fun a => match a with String _ b => dotted b | EmptyString => dotted "" end)
    (map (String ".") bs) = flat_map dotted bs.
Proof. induction bs; cbn; congruence. Qed.

Lemma table_name_dotted a bs rest :
  literal "." rest = NoMatch -> (N.of_nat (length bs) < MaxIterations)%N ->
  table_name (mkToken Ident a :: flat_map dotted bs ++ rest)%list
  = Matched (a ++ concat_strings (map (String ".") bs))%string rest.
Proof.
  intros Hrest Hn. unfold table_name, disjunction. apply disjunction_take.
  rewrite bind_Matched with (a := a) (rest := (flat_map dotted bs ++ rest)%list) by reflexivity.
  rewrite bind_Matched with (a := map (String ".") bs) (rest := rest); [reflexivity|].
  apply must_Matched. rewrite <- flat_map_dotted.
  apply (repetition_items _
           (fun a => match a with String _ b => dotted b | EmptyString => dotted "" end)
           (fun a => exists b, a = String "." b) (fun _ => True)).
  - intros x r (b & ->) _. reflexivity.
  - intros [|? ?]; discriminate.
  - exact (fun _ _ => I).
  - apply Forall_forall. intros x Hx. apply in_map_iff in Hx as (b & <- & _). now exists b.
  - exact I.
  - now apply bind_NoMatch.
  - now rewrite length_map.
Qed.

(** ** The captures of keywords *)

Lemma upper_long_s_cons c s :
  N.eqb (byte_of c) 197 = false -> upper_long_s (String c s) = String c (upper_long_s s).
Proof. intros H. cbn [upper_long_s]. destruct s as [|d s]; [reflexivity|]. now rewrite H. Qed.

Lemma keyword_char_byte k : keyword_char k = true -> N.eqb (byte_of k) 197 = false.
Proof. by_cases k. Qed.

Lemma fold_char_upper_S k s w m s1 :
  keyword_char k = true -> Ascii.eqb k "K" = false ->
  fold_char k s = Some (w, m, s1) ->
  forall x, upper_long_s (ToUpper (m ++ x)) = String k (upper_long_s (ToUpper x)).
Proof.
  intros Hk HK. unfold fold_char. destruct s as [|c s]; [discriminate|].
  destruct (Ascii.eqb (to_upper c) k) eqn:E1.
  { intros [= <- <- <-] x. apply Ascii.eqb_eq in E1. cbn [append ToUpper]. rewrite E1.
    apply upper_long_s_cons, keyword_char_byte, Hk. }
  destruct s as [|c1 s]; [discriminate|]. rewrite HK. cbn [andb].
  destruct (Ascii.eqb k "S" && N.eqb (byte_of c) 197 && N.eqb (byte_of c1) 191)%bool eqn:E2.
  { intros [= <- <- <-] x. apply andb_prop in E2 as [E2 Ec1]. apply andb_prop in E2 as [Ek Ec].
    apply Ascii.eqb_eq in Ek. subst k. clear - Ec Ec1.
    assert (c = ascii_of_N 197) as -> by (revert Ec; by_cases c).
    assert (c1 = ascii_of_N 191) as -> by (revert Ec1; by_cases c1).
    reflexivity. }
  destruct s; discriminate.
Qed.

Lemma fold_prefix_upper_S kw : forall last s l m s',
  string_forall keyword_char kw = true ->
  string_forall (fun k => negb (Ascii.eqb k "K")) kw = true ->
  fold_prefix kw last s = Some (l, m, s') ->
  upper_long_s (ToUpper m) = kw.
Proof.
  induction kw as [|k kw IH]; intros last s l m s' Hs HK H; cbn in H.
  - now injection H as <- <- <-.
  - cbn in Hs, HK. apply andb_prop in Hs as [Hk Hs]. apply andb_prop in HK as [Hn HK].
    apply negb_true_iff in Hn.
    destruct (fold_char k s) as [[[w m1] s1]|] eqn:F; [|discriminate].
    destruct (fold_prefix kw w s1) as [[[l' m'] s2]|] eqn:P; [|discriminate].
    injection H as <- <- <-. rewrite (fold_char_upper_S k s w m1 s1 Hk Hn F m').
    now rewrite (IH w s1 l' m' s2 Hs HK P).
Qed.

(** A token that a literal without the letter K accepts has, in upper
    case, the text of the literal. *)
Lemma literal_eq_upper lit t :
  string_forall keyword_char (ToUpper lit) = true ->
  string_forall (fun k => negb (Ascii.eqb k "K")) (ToUpper lit) = true ->
  literal_eq lit t = true -> strings_ToUpper (Token_Value t) = strings_ToUpper lit.
Proof.
  intros Hs HK. unfold literal_eq, strings_ToUpper.
  assert (Hv : EqualFold (Token_Value t) lit = true ->
               upper_long_s (ToUpper (Token_Value t)) = ToUpper lit).
  { unfold EqualFold.
    destruct (fold_prefix (ToUpper lit) true (Token_Value t)) as [[[l m] s']|] eqn:F;
      [|discriminate].
    destruct s'; [|discriminate]. intros _.
    destruct (fold_prefix_splits _ _ _ _ _ _ F) as [E _]. rewrite append_nil_r in E.
    rewrite E. exact (fold_prefix_upper_S _ _ _ _ _ _ Hs HK F). }
  assert (Hl : upper_long_s (ToUpper lit) = ToUpper lit).
  { clear - Hs. induction (ToUpper lit) as [|k u IH]; [reflexivity|].
    cbn in Hs. apply andb_prop in Hs as [Hk Hs].
    rewrite upper_long_s_cons by now apply keyword_char_byte. now rewrite IH. }
  rewrite Hl. destruct (Token_Type t); try exact Hv;
    intros H; apply String.eqb_eq in H; now rewrite H.
Qed.

(** ** Integers *)

Lemma digits_value_digits base : forall s acc n,
  digits_value base acc s = Some n -> string_forall is_digit s = true.
Proof.
  induction s as [|c s IH]; intros acc n H; [reflexivity|]. cbn in H |- *.
  destruct (is_digit c); [|discriminate]. destruct (digit_val c <? base)%Z; [|discriminate].
  cbn in H |- *. eauto.
Qed.

Lemma digits_value_below base : forall s acc n,
  digits_value base acc s = Some n ->
  string_forall (fun c => (digit_val c <? base)%Z) s = true.
Proof.
  induction s as [|c s IH]; intros acc n H; [reflexivity|]. cbn in H |- *.
  destruct (is_digit c); [|discriminate]. destruct (digit_val c <? base)%Z; [|discriminate].
  cbn in H |- *. eauto.
Qed.

Lemma digit_val_nonneg c : is_digit c = true -> (0 <= digit_val c)%Z.
Proof. by_cases c; intros _; vm_compute; discriminate. Qed.

Lemma digits_value_nonneg base : (0 <= base)%Z -> forall s acc n,
  (0 <= acc)%Z -> digits_value base acc s = Some n -> (0 <= n)%Z.
Proof.
  intros Hb. induction s as [|c s IH]; intros acc n Ha H; cbn in H.
  - injection H as <-. exact Ha.
  - destruct (is_digit c) eqn:D; [|discriminate].
    destruct (digit_val c <? base)%Z; [|discriminate]. cbn in H.
    apply (IH (acc * base + digit_val c)%Z n); [|exact H].
    apply Z.add_nonneg_nonneg; [now apply Z.mul_nonneg_nonneg|now apply digit_val_nonneg].
Qed.

Lemma ParseUint0_digits s n :
  ParseUint0 s = Some n ->
  nonempty s = true /\ string_forall is_digit s = true /\ (0 <= n)%Z.
Proof.
  unfold ParseUint0. destruct s as [|c s]; [discriminate|].
  destruct (Ascii.eqb c "0") eqn:E.
  - apply Ascii.eqb_eq in E. subst c. intros H. split; [reflexivity|]. split.
    + cbn. exact (digits_value_digits _ _ _ _ H).
    + apply (digits_value_nonneg 8) with (s := s) (acc := 0%Z); [lia|lia|exact H].
  - intros H. split; [reflexivity|]. split.
    + exact (digits_value_digits _ _ _ _ H).
    + apply (digits_value_nonneg 10) with (s := String c s) (acc := 0%Z); [lia|lia|exact H].
Qed.

Lemma ParseInt_digits s i :
  ParseInt s = Some i ->
  in_int64 i
  /\ exists sg d, s = (sg ++ d)%string /\ (sg = "" \/ sg = "+" \/ sg = "-")
                  /\ nonempty d = true /\ string_forall is_digit d = true.
Proof.
  unfold ParseInt. destruct s as [|c s]; [discriminate|].
  destruct (Ascii.eqb c "-") eqn:Em; [|destruct (Ascii.eqb c "+") eqn:Ep]; cbn [orb].
  - apply Ascii.eqb_eq in Em. subst c.
    destruct (ParseUint0 s) as [n|] eqn:U; [|discriminate].
    destruct (ParseUint0_digits s n U) as (Hne & Hd & Hn).
    destruct (Z.leb_spec n (2 ^ 63)); [|discriminate]. intros [= <-]. split.
    + unfold in_int64, int64_min, int64_max. lia.
    + exists "-", s. auto.
  - apply Ascii.eqb_eq in Ep. subst c.
    destruct (ParseUint0 s) as [n|] eqn:U; [|discriminate].
    destruct (ParseUint0_digits s n U) as (Hne & Hd & Hn).
    destruct (Z.ltb_spec n (2 ^ 63)); [|discriminate]. intros [= <-]. split.
    + unfold in_int64, int64_min, int64_max. lia.
    + exists "+", s. auto.
  - destruct (ParseUint0 (String c s)) as [n|] eqn:U; [|discriminate].
    destruct (ParseUint0_digits _ n U) as (Hne & Hd & Hn).
    destruct (Z.ltb_spec n (2 ^ 63)); [|discriminate]. intros [= <-]. split.
    + unfold in_int64, int64_min, int64_max. lia.
    + exists "", (String c s). auto.
Qed.

Lemma PathFragment_node_bad_index sym lx rest :
  ParseInt lx = None -> no_index rest ->
  PathFragment_node (mkToken Ident sym :: op "[" :: mkToken Number lx :: op "]" :: rest)
  = Failed rest.
Proof.
  intros Hi Hrest. unfold PathFragment_node, strct.
  rewrite bind_Matched with (a := sym)
      (rest := op "[" :: mkToken Number lx :: op "]" :: rest) by reflexivity.
  rewrite bind_Matched with (a := [lx]) (rest := rest).
  - cbn [ret]. unfold PathFragment_set. cbn [fst snd ParseInts]. now rewrite Hi.
  - apply must_Matched.
    apply (repetition_items PathFragment_index index_tokens (fun _ => True) (fun _ => True)
             [lx] rest).
    + intros. apply PathFragment_index_tokens.
    + discriminate.
    + exact (fun _ _ => I).
    + repeat constructor.
    + exact I.
    + unfold PathFragment_index. now apply bind_NoMatch.
    + reflexivity.
Qed.

(** *** The text of a number *)

Lemma digits_number d : string_forall is_digit d = true -> string_forall number_char d = true.
Proof.
  apply string_forall_impl. intros c H. unfold number_char. now rewrite H.
Qed.

Lemma opt_sign_chars s : string_forall number_char (fst (opt_sign s)) = true.
Proof.
  destruct s as [|c s]; [reflexivity|]. cbn. destruct (is_sign c) eqn:E; [|reflexivity].
  cbn. unfold number_char. rewrite E. now rewrite !orb_true_r.
Qed.

Lemma opt_exponent_chars s : string_forall number_char (fst (opt_exponent s)) = true.
Proof.
  destruct s as [|c s]; [reflexivity|]. cbn. destruct (is_e c) eqn:E; [|reflexivity].
  pose proof (opt_sign_chars s) as Hs. destruct (opt_sign s) as [sg s2].
  pose proof (span_word is_digit s2) as Hd. destruct (span is_digit s2) as [d s3].
  cbn [fst] in *. destruct (nonempty d); [|reflexivity]. cbn [fst string_forall].
  rewrite string_forall_app, Hs, (digits_number d Hd).
  unfold number_char. rewrite E. now rewrite !orb_true_r.
Qed.

Lemma match_mantissa_chars s m rest :
  match_mantissa s = Some (m, rest) -> string_forall number_char m = true.
Proof.
  unfold match_mantissa. pose proof (span_word is_digit s) as Hd.
  destruct (span is_digit s) as [d s1]. cbn [fst] in Hd.
  assert (P : (if nonempty d then Some (d, s1) else None) = Some (m, rest) ->
              string_forall number_char m = true).
  { destruct (nonempty d); [|discriminate]. intros [= <- _]. now apply digits_number. }
  destruct s1 as [|c s2]; [exact P|]. destruct (is_dot c) eqn:E; [|exact P].
  pose proof (span_word is_digit s2) as Hf. destruct (span is_digit s2) as [f s3].
  cbn [fst] in Hf. destruct (nonempty f); [|exact P]. intros [= <- _].
  rewrite string_forall_app. cbn [string_forall].
  rewrite (digits_number d Hd), (digits_number f Hf).
  unfold number_char. rewrite E. now rewrite !orb_true_r.
Qed.

Lemma match_Number_chars s lx rest :
  match_Number s = Some (lx, rest) -> string_forall number_char lx = true.
Proof.
  unfold match_Number. pose proof (opt_sign_chars s) as Hs. destruct (opt_sign s) as [sg s1].
  destruct (match_mantissa s1) as [[m s2]|] eqn:M; [|discriminate].
  pose proof (opt_exponent_chars s2) as He. destruct (opt_exponent s2) as [e s3].
  cbn [fst] in *. intros [= <- _].
  now rewrite !string_forall_app, Hs, (match_mantissa_chars _ _ _ M), He.
Qed.

Lemma Lexer_Number s lx rest :
  Lexer s = Lexed (mkToken Number lx) rest -> match_Number s = Some (lx, rest).
Proof.
  unfold Lexer. destruct (match_space s) as [[? ?]|]; [discriminate|].
  destruct (match_Keyword s) as [[? ?]|]; [discriminate|].
  destruct (match_QuotedIdent s) as [[? ?]|]; [discriminate|].
  destruct (match_Ident s) as [[? ?]|]; [discriminate|].
  destruct (match_Number s) as [[? ?]|]; cbn; [now intros [= <- <-]|].
  destruct (match_String s) as [[? ?]|]; [discriminate|].
  destruct (match_Operators s) as [[? ?]|]; [discriminate|].
  destruct (match_semicolon s) as [[? ?]|]; discriminate.
Qed.

Lemma Lexer_Number_chars s lx rest :
  Lexer s = Lexed (mkToken Number lx) rest -> string_forall number_char lx = true.
Proof. intros H. exact (match_Number_chars s lx rest (Lexer_Number s lx rest H)). Qed.

(** ** Printed projections *)

Lemma ends_path_nil : ends_path [].
Proof. now repeat split. Qed.

Lemma ends_path_comma ts : ends_path (op "," :: ts).
Proof. now repeat split. Qed.

Lemma DocumentPath_node_tokens_rest p rest :
  plain_path p -> ends_path rest ->
  DocumentPath_node (path_tokens p ++ rest)%list = Matched p rest.
Proof.
  intros (Hne & Hn & Hall) (H1 & H2 & _). unfold path_tokens, DocumentPath_node.
  destruct p as [fs]. cbn [DocumentPath_Fragment] in *.
  destruct fs as [|f fs]; [congruence|]. inversion Hall as [|? ? Hf Hfs]; subst.
  rewrite <- app_assoc.
  assert (Hrep : repetition DocumentPath_more (flat_map more_tokens fs ++ rest)%list
                 = Matched fs rest).
  { apply (repetition_items DocumentPath_more more_tokens plain_fragment no_index).
    - intros. now apply DocumentPath_more_tokens.
    - discriminate.
    - reflexivity.
    - exact Hfs.
    - exact H1.
    - unfold DocumentPath_more. now apply bind_NoMatch.
    - cbn [length] in Hn. lia. }
  apply strct_Matched with (a := mkDocumentPath (f :: fs)); [|reflexivity].
  rewrite bind_Matched with (a := f) (rest := (flat_map more_tokens fs ++ rest)%list).
  - rewrite bind_Matched with (a := fs) (rest := rest); [reflexivity|].
    now apply must_Matched.
  - apply PathFragment_node_tokens; [exact Hf|]. destruct fs; [exact H1|reflexivity].
Qed.

(** The tokens of a path that something else than a parenthesis follows:
    an identifier first. *)
Lemma path_tokens_head p rest :
  plain_path p -> ends_path rest ->
  exists sym tl, (path_tokens p ++ rest)%list = mkToken Ident sym :: tl
                 /\ bare_ident sym = true /\ literal "(" tl = NoMatch.
Proof.
  intros (Hne & _ & Hall) (_ & _ & H3). unfold path_tokens.
  destruct (DocumentPath_Fragment p) as [|f fs]; [congruence|].
  inversion Hall as [|? ? (Hb & _) _]; subst.
  exists (PathFragment_Symbol f). eexists. split; [reflexivity|]. split; [exact Hb|].
  destruct (PathFragment_Indexes f) as [|i l]; [|reflexivity].
  destruct fs as [|g fs]; [exact H3|reflexivity].
Qed.

Lemma FunctionExpression_node_no_call sym tl :
  literal "(" tl = NoMatch -> FunctionExpression_node (mkToken Ident sym :: tl) = Failed tl.
Proof.
  intros H. unfold FunctionExpression_node. apply strct_Failed.
  rewrite bind_Matched with (a := sym) (rest := tl) by reflexivity.
  apply bind_Failed. now apply must_NoMatch.
Qed.

Lemma ProjectionColumn_node_path p rest :
  plain_path p -> ends_path rest ->
  ProjectionColumn_node (path_tokens p ++ rest)%list = Matched (column p) rest.
Proof.
  intros Hp Hr. destruct (path_tokens_head p rest Hp Hr) as (sym & tl & E & _ & Hc).
  unfold ProjectionColumn_node. apply strct_Matched with (a := column p); [|reflexivity].
  unfold disjunction. rewrite E.
  rewrite disjunction_near with (rest := tl);
    [|now apply fmap_Failed, FunctionExpression_node_no_call|apply Stop_1].
  apply disjunction_take. rewrite <- E.
  now apply fmap_Matched, DocumentPath_node_tokens_rest.
Qed.

Lemma bare_ident_not_star sym : bare_ident sym = true -> String.eqb sym "*" = false.
Proof.
  intros H. destruct (String.eqb sym "*") eqn:E; [|reflexivity].
  apply String.eqb_eq in E. now subst.
Qed.

(** Before an identifier the first alternative of a projection gives way. *)
Lemma star_or_document_ident sym tl :
  bare_ident sym = true -> literal "(" tl = NoMatch ->
  forall alts : list (Node ProjectionExpression),
  disjunction
    (disjunction
       [ fmap (fun _ => mkProjectionExpression true []) (literal "*");
         (_ <- literal "document" ;; _ <-! literal "(" ;; _ <-! literal "*" ;;
          _ <-! literal ")" ;; ret (mkProjectionExpression true [])) ] :: alts)
    (mkToken Ident sym :: tl)
  = disjunction_from false alts (mkToken Ident sym :: tl)
  \/ disjunction
    (disjunction
       [ fmap (fun _ => mkProjectionExpression true []) (literal "*");
         (_ <- literal "document" ;; _ <-! literal "(" ;; _ <-! literal "*" ;;
          _ <-! literal ")" ;; ret (mkProjectionExpression true [])) ] :: alts)
    (mkToken Ident sym :: tl)
  = disjunction_from true alts (mkToken Ident sym :: tl).
Proof.
  intros Hb Hc alts. set (ts := mkToken Ident sym :: tl).
  assert (Hstar : fmap (fun _ : string => mkProjectionExpression true []) (literal "*") ts
                  = NoMatch).
  { apply fmap_NoMatch. unfold ts, literal, literal_eq. cbn.
    now rewrite (bare_ident_not_star sym Hb). }
  destruct (String.eqb sym "document") eqn:E.
  - right. unfold disjunction at 1. apply disjunction_near with (rest := ts); [|apply Stop_0].
    unfold disjunction. rewrite disjunction_skip by exact Hstar.
    rewrite disjunction_near with (rest := tl); [reflexivity| |apply Stop_1].
    rewrite bind_Matched with (a := sym) (rest := tl).
    + apply bind_Failed. now apply must_NoMatch.
    + unfold ts, literal, literal_eq. cbn. now rewrite E.
  - left. unfold disjunction at 1. apply disjunction_skip.
    unfold disjunction. rewrite disjunction_skip by exact Hstar.
    rewrite disjunction_skip; [reflexivity|].
    apply bind_NoMatch. unfold ts, literal, literal_eq. cbn. now rewrite E.
Qed.

Lemma ProjectionExpression_node_paths ps :
  plain_paths ps ->
  ProjectionExpression_node (projection_tokens ps) = Matched (paths_projection ps) [].
Proof.
  intros (Hne & Hn & Hall). destruct ps as [|p ps]; [congruence|].
  inversion Hall as [|? ? Hp Hps]; subst. unfold projection_tokens, paths_projection.
  set (more := flat_map column_tokens (map column ps)).
  assert (Hmore : ends_path more).
  { unfold more. destruct ps; [apply ends_path_nil|apply ends_path_comma]. }
  assert (Hcols :
    (c <- ProjectionColumn_node ;;
     l <-! repetition (_ <- literal "," ;; c' <-! ProjectionColumn_node ;; ret c') ;;
     ret (mkProjectionExpression false (c :: l))) (path_tokens p ++ more)%list
    = Matched (mkProjectionExpression false (map column (p :: ps))) []).
  { rewrite bind_Matched with (a := column p) (rest := more)
      by now apply ProjectionColumn_node_path.
    rewrite bind_Matched with (a := map column ps) (rest := []); [reflexivity|].
    apply must_Matched. unfold more. rewrite <- (app_nil_r (flat_map _ _)).
    apply (repetition_items _ column_tokens
             (fun c => exists q, c = column q /\ plain_path q) ends_path).
    - intros c rest (q & -> & Hq) Hr. unfold column_tokens. cbn [column ProjectionColumn_DocumentPath app].
      rewrite bind_Matched with (a := ",") (rest := (path_tokens q ++ rest)%list) by reflexivity.
      rewrite bind_Matched with (a := column q) (rest := rest); [reflexivity|].
      now apply must_Matched, ProjectionColumn_node_path.
    - discriminate.
    - intros c rest. apply ends_path_comma.
    - apply Forall_forall. intros c Hc. apply in_map_iff in Hc as (q & <- & Hq).
      exists q. split; [reflexivity|]. rewrite Forall_forall in Hps. now apply Hps.
    - apply ends_path_nil.
    - reflexivity.
    - rewrite length_map. cbn [length] in Hn. lia. }
  unfold ProjectionExpression_node.
  apply strct_Matched with (a := mkProjectionExpression false (map column (p :: ps)));
    [|reflexivity].
  destruct (path_tokens_head p more Hp Hmore) as (sym & tl & E & Hb & Hc).
  rewrite E in *.
  destruct (star_or_document_ident sym tl Hb Hc
              [ (c <- ProjectionColumn_node ;;
                 l <-! repetition (_ <- literal "," ;; c' <-! ProjectionColumn_node ;; ret c') ;;
                 ret (mkProjectionExpression false (c :: l))) ]) as [-> | ->];
    now apply disjunction_take.
Qed.

(** *** The lexer on a printed projection *)

Lemma Lex_more_tail fs tail ts :
  Forall plain_fragment fs -> quiet tail = true -> Lex tail = Some ts ->
  Lex (concat_strings (map (fun f' => "." ++ PathFragment_String f') fs) ++ tail)
  = Some (flat_map more_tokens fs ++ ts)%list.
Proof.
  intros H Hq Ht. induction H as [|f fs (Hb & _ & _) _ IH]; [exact Ht|].
  cbn [map concat_strings fold_right flat_map].
  change (fold_right append "" ?l) with (concat_strings l).
  set (rest := concat_strings _) in *.
  replace ((("." ++ PathFragment_String f) ++ rest) ++ tail)%string
    with (String "." (PathFragment_String f ++ (rest ++ tail))).
  - rewrite (Lex_token _ (op ".") (PathFragment_String f ++ (rest ++ tail))).
    + rewrite (Lex_fragment f (rest ++ tail) (flat_map more_tokens fs ++ ts)%list Hb);
        [now rewrite <- app_assoc| |exact IH].
      unfold rest. clear - Hq. destruct fs; [exact Hq|reflexivity].
    + apply Lexer_dot. rewrite PathFragment_String_eq, append_assoc.
      now apply bare_ident_head.
  - cbn [append]. now rewrite !append_assoc.
Qed.

Lemma Lex_path_tail p tail ts :
  plain_path p -> quiet tail = true -> Lex tail = Some ts ->
  Lex (path_string p ++ tail) = Some (path_tokens p ++ ts)%list.
Proof.
  intros (Hne & _ & Hall) Hq Ht. unfold path_string, DocumentPath_String, path_tokens.
  destruct (DocumentPath_Fragment p) as [|f fs]; [congruence|].
  inversion Hall as [|? ? (Hb & _ & _) Hfs]; subst.
  rewrite append_assoc, <- app_assoc.
  apply Lex_fragment; [exact Hb| |now apply Lex_more_tail].
  clear - Hq. destruct fs; [exact Hq|reflexivity].
Qed.

Lemma path_string_head p tail :
  plain_path p -> head_is is_space (path_string p ++ tail) = false.
Proof.
  intros (Hne & _ & Hall). unfold path_string, DocumentPath_String.
  destruct (DocumentPath_Fragment p) as [|f fs]; [congruence|].
  inversion Hall as [|? ? (Hb & _ & _) _]; subst.
  rewrite PathFragment_String_eq, !append_assoc.
  destruct (PathFragment_Symbol f) as [|c s]; [discriminate|]. cbn [bare_ident] in Hb.
  apply andb_prop in Hb as [Hb _]. apply andb_prop in Hb as [Hc _]. cbn.
  revert Hc. clear. by_cases c.
Qed.

Lemma Lexer_comma s : Lexer (String "," (String " " s)) = Lexed (op ",") (String " " s).
Proof. reflexivity. Qed.

Lemma Lexer_space s : head_is is_space s = false -> Lexer (String " " s) = Skipped s.
Proof.
  intros H. unfold Lexer, match_space. cbn [span]. change (is_space " ") with true. cbv iota.
  now rewrite (span_stop is_space s H).
Qed.

Lemma Join_cons a b l sep : Join (a :: b :: l) sep = (a ++ sep ++ Join (b :: l) sep)%string.
Proof. reflexivity. Qed.

Lemma Lex_paths p ps :
  Forall plain_path (p :: ps) ->
  Lex (Join (map path_string (p :: ps)) ", ")
  = Some (projection_tokens (p :: ps)).
Proof.
  revert p. induction ps as [|q ps IH]; intros p H; inversion H as [|? ? Hp Hps]; subst.
  - cbn [map Join projection_tokens flat_map].
    rewrite <- (append_nil_r (path_string p)). now apply Lex_path_tail.
  - pose proof (Forall_inv Hps) as Hq.
    specialize (IH q Hps). cbn [map] in IH |- *. rewrite Join_cons.
    set (J := Join (path_string q :: map path_string ps) ", ") in *.
    unfold projection_tokens. cbn [map flat_map].
    apply Lex_path_tail; [exact Hp|reflexivity|].
    change (", " ++ J)%string with (String "," (String " " J)).
    rewrite (Lex_token _ _ _ (Lexer_comma J)).
    rewrite (Lex_skip (String " " J) J).
    + rewrite IH. reflexivity.
    + apply Lexer_space. unfold J.
      destruct (map path_string ps) as [|x l];
        [cbn [Join]; rewrite <- (append_nil_r (path_string q))|rewrite Join_cons];
        apply path_string_head, Hq.
Qed.

Lemma projection_tokens_plain ps :
  Forall (fun t => Token_Type t <> String_ /\ Token_Type t <> QuotedIdent)
    (projection_tokens ps).
Proof.
  destruct ps as [|p ps]; [constructor|]. unfold projection_tokens.
  apply Forall_app. split; [apply path_tokens_plain|].
  induction ps as [|q ps IH]; cbn [map flat_map]; [constructor|].
  apply Forall_app. split; [|exact IH].
  constructor; [split; discriminate|apply path_tokens_plain].
Qed.

Section ProjectionPrinted.
Variable FormatFloat : float64 -> string.
Variable Quote : string -> string.

Lemma ProjectionColumn_String_path p :
  plain_path p ->
  ProjectionColumn_String FormatFloat Quote (column p) = Some (path_string p).
Proof.
  intros (Hne & _). unfold ProjectionColumn_String, column, path_string, DocumentPath_String.
  cbn. now destruct (DocumentPath_Fragment p).
Qed.

Lemma ProjectionExpression_String_paths ps :
  plain_paths ps ->
  ProjectionExpression_String FormatFloat Quote (paths_projection ps)
  = Some (Join (map path_string ps) ", ").
Proof.
  intros (Hne & _ & Hall). unfold ProjectionExpression_String, paths_projection.
  cbn [ProjectionExpression_All ProjectionExpression_Columns].
  assert (E : all_some (map (ProjectionColumn_String FormatFloat Quote) (map column ps))
              = Some (map path_string ps)).
  { clear Hne. induction Hall as [|p ps Hp _ IH]; [reflexivity|].
    cbn [map all_some]. now rewrite (ProjectionColumn_String_path p Hp), IH. }
  rewrite E. destruct ps; [congruence|reflexivity].
Qed.
End ProjectionPrinted.

(** ** The lexer of the second parser *)

Lemma fold_char_more k s w m s1 x :
  fold_char k s = Some (w, m, s1) -> fold_char k (s ++ x) = Some (w, m, (s1 ++ x)%string).
Proof.
  intros F. destruct (fold_char_splits _ _ _ _ _ F) as [E _].
  rewrite E at 1. rewrite append_assoc. exact (fold_char_alone k s w m s1 F _).
Qed.

Lemma fold_prefix_more kw : forall last s l m s' x,
  fold_prefix kw last s = Some (l, m, s') ->
  fold_prefix kw last (s ++ x) = Some (l, m, (s' ++ x)%string).
Proof.
  induction kw as [|k kw IH]; intros last s l m s' x H; cbn in H |- *.
  - now injection H as <- <- <-.
  - destruct (fold_char k s) as [[[w m1] s1]|] eqn:F; [|discriminate].
    destruct (fold_prefix kw w s1) as [[[l' m'] s2]|] eqn:P; [|discriminate].
    injection H as <- <- <-. rewrite (fold_char_more k s w m1 s1 x F).
    now rewrite (IH w s1 l' m' s2 x P).
Qed.

Lemma first_folded_found kws s kw r :
  List.In kw kws -> fold_prefix kw true s = Some r -> first_folded kws s <> None.
Proof.
  induction kws as [|k kws IH]; [contradiction|]. intros [->|H] F; cbn.
  - rewrite F. now destruct r as [[? ?] ?].
  - destruct (fold_prefix k true s) as [[[? ?] ?]|]; [discriminate|eauto].
Qed.

Lemma fold_char_not_space k s r :
  keyword_char k = true -> fold_char k s = Some r -> head_is is_space s = false.
Proof.
  intros Hk. unfold fold_char. destruct s as [|c s]; [discriminate|]. cbn [head_is].
  destruct (Ascii.eqb (to_upper c) k) eqn:E1.
  { intros _. apply Ascii.eqb_eq in E1. subst k. revert Hk. clear. by_cases c. }
  destruct s as [|c1 s]; [discriminate|].
  destruct (Ascii.eqb k "S" && N.eqb (byte_of c) 197 && N.eqb (byte_of c1) 191)%bool eqn:E2.
  { intros _. apply andb_prop in E2 as [E2 _]. apply andb_prop in E2 as [_ E2].
    revert E2. clear. by_cases c. }
  destruct s as [|c2 s]; [discriminate|].
  destruct (Ascii.eqb k "K" && N.eqb (byte_of c) 226 && N.eqb (byte_of c1) 132
            && N.eqb (byte_of c2) 170)%bool eqn:E3; [|discriminate].
  intros _. apply andb_prop in E3 as [E3 _]. apply andb_prop in E3 as [E3 _].
  apply andb_prop in E3 as [_ E3]. revert E3. clear. by_cases c.
Qed.

Lemma Select_keywords_shape :
  forallb (fun kw => (nonempty kw && string_forall keyword_char kw)%bool) Select_keywords
  = true.
Proof. reflexivity. Qed.

Lemma Select_keyword_not_space kw s r :
  List.In kw Select_keywords -> fold_prefix kw true s = Some r ->
  head_is is_space s = false.
Proof.
  intros Hin F. pose proof Select_keywords_shape as K. rewrite forallb_forall in K.
  specialize (K kw Hin). apply andb_prop in K as [Hne Hs].
  destruct kw as [|k kw]; [discriminate|]. cbn in Hs. apply andb_prop in Hs as [Hk _].
  cbn in F. destruct (fold_char k s) as [r1|] eqn:E; [|discriminate].
  exact (fold_char_not_space k s r1 Hk E).
Qed.

Lemma Select_Lexer_keyword kw s r :
  List.In kw Select_keywords -> fold_prefix kw true s = Some r ->
  exists v rest, Select_Lexer s = Lexed (mkToken Keyword v) rest.
Proof.
  intros Hin F. unfold Select_Lexer, match_space.
  rewrite (span_stop is_space s (Select_keyword_not_space kw s r Hin F)). cbn [nonempty].
  pose proof (first_folded_found Select_keywords s kw r Hin F) as N.
  unfold Select_match_Keyword. destruct (first_folded Select_keywords s) as [[v rest]|];
    [|congruence].
  now exists v, rest.
Qed.

Lemma Select_Lexer_Ident s v rest :
  Select_Lexer s = Lexed (mkToken Ident v) rest ->
  Select_match_Keyword s = None /\ match_Ident s = Some (v, rest).
Proof.
  unfold Select_Lexer. destruct (match_space s) as [[? ?]|]; [discriminate|].
  destruct (Select_match_Keyword s) as [[? ?]|]; [discriminate|].
  destruct (match_Ident s) as [[? ?]|]; cbn; [now intros [= <- <-]|].
  destruct (match_Number s) as [[? ?]|]; [discriminate|].
  destruct (match_String s) as [[? ?]|]; [discriminate|].
  destruct (Select_match_Operators s) as [[? ?]|]; discriminate.
Qed.

Lemma Select_Lexer_Ident_no_keyword s v rest kw :
  Select_Lexer s = Lexed (mkToken Ident v) rest -> List.In kw Select_keywords ->
  fold_prefix kw true v = None.
Proof.
  intros H Hin. destruct (Select_Lexer_Ident s v rest H) as [K M].
  destruct (fold_prefix kw true v) as [[[l m] s']|] eqn:F; [exfalso|reflexivity].
  pose proof (match_Ident_splits s) as S. rewrite M in S. destruct S as [E _].
  apply (first_folded_found Select_keywords s kw (l, m, (s' ++ rest)%string) Hin); [|exact K].
  rewrite E. now apply fold_prefix_more.
Qed.

(** ** The iteration limit is out of reach *)

Lemma calm_ret {A} n (a : A) : calm_on n (ret a).
Proof. intros ts _ _. discriminate. Qed.

Lemma calm_literal n l : calm_on n (literal l).
Proof.
  intros ts _ _. unfold literal. destruct ts as [|t ts]; [discriminate|].
  destruct (literal_eq l t); discriminate.
Qed.

Lemma calm_reference n ty : calm_on n (reference ty).
Proof.
  intros ts _ _. unfold reference. destruct ts as [|t ts]; [discriminate|].
  destruct (TokenType_eqb _ _); discriminate.
Qed.

Section Calm.
Context {A B : Type}.
Implicit Types (p : Node A) (f : A -> Node B) (n : nat).

Lemma calm_on_le n m p : (m <= n)%nat -> calm_on n p -> calm_on m p.
Proof. intros Hm H ts Hts Hn. apply H; [lia|exact Hn]. Qed.

Lemma calm_bind n p f :
  sound_on n p -> calm_on n p -> (forall a, calm_on n (f a)) -> calm_on n (bind p f).
Proof.
  intros Hs Hp Hf ts Hts Hn. unfold bind. specialize (Hs ts Hts). specialize (Hp ts Hts Hn).
  destruct (p ts) as [a rest| |rest| |]; try discriminate; [|contradiction].
  cbn [bounded] in Hs. apply Hf; lia.
Qed.

Lemma calm_must n p : calm_on n p -> calm_on n (must p).
Proof.
  intros Hp ts Hts Hn. unfold must. specialize (Hp ts Hts Hn).
  destruct (p ts); try discriminate; contradiction.
Qed.

Lemma calm_fmap n (g : A -> B) p : sound_on n p -> calm_on n p -> calm_on n (fmap g p).
Proof. intros Hs Hp. apply calm_bind; [exact Hs|exact Hp|]. intros a. apply calm_ret. Qed.

Lemma calm_strct n p (g : A -> option B) : calm_on n p -> calm_on n (strct p g).
Proof.
  intros Hp ts Hts Hn. unfold strct. specialize (Hp ts Hts Hn).
  destruct (p ts) as [a rest| |rest| |]; try discriminate; [|contradiction].
  destruct (g a); discriminate.
Qed.

Lemma calm_optional n p : calm_on n p -> calm_on n (optional p).
Proof.
  intros Hp ts Hts Hn. unfold optional. specialize (Hp ts Hts Hn).
  destruct (p ts) as [a rest| |rest| |]; try discriminate; [|contradiction].
  destruct (Stop ts rest); discriminate.
Qed.

Lemma calm_disjunction_from n failed (alts : list (Node A)) :
  Forall (calm_on n) alts -> calm_on n (disjunction_from failed alts).
Proof.
  intros H. revert failed. induction H as [|p alts Hp _ IH]; intros failed ts Hts Hn.
  - cbn [disjunction_from]. destruct failed; discriminate.
  - cbn [disjunction_from]. specialize (Hp ts Hts Hn).
    destruct (p ts) as [a rest| |rest| |]; try discriminate; [now apply IH| |contradiction].
    destruct (Stop ts rest); [discriminate|now apply IH].
Qed.

Lemma calm_disjunction n (alts : list (Node A)) :
  Forall (calm_on n) alts -> calm_on n (disjunction alts).
Proof. apply calm_disjunction_from. Qed.

Lemma calm_repetition_loop n p :
  sound_on n p -> calm_on n p -> advances_on n p ->
  forall fuel i ts,
    (length ts <= n)%nat -> (i + N.of_nat (length ts) < MaxIterations)%N ->
    repetition_loop p fuel i ts <> Panicked.
Proof.
  intros Hs Hp Ha fuel. induction fuel as [|fuel IH]; intros i ts Hts Hi.
  - cbn [repetition_loop]. destruct (N.leb_spec MaxIterations i); [exfalso; lia|discriminate].
  - cbn [repetition_loop]. destruct (N.leb_spec MaxIterations i); [exfalso; lia|].
    specialize (Hs ts Hts). specialize (Hp ts Hts ltac:(lia)). pose proof (Ha ts) as Hadv.
    destruct (p ts) as [a rest| |rest| |]; try discriminate; [| |contradiction].
    + specialize (Hadv a rest Hts eq_refl).
      destruct (Nat.ltb_spec (length rest) (length ts)); [|exfalso; lia].
      specialize (IH (i + 1)%N rest ltac:(lia) ltac:(lia)).
      destruct (repetition_loop p fuel (i + 1) rest); try discriminate. contradiction.
    + destruct (Stop ts rest); discriminate.
Qed.

Lemma calm_repetition n p :
  sound_on n p -> calm_on n p -> advances_on n p -> calm_on n (repetition p).
Proof.
  intros Hs Hp Ha ts Hts Hn. unfold repetition.
  apply (calm_repetition_loop n p Hs Hp Ha); lia.
Qed.
End Calm.

(** A sequence that starts with a literal reads a token. *)
Lemma advances_after_literal {B} n l (f : string -> Node B) :
  (forall a, sound_on n (f a)) -> advances_on n (bind (literal l) f).
Proof.
  intros Hf ts b rest Hts. unfold bind, literal. destruct ts as [|t ts]; [discriminate|].
  destruct (literal_eq l t); [|discriminate]. intros E. cbn [length] in Hts.
  pose proof (Hf (Token_Value t) ts ltac:(lia)) as H. rewrite E in H.
  cbn [bounded length] in *. lia.
Qed.

Lemma calm_after_literal {B} n l (f : string -> Node B) :
  (forall a, calm_on n (f a)) -> calm_on (S n) (bind (literal l) f).
Proof.
  intros Hf ts Hts Hn. unfold bind, literal. destruct ts as [|t ts]; [discriminate|].
  destruct (literal_eq l t); [|discriminate].
  cbn [length] in Hts, Hn. apply Hf; lia.
Qed.

Lemma calm_on_0_literal {B} l (f : string -> Node B) : calm_on 0 (bind (literal l) f).
Proof. intros ts Hts _. destruct ts; [discriminate|cbn [length] in Hts; lia]. Qed.

Create HintDb calm.
#[local] Hint Resolve calm_ret calm_literal calm_reference calm_bind calm_must calm_fmap
  calm_strct calm_optional calm_disjunction calm_repetition : calm.
#[local] Hint Constructors Forall : calm.
#[local] Hint Extern 1 (forall _, calm_on _ _) => intro; cbv beta : calm.
#[local] Hint Extern 1 (calm_on _ (let '(_, _) := ?x in _)) => destruct x : calm.
#[local] Hint Extern 2 (sound_on _ _) => solve [eauto 30 with sound] : calm.
#[local] Hint Extern 2 (advances_on _ (bind (literal _) _)) =>
  apply advances_after_literal; intros; solve [eauto 30 with sound] : calm.

Lemma calm_ident_or_quoted n : calm_on n ident_or_quoted.
Proof. unfold ident_or_quoted. eauto with calm. Qed.
#[local] Hint Resolve calm_ident_or_quoted : calm.

Lemma calm_ProvisionedThroughput n : calm_on n ProvisionedThroughput_node.
Proof. unfold ProvisionedThroughput_node. eauto 30 with calm. Qed.
#[local] Hint Resolve calm_ProvisionedThroughput : calm.

Lemma calm_Projection n : calm_on n Projection_node.
Proof. unfold Projection_node. eauto 30 with calm. Qed.
#[local] Hint Resolve calm_Projection : calm.

Lemma calm_GlobalSecondaryIndex n : calm_on n GlobalSecondaryIndex_node.
Proof. unfold GlobalSecondaryIndex_node. eauto 80 with calm. Qed.
#[local] Hint Resolve calm_GlobalSecondaryIndex : calm.

Lemma calm_LocalSecondaryIndex n : calm_on n LocalSecondaryIndex_node.
Proof. unfold LocalSecondaryIndex_node. eauto 60 with calm. Qed.
#[local] Hint Resolve calm_LocalSecondaryIndex : calm.

Lemma calm_TableAttr n : calm_on n TableAttr_node.
Proof. unfold TableAttr_node. eauto 30 with calm. Qed.
#[local] Hint Resolve calm_TableAttr : calm.

Lemma calm_CreateTableEntry n : calm_on n CreateTableEntry_node.
Proof. unfold CreateTableEntry_node. eauto 30 with calm. Qed.
#[local] Hint Resolve calm_CreateTableEntry : calm.

Lemma calm_CreateTable n : calm_on n CreateTable_node.
Proof. unfold CreateTable_node. eauto 30 with calm. Qed.
#[local] Hint Resolve calm_CreateTable : calm.

Lemma calm_Scalar_alternatives {B} n (g : ScalarCapture -> B) :
  Forall (calm_on n) (map (fmap g) Scalar_alternatives).
Proof. unfold Scalar_alternatives. cbn [map]. eauto 30 with calm. Qed.

Lemma calm_Value_alternatives {B} n (g : ValueCapture -> B) :
  Forall (calm_on n) (map (fmap g) Value_alternatives).
Proof.
  unfold Value_alternatives. rewrite map_app. apply Forall_app. split.
  - rewrite map_map. unfold Scalar_alternatives. cbn [map]. eauto 30 with calm.
  - cbn [map]. eauto 30 with calm.
Qed.

Lemma calm_Value n : calm_on n Value_node.
Proof.
  unfold Value_node. apply calm_strct, calm_disjunction.
  pose proof (calm_Value_alternatives n (fun c => c)) as H.
  clear -H. induction Value_alternatives as [|p l IH]; [constructor|].
  cbn [map] in H. inversion H as [|? ? Hp Hl]; subst. constructor; [|now apply IH].
  intros ts Hts Hn. specialize (Hp ts Hts Hn). unfold fmap, bind, ret in Hp.
  now destruct (p ts).
Qed.
#[local] Hint Resolve calm_Value : calm.

Lemma calm_PathFragment_index n : calm_on n PathFragment_index.
Proof. unfold PathFragment_index. eauto 30 with calm. Qed.
#[local] Hint Resolve calm_PathFragment_index : calm.

Lemma advances_PathFragment_index n : advances_on n PathFragment_index.
Proof. unfold PathFragment_index. eauto with calm. Qed.
#[local] Hint Resolve advances_PathFragment_index : calm.

Lemma calm_PathFragment n : calm_on n PathFragment_node.
Proof. unfold PathFragment_node. eauto 30 with calm. Qed.
#[local] Hint Resolve calm_PathFragment : calm.

Lemma calm_DocumentPath_more n : calm_on n DocumentPath_more.
Proof. unfold DocumentPath_more. eauto 30 with calm. Qed.
#[local] Hint Resolve calm_DocumentPath_more : calm.

Lemma advances_DocumentPath_more n : advances_on n DocumentPath_more.
Proof. unfold DocumentPath_more. eauto with calm. Qed.
#[local] Hint Resolve advances_DocumentPath_more : calm.

Lemma calm_DocumentPath n : calm_on n DocumentPath_node.
Proof. unfold DocumentPath_node. eauto 30 with calm. Qed.
#[local] Hint Resolve calm_DocumentPath : calm.

Lemma calm_FunctionArgument n : calm_on n FunctionArgument_node.
Proof. unfold FunctionArgument_node. eauto 30 with calm. Qed.
#[local] Hint Resolve calm_FunctionArgument : calm.

Lemma calm_FunctionExpression n : calm_on n FunctionExpression_node.
Proof. unfold FunctionExpression_node. eauto 30 with calm. Qed.
#[local] Hint Resolve calm_FunctionExpression : calm.

Lemma calm_Operand n : calm_on n Operand_node.
Proof. unfold Operand_node. eauto 30 with calm. Qed.
#[local] Hint Resolve calm_Operand : calm.

Lemma calm_Compare n : calm_on n Compare_node.
Proof. unfold Compare_node, compare_operators. cbn [map]. eauto 30 with calm. Qed.
#[local] Hint Resolve calm_Compare : calm.

Lemma calm_Between n : calm_on n Between_node.
Proof. unfold Between_node. eauto 30 with calm. Qed.
#[local] Hint Resolve calm_Between : calm.

Lemma calm_In n : calm_on n In_node.
Proof. unfold In_node. eauto 30 with calm. Qed.
#[local] Hint Resolve calm_In : calm.

Lemma calm_ConditionRHS n : calm_on n ConditionRHS_node.
Proof. unfold ConditionRHS_node. eauto 30 with calm. Qed.
#[local] Hint Resolve calm_ConditionRHS : calm.

Lemma calm_ConditionOperand n : calm_on n ConditionOperand_node.
Proof. unfold ConditionOperand_node. eauto 30 with calm. Qed.
#[local] Hint Resolve calm_ConditionOperand : calm.

Lemma calm_AndExpression_over n cond :
  sound_on n cond -> calm_on n cond -> calm_on n (AndExpression_over cond).
Proof. intros Hs Hc. unfold AndExpression_over. eauto 30 with calm. Qed.
#[local] Hint Resolve calm_AndExpression_over : calm.

Lemma calm_ConditionExpression_over n cond :
  sound_on n cond -> calm_on n cond -> calm_on n (ConditionExpression_over cond).
Proof. intros Hs Hc. unfold ConditionExpression_over. eauto 30 with calm. Qed.
#[local] Hint Resolve calm_ConditionExpression_over : calm.

Lemma calm_ParenthesizedExpression_over n cond :
  sound_on n cond -> calm_on n cond -> calm_on n (ParenthesizedExpression_over cond).
Proof. intros Hs Hc. unfold ParenthesizedExpression_over. eauto 30 with calm. Qed.
#[local] Hint Resolve calm_ParenthesizedExpression_over : calm.

Lemma calm_NotCondition_over n cond :
  sound_on n cond -> calm_on n cond -> calm_on n (NotCondition_over cond).
Proof. intros Hs Hc. unfold NotCondition_over. eauto 30 with calm. Qed.
#[local] Hint Resolve calm_NotCondition_over : calm.

Lemma calm_Condition n : calm_on n (Condition_node (S n)).
Proof.
  induction n as [|n IH]; change (Condition_node (S ?f)) with (Condition_over (Condition_node f));
    unfold Condition_over; apply calm_strct, calm_disjunction.
  - repeat constructor; auto using calm_on_0_literal with calm.
  - pose proof (sound_Condition n) as Hs.
    constructor; [|constructor; [|constructor; [|constructor; [|constructor]]]].
    + apply calm_after_literal. intros _. apply calm_bind.
      * apply sound_must, sound_ParenthesizedExpression_over, Hs.
      * apply calm_must, calm_ParenthesizedExpression_over; [exact Hs|exact IH].
      * intros p. apply calm_bind;
          [apply sound_must, sound_literal|apply calm_must, calm_literal|intros; apply calm_ret].
    + apply calm_after_literal. intros _. apply calm_bind.
      * apply sound_must, sound_NotCondition_over, Hs.
      * apply calm_must, calm_NotCondition_over; [exact Hs|exact IH].
      * intros c. apply calm_ret.
    + apply calm_fmap; [apply sound_ConditionOperand|apply calm_ConditionOperand].
    + apply calm_fmap; [apply sound_FunctionExpression|apply calm_FunctionExpression].
Qed.

Lemma calm_AndExpression n fuel : (n < fuel)%nat -> calm_on n (AndExpression_node fuel).
Proof.
  intros H. unfold AndExpression_node. destruct fuel as [|fuel]; [lia|].
  apply calm_AndExpression_over.
  - apply sound_on_le with fuel; [lia|apply sound_Condition].
  - apply calm_on_le with fuel; [lia|apply calm_Condition].
Qed.

Lemma calm_JSONObjectEntry_over n value :
  sound_on n value -> calm_on n value -> calm_on n (JSONObjectEntry_over value).
Proof. intros Hs Hc. unfold JSONObjectEntry_over. eauto 30 with calm. Qed.
#[local] Hint Resolve calm_JSONObjectEntry_over : calm.

Lemma calm_JSONObject_entries n value :
  sound_on n value -> calm_on n value -> calm_on n (JSONObject_entries value).
Proof. intros Hs Hc. unfold JSONObject_entries. eauto 30 with calm. Qed.
#[local] Hint Resolve calm_JSONObject_entries : calm.

Lemma calm_JSONArray_entries n value :
  sound_on n value -> calm_on n value -> calm_on n (JSONArray_entries value).
Proof. intros Hs Hc. unfold JSONArray_entries. eauto 30 with calm. Qed.
#[local] Hint Resolve calm_JSONArray_entries : calm.

Lemma calm_JSONObject_over n value :
  sound_on n value -> calm_on n value -> calm_on (S n) (JSONObject_over value).
Proof.
  intros Hs Hc. unfold JSONObject_over. apply calm_strct, calm_after_literal.
  eauto 30 with calm.
Qed.

Lemma calm_JSONArray_over n value :
  sound_on n value -> calm_on n value -> calm_on (S n) (JSONArray_over value).
Proof.
  intros Hs Hc. unfold JSONArray_over. apply calm_strct, calm_after_literal.
  eauto 30 with calm.
Qed.

Lemma calm_JSONObject_over_0 value : calm_on 0 (JSONObject_over value).
Proof. unfold JSONObject_over. apply calm_strct, calm_on_0_literal. Qed.

Lemma calm_JSONArray_over_0 value : calm_on 0 (JSONArray_over value).
Proof. unfold JSONArray_over. apply calm_strct, calm_on_0_literal. Qed.

Lemma calm_JSONValue n : calm_on n (JSONValue_node (S n)).
Proof.
  induction n as [|n IH]; change (JSONValue_node (S ?f)) with (JSONValue_over (JSONValue_node f));
    unfold JSONValue_over; apply calm_strct, calm_disjunction, Forall_app; split;
    try apply calm_Scalar_alternatives; repeat constructor; apply calm_fmap.
  - apply sound_JSONObject_over_0.
  - apply calm_JSONObject_over_0.
  - apply sound_JSONArray_over_0.
  - apply calm_JSONArray_over_0.
  - apply sound_JSONObject_over, sound_JSONValue.
  - apply calm_JSONObject_over; [apply sound_JSONValue|exact IH].
  - apply sound_JSONArray_over, sound_JSONValue.
  - apply calm_JSONArray_over; [apply sound_JSONValue|exact IH].
Qed.

Lemma calm_JSONObject n fuel : (n <= fuel)%nat -> calm_on n (JSONObject_node fuel).
Proof.
  intros H. unfold JSONObject_node. destruct n as [|n]; [apply calm_JSONObject_over_0|].
  destruct fuel as [|fuel]; [lia|]. apply calm_JSONObject_over.
  - apply sound_on_le with fuel; [lia|apply sound_JSONValue].
  - apply calm_on_le with fuel; [lia|apply calm_JSONValue].
Qed.

Lemma calm_table_name n : calm_on n table_name.
Proof. unfold table_name. eauto 30 with calm. Qed.
#[local] Hint Resolve calm_table_name : calm.

Lemma calm_InsertTerminal n fuel : (n <= fuel)%nat -> calm_on n (InsertTerminal_node fuel).
Proof.
  intros H. unfold InsertTerminal_node. apply calm_strct, calm_disjunction, Forall_app.
  split; [apply calm_Value_alternatives|].
  repeat constructor. apply calm_fmap; [now apply sound_JSONObject|now apply calm_JSONObject].
Qed.

Lemma calm_Insert_into_values n fuel : (n <= fuel)%nat -> calm_on n (Insert_into_values fuel).
Proof.
  intros H. pose proof (sound_InsertTerminal n fuel H). pose proof (calm_InsertTerminal n fuel H).
  unfold Insert_into_values. eauto 60 with calm.
Qed.

Lemma calm_Insert_returning n : calm_on n Insert_returning.
Proof. unfold Insert_returning. eauto 30 with calm. Qed.

Lemma calm_Insert n fuel : (n <= fuel)%nat -> calm_on n (Insert_node fuel).
Proof.
  intros H. pose proof (sound_Insert_into_values n fuel H).
  pose proof (calm_Insert_into_values n fuel H). pose proof (calm_Insert_returning n).
  pose proof (sound_Insert_returning n).
  unfold Insert_node. eauto 30 with calm.
Qed.

Lemma calm_ProjectionColumn n : calm_on n ProjectionColumn_node.
Proof. unfold ProjectionColumn_node. eauto 30 with calm. Qed.
#[local] Hint Resolve calm_ProjectionColumn : calm.

Lemma calm_ProjectionExpression n : calm_on n ProjectionExpression_node.
Proof. unfold ProjectionExpression_node. eauto 40 with calm. Qed.
#[local] Hint Resolve calm_ProjectionExpression : calm.

Lemma calm_Select n fuel : (n < fuel)%nat -> calm_on n (Select_node fuel).
Proof.
  intros H. pose proof (sound_AndExpression n fuel H). pose proof (calm_AndExpression n fuel H).
  unfold Select_node. apply calm_strct.
  repeat (apply calm_bind; [eauto 30 with sound|eauto 30 with calm|intro]). apply calm_ret.
Qed.

Lemma calm_AST n fuel : (n < fuel)%nat -> calm_on n (AST_node fuel).
Proof.
  intros H. pose proof (sound_Select n fuel H). pose proof (calm_Select n fuel H).
  assert (sound_on n (Insert_node fuel)) by (apply sound_Insert; lia).
  assert (calm_on n (Insert_node fuel)) by (apply calm_Insert; lia).
  unfold AST_node, AST_statement. eauto 60 with calm.
Qed.

Lemma ParseTokens_calm ts :
  (N.of_nat (length ts) < MaxIterations)%N -> ParseTokens ts <> Panic.
Proof.
  intros Hn. unfold ParseTokens.
  pose proof (calm_AST (length ts) (S (length ts)) (Nat.lt_succ_diag_r _) ts (Nat.le_refl _) Hn)
    as H.
  destruct (AST_node _ ts) as [a [|]| | | |]; try discriminate. contradiction.
Qed.

(** ** A semicolon after the statement *)

Lemma Stop_semicolon ts rest :
  Stop (ts ++ [semicolon])%list (rest ++ [semicolon])%list = Stop ts rest.
Proof. unfold Stop. rewrite !length_app. cbn [length]. f_equal. lia. Qed.

Lemma carries_ret {A} (a : A) : carries (ret a) (ret a).
Proof. now intros ts _. Qed.

Lemma carries_literal l : String.eqb ";" l = false -> carries (literal l) (literal l).
Proof.
  intros Hl ts _. unfold literal. destruct ts as [|t ts]; cbn [app].
  - change (literal_eq l semicolon) with (String.eqb ";" l). now rewrite Hl.
  - now destruct (literal_eq l t).
Qed.

Lemma carries_reference ty : ty <> Unnamed -> carries (reference ty) (reference ty).
Proof.
  intros Hty ts _. unfold reference. destruct ts as [|t ts]; cbn [app].
  - cbn. destruct ty; try reflexivity. congruence.
  - now destruct (TokenType_eqb _ _).
Qed.

Section Carries.
Context {A B : Type}.
Implicit Types (p : Node A) (f : A -> Node B).

Lemma carries_bind p p' f f' :
  carries p p' -> (forall a, carries (f a) (f' a)) -> carries (bind p f) (bind p' f').
Proof.
  intros Hp Hf ts H. unfold bind in *. specialize (Hp ts).
  destruct (p ts) as [a rest| |rest| |]; try (rewrite Hp by discriminate; reflexivity).
  - rewrite Hp by discriminate. cbn [extend]. now apply Hf.
  - congruence.
Qed.

Lemma carries_must p p' : carries p p' -> carries (must p) (must p').
Proof.
  intros Hp ts H. unfold must in *. specialize (Hp ts).
  destruct (p ts) as [a rest| |rest| |]; try (rewrite Hp by discriminate; reflexivity).
  congruence.
Qed.

Lemma carries_fmap (g : A -> B) p p' : carries p p' -> carries (fmap g p) (fmap g p').
Proof. intros Hp. unfold fmap. apply carries_bind; [exact Hp|]. intros a. apply carries_ret. Qed.

Lemma carries_strct (g : A -> option B) p p' : carries p p' -> carries (strct p g) (strct p' g).
Proof.
  intros Hp ts H. unfold strct in *. specialize (Hp ts).
  destruct (p ts) as [a rest| |rest| |]; try (rewrite Hp by discriminate; reflexivity).
  - rewrite Hp by discriminate. cbn [extend]. now destruct (g a).
  - congruence.
Qed.

Lemma carries_optional p p' : carries p p' -> carries (optional p) (optional p').
Proof.
  intros Hp ts H. unfold optional in *. specialize (Hp ts).
  destruct (p ts) as [a rest| |rest| |]; try (rewrite Hp by discriminate; reflexivity).
  - rewrite Hp by discriminate. cbn [extend]. rewrite Stop_semicolon.
    now destruct (Stop ts rest).
  - congruence.
Qed.

Lemma carries_disjunction_from failed (alts alts' : list (Node A)) :
  Forall2 carries alts alts' ->
  carries (disjunction_from failed alts) (disjunction_from failed alts').
Proof.
  intros H. revert failed. induction H as [|p p' alts alts' Hp _ IH]; intros failed ts Hf.
  - cbn. now destruct failed.
  - cbn [disjunction_from] in *. specialize (Hp ts).
    destruct (p ts) as [a rest| |rest| |]; try (rewrite Hp by discriminate; reflexivity).
    + rewrite Hp by discriminate. cbn [extend]. now apply IH.
    + rewrite Hp by discriminate. cbn [extend]. rewrite Stop_semicolon.
      destruct (Stop ts rest); [reflexivity|now apply IH].
    + congruence.
Qed.

Lemma carries_disjunction (alts alts' : list (Node A)) :
  Forall2 carries alts alts' -> carries (disjunction alts) (disjunction alts').
Proof. apply carries_disjunction_from. Qed.

Lemma carries_repetition_loop p p' : carries p p' ->
  forall fuel fuel' i ts, (fuel <= fuel')%nat ->
    repetition_loop p fuel i ts <> OutOfFuel ->
    repetition_loop p' fuel' i (ts ++ [semicolon])%list = extend (repetition_loop p fuel i ts).
Proof.
  intros Hp fuel. induction fuel as [|fuel IH]; intros fuel' i ts Hle H.
  - cbn [repetition_loop] in *. destruct fuel'; cbn [repetition_loop];
      (destruct (N.leb MaxIterations i); [reflexivity|congruence]).
  - destruct fuel' as [|fuel']; [lia|]. cbn [repetition_loop] in *.
    destruct (N.leb MaxIterations i); [reflexivity|]. specialize (Hp ts).
    destruct (p ts) as [a rest| |rest| |]; try (rewrite Hp by discriminate; reflexivity).
    + rewrite Hp by discriminate. cbn [extend]. rewrite !length_app. cbn [length].
      replace (length rest + 1 <? length ts + 1)%nat with (length rest <? length ts)%nat
        by (destruct (Nat.ltb_spec (length rest) (length ts));
            destruct (Nat.ltb_spec (length rest + 1) (length ts + 1)); lia).
      destruct (length rest <? length ts)%nat; [|reflexivity].
      specialize (IH fuel' (i + 1)%N rest ltac:(lia)).
      destruct (repetition_loop p fuel (i + 1) rest) as [l r| |r| |];
        try (rewrite IH by discriminate; reflexivity). congruence.
    + rewrite Hp by discriminate. cbn [extend]. rewrite Stop_semicolon.
      now destruct (Stop ts rest).
    + congruence.
Qed.

Lemma carries_repetition p p' : carries p p' -> carries (repetition p) (repetition p').
Proof.
  intros Hp ts H. unfold repetition in *.
  apply carries_repetition_loop; [exact Hp| |exact H]. rewrite length_app. cbn. lia.
Qed.
End Carries.

Create HintDb carries.
#[local] Hint Resolve carries_ret carries_bind carries_must carries_fmap carries_strct
  carries_optional carries_disjunction carries_repetition : carries.
#[local] Hint Constructors Forall2 : carries.
#[local] Hint Extern 1 (forall _, carries _ _) => intro; cbv beta : carries.
#[local] Hint Extern 1 (carries (literal _) _) => apply carries_literal; reflexivity : carries.
#[local] Hint Extern 1 (carries (reference _) _) =>
  apply carries_reference; discriminate : carries.
#[local] Hint Extern 1 (carries (let '(_, _) := ?x in _) _) => destruct x : carries.

Lemma carries_ident_or_quoted : carries ident_or_quoted ident_or_quoted.
Proof. unfold ident_or_quoted. eauto with carries. Qed.
#[local] Hint Resolve carries_ident_or_quoted : carries.

Lemma carries_ProvisionedThroughput :
  carries ProvisionedThroughput_node ProvisionedThroughput_node.
Proof. unfold ProvisionedThroughput_node. eauto 30 with carries. Qed.
#[local] Hint Resolve carries_ProvisionedThroughput : carries.

Lemma carries_Projection : carries Projection_node Projection_node.
Proof. unfold Projection_node. eauto 30 with carries. Qed.
#[local] Hint Resolve carries_Projection : carries.

Lemma carries_GlobalSecondaryIndex : carries GlobalSecondaryIndex_node GlobalSecondaryIndex_node.
Proof. unfold GlobalSecondaryIndex_node. eauto 60 with carries. Qed.
#[local] Hint Resolve carries_GlobalSecondaryIndex : carries.

Lemma carries_LocalSecondaryIndex : carries LocalSecondaryIndex_node LocalSecondaryIndex_node.
Proof. unfold LocalSecondaryIndex_node. eauto 60 with carries. Qed.
#[local] Hint Resolve carries_LocalSecondaryIndex : carries.

Lemma carries_TableAttr : carries TableAttr_node TableAttr_node.
Proof. unfold TableAttr_node. eauto 30 with carries. Qed.
#[local] Hint Resolve carries_TableAttr : carries.

Lemma carries_CreateTableEntry : carries CreateTableEntry_node CreateTableEntry_node.
Proof. unfold CreateTableEntry_node. eauto 30 with carries. Qed.
#[local] Hint Resolve carries_CreateTableEntry : carries.

Lemma carries_CreateTable : carries CreateTable_node CreateTable_node.
Proof. unfold CreateTable_node. eauto 30 with carries. Qed.
#[local] Hint Resolve carries_CreateTable : carries.

Lemma carries_Value : carries Value_node Value_node.
Proof.
  unfold Value_node, Value_alternatives, Scalar_alternatives. cbn [map app].
  eauto 30 with carries.
Qed.
#[local] Hint Resolve carries_Value : carries.

Lemma carries_PathFragment_index : carries PathFragment_index PathFragment_index.
Proof. unfold PathFragment_index. eauto 30 with carries. Qed.
#[local] Hint Resolve carries_PathFragment_index : carries.

Lemma carries_PathFragment : carries PathFragment_node PathFragment_node.
Proof. unfold PathFragment_node. eauto 30 with carries. Qed.
#[local] Hint Resolve carries_PathFragment : carries.

Lemma carries_DocumentPath_more : carries DocumentPath_more DocumentPath_more.
Proof. unfold DocumentPath_more. eauto 30 with carries. Qed.
#[local] Hint Resolve carries_DocumentPath_more : carries.

Lemma carries_DocumentPath : carries DocumentPath_node DocumentPath_node.
Proof. unfold DocumentPath_node. eauto 30 with carries. Qed.
#[local] Hint Resolve carries_DocumentPath : carries.

Lemma carries_FunctionArgument : carries FunctionArgument_node FunctionArgument_node.
Proof. unfold FunctionArgument_node. eauto 30 with carries. Qed.
#[local] Hint Resolve carries_FunctionArgument : carries.

Lemma carries_FunctionExpression : carries FunctionExpression_node FunctionExpression_node.
Proof. unfold FunctionExpression_node. eauto 30 with carries. Qed.
#[local] Hint Resolve carries_FunctionExpression : carries.

Lemma carries_Operand : carries Operand_node Operand_node.
Proof. unfold Operand_node. eauto 30 with carries. Qed.
#[local] Hint Resolve carries_Operand : carries.

Lemma carries_Compare : carries Compare_node Compare_node.
Proof. unfold Compare_node, compare_operators. cbn [map]. eauto 30 with carries. Qed.
#[local] Hint Resolve carries_Compare : carries.

Lemma carries_Between : carries Between_node Between_node.
Proof. unfold Between_node. eauto 30 with carries. Qed.
#[local] Hint Resolve carries_Between : carries.

Lemma carries_In : carries In_node In_node.
Proof. unfold In_node. eauto 30 with carries. Qed.
#[local] Hint Resolve carries_In : carries.

Lemma carries_ConditionRHS : carries ConditionRHS_node ConditionRHS_node.
Proof. unfold ConditionRHS_node. eauto 30 with carries. Qed.
#[local] Hint Resolve carries_ConditionRHS : carries.

Lemma carries_ConditionOperand : carries ConditionOperand_node ConditionOperand_node.
Proof. unfold ConditionOperand_node. eauto 30 with carries. Qed.
#[local] Hint Resolve carries_ConditionOperand : carries.

Lemma carries_AndExpression_over cond cond' :
  carries cond cond' -> carries (AndExpression_over cond) (AndExpression_over cond').
Proof. intros H. unfold AndExpression_over. eauto 30 with carries. Qed.
#[local] Hint Resolve carries_AndExpression_over : carries.

Lemma carries_ConditionExpression_over cond cond' :
  carries cond cond' ->
  carries (ConditionExpression_over cond) (ConditionExpression_over cond').
Proof. intros H. unfold ConditionExpression_over. eauto 30 with carries. Qed.
#[local] Hint Resolve carries_ConditionExpression_over : carries.

Lemma carries_ParenthesizedExpression_over cond cond' :
  carries cond cond' ->
  carries (ParenthesizedExpression_over cond) (ParenthesizedExpression_over cond').
Proof. intros H. unfold ParenthesizedExpression_over. eauto 30 with carries. Qed.
#[local] Hint Resolve carries_ParenthesizedExpression_over : carries.

Lemma carries_NotCondition_over cond cond' :
  carries cond cond' -> carries (NotCondition_over cond) (NotCondition_over cond').
Proof. intros H. unfold NotCondition_over. eauto 30 with carries. Qed.
#[local] Hint Resolve carries_NotCondition_over : carries.

Lemma carries_Condition_over cond cond' :
  carries cond cond' -> carries (Condition_over cond) (Condition_over cond').
Proof. intros H. unfold Condition_over. eauto 30 with carries. Qed.

(** More fuel does not change an answer that had enough. *)
Lemma carries_Condition fuel : forall fuel', (fuel <= fuel')%nat ->
  carries (Condition_node fuel) (Condition_node fuel').
Proof.
  induction fuel as [|fuel IH]; intros fuel' H; [now intros ts E|].
  destruct fuel' as [|fuel']; [lia|].
  change (carries (Condition_over (Condition_node fuel)) (Condition_over (Condition_node fuel'))).
  apply carries_Condition_over, IH. lia.
Qed.

Lemma carries_AndExpression fuel fuel' : (fuel <= fuel')%nat ->
  carries (AndExpression_node fuel) (AndExpression_node fuel').
Proof. intros H. apply carries_AndExpression_over. now apply carries_Condition. Qed.

Lemma carries_JSONObjectEntry_over value value' :
  carries value value' -> carries (JSONObjectEntry_over value) (JSONObjectEntry_over value').
Proof. intros H. unfold JSONObjectEntry_over. eauto 30 with carries. Qed.
#[local] Hint Resolve carries_JSONObjectEntry_over : carries.

Lemma carries_JSONObject_over value value' :
  carries value value' -> carries (JSONObject_over value) (JSONObject_over value').
Proof. intros H. unfold JSONObject_over, JSONObject_entries. eauto 40 with carries. Qed.
#[local] Hint Resolve carries_JSONObject_over : carries.

Lemma carries_JSONArray_over value value' :
  carries value value' -> carries (JSONArray_over value) (JSONArray_over value').
Proof. intros H. unfold JSONArray_over, JSONArray_entries. eauto 40 with carries. Qed.
#[local] Hint Resolve carries_JSONArray_over : carries.

Lemma carries_JSONValue_over value value' :
  carries value value' -> carries (JSONValue_over value) (JSONValue_over value').
Proof.
  intros H. unfold JSONValue_over, Scalar_alternatives. cbn [map app].
  eauto 30 with carries.
Qed.

Lemma carries_JSONValue fuel : forall fuel', (fuel <= fuel')%nat ->
  carries (JSONValue_node fuel) (JSONValue_node fuel').
Proof.
  induction fuel as [|fuel IH]; intros fuel' H; [now intros ts E|].
  destruct fuel' as [|fuel']; [lia|].
  change (carries (JSONValue_over (JSONValue_node fuel)) (JSONValue_over (JSONValue_node fuel'))).
  apply carries_JSONValue_over, IH. lia.
Qed.

Lemma carries_JSONObject fuel fuel' : (fuel <= fuel')%nat ->
  carries (JSONObject_node fuel) (JSONObject_node fuel').
Proof. intros H. apply carries_JSONObject_over. now apply carries_JSONValue. Qed.

Lemma carries_table_name : carries table_name table_name.
Proof. unfold table_name. eauto 30 with carries. Qed.
#[local] Hint Resolve carries_table_name : carries.

Lemma carries_InsertTerminal fuel fuel' : (fuel <= fuel')%nat ->
  carries (InsertTerminal_node fuel) (InsertTerminal_node fuel').
Proof.
  intros H. pose proof (carries_JSONObject fuel fuel' H).
  unfold InsertTerminal_node, Value_alternatives, Scalar_alternatives. cbn [map app].
  eauto 40 with carries.
Qed.

Lemma carries_Insert_into_values fuel fuel' : (fuel <= fuel')%nat ->
  carries (Insert_into_values fuel) (Insert_into_values fuel').
Proof.
  intros H. pose proof (carries_InsertTerminal fuel fuel' H).
  unfold Insert_into_values. eauto 60 with carries.
Qed.

Lemma carries_Insert_returning : carries Insert_returning Insert_returning.
Proof. unfold Insert_returning. eauto 30 with carries. Qed.

Lemma carries_Insert fuel fuel' : (fuel <= fuel')%nat ->
  carries (Insert_node fuel) (Insert_node fuel').
Proof.
  intros H. pose proof (carries_Insert_into_values fuel fuel' H).
  pose proof carries_Insert_returning.
  unfold Insert_node. eauto 30 with carries.
Qed.

Lemma carries_ProjectionColumn : carries ProjectionColumn_node ProjectionColumn_node.
Proof. unfold ProjectionColumn_node. eauto 30 with carries. Qed.
#[local] Hint Resolve carries_ProjectionColumn : carries.

Lemma carries_ProjectionExpression :
  carries ProjectionExpression_node ProjectionExpression_node.
Proof. unfold ProjectionExpression_node. eauto 40 with carries. Qed.
#[local] Hint Resolve carries_ProjectionExpression : carries.

Lemma carries_Select fuel fuel' : (fuel <= fuel')%nat ->
  carries (Select_node fuel) (Select_node fuel').
Proof.
  intros H. pose proof (carries_AndExpression fuel fuel' H).
  unfold Select_node. apply carries_strct.
  repeat (apply carries_bind; [eauto 30 with carries|intro]). apply carries_ret.
Qed.

Lemma carries_AST_statement fuel fuel' : (fuel <= fuel')%nat ->
  carries (AST_statement fuel) (AST_statement fuel').
Proof.
  intros H. pose proof (carries_Select fuel fuel' H). pose proof (carries_Insert fuel fuel' H).
  unfold AST_statement. eauto 40 with carries.
Qed.

(** ** What a node leaves *)

Lemma suffix_ret {A} (a : A) : leaves_suffix (ret a).
Proof. intros ts a' rest [= _ <-]. now exists []. Qed.

Lemma suffix_literal l : leaves_suffix (literal l).
Proof.
  intros ts a rest. unfold literal. destruct ts as [|t ts]; [discriminate|].
  destruct (literal_eq l t); [|discriminate]. intros [= _ <-]. now exists [t].
Qed.

Lemma suffix_reference ty : leaves_suffix (reference ty).
Proof.
  intros ts a rest. unfold reference. destruct ts as [|t ts]; [discriminate|].
  destruct (TokenType_eqb _ _); [|discriminate]. intros [= _ <-]. now exists [t].
Qed.

Section Suffix.
Context {A B : Type}.
Implicit Types (p : Node A) (f : A -> Node B).

Lemma suffix_bind p f :
  leaves_suffix p -> (forall a, leaves_suffix (f a)) -> leaves_suffix (bind p f).
Proof.
  intros Hp Hf ts b rest E. unfold bind in E.
  destruct (p ts) as [a r| | | |] eqn:Ep; try discriminate.
  destruct (Hp _ _ _ Ep) as (pre & ->). destruct (Hf a _ _ _ E) as (pre' & ->).
  exists (pre ++ pre')%list. now rewrite app_assoc.
Qed.

Lemma suffix_must p : leaves_suffix p -> leaves_suffix (must p).
Proof.
  intros Hp ts a rest E. unfold must in E.
  destruct (p ts) as [a' r| | | |] eqn:Ep; try discriminate. injection E as <- <-.
  exact (Hp _ _ _ Ep).
Qed.

Lemma suffix_fmap (g : A -> B) p : leaves_suffix p -> leaves_suffix (fmap g p).
Proof. intros Hp. unfold fmap. apply suffix_bind; [exact Hp|]. intros a. apply suffix_ret. Qed.

Lemma suffix_strct (g : A -> option B) p : leaves_suffix p -> leaves_suffix (strct p g).
Proof.
  intros Hp ts b rest E. unfold strct in E.
  destruct (p ts) as [a r| | | |] eqn:Ep; try discriminate.
  destruct (g a); [|discriminate]. injection E as _ <-. exact (Hp _ _ _ Ep).
Qed.

Lemma suffix_optional p : leaves_suffix p -> leaves_suffix (optional p).
Proof.
  intros Hp ts o rest E. unfold optional in E.
  destruct (p ts) as [a r| |r| |] eqn:Ep; try discriminate.
  - injection E as _ <-. exact (Hp _ _ _ Ep).
  - injection E as _ <-. now exists [].
  - destruct (Stop ts r); [discriminate|]. injection E as _ <-. now exists [].
Qed.

Lemma suffix_disjunction_from failed (alts : list (Node A)) :
  Forall leaves_suffix alts -> leaves_suffix (disjunction_from failed alts).
Proof.
  intros H. revert failed. induction H as [|p alts Hp _ IH]; intros failed ts a rest E.
  - cbn in E. now destruct failed.
  - cbn [disjunction_from] in E. destruct (p ts) as [a' r| |r| |] eqn:Ep; try discriminate.
    + injection E as <- <-. exact (Hp _ _ _ Ep).
    + exact (IH _ _ _ _ E).
    + destruct (Stop ts r); [discriminate|exact (IH _ _ _ _ E)].
Qed.

Lemma suffix_disjunction (alts : list (Node A)) :
  Forall leaves_suffix alts -> leaves_suffix (disjunction alts).
Proof. apply suffix_disjunction_from. Qed.

Lemma suffix_repetition_loop p : leaves_suffix p ->
  forall fuel i, leaves_suffix (repetition_loop p fuel i).
Proof.
  intros Hp fuel. induction fuel as [|fuel IH]; intros i ts l rest E.
  - cbn in E. now destruct (N.leb MaxIterations i).
  - cbn [repetition_loop] in E. destruct (N.leb MaxIterations i); [discriminate|].
    destruct (p ts) as [a r| |r| |] eqn:Ep; try discriminate.
    + destruct (Nat.ltb _ _); [|discriminate].
      destruct (repetition_loop p fuel (i + 1) r) as [l' r'| | | |] eqn:El; try discriminate.
      injection E as _ <-. destruct (Hp _ _ _ Ep) as (pre & ->).
      destruct (IH _ _ _ _ El) as (pre' & ->). exists (pre ++ pre')%list. now rewrite app_assoc.
    + injection E as _ <-. now exists [].
    + destruct (Stop ts r); [discriminate|]. injection E as _ <-. now exists [].
Qed.

Lemma suffix_repetition p : leaves_suffix p -> leaves_suffix (repetition p).
Proof. intros Hp ts l rest E. unfold repetition in E. eapply suffix_repetition_loop; eauto. Qed.
End Suffix.

Create HintDb suffix.
#[local] Hint Resolve suffix_ret suffix_literal suffix_reference suffix_bind suffix_must
  suffix_fmap suffix_strct suffix_optional suffix_disjunction suffix_repetition : suffix.
#[local] Hint Constructors Forall : suffix.
#[local] Hint Extern 1 (forall _, leaves_suffix _) => intro; cbv beta : suffix.
#[local] Hint Extern 1 (leaves_suffix (let '(_, _) := ?x in _)) => destruct x : suffix.

Lemma suffix_ident_or_quoted : leaves_suffix ident_or_quoted.
Proof. unfold ident_or_quoted. eauto with suffix. Qed.
#[local] Hint Resolve suffix_ident_or_quoted : suffix.

Lemma suffix_ProvisionedThroughput : leaves_suffix ProvisionedThroughput_node.
Proof. unfold ProvisionedThroughput_node. eauto 30 with suffix. Qed.
#[local] Hint Resolve suffix_ProvisionedThroughput : suffix.

Lemma suffix_Projection : leaves_suffix Projection_node.
Proof. unfold Projection_node. eauto 30 with suffix. Qed.
#[local] Hint Resolve suffix_Projection : suffix.

Lemma suffix_GlobalSecondaryIndex : leaves_suffix GlobalSecondaryIndex_node.
Proof. unfold GlobalSecondaryIndex_node. eauto 60 with suffix. Qed.
#[local] Hint Resolve suffix_GlobalSecondaryIndex : suffix.

Lemma suffix_LocalSecondaryIndex : leaves_suffix LocalSecondaryIndex_node.
Proof. unfold LocalSecondaryIndex_node. eauto 60 with suffix. Qed.
#[local] Hint Resolve suffix_LocalSecondaryIndex : suffix.

Lemma suffix_TableAttr : leaves_suffix TableAttr_node.
Proof. unfold TableAttr_node. eauto 30 with suffix. Qed.
#[local] Hint Resolve suffix_TableAttr : suffix.

Lemma suffix_CreateTableEntry : leaves_suffix CreateTableEntry_node.
Proof. unfold CreateTableEntry_node. eauto 30 with suffix. Qed.
#[local] Hint Resolve suffix_CreateTableEntry : suffix.

Lemma suffix_CreateTable : leaves_suffix CreateTable_node.
Proof. unfold CreateTable_node. eauto 30 with suffix. Qed.
#[local] Hint Resolve suffix_CreateTable : suffix.

Lemma suffix_Value : leaves_suffix Value_node.
Proof.
  unfold Value_node, Value_alternatives, Scalar_alternatives. cbn [map app].
  eauto 30 with suffix.
Qed.
#[local] Hint Resolve suffix_Value : suffix.

Lemma suffix_PathFragment : leaves_suffix PathFragment_node.
Proof. unfold PathFragment_node, PathFragment_index. eauto 30 with suffix. Qed.
#[local] Hint Resolve suffix_PathFragment : suffix.

Lemma suffix_DocumentPath : leaves_suffix DocumentPath_node.
Proof. unfold DocumentPath_node, DocumentPath_more. eauto 30 with suffix. Qed.
#[local] Hint Resolve suffix_DocumentPath : suffix.

Lemma suffix_FunctionArgument : leaves_suffix FunctionArgument_node.
Proof. unfold FunctionArgument_node. eauto 30 with suffix. Qed.
#[local] Hint Resolve suffix_FunctionArgument : suffix.

Lemma suffix_FunctionExpression : leaves_suffix FunctionExpression_node.
Proof. unfold FunctionExpression_node. eauto 30 with suffix. Qed.
#[local] Hint Resolve suffix_FunctionExpression : suffix.

Lemma suffix_Operand : leaves_suffix Operand_node.
Proof. unfold Operand_node. eauto 30 with suffix. Qed.
#[local] Hint Resolve suffix_Operand : suffix.

Lemma suffix_Compare : leaves_suffix Compare_node.
Proof. unfold Compare_node, compare_operators. cbn [map]. eauto 30 with suffix. Qed.
#[local] Hint Resolve suffix_Compare : suffix.

Lemma suffix_Between : leaves_suffix Between_node.
Proof. unfold Between_node. eauto 30 with suffix. Qed.
#[local] Hint Resolve suffix_Between : suffix.

Lemma suffix_In : leaves_suffix In_node.
Proof. unfold In_node. eauto 30 with suffix. Qed.
#[local] Hint Resolve suffix_In : suffix.

Lemma suffix_ConditionRHS : leaves_suffix ConditionRHS_node.
Proof. unfold ConditionRHS_node. eauto 30 with suffix. Qed.
#[local] Hint Resolve suffix_ConditionRHS : suffix.

Lemma suffix_ConditionOperand : leaves_suffix ConditionOperand_node.
Proof. unfold ConditionOperand_node. eauto 30 with suffix. Qed.
#[local] Hint Resolve suffix_ConditionOperand : suffix.

Lemma suffix_AndExpression_over cond :
  leaves_suffix cond -> leaves_suffix (AndExpression_over cond).
Proof. intros H. unfold AndExpression_over. eauto 30 with suffix. Qed.
#[local] Hint Resolve suffix_AndExpression_over : suffix.

Lemma suffix_ConditionExpression_over cond :
  leaves_suffix cond -> leaves_suffix (ConditionExpression_over cond).
Proof. intros H. unfold ConditionExpression_over. eauto 30 with suffix. Qed.
#[local] Hint Resolve suffix_ConditionExpression_over : suffix.

Lemma suffix_ParenthesizedExpression_over cond :
  leaves_suffix cond -> leaves_suffix (ParenthesizedExpression_over cond).
Proof. intros H. unfold ParenthesizedExpression_over. eauto 30 with suffix. Qed.
#[local] Hint Resolve suffix_ParenthesizedExpression_over : suffix.

Lemma suffix_NotCondition_over cond :
  leaves_suffix cond -> leaves_suffix (NotCondition_over cond).
Proof. intros H. unfold NotCondition_over. eauto 30 with suffix. Qed.
#[local] Hint Resolve suffix_NotCondition_over : suffix.

Lemma suffix_Condition_over cond : leaves_suffix cond -> leaves_suffix (Condition_over cond).
Proof. intros H. unfold Condition_over. eauto 30 with suffix. Qed.

Lemma suffix_Condition fuel : leaves_suffix (Condition_node fuel).
Proof.
  induction fuel as [|fuel IH]; [now intros ts a rest E|].
  change (leaves_suffix (Condition_over (Condition_node fuel))).
  now apply suffix_Condition_over.
Qed.
#[local] Hint Resolve suffix_Condition : suffix.

Lemma suffix_JSONObjectEntry_over value :
  leaves_suffix value -> leaves_suffix (JSONObjectEntry_over value).
Proof. intros H. unfold JSONObjectEntry_over. eauto 30 with suffix. Qed.
#[local] Hint Resolve suffix_JSONObjectEntry_over : suffix.

Lemma suffix_JSONObject_entries value :
  leaves_suffix value -> leaves_suffix (JSONObject_entries value).
Proof. intros H. unfold JSONObject_entries. eauto 30 with suffix. Qed.
#[local] Hint Resolve suffix_JSONObject_entries : suffix.

Lemma suffix_JSONArray_entries value :
  leaves_suffix value -> leaves_suffix (JSONArray_entries value).
Proof. intros H. unfold JSONArray_entries. eauto 30 with suffix. Qed.
#[local] Hint Resolve suffix_JSONArray_entries : suffix.

Lemma suffix_JSONObject_over value :
  leaves_suffix value -> leaves_suffix (JSONObject_over value).
Proof. intros H. unfold JSONObject_over. eauto 30 with suffix. Qed.
#[local] Hint Resolve suffix_JSONObject_over : suffix.

Lemma suffix_JSONArray_over value :
  leaves_suffix value -> leaves_suffix (JSONArray_over value).
Proof. intros H. unfold JSONArray_over. eauto 30 with suffix. Qed.
#[local] Hint Resolve suffix_JSONArray_over : suffix.

Lemma suffix_JSONValue_over value : leaves_suffix value -> leaves_suffix (JSONValue_over value).
Proof.
  intros H. unfold JSONValue_over, Scalar_alternatives. cbn [map app].
  apply suffix_strct, suffix_disjunction.
  repeat (apply Forall_cons; [solve [eauto 10 with suffix]|]). apply Forall_nil.
Qed.

Lemma suffix_JSONValue fuel : leaves_suffix (JSONValue_node fuel).
Proof.
  induction fuel as [|fuel IH]; [now intros ts a rest E|].
  change (leaves_suffix (JSONValue_over (JSONValue_node fuel))).
  now apply suffix_JSONValue_over.
Qed.
#[local] Hint Resolve suffix_JSONValue : suffix.

Lemma suffix_JSONObject fuel : leaves_suffix (JSONObject_node fuel).
Proof. unfold JSONObject_node. apply suffix_JSONObject_over, suffix_JSONValue. Qed.
#[local] Hint Resolve suffix_JSONObject : suffix.

Lemma suffix_table_name : leaves_suffix table_name.
Proof. unfold table_name. eauto 30 with suffix. Qed.
#[local] Hint Resolve suffix_table_name : suffix.

Lemma suffix_InsertTerminal fuel : leaves_suffix (InsertTerminal_node fuel).
Proof.
  unfold InsertTerminal_node, Value_alternatives, Scalar_alternatives. cbn [map app].
  apply suffix_strct, suffix_disjunction.
  repeat (apply Forall_cons; [solve [eauto 10 with suffix]|]). apply Forall_nil.
Qed.
#[local] Hint Resolve suffix_InsertTerminal : suffix.

Lemma suffix_Insert_into_values fuel : leaves_suffix (Insert_into_values fuel).
Proof.
  unfold Insert_into_values.
  repeat (apply suffix_bind; [solve [eauto 20 with suffix]|intro]). apply suffix_ret.
Qed.
#[local] Hint Resolve suffix_Insert_into_values : suffix.

Lemma suffix_Insert_returning : leaves_suffix Insert_returning.
Proof. unfold Insert_returning. eauto 30 with suffix. Qed.
#[local] Hint Resolve suffix_Insert_returning : suffix.

Lemma suffix_Insert fuel : leaves_suffix (Insert_node fuel).
Proof. unfold Insert_node. eauto 30 with suffix. Qed.
#[local] Hint Resolve suffix_Insert : suffix.

Lemma suffix_ProjectionColumn : leaves_suffix ProjectionColumn_node.
Proof. unfold ProjectionColumn_node. eauto 30 with suffix. Qed.
#[local] Hint Resolve suffix_ProjectionColumn : suffix.

Lemma suffix_ProjectionExpression : leaves_suffix ProjectionExpression_node.
Proof. unfold ProjectionExpression_node. eauto 40 with suffix. Qed.
#[local] Hint Resolve suffix_ProjectionExpression : suffix.

Lemma suffix_Select fuel : leaves_suffix (Select_node fuel).
Proof.
  unfold Select_node, AndExpression_node. apply suffix_strct.
  repeat (apply suffix_bind; [eauto 30 with suffix|intro]). apply suffix_ret.
Qed.
#[local] Hint Resolve suffix_Select : suffix.

Lemma suffix_AST_statement fuel : leaves_suffix (AST_statement fuel).
Proof. unfold AST_statement. eauto 40 with suffix. Qed.

(** *** The statement with a semicolon after it *)

Lemma semicolon_is_semicolon : literal_eq ";" semicolon = true.
Proof. reflexivity. Qed.

Lemma ends_with_semicolon_app pre t : ends_with_semicolon (pre ++ [t]) = literal_eq ";" t.
Proof. unfold ends_with_semicolon. now rewrite rev_app_distr. Qed.

Lemma AST_statement_fuel ts : AST_statement (S (length ts)) ts <> OutOfFuel.
Proof.
  intros E.
  pose proof (sound_AST (length ts) (S (length ts)) (Nat.lt_succ_diag_r _) ts (Nat.le_refl _)) as H.
  unfold AST_node, strct, bind in H. now rewrite E in H.
Qed.

Lemma AST_statement_semicolon ts :
  AST_statement (S (length (ts ++ [semicolon]))) (ts ++ [semicolon])%list
  = extend (AST_statement (S (length ts)) ts).
Proof.
  apply carries_AST_statement; [rewrite length_app; cbn; lia|apply AST_statement_fuel].
Qed.

Lemma ParseTokens_of_statement ts :
  ParseTokens ts
  = match AST_statement (S (length ts)) ts with
    | Matched a [] => Parsed a
    | Matched a [t] => if literal_eq ";" t then Parsed a else ParseError
    | Matched _ _ => ParseError
    | NoMatch => ParseError
    | Failed _ => ParseError
    | Panicked => Panic
    | OutOfFuel => NoFuel
    end.
Proof.
  unfold ParseTokens, AST_node, strct, bind.
  destruct (AST_statement (S (length ts)) ts) as [a [|t [|u r]]| | | |]; try reflexivity.
  - unfold must, optional, literal, ret. now destruct (literal_eq ";" t).
  - unfold must, optional, literal, ret. now destruct (literal_eq ";" t).
Qed.

Lemma ParseTokens_semicolon ts :
  ParseTokens (ts ++ [semicolon])
  = match AST_statement (S (length ts)) ts with
    | Matched a [] => Parsed a
    | Matched _ _ => ParseError
    | NoMatch => ParseError
    | Failed _ => ParseError
    | Panicked => Panic
    | OutOfFuel => NoFuel
    end.
Proof.
  rewrite ParseTokens_of_statement, AST_statement_semicolon.
  destruct (AST_statement (S (length ts)) ts) as [a [|t [|u r]]| | | |]; reflexivity.
Qed.

(** ** More of what the code does *)

(** X1 ([Lexer]): the tokens of a text that the lexer accepts are cut out
    of it in their order, and nothing but white space is dropped: no token
    is empty, and the text is made of the texts of the tokens, each after a
    run of white space or nothing, with white space or nothing at the
    end. *)
Theorem tokens_cover_the_text s ts :
  Lex s = Some ts ->
  Forall (fun t => Token_Value t <> "") ts
  /\ exists gaps last,
       length gaps = length ts /\ forallb blank gaps = true /\ blank last = true
       /\ s = interleave gaps ts last.
Proof.
  intros H. split.
  - exact (lex_loop_nonempty _ _ _ H).
  - exact (lex_loop_interleave _ _ _ H).
Qed.

Lemma tokens_cover_the_text_witness :
  Lex "a  >= 'b c' " = Some [mkToken Ident "a"; op ">="; mkToken String_ "'b c'"]
  /\ exists gaps last,
       length gaps = 3%nat /\ forallb blank gaps = true /\ blank last = true
       /\ "a  >= 'b c' "
          = interleave gaps [mkToken Ident "a"; op ">="; mkToken String_ "'b c'"] last.
Proof.
  split; [reflexivity|].
  exact (proj2 (tokens_cover_the_text "a  >= 'b c' "
                  [mkToken Ident "a"; op ">="; mkToken String_ "'b c'"] eq_refl)).
Defined.

(** X2 ([Lexer]): an [Ident] token is never a keyword of the lexer's list
    in any case of its letters: its text starts with a letter or an
    underscore, goes on with word characters up to the first byte that is
    none, and is no reserved word. *)
Theorem ident_token_is_no_keyword s v rest :
  Lexer s = Lexed (mkToken Ident v) rest ->
  s = (v ++ rest)%string /\ bare_ident v = true /\ head_is is_word rest = false.
Proof. apply Lexer_Ident_bare. Qed.

Lemma ident_token_is_no_keyword_witness :
  Lexer "selection, b" = Lexed (mkToken Ident "selection") ", b"
  /\ bare_ident "selection" = true.
Proof.
  split; [reflexivity|].
  exact (proj1 (proj2 (ident_token_is_no_keyword "selection, b" "selection" ", b" eq_refl))).
Defined.

(** X3 ([Lexer] and [participle.CaseInsensitive]): whatever the lexer
    gives as a [Keyword] token is accepted by the literal of a keyword of
    the list, under the folding of the two: the case-insensitive match of
    the expression and the comparison of the grammar agree. *)
Theorem keyword_token_has_its_literal s v rest :
  Lexer s = Lexed (mkToken Keyword v) rest ->
  exists kw, List.In kw keywords
             /\ forall ts, literal kw (mkToken Keyword v :: ts) = Matched v ts.
Proof.
  intros H. destruct (Lexer_Keyword_literal s v rest H) as (kw & Hin & E).
  exists kw. split; [exact Hin|]. intros ts. exact (literal_yes kw _ ts E).
Qed.

Lemma keyword_token_has_its_literal_witness :
  Lexer "Select *" = Lexed (mkToken Keyword "Select") " *"
  /\ exists kw, List.In kw keywords
                /\ forall ts, literal kw (mkToken Keyword "Select" :: ts) = Matched "Select" ts.
Proof.
  split; [reflexivity|].
  exact (keyword_token_has_its_literal "Select *" "Select" " *" eq_refl).
Defined.

(** X4 ([Lexer] and the struct tags): the words REPLACE, KEYS, ONLY, ALL,
    INCLUDE, KEY, IN and document of the grammar are not in the lexer's
    list. In any case of its letters such a word is an [Ident] token, and
    the literal of the grammar accepts it only as it is written in the
    tag. *)
Theorem words_outside_the_list_are_matched_as_written l w tail ts :
  List.In l words_compared_exactly -> ToUpper w = ToUpper l -> quiet tail = true ->
  Lexer (w ++ tail) = Lexed (mkToken Ident w) tail
  /\ literal l (mkToken Ident w :: ts) = if String.eqb w l then Matched w ts else NoMatch.
Proof.
  intros Hl E Hq. split.
  - apply Lexer_ident; [|exact Hq]. exact (word_compared_exactly_bare l w Hl E).
  - unfold literal, literal_eq. cbn. reflexivity.
Qed.

Lemma words_outside_the_list_are_matched_as_written_witness :
  Lexer "in (1)" = Lexed (mkToken Ident "in") " (1)"
  /\ literal "IN" [mkToken Ident "in"; op "("] = NoMatch.
Proof.
  exact (words_outside_the_list_are_matched_as_written "IN" "in" " (1)" [op "("]
           (or_intror (or_intror (or_intror (or_intror (or_intror (or_intror
              (or_introl eq_refl))))))) eq_refl eq_refl).
Defined.



(** X6 ([Lexer] and [participle.Unquote]): a run of ASCII bytes without
    backslash and without the quote, between two single or two double
    quotes, is a [String] token, and the grammar gets the run as it is. *)
Theorem plain_string_literal q body tail :
  (is_squote q || is_dquote q)%bool = true -> string_forall (plain_char q) body = true ->
  Lexer (quoted q body ++ tail) = Lexed (mkToken String_ (quoted q body)) tail
  /\ map_token (mkToken String_ (quoted q body)) = Some (mkToken String_ body).
Proof.
  intros Hq Hb. split; [now apply Lexer_quoted|]. unfold map_token. cbn [Token_Type].
  now apply Unquote_plain.
Qed.

Lemma plain_string_literal_witness :
  Lexer "'it is' AND" = Lexed (mkToken String_ "'it is'") " AND"
  /\ map_token (mkToken String_ "'it is'") = Some (mkToken String_ "it is").
Proof. exact (plain_string_literal "'" "it is" " AND" eq_refl eq_refl). Defined.

(** X7 ([Select.From] and [Insert.Into]): the identifiers of a dotted
    table name and the dots between them are joined into the one string of
    the field. *)
Theorem dotted_table_name a bs rest :
  literal "." rest = NoMatch -> (N.of_nat (length bs) < MaxIterations)%N ->
  table_name (mkToken Ident a :: flat_map dotted bs ++ rest)%list
  = Matched (a ++ concat_strings (map (String ".") bs))%string rest.
Proof. apply table_name_dotted. Qed.

Lemma dotted_table_name_witness :
  table_name [mkToken Ident "db"; op "."; mkToken Ident "t"; mkToken Keyword "WHERE"]
  = Matched "db.t" [mkToken Keyword "WHERE"].
Proof.
  exact (dotted_table_name "db" ["t"] [mkToken Keyword "WHERE"] eq_refl eq_refl).
Defined.

(** X8 (the [String] methods of [Value], [DocumentPath],
    [FunctionArgument], [FunctionExpression], [ProjectionColumn] and
    [ProjectionExpression]): on a node that the grammar has built none of
    them panics. A value has one of its alternatives set, a path has a
    first fragment and a projection that is not [*] has a first column,
    which is what [Scalar.String] and the two index expressions need. *)
Theorem printers_return_on_parsed_nodes FormatFloat Quote :
  (forall ts v rest, Value_node ts = Matched v rest ->
     exists t, Value_String FormatFloat Quote v = Some t)
  /\ (forall ts p rest, DocumentPath_node ts = Matched p rest ->
     exists t, DocumentPath_String p = Some t)
  /\ (forall ts a rest, FunctionArgument_node ts = Matched a rest ->
     exists t, FunctionArgument_String FormatFloat Quote a = Some t)
  /\ (forall ts f rest, FunctionExpression_node ts = Matched f rest ->
     exists t, FunctionExpression_String FormatFloat Quote f = Some t)
  /\ (forall ts c rest, ProjectionColumn_node ts = Matched c rest ->
     exists t, ProjectionColumn_String FormatFloat Quote c = Some t)
  /\ (forall ts e rest, ProjectionExpression_node ts = Matched e rest ->
     exists t, ProjectionExpression_String FormatFloat Quote e = Some t).
Proof.
  repeat split; intros ts x rest E.
  - exact (Value_String_defined _ _ _ (ensures_Value _ _ _ E)).
  - exact (DocumentPath_String_defined _ (ensures_DocumentPath _ _ _ E)).
  - exact (FunctionArgument_String_defined _ _ _ (ensures_FunctionArgument _ _ _ E)).
  - exact (FunctionExpression_String_defined _ _ _ (ensures_FunctionExpression _ _ _ E)).
  - exact (ProjectionColumn_String_defined _ _ _ (ensures_ProjectionColumn _ _ _ E)).
  - exact (ProjectionExpression_String_defined _ _ _ (ensures_ProjectionExpression _ _ _ E)).
Qed.

Lemma printers_return_on_parsed_nodes_witness :
  FunctionExpression_node
    [mkToken Ident "size"; op "("; mkToken Ident "a"; op ","; op "?"; op ")"]
  = Matched (mkFunctionExpression "size"
               [ mkFunctionArgument (Some (path [("a", [])])) None;
                 mkFunctionArgument None (Some (mkValue Scalar_zero None true)) ]) []
  /\ exists t,
       FunctionExpression_String (fun _ => "0") (fun s => s)
         (mkFunctionExpression "size"
            [ mkFunctionArgument (Some (path [("a", [])])) None;
              mkFunctionArgument None (Some (mkValue Scalar_zero None true)) ]) = Some t.
Proof.
  split; [reflexivity|].
  exact (proj1 (proj2 (proj2 (proj2 (printers_return_on_parsed_nodes (fun _ => "0") (fun s => s)))))
           [mkToken Ident "size"; op "("; mkToken Ident "a"; op ","; op "?"; op ")"]
           _ [] eq_refl).
Defined.

(** X9 ([JSONObject.String], [JSONArray.String] and [Scalar.String]): the
    printers of JSON print scalars only. An entry is printed by the [String]
    of the [Scalar] embedded in its [JSONValue], so on an object or an
    array that the grammar has built they return when every value is a
    scalar, and panic when one is an object or an array itself. *)
Theorem JSON_String_panics_on_nested_values FormatFloat Quote fuel ts rest :
  (forall o, JSONObject_node fuel ts = Matched o rest ->
     if forallb entry_is_scalar (JSONObject_Entries o)
     then exists t, JSONObject_String FormatFloat Quote o = Some t
     else JSONObject_String FormatFloat Quote o = None)
  /\ (forall a, JSONArray_node fuel ts = Matched a rest ->
     if forallb JSONValue_is_scalar (JSONArray_Entries a)
     then exists t, JSONArray_String FormatFloat Quote a = Some t
     else JSONArray_String FormatFloat Quote a = None).
Proof.
  split.
  - intros o E. apply JSONObject_String_shape.
    exact (ensures_JSONObject_over _ (ensures_JSONValue fuel) _ _ _ E).
  - intros a E. apply JSONArray_String_shape.
    exact (ensures_JSONArray_over _ (ensures_JSONValue fuel) _ _ _ E).
Qed.

Lemma JSON_String_panics_on_nested_values_witness :
  JSONObject_node 2 [op "{"; mkToken Ident "a"; op ":"; op "["; op "]"; op "}"]
  = Matched (mkJSONObject [entry "a" (json_array [])]) []
  /\ JSONObject_String (fun _ => "0") (fun s => s) (mkJSONObject [entry "a" (json_array [])])
     = None.
Proof.
  split; [reflexivity|].
  exact (proj1 (JSON_String_panics_on_nested_values (fun _ => "0") (fun s => s) 2
                  [op "{"; mkToken Ident "a"; op ":"; op "["; op "]"; op "}"] [])
           (mkJSONObject [entry "a" (json_array [])]) eq_refl).
Defined.



(** X11 ([AST] and the statements): a tree that [Parse] returns without
    an error holds exactly one statement. Its SELECT has a projection,
    which is [*] without columns or at least one column, each a function
    call with arguments or a path with a fragment; its INSERT or REPLACE
    has at least one row, each a value or an object; its CREATE TABLE has
    at least one entry, each of exactly one kind. *)
Theorem parsed_statement_shape s a : Parse s = Parsed a -> AST_shape a.
Proof.
  unfold Parse, ParseTokens. destruct (Tokens s) as [ts|]; [|discriminate].
  destruct (AST_node _ ts) as [a' [|t r]| | | |] eqn:E; try discriminate.
  intros [= <-]. exact (ensures_AST _ _ _ _ E).
Qed.

Lemma parsed_statement_shape_witness :
  AST_shape (select_from [column (path [("a", [])])] "t").
Proof.
  apply (parsed_statement_shape "SELECT a FROM t"). vm_compute. reflexivity.
Defined.

(** X12 ([Boolean.Capture] and [ScanDescending.Capture]): the value that
    is captured follows the keyword in whatever case it is written: a
    token that the literal TRUE accepts is captured as true and one that
    FALSE accepts as false, DESC as descending and ASC as not, and the
    [Value] of a keyword token holds that boolean. *)
Theorem captures_follow_the_keyword t :
  (literal_eq "TRUE" t = true -> Boolean_Capture (Token_Value t) = true)
  /\ (literal_eq "FALSE" t = true -> Boolean_Capture (Token_Value t) = false)
  /\ (literal_eq "DESC" t = true -> ScanDescending_Capture (Token_Value t) = true)
  /\ (literal_eq "ASC" t = true -> ScanDescending_Capture (Token_Value t) = false)
  /\ (Token_Type t = Keyword ->
      forall (b : bool) rest, literal_eq (if b then "TRUE" else "FALSE") t = true ->
        Value_node (t :: rest)
        = Matched (mkValue (mkScalar None None (Some b) false) None false) rest).
Proof.
  assert (H1 : literal_eq "TRUE" t = true -> Boolean_Capture (Token_Value t) = true).
  { intros H. unfold Boolean_Capture. now rewrite (literal_eq_upper "TRUE" t eq_refl eq_refl H). }
  assert (H2 : literal_eq "FALSE" t = true -> Boolean_Capture (Token_Value t) = false).
  { intros H. unfold Boolean_Capture. now rewrite (literal_eq_upper "FALSE" t eq_refl eq_refl H). }
  split; [exact H1|]. split; [exact H2|]. split; [|split].
  - intros H. unfold ScanDescending_Capture.
    now rewrite (literal_eq_upper "DESC" t eq_refl eq_refl H).
  - intros H. unfold ScanDescending_Capture.
    now rewrite (literal_eq_upper "ASC" t eq_refl eq_refl H).
  - intros Ht b rest H. unfold Value_node.
    apply strct_Matched
      with (a := Capture_Scalar (Capture_Boolean (Token_Value t))).
    + unfold disjunction, Value_alternatives, Scalar_alternatives. cbn [map app].
      rewrite disjunction_skip
        by (apply fmap_NoMatch, fmap_NoMatch, reference_no; rewrite Ht; discriminate).
      rewrite disjunction_skip
        by (apply fmap_NoMatch, fmap_NoMatch, reference_no; rewrite Ht; discriminate).
      apply disjunction_take. apply fmap_Matched, fmap_Matched.
      unfold disjunction. destruct b.
      * apply disjunction_take. now apply literal_yes.
      * rewrite disjunction_skip by now apply literal_no with "FALSE".
        apply disjunction_take. now apply literal_yes.
    + cbn [Value_set Scalar_set]. destruct b; [now rewrite H1|now rewrite H2].
Qed.

Lemma captures_follow_the_keyword_witness :
  ScanDescending_Capture "desc" = true
  /\ Value_node [mkToken Keyword "False"; op ")"]
     = Matched (mkValue (mkScalar None None (Some false) false) None false) [op ")"].
Proof.
  split.
  - exact (proj1 (proj2 (proj2 (captures_follow_the_keyword (mkToken Keyword "desc"))))
             eq_refl).
  - exact (proj2 (proj2 (proj2 (proj2 (captures_follow_the_keyword (mkToken Keyword "False")))))
             eq_refl false [op ")"] eq_refl).
Defined.

(** X13 (the fields of type [int] and [int64]: [PathFragment.Indexes],
    [Select.Limit] and the capacity units): a [Number] token of the lexer
    is made of digits, signs, dots and the letter e, and its text is
    accepted for such a field only when it is an optional sign and digits,
    of a value within 64 bits; after a leading zero the digits are read in
    base 8; and a fragment with an index that is not accepted fails after
    its last bracket. *)
Theorem integer_captures s lx tail :
  Lexer s = Lexed (mkToken Number lx) tail ->
  string_forall number_char lx = true
  /\ (forall i, ParseInt lx = Some i ->
        in_int64 i
        /\ exists sg d, lx = (sg ++ d)%string /\ (sg = "" \/ sg = "+" \/ sg = "-")
                        /\ nonempty d = true /\ string_forall is_digit d = true)
  /\ (forall d i, lx = String "0" d -> ParseInt lx = Some i ->
        string_forall (fun c => (digit_val c <? 8)%Z) d = true)
  /\ (ParseInt lx = None ->
      forall sym rest, no_index rest ->
        PathFragment_node (mkToken Ident sym :: op "[" :: mkToken Number lx :: op "]" :: rest)
        = Failed rest).
Proof.
  intros HL. split; [exact (Lexer_Number_chars s lx tail HL)|].
  split; [intros i; apply ParseInt_digits|]. split.
  - intros d i -> H. unfold ParseInt, ParseUint0 in H. cbn [Ascii.eqb Bool.eqb orb] in H.
    destruct (digits_value 8 0 d) as [n|] eqn:E; [|discriminate].
    exact (digits_value_below 8 d 0%Z n E).
  - intros H sym rest Hr. now apply PathFragment_node_bad_index.
Qed.

Lemma integer_captures_witness :
  ParseInt "010" = Some 8%Z
  /\ in_int64 8
  /\ PathFragment_node [mkToken Ident "a"; op "["; mkToken Number "1.5"; op "]"] = Failed [].
Proof.
  split; [reflexivity|]. split.
  - exact (proj1 (proj1 (proj2 (integer_captures "010]" "010" "]" eq_refl)) 8%Z eq_refl)).
  - exact (proj2 (proj2 (proj2 (integer_captures "1.5]" "1.5" "]" eq_refl))) eq_refl "a" []
             eq_refl).
Defined.

(** X14 ([ProjectionExpression.String], [ProjectionColumn.String] and
    [DocumentPath.String]): a projection that lists document paths of
    unquoted identifiers that are no reserved words, with indexes that are
    [int] values, is printed as the paths with a comma and a space between
    them, and that text is lexed and parsed back to the same projection. *)
Theorem projection_of_paths_round_trip FormatFloat Quote ps :
  plain_paths ps ->
  exists s,
    ProjectionExpression_String FormatFloat Quote (paths_projection ps) = Some s
    /\ s = Join (map path_string ps) ", "
    /\ reparse ProjectionExpression_node s = Some (paths_projection ps).
Proof.
  intros H. exists (Join (map path_string ps) ", ").
  split; [now apply ProjectionExpression_String_paths|]. split; [reflexivity|].
  unfold reparse, Tokens. destruct H as (Hne & Hn & Hall).
  destruct ps as [|p ps]; [congruence|].
  rewrite (Lex_paths p ps Hall), (map_tokens_plain _ (projection_tokens_plain (p :: ps))).
  now rewrite (ProjectionExpression_node_paths (p :: ps)).
Qed.

Lemma projection_of_paths_round_trip_witness :
  exists s,
    ProjectionExpression_String (fun _ => "0") (fun s => s)
      (paths_projection [path [("a", [])]; path [("b", [1]%Z); ("c", [])]]) = Some s
    /\ s = Join (map path_string [path [("a", [])]; path [("b", [1]%Z); ("c", [])]]) ", "
    /\ reparse ProjectionExpression_node s
       = Some (paths_projection [path [("a", [])]; path [("b", [1]%Z); ("c", [])]]).
Proof.
  apply projection_of_paths_round_trip.
  split; [discriminate|]. split; [vm_compute; discriminate|].
  constructor; [|constructor; [|constructor]].
  - split; [discriminate|]. split; [vm_compute; discriminate|].
    constructor; [|constructor].
    split; [reflexivity|]. split; [reflexivity|constructor].
  - split; [discriminate|]. split; [vm_compute; discriminate|].
    constructor; [|constructor; [|constructor]].
    + split; [reflexivity|]. split; [reflexivity|].
      constructor; [apply in_int64_dec; reflexivity|constructor].
    + split; [reflexivity|]. split; [reflexivity|constructor].
Defined.

(** X15 (the [Lexer] of the second parser): its keywords stand between
    no word boundaries, so a text that begins with one of them in any case
    begins with a [Keyword] token whatever follows, and no [Ident] token
    begins with a keyword: a name like FROMAGE is cut in two, where the
    lexer of the first parser gives one identifier. *)
Theorem Select_Lexer_cuts_keywords_out_of_words :
  (forall kw s r,
     List.In kw Select_keywords -> fold_prefix kw true s = Some r ->
     exists v rest, Select_Lexer s = Lexed (mkToken Keyword v) rest)
  /\ (forall s v rest kw,
        Select_Lexer s = Lexed (mkToken Ident v) rest -> List.In kw Select_keywords ->
        fold_prefix kw true v = None)
  /\ Select_Lexer "fromage" = Lexed (mkToken Keyword "from") "age"
  /\ Lexer "fromage" = Lexed (mkToken Ident "fromage") "".
Proof.
  split; [exact Select_Lexer_keyword|]. split; [exact Select_Lexer_Ident_no_keyword|].
  split; reflexivity.
Qed.

Lemma Select_Lexer_cuts_keywords_out_of_words_witness :
  (exists v rest, Select_Lexer "orders" = Lexed (mkToken Keyword v) rest)
  /\ fold_prefix "SELECT" true "x" = None.
Proof.
  split.
  - exact (proj1 Select_Lexer_cuts_keywords_out_of_words "ORDER" "orders" (true, "order", "s")
             (or_intror (or_intror (or_intror (or_intror (or_intror (or_intror
                (or_introl eq_refl))))))) eq_refl).
  - exact (proj1 (proj2 Select_Lexer_cuts_keywords_out_of_words) "x = 1" "x" " = 1" "SELECT"
             eq_refl (or_introl eq_refl)).
Defined.

(** X16 ([Parse] and the repetitions of the grammar): on a text of fewer
    tokens than [participle.MaxIterations] no repetition of the grammar
    reaches that limit, which is a panic: every round of a repetition reads
    at least one token. The fuel of the model is not used up either. *)
Theorem Parse_stays_below_the_iteration_limit s ts :
  Tokens s = Some ts -> (N.of_nat (length ts) < MaxIterations)%N ->
  Parse s <> Panic /\ Parse s <> NoFuel.
Proof.
  intros Hs Hn. split; [|apply Parse_fuel].
  unfold Parse. rewrite Hs. now apply ParseTokens_calm.
Qed.

Lemma Parse_stays_below_the_iteration_limit_witness :
  Parse "SELECT a, b FROM t WHERE a = 1 AND b = 2" <> Panic
  /\ Parse "SELECT a, b FROM t WHERE a = 1 AND b = 2" <> NoFuel.
Proof.
  apply (Parse_stays_below_the_iteration_limit "SELECT a, b FROM t WHERE a = 1 AND b = 2"
           [ mkToken Keyword "SELECT"; mkToken Ident "a"; op ","; mkToken Ident "b";
             mkToken Keyword "FROM"; mkToken Ident "t"; mkToken Keyword "WHERE";
             mkToken Ident "a"; op "="; mkToken Number "1"; mkToken Keyword "AND";
             mkToken Ident "b"; op "="; mkToken Number "2" ]); reflexivity.
Defined.

(** X17 ([AST], the [";"?] at its end): the semicolon is a token of its
    own, and it is optional and changes nothing. When the tokens with a
    semicolon after them are parsed, the tokens without it are parsed to
    the same tree; and when the tokens do not end with a semicolon and are
    parsed, so are they with one after them, to the same tree. *)
Theorem semicolon_after_the_statement ts a :
  (forall s, Lexer (String ";" s) = Lexed semicolon s)
  /\ (ParseTokens (ts ++ [semicolon]) = Parsed a -> ParseTokens ts = Parsed a)
  /\ (ParseTokens ts = Parsed a -> ends_with_semicolon ts = false ->
      ParseTokens (ts ++ [semicolon]) = Parsed a).
Proof.
  split; [intros s; now destruct s|].
  rewrite ParseTokens_semicolon, ParseTokens_of_statement.
  destruct (AST_statement (S (length ts)) ts) as [a' [|t [|u r]]| | | |] eqn:E;
    try (split; [discriminate|intros H; discriminate H]).
  - split; intros H; [exact H|intros _; exact H].
  - split; [discriminate|]. intros H He.
    destruct (suffix_AST_statement _ _ _ _ E) as (pre & ->).
    rewrite ends_with_semicolon_app in He. rewrite He in H. discriminate.
Qed.

Lemma semicolon_after_the_statement_witness :
  ParseTokens [mkToken Keyword "SELECT"; op "*"; mkToken Keyword "FROM"; mkToken Ident "t"]
  = Parsed (mkAST (Some (mkSelect (Some (mkProjectionExpression true [])) "t"
                           None None None None)) None None None)
  /\ ParseTokens [ mkToken Keyword "SELECT"; op "*"; mkToken Keyword "FROM"; mkToken Ident "t";
                   semicolon ]
     = Parsed (mkAST (Some (mkSelect (Some (mkProjectionExpression true [])) "t"
                              None None None None)) None None None).
Proof.
  split; [reflexivity|].
  exact (proj2 (proj2 (semicolon_after_the_statement
                         [ mkToken Keyword "SELECT"; op "*"; mkToken Keyword "FROM";
                           mkToken Ident "t" ] _)) eq_refl eq_refl).
Defined.

(** X18 ([DocumentPath.String] and [PathFragment.String]): two document
    paths of unquoted identifiers that are no reserved words, with indexes
    that are [int] values, are printed alike only when they are the same
    path. *)
Theorem DocumentPath_String_is_injective p q :
  plain_path p -> plain_path q -> DocumentPath_String p = DocumentPath_String q -> p = q.
Proof.
  intros Hp Hq E. destruct (DocumentPath_String p) as [s|] eqn:Ep.
  - pose proof (Tokens_path p s Hp Ep) as Tp.
    pose proof (Tokens_path q s Hq (eq_sym E)) as Tq.
    rewrite Tp in Tq. injection Tq as T.
    pose proof (DocumentPath_node_tokens p Hp) as Np.
    rewrite T, (DocumentPath_node_tokens q Hq) in Np. now injection Np.
  - exfalso. destruct Hp as (Hne & _). unfold DocumentPath_String in Ep.
    now destruct (DocumentPath_Fragment p).
Qed.

Lemma DocumentPath_String_is_injective_witness :
  path [("a", [1]%Z)] = path [("a", [1]%Z)].
Proof.
  assert (H : plain_path (path [("a", [1]%Z)])).
  { split; [discriminate|]. split; [vm_compute; discriminate|].
    constructor; [|constructor].
    split; [reflexivity|]. split; [reflexivity|].
    constructor; [apply in_int64_dec; reflexivity|constructor]. }
  exact (DocumentPath_String_is_injective _ _ H H eq_refl).
Defined.

(** X19 ([Value.String] and [Scalar.String]): a named placeholder, the
    positional placeholder, a boolean and NULL are printed as a text that
    is lexed and parsed back to the same value: the placeholder with its
    colon, the boolean in lower case, which the grammar reads in any
    case. *)
Theorem Value_String_round_trip FormatFloat Quote :
  (forall name, bare_ident name = true ->
     Value_String FormatFloat Quote (placeholder (":" ++ name)) = Some (":" ++ name)%string
     /\ reparse Value_node (":" ++ name) = Some (placeholder (":" ++ name)))
  /\ (Value_String FormatFloat Quote positional = Some "?"
      /\ reparse Value_node "?" = Some positional)
  /\ (forall b, Value_String FormatFloat Quote (boolean b) = Some (FormatBool b)
                /\ reparse Value_node (FormatBool b) = Some (boolean b))
  /\ (Value_String FormatFloat Quote null = Some "NULL"
      /\ reparse Value_node "NULL" = Some null).
Proof.
  split; [|split; [|split]].
  - intros name Hb. split; [reflexivity|]. unfold reparse, Tokens.
    change (":" ++ name)%string with (String ":" name).
    assert (L : Lexer (String ":" name) = Lexed (op ":") name) by now destruct name.
    rewrite (Lex_token _ _ _ L).
    assert (N : Lex name = Some [mkToken Ident name]).
    { rewrite <- (append_nil_r name) at 1.
      now rewrite (Lex_token _ _ _ (Lexer_ident name "" Hb eq_refl)). }
    rewrite N. reflexivity.
  - split; reflexivity.
  - intros [|]; split; reflexivity.
  - split; reflexivity.
Qed.

Lemma Value_String_round_trip_witness :
  reparse Value_node ":pk" = Some (placeholder ":pk").
Proof.
  exact (proj2 (proj1 (Value_String_round_trip (fun _ => "0") (fun s => s)) "pk" eq_refl)).
Defined.

(** ** The model at work on sample statements *)

Example lex_select :
  Lex "select a.b[-1], `x y` from T1 where a>=1.5e3 and b<>'q';"
  = Some [ mkToken Keyword "select"; mkToken Ident "a"; mkToken Operators ".";
           mkToken Ident "b"; mkToken Operators "["; mkToken Number "-1";
           mkToken Operators "]"; mkToken Operators ",";
           mkToken QuotedIdent "`x y`"; mkToken Keyword "from";
           mkToken Ident "T1"; mkToken Keyword "where"; mkToken Ident "a";
           mkToken Operators ">="; mkToken Number "1.5e3"; mkToken Keyword "and";
           mkToken Ident "b"; mkToken Operators "<>"; mkToken String_ "'q'";
           mkToken Unnamed ";" ].
Proof. reflexivity. Qed.

Example lex_number_backoff :
  Lex "1. +x 2e 3e+" =
  Some [ mkToken Number "1"; mkToken Operators "."; mkToken Operators "+";
         mkToken Ident "x"; mkToken Number "2"; mkToken Ident "e";
         mkToken Number "3"; mkToken Ident "e"; mkToken Operators "+" ].
Proof. reflexivity. Qed.

Example lex_invalid : Lex "a ! b" = None.
Proof. reflexivity. Qed.

Example ParseInt_examples :
  map ParseInt ["-1"; "+2"; "010"; "0"; "08"; "1.5"; "1e3";
                "9223372036854775807"; "9223372036854775808";
                "-9223372036854775808"]
  = [Some (-1); Some 2; Some 8; Some 0; None; None; None;
     Some 9223372036854775807; None; Some (-9223372036854775808)]%Z.
Proof. reflexivity. Qed.

Example ParseFloat_examples :
  map ParseFloat ["1"; "1.0"; "-.5"; "1e2"; "0.1"; "9007199254740993"; "1e400"; "1e-400"]
  = [ Some (S754_finite false 4503599627370496 (-52));
      Some (S754_finite false 4503599627370496 (-52));
      Some (S754_finite true 4503599627370496 (-53));
      Some (S754_finite false 7036874417766400 (-46));
      Some (S754_finite false 7205759403792794 (-56));
      Some (S754_finite false 4503599627370496 1);
      None;
      Some (S754_zero false) ].
Proof. vm_compute. reflexivity. Qed.

Example map_tokens_example :
  option_map (map Token_Value)
    (match Lex "`a b` 'it' 'tab\tx' 'q\x41é'" with
     | Some ts => map_tokens ts | None => None end)
  = Some ["a b"; "it"; String (chr 116) (String (chr 97) (String (chr 98)
            (String (chr 9) "x")));
          String (chr 113) (String (chr 65) (String (chr 195) (String (chr 169) "")))].
Proof. reflexivity. Qed.

Example Unquote_bad_escape :
  map Unquote [mkToken String_ "'a\qb'"; mkToken String_ "'a\'"] = [None; None].
Proof. reflexivity. Qed.

Example Parse_select :
  Parse "SELECT a.b[1], size(c) FROM t.u USE INDEX (i) WHERE a = 1 AND NOT (b < :x OR c IN (?, 'z')) DESC LIMIT 010;"
  = Parsed (mkAST (Some (mkSelect
      (Some (mkProjectionExpression false
         [ mkProjectionColumn None (Some (path [("a", []); ("b", [1%Z])]));
           mkProjectionColumn
             (Some (mkFunctionExpression "size"
                      [mkFunctionArgument (Some (path [("c", [])])) None])) None ]))
      "t.u" (Some "i")
      (Some (mkAndExpression
         [ mkCondition None None
             (Some (mkConditionOperand (Some (path [("a", [])]))
                (Some (mkConditionRHS
                   (Some (mkCompare "="
                      (Some (mkOperand
                         (Some (number (S754_finite false 4503599627370496 (-52)))) None))))
                   None None)))) None;
           mkCondition None
             (Some (mkNotCondition (Some (mkCondition
                (Some (mkParenthesizedExpression (Some (mkConditionExpression
                   [ mkAndExpression
                       [ mkCondition None None
                           (Some (mkConditionOperand (Some (path [("b", [])]))
                              (Some (mkConditionRHS
                                 (Some (mkCompare "<"
                                    (Some (mkOperand
                                       (Some (mkValue Scalar_zero (Some ":x") false)) None))))
                                 None None)))) None ];
                     mkAndExpression
                       [ mkCondition None None
                           (Some (mkConditionOperand (Some (path [("c", [])]))
                              (Some (mkConditionRHS None None
                                 (Some (mkIn
                                    [ mkValue Scalar_zero None true;
                                      mkValue (mkScalar None (Some "z") None false)
                                        None false ]))))))
                           None ] ]))))
                None None None))))
             None None ]))
      (Some true) (Some 8%Z))) None None None).
Proof. vm_compute. reflexivity. Qed.

Example DocumentPath_String_example :
  DocumentPath_String (path [("a", []); ("b", [1; -2]%Z); ("c", [0%Z])]) = Some "a.b[1][-2].c[0]".
Proof. reflexivity. Qed.

(** REPLACE is a literal of the grammar and no word of the lexer's list: it
    is an identifier, compared as written. *)
Example replace_as_written :
  Lexer "REPLACE INTO t" = Lexed (mkToken Ident "REPLACE") " INTO t"
  /\ Parse "REPLACE INTO t VALUES (1)"
     = Parsed (mkAST None None (Some (mkInsert "t" [row (number one)] None)) None)
  /\ Parse "replace into t values (1)" = ParseError.
Proof. split; [reflexivity|]. split; vm_compute; reflexivity. Qed.
